(** * Confluence to VuePress migrator: the markup transpiler

    A shallow embedding of the string pipeline of [src/migrator.js]
    ([slugify], [sanitizeFilename], [preprocessConfluenceHtml], the
    escaping stage of [convertToMarkdown] and the placeholder rewriting of
    [fixConfluenceLinks]), together with the part of the JavaScript runtime
    the pipeline is written against: strings of UTF-16 code units,
    backtracking regular expressions, [String.prototype.replace] and its
    [$]-patterns. *)

From Stdlib Require Import Ascii String.
From Stdlib Require Import NArith List Bool Arith Lia.
Import ListNotations.

#[local] Abbreviation length := Datatypes.length (only parsing).
#[local] Abbreviation concat := List.concat (only parsing).

Local Open Scope N_scope.

(** ** JavaScript strings *)

(** A JavaScript string is a sequence of 16-bit code units. *)
Abbreviation char := N (only parsing).
Abbreviation str := (list N) (only parsing).

Definition dquote : char := 34.
Definition tab : char := 9.
Definition newline : char := 10.

(** Literals: the text of a Rocq string, code unit by code unit.  The double
    quote is written [~] in the literals of this file (no literal of the
    program contains a tilde). *)
Definition js_char (a : Ascii.ascii) : char :=
  let c := Ascii.N_of_ascii a in if c =? 126 then dquote else c.

Fixpoint js (s : String.string) : str :=
  match s with
  | String.EmptyString => []
  | String.String a s' => js_char a :: js s'
  end.

Arguments js s%_string.

Fixpoint str_eqb (a b : str) : bool :=
  match a, b with
  | [], [] => true
  | x :: a', y :: b' => (x =? y) && str_eqb a' b'
  | _, _ => false
  end.

Definition is_upper (c : char) : bool := (65 <=? c) && (c <=? 90).
Definition is_lower (c : char) : bool := (97 <=? c) && (c <=? 122).
Definition is_digit (c : char) : bool := (48 <=? c) && (c <=? 57).
Definition is_ascii (c : char) : bool := c <? 128.

Definition lower_char (c : char) : char := if is_upper c then c + 32 else c.
Definition upper_char (c : char) : char := if is_lower c then c - 32 else c.

(** WhiteSpace and LineTerminator code units, the members of [\s]. *)
Definition is_space (c : char) : bool :=
  ((9 <=? c) && (c <=? 13)) || (c =? 32) || (c =? 160) || (c =? 5760)
  || ((8192 <=? c) && (c <=? 8202)) || (c =? 8232) || (c =? 8233)
  || (c =? 8239) || (c =? 8287) || (c =? 12288) || (c =? 65279).

(** ** Regular expressions *)

Inductive citem : Type :=
| CChar (c : char)
| CRange (lo hi : char)
| CSpace
| CNonSpace.

Inductive regex : Type :=
| REmpty
| RSet (neg : bool) (items : list citem)
| RSeq (r1 r2 : regex)
| RAlt (r1 r2 : regex)
| RStar (greedy : bool) (r : regex)
| RGroup (n : nat) (r : regex)
| RNegLook (r : regex)
| RBol
| REol.

(** [r+] and [r?] (no capture group of the program sits under a
    quantifier, so these expansions have the semantics of the originals). *)
Definition RPlus (greedy : bool) (r : regex) : regex := RSeq r (RStar greedy r).
Definition ROpt (greedy : bool) (r : regex) : regex :=
  if greedy then RAlt r REmpty else RAlt REmpty r.

Definition citem_mem (it : citem) (c : char) : bool :=
  match it with
  | CChar x => c =? x
  | CRange lo hi => (lo <=? c) && (c <=? hi)
  | CSpace => is_space c
  | CNonSpace => negb (is_space c)
  end.

Definition items_mem (items : list citem) (c : char) : bool :=
  existsb (fun it => citem_mem it c) items.

(** The other-case form of an ASCII letter.  Under the [i] flag a code unit
    matches a set when some member has the same canonical (upper-case) form;
    every set of the program holds ASCII characters, [\s] or [\S] only, and
    for those no code unit above 127 shares its canonical form with a
    different member, so only ASCII letters are folded. *)
Definition swap_case (c : char) : char :=
  if is_upper c then c + 32 else if is_lower c then c - 32 else c.

Definition set_match (icase neg : bool) (items : list citem) (c : char) : bool :=
  xorb neg (items_mem items c || (icase && items_mem items (swap_case c))).

(** Matcher state: the input still ahead, the number of code units consumed
    since the start of the match, and the captures made so far. *)
Record mstate : Type := MState {
  ms_rest : str;
  ms_len : nat;
  ms_caps : list (nat * str)
}.

Definition cont := mstate -> option mstate.

(** Ordered choice: the second alternative is tried only when the first
    fails. *)
Notation "a <|> b" := (match a with Some x => Some x | None => b end)
  (at level 60, right associativity).

Definition set_cap (i : nat) (s : str) (st : mstate) : mstate :=
  MState (ms_rest st) (ms_len st) ((i, s) :: ms_caps st).

(** The repeat matcher: an iteration that consumes nothing is rejected, so
    at most [length rest] iterations can follow one another. *)
Fixpoint star_loop (greedy : bool) (body : cont -> cont) (k : cont)
    (n : nat) (st : mstate) : option mstate :=
  match n with
  | O => k st
  | S n' =>
      let again (st' : mstate) :=
        if (ms_len st <? ms_len st')%nat
        then star_loop greedy body k n' st' else None in
      if greedy then body again st <|> k st else k st <|> body again st
  end.

(** The backtracking matcher in continuation-passing style. [bol] tells
    whether the match starts at index 0 of the input ([^] has no [m] flag
    anywhere in the program). *)
Fixpoint rmatch (icase bol : bool) (r : regex) (k : cont) (st : mstate)
    {struct r} : option mstate :=
  match r with
  | REmpty => k st
  | RSet neg items =>
      match ms_rest st with
      | c :: rest' =>
          if set_match icase neg items c
          then k (MState rest' (S (ms_len st)) (ms_caps st))
          else None
      | [] => None
      end
  | RSeq r1 r2 => rmatch icase bol r1 (rmatch icase bol r2 k) st
  | RAlt r1 r2 => rmatch icase bol r1 k st <|> rmatch icase bol r2 k st
  | RStar greedy r' =>
      star_loop greedy (rmatch icase bol r') k (length (ms_rest st)) st
  | RGroup i r' =>
      rmatch icase bol r'
        (fun st' => k (set_cap i (firstn (ms_len st' - ms_len st) (ms_rest st)) st'))
        st
  | RNegLook r' =>
      match rmatch icase bol r' Some st with
      | Some _ => None
      | None => k st
      end
  | RBol => if bol && (ms_len st =? 0)%nat then k st else None
  | REol => match ms_rest st with [] => k st | _ :: _ => None end
  end.

(** ** Regular expression literals

    The regular expressions of the program are kept as their source text and
    read by this parser, which covers the syntax the program uses: literal
    and escaped characters, [\s \S \d \t \n], character classes with ranges
    and negation, capturing and non-capturing groups, negative lookahead,
    alternation, the anchors and the quantifiers [* + ?] with their lazy
    forms. *)

Definition pres : Type := option (regex * str * nat).

Definition escape_item (c : char) : citem :=
  if c =? 115 then CSpace                      (* \s *)
  else if c =? 83 then CNonSpace               (* \S *)
  else if c =? 100 then CRange 48 57           (* \d *)
  else if c =? 116 then CChar tab              (* \t *)
  else if c =? 110 then CChar newline          (* \n *)
  else CChar c.

Fixpoint parse_items (fuel : nat) (s : str) (acc : list citem)
    : option (list citem * str) :=
  match fuel with
  | O => None
  | S f =>
      match s with
      | [] => None
      | c :: s1 =>
          if c =? 93 then Some (rev acc, s1)                       (* ] *)
          else if c =? 92 then                                     (* \ *)
            match s1 with
            | e :: s2 => parse_items f s2 (escape_item e :: acc)
            | [] => None
            end
          else
            match s1 with
            | d :: hi :: s2 =>
                if (d =? 45) && negb (hi =? 93)                    (* lo-hi *)
                then parse_items f s2 (CRange c hi :: acc)
                else parse_items f s1 (CChar c :: acc)
            | _ => parse_items f s1 (CChar c :: acc)
            end
      end
  end.

Definition parse_class (s : str) : option (regex * str) :=
  let (neg, s1) :=
    match s with
    | c :: s' => if c =? 94 then (true, s') else (false, s)        (* ^ *)
    | [] => (false, s)
    end in
  match parse_items (S (length s1)) s1 [] with
  | Some (items, s2) => Some (RSet neg items, s2)
  | None => None
  end.

Definition parse_quant (r : regex) (s : str) : regex * str :=
  match s with
  | q :: s1 =>
      let lazy := match s1 with l :: _ => l =? 63 | [] => false end in
      let s2 := if lazy then tl s1 else s1 in
      if q =? 42 then (RStar (negb lazy) r, s2)                    (* * *)
      else if q =? 43 then (RPlus (negb lazy) r, s2)               (* + *)
      else if q =? 63 then (ROpt (negb lazy) r, s2)                (* ? *)
      else (r, s)
  | [] => (r, s)
  end.

Definition quantified (r : regex) (s : str) (ng : nat) : pres :=
  let (r', s') := parse_quant r s in Some (r', s', ng).

Definition close_paren (s : str) : option str :=
  match s with
  | c :: s' => if c =? 41 then Some s' else None
  | [] => None
  end.

Fixpoint parse_disj (fuel : nat) (s : str) (ng : nat) {struct fuel} : pres :=
  match fuel with
  | O => None
  | S f =>
      match parse_seq f s ng with
      | Some (r1, s1, ng1) =>
          match s1 with
          | c :: s2 =>
              if c =? 124 then                                     (* | *)
                match parse_disj f s2 ng1 with
                | Some (r2, s3, ng2) => Some (RAlt r1 r2, s3, ng2)
                | None => None
                end
              else Some (r1, s1, ng1)
          | [] => Some (r1, s1, ng1)
          end
      | None => None
      end
  end

with parse_seq (fuel : nat) (s : str) (ng : nat) {struct fuel} : pres :=
  match fuel with
  | O => None
  | S f =>
      match s with
      | [] => Some (REmpty, s, ng)
      | c :: _ =>
          if (c =? 41) || (c =? 124) then Some (REmpty, s, ng)
          else
            match parse_term f s ng with
            | Some (t, s1, ng1) =>
                match parse_seq f s1 ng1 with
                | Some (r, s2, ng2) => Some (RSeq t r, s2, ng2)
                | None => None
                end
            | None => None
            end
      end
  end

with parse_term (fuel : nat) (s : str) (ng : nat) {struct fuel} : pres :=
  match fuel with
  | O => None
  | S f =>
      match s with
      | [] => None
      | c :: s1 =>
          if c =? 40 then                                          (* ( *)
            match s1 with
            | q :: k :: s2 =>
                if (q =? 63) && (k =? 58) then                     (* (?: *)
                  match parse_disj f s2 ng with
                  | Some (r, s3, ng1) =>
                      match close_paren s3 with
                      | Some s4 => quantified r s4 ng1
                      | None => None
                      end
                  | None => None
                  end
                else if (q =? 63) && (k =? 33) then                (* (?! *)
                  match parse_disj f s2 ng with
                  | Some (r, s3, ng1) =>
                      match close_paren s3 with
                      | Some s4 => Some (RNegLook r, s4, ng1)
                      | None => None
                      end
                  | None => None
                  end
                else
                  match parse_disj f s1 (S ng) with
                  | Some (r, s3, ng1) =>
                      match close_paren s3 with
                      | Some s4 => quantified (RGroup ng r) s4 ng1
                      | None => None
                      end
                  | None => None
                  end
            | _ => None
            end
          else if c =? 91 then                                     (* [ *)
            match parse_class s1 with
            | Some (r, s2) => quantified r s2 ng
            | None => None
            end
          else if c =? 92 then                                     (* \ *)
            match s1 with
            | e :: s2 => quantified (RSet false [escape_item e]) s2 ng
            | [] => None
            end
          else if c =? 94 then Some (RBol, s1, ng)                 (* ^ *)
          else if c =? 36 then Some (REol, s1, ng)                 (* $ *)
          else quantified (RSet false [CChar c]) s1 ng
      end
  end.

(** A compiled regular expression: the expression, its number of capture
    groups and the [i] flag.  The [g] flag is the choice of [replace_all] or
    [match_all] below. *)
Record regexp : Type := Regexp {
  re_ast : regex;
  re_groups : nat;
  re_icase : bool
}.

Definition re_never : regex := RSet false [].

Definition regexp_of (icase : bool) (src : str) : regexp :=
  match parse_disj (3 * S (length src)) src 1 with
  | Some (r, [], ng) => Regexp r (ng - 1) icase
  | _ => Regexp re_never 0 icase
  end.

Definition re (src : String.string) : regexp := regexp_of false (js src).
Definition re_i (src : String.string) : regexp := regexp_of true (js src).

Arguments re src%_string.
Arguments re_i src%_string.

(** ** Searching and replacing *)

Fixpoint cap_lookup (i : nat) (caps : list (nat * str)) : option str :=
  match caps with
  | [] => None
  | (j, s) :: caps' => if (i =? j)%nat then Some s else cap_lookup i caps'
  end.

(** One attempt at one index: the length of the match and the captures
    [1..n], [None] for a group that took no part. *)
Definition exec_at (rx : regexp) (bol : bool) (s : str)
    : option (nat * list (option str)) :=
  match rmatch (re_icase rx) bol (re_ast rx) Some (MState s 0 []) with
  | Some st =>
      Some (ms_len st,
            map (fun i => cap_lookup i (ms_caps st)) (seq 1 (re_groups rx)))
  | None => None
  end.

(** The input cut into its matches and the code units between them, as the
    repeated [exec] of a global regular expression finds them: leftmost
    first, the search resuming at the end of a match, one unit further after
    an empty one. *)
Inductive seg : Type :=
| SChar (c : char)
| SMatch (text : str) (caps : list (option str)).

Fixpoint scan (rx : regexp) (bol : bool) (skip : nat) (s : str) : list seg :=
  match skip with
  | S k => match s with [] => [] | _ :: s' => scan rx false k s' end
  | O =>
      match exec_at rx bol s with
      | Some (len, caps) =>
          SMatch (firstn len s) caps ::
            match s with
            | [] => []
            | c :: s' =>
                match len with
                | O => SChar c :: scan rx false 0 s'
                | S l => scan rx false l s'
                end
            end
      | None =>
          match s with
          | [] => []
          | c :: s' => SChar c :: scan rx false 0 s'
          end
      end
  end.

Definition replacer : Type := nat -> str -> list (option str) -> str.

Fixpoint subst_segs (f : replacer) (pos : nat) (segs : list seg) : str :=
  match segs with
  | [] => []
  | SChar c :: segs' => c :: subst_segs f (S pos) segs'
  | SMatch t caps :: segs' => f pos t caps ++ subst_segs f (pos + length t) segs'
  end.

(** [s.replace(/rx/g, (match, p1, ..., pn) => ...)] *)
Definition replace_all (rx : regexp) (f : str -> list (option str) -> str)
    (s : str) : str :=
  subst_segs (fun _ => f) 0 (scan rx true 0 s).

(** GetSubstitution: the [$]-patterns of a replacement string. *)
Definition digit_val (c : char) : nat := N.to_nat (c - 48).

Definition cap_text (caps : list (option str)) (n : nat) : str :=
  match nth_error caps (n - 1) with
  | Some (Some s) => s
  | _ => []
  end.

Fixpoint get_substitution (matched whole : str) (position : nat)
    (caps : list (option str)) (tpl : str) {struct tpl} : str :=
  let m := length caps in
  match tpl with
  | [] => []
  | c :: t1 =>
      if c =? 36 then                                              (* $ *)
        match t1 with
        | [] => [c]
        | d :: t2 =>
            if d =? 36 then
              36 :: get_substitution matched whole position caps t2
            else if d =? 38 then                                   (* $& *)
              matched ++ get_substitution matched whole position caps t2
            else if d =? 96 then                                   (* $` *)
              firstn position whole
                ++ get_substitution matched whole position caps t2
            else if d =? 39 then                                   (* $' *)
              skipn (position + length matched) whole
                ++ get_substitution matched whole position caps t2
            else if is_digit d then
              let one :=
                let n := digit_val d in
                if (1 <=? n)%nat && (n <=? m)%nat
                then cap_text caps n
                       ++ get_substitution matched whole position caps t2
                else c :: get_substitution matched whole position caps t1 in
              match t2 with
              | e :: t3 =>
                  let nn := (10 * digit_val d + digit_val e)%nat in
                  if is_digit e && (1 <=? nn)%nat && (nn <=? m)%nat
                  then cap_text caps nn
                         ++ get_substitution matched whole position caps t3
                  else one
              | [] => one
              end
            else c :: get_substitution matched whole position caps t1
        end
      else c :: get_substitution matched whole position caps t1
  end.

(** [s.replace(/rx/g, "template")] *)
Definition replace_all_tpl (rx : regexp) (tpl : str) (s : str) : str :=
  subst_segs (fun pos t caps => get_substitution t s pos caps tpl) 0
    (scan rx true 0 s).

Fixpoint starts_with (pat s : str) : bool :=
  match pat, s with
  | [], _ => true
  | p :: pat', c :: s' => (c =? p) && starts_with pat' s'
  | _ :: _, [] => false
  end.

Fixpoint index_of (pat s : str) : option nat :=
  if starts_with pat s then Some O
  else match s with
       | [] => None
       | _ :: s' => option_map S (index_of pat s')
       end.

(** [s.replace("pattern", "template")]: the first occurrence only, the
    template read by GetSubstitution with no captures. *)
Definition replace_first_str (pat tpl s : str) : str :=
  match index_of pat s with
  | Some pos =>
      firstn pos s ++ get_substitution pat s pos [] tpl
        ++ skipn (pos + length pat) s
  | None => s
  end.

(** [s.match(/rx/)]: the captures of the first match. *)
Fixpoint first_match (segs : list seg) : option (str * list (option str)) :=
  match segs with
  | [] => None
  | SChar _ :: segs' => first_match segs'
  | SMatch t caps :: _ => Some (t, caps)
  end.

Definition match_first (rx : regexp) (s : str)
    : option (str * list (option str)) :=
  first_match (scan rx true 0 s).

(** [s.match(/rx/g)]: all the matched texts ([null] is the empty list). *)
Fixpoint matched_texts (segs : list seg) : list str :=
  match segs with
  | [] => []
  | SChar _ :: segs' => matched_texts segs'
  | SMatch t _ :: segs' => t :: matched_texts segs'
  end.

Definition match_all (rx : regexp) (s : str) : list str :=
  matched_texts (scan rx true 0 s).

(** Template literals and [||] on a possibly undefined capture. *)
Definition tpl_text (o : option str) : str :=
  match o with
  | Some s => s
  | None => js "undefined"
  end.

Definition nth_cap (caps : list (option str)) (n : nat) : option str :=
  match nth_error caps (n - 1) with
  | Some o => o
  | None => None
  end.

Fixpoint uint_str (u : Decimal.uint) : str :=
  match u with
  | Decimal.Nil => []
  | Decimal.D0 u' => 48 :: uint_str u'
  | Decimal.D1 u' => 49 :: uint_str u'
  | Decimal.D2 u' => 50 :: uint_str u'
  | Decimal.D3 u' => 51 :: uint_str u'
  | Decimal.D4 u' => 52 :: uint_str u'
  | Decimal.D5 u' => 53 :: uint_str u'
  | Decimal.D6 u' => 54 :: uint_str u'
  | Decimal.D7 u' => 55 :: uint_str u'
  | Decimal.D8 u' => 56 :: uint_str u'
  | Decimal.D9 u' => 57 :: uint_str u'
  end.

Definition nat_str (n : nat) : str := uint_str (Nat.to_uint n).

Definition join (sep : str) (parts : list str) : str :=
  match parts with
  | [] => []
  | p :: ps => p ++ flat_map (fun q => sep ++ q) ps
  end.

(** [s.split(c)] for a one-character separator. *)
Fixpoint split_on (sep : char) (s : str) : list str :=
  match s with
  | [] => [[]]
  | c :: s' =>
      match split_on sep s' with
      | [] => [[]]
      | p :: ps => if c =? sep then [] :: p :: ps else (c :: p) :: ps
      end
  end.

Fixpoint repeat_str (s : str) (n : nat) : str :=
  match n with
  | O => []
  | S n' => s ++ repeat_str s n'
  end.

(** ** The regular expressions of the program *)

(** [slugify], and the same expression inlined in the link rules *)
Definition rx_non_alnum := Eval vm_compute in re "[^a-z0-9]+".
Definition rx_edge_dash := Eval vm_compute in re "^-|-$".

(** [sanitizeFilename] *)
Definition rx_invalid_chars := Eval vm_compute in re "[<>:~/\\|?*]".
Definition rx_spaces := Eval vm_compute in re "\s+".

(** [preprocessConfluenceHtml], in the order of their use *)
Definition rx_blob_img :=
  Eval vm_compute in re_i "<img[^>]*data-fileid=~([^~]+)~[^>]*>".
Definition rx_alt := Eval vm_compute in re "alt=~([^~]*)~".
Definition rx_svg := Eval vm_compute in re_i "<svg[^>]*>[\s\S]*?<\/svg>".
Definition rx_heading_anchor :=
  Eval vm_compute in
    re_i "<span[^>]*class=~[^~]*heading-anchor-wrapper[^~]*~[^>]*>[\s\S]*?<\/span>".
Definition rx_anchor_button :=
  Eval vm_compute in
    re_i "<button[^>]*data-testid=~anchor-button~[^>]*>[\s\S]*?<\/button>".
Definition rx_visually_hidden :=
  Eval vm_compute in
    re_i "<span[^>]*data-testid=~visually-hidden[^~]*~[^>]*>[\s\S]*?<\/span>".
Definition rx_editor_panel :=
  Eval vm_compute in
    re_i "<div[^>]*class=~[^~]*ak-editor-panel[^~]*~[^>]*data-panel-type=~([^~]*)~[^>]*>[\s\S]*?<div[^>]*class=~[^~]*ak-editor-panel__content[^~]*~[^>]*>([\s\S]*?)<\/div>\s*<\/div>".
Definition rx_panel_icon :=
  Eval vm_compute in
    re_i "<div[^>]*class=~[^~]*ak-editor-panel__icon[^~]*~[^>]*>[\s\S]*?<\/div>".
Definition rx_loadable :=
  Eval vm_compute in
    re_i "<span[^>]*data-loadable-vc-wrapper[^>]*>([\s\S]*?)<\/span>".
Definition rx_ac_image :=
  Eval vm_compute in re_i "<ac:image[^>]*>([\s\S]*?)<\/ac:image>".
Definition rx_ri_filename := Eval vm_compute in re "ri:filename=~([^~]+)~".
Definition rx_ri_value := Eval vm_compute in re "ri:value=~([^~]+)~".
Definition rx_panel_macro :=
  Eval vm_compute in
    re_i "<ac:structured-macro[^>]*ac:name=~(info|note|warning|tip)~[^>]*>[\s\S]*?<ac:rich-text-body>([\s\S]*?)<\/ac:rich-text-body>[\s\S]*?<\/ac:structured-macro>".
Definition rx_code_lang :=
  Eval vm_compute in
    re_i "<ac:structured-macro[^>]*ac:name=~code~[^>]*>[\s\S]*?<ac:parameter[^>]*ac:name=~language~[^>]*>([^<]*)<\/ac:parameter>[\s\S]*?<ac:plain-text-body><!\[CDATA\[([\s\S]*?)\]\]><\/ac:plain-text-body>[\s\S]*?<\/ac:structured-macro>".
Definition rx_code_plain :=
  Eval vm_compute in
    re_i "<ac:structured-macro[^>]*ac:name=~code~[^>]*>[\s\S]*?<ac:plain-text-body><!\[CDATA\[([\s\S]*?)\]\]><\/ac:plain-text-body>[\s\S]*?<\/ac:structured-macro>".
Definition rx_tab := Eval vm_compute in re "\t".
Definition rx_amp := Eval vm_compute in re "&".
Definition rx_lt := Eval vm_compute in re "<".
Definition rx_gt := Eval vm_compute in re ">".
Definition rx_macro_selfclosing :=
  Eval vm_compute in re_i "<ac:structured-macro[^>]*\/>".
Definition rx_macro :=
  Eval vm_compute in
    re_i "<ac:structured-macro[^>]*>[\s\S]*?<\/ac:structured-macro>".
Definition rx_img := Eval vm_compute in re_i "<img[^>]*>".
Definition rx_parameter :=
  Eval vm_compute in re_i "<ac:parameter[^>]*>[\s\S]*?<\/ac:parameter>".
Definition rx_colgroup :=
  Eval vm_compute in re_i "<colgroup>[\s\S]*?<\/colgroup>".
Definition rx_table_open := Eval vm_compute in re_i "<table[^>]*>".
Definition rx_cell_p :=
  Eval vm_compute in
    re_i "(<t[hd][^>]*>)\s*<p(?:\s[^>]*)?>([\s\S]*?)<\/p>\s*(<\/t[hd]>)".
Definition rx_p_p := Eval vm_compute in re_i "<\/p>\s*<p(?:\s[^>]*)?>".
Definition rx_cell_p_open :=
  Eval vm_compute in re_i "(<t[hd][^>]*>)\s*<p(?:\s[^>]*)?>".
Definition rx_cell_p_close := Eval vm_compute in re_i "<\/p>\s*(<\/t[hd]>)".
Definition rx_cell_attrs := Eval vm_compute in re_i "<(th|td)\s+[^>]*>".
Definition rx_header_row :=
  Eval vm_compute in
    re_i "<table>\s*<tbody>\s*(<tr>(?:\s*<th>[\s\S]*?<\/th>\s*)+<\/tr>)".
Definition rx_link_body :=
  Eval vm_compute in
    re_i "<ac:link[^>]*>[\s\S]*?<ri:page\s+ri:content-title=~([^~]+)~[^>]*\/>[\s\S]*?<ac:link-body>([^<]*)<\/ac:link-body>[\s\S]*?<\/ac:link>".
Definition rx_link_cdata :=
  Eval vm_compute in
    re_i "<ac:link[^>]*>[\s\S]*?<ri:page\s+ri:content-title=~([^~]+)~[^>]*\/>[\s\S]*?<ac:plain-text-link-body><!\[CDATA\[([^\]]+)\]\]><\/ac:plain-text-link-body>[\s\S]*?<\/ac:link>".
Definition rx_link_bare :=
  Eval vm_compute in
    re_i "<ac:link[^>]*>[\s\S]*?<ri:page\s+ri:content-title=~([^~]+)~[^>]*\/>[\s\S]*?<\/ac:link>".

(** the escaping stage of [convertToMarkdown] *)
Definition rx_component :=
  Eval vm_compute in
    re "<([A-Z][a-zA-Z]*(?:Reference|Type|Entity|Value|Field|Collection|Model|Rule|Filter|Event|Command|Parameter|Binding|Element|Container|Unit|IU|AIU|CUI)?)>".
Definition rx_code_fence := Eval vm_compute in re "```[\s\S]*?```".
Definition rx_table := Eval vm_compute in re_i "<table[\s\S]*?<\/table>".
Definition htmlTagNames : string :=
  "div|span|form|input|button|select|textarea|label|ul|ol|li|p|br|img|dl|dt|dd|a|hr|header|footer|section|aside|nav|article|main|figure|figcaption|h[1-6]".
Definition rx_opening_tag :=
  Eval vm_compute in
    re_i ("(<(?:" ++ htmlTagNames ++ ")(?:\s[^>]*)?>)(?!`)").
Definition rx_closing_tag :=
  Eval vm_compute in re_i ("(<\/(?:" ++ htmlTagNames ++ ")>)(?!`)").

(** [fixConfluenceLinks] *)
Definition rx_placeholder :=
  Eval vm_compute in re "\[([^\]]+)\]\(CONFLUENCE_LINK:([^)]+)\)".
Definition rx_confluence_url :=
  Eval vm_compute in
    re "\[([^\]]+)\]\(((?:https?:\/\/[^\/]+)?\/wiki\/spaces\/[^\/]+\/pages\/(\d+)[^)]*)\)".
Definition rx_view_page :=
  Eval vm_compute in
    re "\[([^\]]+)\]\(((?:https?:\/\/[^\/]+)?\/wiki\/pages\/viewpage\.action\?pageId=(\d+)[^)]*)\)".

(** ** The program *)

(** Attachment records as [downloadAttachments] builds them. *)
Record attachment : Type := Attachment {
  att_original : str;
  att_sanitized : str;
  att_path : str;
  att_fileId : option str
}.

(** A value is truthy, for a string, when it is not empty. *)
Definition truthy (s : str) : bool :=
  match s with [] => false | _ :: _ => true end.

(** String-keyed tables ([fileIdMap], [slugToPath], [pageIdToPath]): a later
    [set] of a key hides the earlier ones. *)
Definition table : Type := list (str * str).

Definition table_set (k v : str) (t : table) : table := (k, v) :: t.

Fixpoint table_get (k : str) (t : table) : option str :=
  match t with
  | [] => None
  | (k', v) :: t' => if str_eqb k k' then Some v else table_get k t'
  end.

Section Migrator.

(** [String.prototype.toLowerCase] and [toUpperCase] follow the Unicode case
    mappings; the program is embedded over any pair of functions, and the
    theorems that depend on them assume their behaviour on ASCII text only. *)
Variable toLowerCase : str -> str.
Variable toUpperCase : str -> str.

(** Utility: slugify page title for filename *)
Definition slugify (text : str) : str :=
  replace_all_tpl rx_edge_dash []
    (replace_all_tpl rx_non_alnum (js "-") (toLowerCase text)).

(** Utility: sanitize filename for Windows/cross-platform compatibility *)
Definition sanitizeFilename (filename : str) : str :=
  replace_all_tpl rx_spaces (js "_")
    (replace_all_tpl rx_invalid_chars (js "_") filename).

(** [fileIdMap]: built by the [forEach] over the attachments; an attachment
    without a (non-empty) fileId is skipped.  Only the table's own keys are
    modelled, not the members a plain object inherits. *)
Definition fileIdMap (attachments : list attachment) : table :=
  fold_left
    (fun m att =>
       match att_fileId att with
       | Some fid => if truthy fid then table_set fid (att_path att) m else m
       | None => m
       end)
    attachments [].

Definition blob_image (attachments : list attachment)
    (m : str) (caps : list (option str)) : str :=
  match table_get (cap_text caps 1) (fileIdMap attachments) with
  | Some localPath =>
      if truthy localPath then
        let alt :=
          match match_first rx_alt m with
          | Some (_, altCaps) => cap_text altCaps 1
          | None => js "image"
          end in
        js "<img src=~" ++ localPath ++ js "~ alt=~" ++ alt ++ js "~ />"
      else m
  | None => m
  end.

Definition editor_panel (m : str) (caps : list (option str)) : str :=
  let panelType := cap_text caps 1 in
  let content := cap_text caps 2 in
  let prefix :=
    if truthy panelType
    then js "**" ++ toUpperCase panelType ++ js ":** " else [] in
  js "<blockquote>" ++ prefix ++ content ++ js "</blockquote>".

Definition ac_image (pageSlug : str) (m : str) (caps : list (option str)) : str :=
  let inner := cap_text caps 1 in
  match match_first rx_ri_filename inner with
  | Some (_, fcaps) =>
      let filename := cap_text fcaps 1 in
      let safeFilename := sanitizeFilename filename in
      let imgPath := js "./attachments/" ++ pageSlug ++ js "/" ++ safeFilename in
      js "<img src=~" ++ imgPath ++ js "~ alt=~" ++ safeFilename ++ js "~ />"
  | None =>
      match match_first rx_ri_value inner with
      | Some (_, ucaps) =>
          js "<img src=~" ++ cap_text ucaps 1 ++ js "~ alt=~external-image~ />"
      | None => m
      end
  end.

Definition panel_macro (m : str) (caps : list (option str)) : str :=
  let panelType := cap_text caps 1 in
  let content := cap_text caps 2 in
  let prefix := js "**" ++ toUpperCase panelType ++ js ":** " in
  js "<blockquote>" ++ prefix ++ content ++ js "</blockquote>".

Definition convertCodeBlock (codeContent language : str) : str :=
  let code := replace_all_tpl rx_tab [newline] codeContent in
  let escapedCode :=
    replace_all_tpl rx_gt (js "&gt;")
      (replace_all_tpl rx_lt (js "&lt;")
         (replace_all_tpl rx_amp (js "&amp;") code)) in
  js "<pre><code class=~language-" ++ language ++ js "~>" ++ escapedCode
    ++ js "</code></pre>".

Definition other_macro (m : str) (caps : list (option str)) : str :=
  match match_all rx_img m with
  | [] => []
  | imgTags => join [newline] imgTags
  end.

(** The replacers of the link rules.  The source computes the slug in place,
    [pageTitle.toLowerCase().replace(/[^a-z0-9]+/g, '-').replace(/^-|-$/g, '')],
    which is the body of [slugify]. *)
Definition link_with_body (m : str) (caps : list (option str)) : str :=
  let pageTitle := cap_text caps 1 in
  let linkText := cap_text caps 2 in
  let slug := slugify pageTitle in
  js "<a href=~CONFLUENCE_LINK:" ++ slug ++ js "~>"
    ++ (if truthy linkText then linkText else pageTitle) ++ js "</a>".

Definition link_bare (m : str) (caps : list (option str)) : str :=
  let pageTitle := cap_text caps 1 in
  let slug := slugify pageTitle in
  js "<a href=~CONFLUENCE_LINK:" ++ slug ++ js "~>" ++ pageTitle ++ js "</a>".

(** The successive rewrites of [preprocessConfluenceHtml], grouped as the
    sections of the function are. *)
Definition strip_decorations (html : str) : str :=
  let html := replace_all_tpl rx_svg [] html in
  let html := replace_all_tpl rx_heading_anchor [] html in
  let html := replace_all_tpl rx_anchor_button [] html in
  replace_all_tpl rx_visually_hidden [] html.

Definition convert_editor_panels (html : str) : str :=
  let html := replace_all rx_editor_panel editor_panel html in
  let html := replace_all_tpl rx_panel_icon [] html in
  replace_all_tpl rx_loadable (js "$1") html.

Definition convert_code_macros (html : str) : str :=
  let html :=
    replace_all rx_code_lang
      (fun m caps => convertCodeBlock (cap_text caps 2) (cap_text caps 1)) html in
  replace_all rx_code_plain
    (fun m caps => convertCodeBlock (cap_text caps 1) []) html.

Definition remove_macros (html : str) : str :=
  let html := replace_all_tpl rx_macro_selfclosing [] html in
  let html := replace_all rx_macro other_macro html in
  replace_all_tpl rx_parameter [] html.

Definition move_header_row (html : str) : str :=
  replace_all_tpl rx_header_row (js "<table><thead>$1</thead><tbody>") html.

Definition clean_tables (html : str) : str :=
  let html := replace_all_tpl rx_colgroup [] html in
  let html := replace_all_tpl rx_table_open (js "<table>") html in
  let html := replace_all_tpl rx_cell_p (js "$1$2$3") html in
  let html := replace_all_tpl rx_p_p (js "<br/>") html in
  let html := replace_all_tpl rx_cell_p_open (js "$1") html in
  let html := replace_all_tpl rx_cell_p_close (js "$1") html in
  let html := replace_all_tpl rx_cell_attrs (js "<$1>") html in
  move_header_row html.

Definition convert_links (html : str) : str :=
  let html := replace_all rx_link_body link_with_body html in
  let html := replace_all rx_link_cdata link_with_body html in
  replace_all rx_link_bare link_bare html.

(** Pre-process Confluence HTML to convert special elements before Turndown *)
Definition preprocessConfluenceHtml (html pageSlug : str)
    (attachments : list attachment) : str :=
  let html := replace_all rx_blob_img (blob_image attachments) html in
  let html := strip_decorations html in
  let html := convert_editor_panels html in
  let html := replace_all rx_ac_image (ac_image pageSlug) html in
  let html := replace_all rx_panel_macro panel_macro html in
  let html := convert_code_macros html in
  let html := remove_macros html in
  let html := clean_tables html in
  convert_links html.

(** *** The escaping stage of [convertToMarkdown] *)

(** Escape angle brackets that look like Vue components *)
Definition escape_components (markdown : str) : str :=
  replace_all_tpl rx_component (js "`<$1>`") markdown.

(** [markdown.replace(rx, match => { placeholders.push(match); return
    `__NAME_${placeholders.length - 1}__` })]: the matches are pushed in
    order and each is replaced by the token of its index. *)
Fixpoint extract_segs (name : str) (placeholders : list str) (segs : list seg)
    : list str * str :=
  match segs with
  | [] => (placeholders, [])
  | SChar c :: segs' =>
      let (ps, out) := extract_segs name placeholders segs' in (ps, c :: out)
  | SMatch t _ :: segs' =>
      let pushed := placeholders ++ [t] in
      let token := js "__" ++ name ++ js "_" ++ nat_str (length pushed - 1) ++ js "__" in
      let (ps, out) := extract_segs name pushed segs' in (ps, token ++ out)
  end.

Definition extract (rx : regexp) (name : str) (markdown : str) : list str * str :=
  extract_segs name [] (scan rx true 0 markdown).

Definition escapeOpeningTags (markdown : str) : str :=
  replace_all_tpl rx_opening_tag (js "`$1`") markdown.

Definition escapeClosingTags (markdown : str) : str :=
  replace_all_tpl rx_closing_tag (js "`$1`") markdown.

(** Run multiple passes to catch all tags: [for (let i = 0; i < 3; i++)],
    left early when a pass changes nothing. *)
Fixpoint escape_passes (n : nat) (markdown : str) : str :=
  match n with
  | O => markdown
  | S n' =>
      let before := markdown in
      let markdown := escapeClosingTags (escapeOpeningTags markdown) in
      if str_eqb markdown before then markdown else escape_passes n' markdown
  end.

(** [placeholders.forEach((block, i) => { markdown =
    markdown.replace(`__NAME_${i}__`, block) })] *)
Fixpoint restore (name : str) (i : nat) (placeholders : list str)
    (markdown : str) : str :=
  match placeholders with
  | [] => markdown
  | block :: rest =>
      restore name (S i) rest
        (replace_first_str (js "__" ++ name ++ js "_" ++ nat_str i ++ js "__")
           block markdown)
  end.

(** Lines 538-596 of [convertToMarkdown]: what happens to the Markdown that
    Turndown and the attachment-link rewriting hand over. *)
Definition protect_text (markdown : str) : str :=
  let markdown := escape_components markdown in
  let (codeBlockPlaceholders, markdown) :=
    extract rx_code_fence (js "CODE_BLOCK") markdown in
  let (tablePlaceholders, markdown) :=
    extract rx_table (js "TABLE") markdown in
  let markdown := escape_passes 3 markdown in
  let markdown := restore (js "TABLE") 0 tablePlaceholders markdown in
  restore (js "CODE_BLOCK") 0 codeBlockPlaceholders markdown.

(** *** [fixConfluenceLinks] *)

Record pageInfo : Type := PageInfo {
  page_title : str;
  page_path : str
}.

(** [this.pageMap], in insertion order: page id and page record. *)
Definition pageMap : Type := list (str * pageInfo).

Definition slugToPath (pages : pageMap) : table :=
  fold_left (fun m p => table_set (slugify (page_title (snd p))) (page_path (snd p)) m)
    pages [].

Definition pageIdToPath (pages : pageMap) : table :=
  fold_left (fun m p => table_set (fst p) (page_path (snd p)) m) pages [].

(** [path.split('/').filter(Boolean)] *)
Definition path_parts (path : str) : list str :=
  filter truthy (split_on 47 path).

Definition relative_path (currentPath targetPath : str) : str :=
  let currentParts := path_parts currentPath in
  let targetParts := path_parts targetPath in
  let ups := length currentParts in
  repeat_str (js "../") ups ++ join (js "/") targetParts ++ js "/".

Definition fix_placeholder (slugs : table) (currentPath : str)
    (m : str) (caps : list (option str)) : str :=
  let linkText := cap_text caps 1 in
  let targetSlug := cap_text caps 2 in
  match table_get targetSlug slugs with
  | Some targetPath =>
      if truthy targetPath
      then js "[" ++ linkText ++ js "](" ++ relative_path currentPath targetPath ++ js ")"
      else linkText
  | None => linkText
  end.

Definition fixUrlLink (ids : table) (currentPath : str)
    (m : str) (caps : list (option str)) : str :=
  let linkText := cap_text caps 1 in
  let targetPageId := cap_text caps 3 in
  match table_get targetPageId ids with
  | Some targetPath =>
      if truthy targetPath
      then js "[" ++ linkText ++ js "](" ++ relative_path currentPath targetPath ++ js ")"
      else m
  | None => m
  end.

(** Fix placeholder links: the first rewriting of a page's file. *)
Definition fix_placeholders (slugs : table) (currentPath content : str) : str :=
  replace_all rx_placeholder (fix_placeholder slugs currentPath) content.

(** What [fixConfluenceLinks] writes back for the page [page] whose file
    holds [content]. *)
Definition fix_page_links (pages : pageMap) (page : pageInfo) (content : str)
    : str :=
  let content := fix_placeholders (slugToPath pages) (page_path page) content in
  let content :=
    replace_all rx_confluence_url
      (fixUrlLink (pageIdToPath pages) (page_path page)) content in
  replace_all rx_view_page (fixUrlLink (pageIdToPath pages) (page_path page)) content.

End Migrator.

(** The case mappings on ASCII text; other code units are left as they are
    (used to run the program on ASCII inputs). *)
Definition ascii_lower (s : str) : str := map lower_char s.
Definition ascii_upper (s : str) : str := map upper_char s.

(** * Properties of the runtime model *)

(** ** Stars over a single set of characters

    Every quantified sub-expression of the program but one repeats a single
    set; its matcher is then a plain recursion over the input. *)

Fixpoint set_star_greedy (P : char -> bool) (k : cont)
    (s : str) (l : nat) (caps : list (nat * str)) : option mstate :=
  match s with
  | c :: s' =>
      if P c
      then set_star_greedy P k s' (S l) caps <|> k (MState s l caps)
      else k (MState s l caps)
  | [] => k (MState [] l caps)
  end.

Fixpoint set_star_lazy (P : char -> bool) (k : cont)
    (s : str) (l : nat) (caps : list (nat * str)) : option mstate :=
  k (MState s l caps) <|>
  match s with
  | c :: s' => if P c then set_star_lazy P k s' (S l) caps else None
  | [] => None
  end.

Definition set_step (P : char -> bool) (body : cont -> cont) : Prop :=
  forall k st,
    body k st =
    match ms_rest st with
    | c :: rest' =>
        if P c then k (MState rest' (S (ms_len st)) (ms_caps st)) else None
    | [] => None
    end.

Lemma star_loop_set_greedy P body k :
  set_step P body ->
  forall s n l caps, (length s <= n)%nat ->
    star_loop true body k n (MState s l caps) = set_star_greedy P k s l caps.
Proof.
  intros Hb. induction s as [|c s IH]; intros n l caps Hn.
  - destruct n; cbn [star_loop set_star_greedy]; [reflexivity|].
    rewrite Hb. reflexivity.
  - destruct n as [|n]; [simpl in Hn; lia|].
    cbn [star_loop set_star_greedy]. rewrite Hb.
    cbn [ms_rest ms_len ms_caps].
    destruct (P c); [|reflexivity].
    replace (l <? S l)%nat with true by (symmetry; apply Nat.ltb_lt; lia).
    rewrite IH by (simpl in Hn; lia). reflexivity.
Qed.

Lemma star_loop_set_lazy P body k :
  set_step P body ->
  forall s n l caps, (length s <= n)%nat ->
    star_loop false body k n (MState s l caps) = set_star_lazy P k s l caps.
Proof.
  intros Hb. induction s as [|c s IH]; intros n l caps Hn.
  - destruct n; cbn [star_loop set_star_lazy]; [|rewrite Hb];
      destruct (k (MState [] l caps)); reflexivity.
  - destruct n as [|n]; [simpl in Hn; lia|].
    cbn [star_loop set_star_lazy]. rewrite Hb.
    cbn [ms_rest ms_len ms_caps].
    destruct (k (MState (c :: s) l caps)); [reflexivity|].
    destruct (P c); [|reflexivity].
    replace (l <? S l)%nat with true by (symmetry; apply Nat.ltb_lt; lia).
    rewrite IH by (simpl in Hn; lia). reflexivity.
Qed.

Lemma rmatch_star_set ic bol g neg items k st :
  rmatch ic bol (RStar g (RSet neg items)) k st
  = (if g then set_star_greedy else set_star_lazy)
      (set_match ic neg items) k (ms_rest st) (ms_len st) (ms_caps st).
Proof.
  destruct st as [s l caps]. cbn [rmatch ms_rest ms_len ms_caps].
  destruct g.
  - apply star_loop_set_greedy; [intros k' st'; reflexivity|lia].
  - apply star_loop_set_lazy; [intros k' st'; reflexivity|lia].
Qed.

(** A greedy star over a run of members that ends the input, or is followed
    by a non-member, hands the whole run over first. *)
Lemma set_star_greedy_run P k rest caps r :
  forall run l,
    forallb P run = true ->
    match rest with [] => true | c :: _ => negb (P c) end = true ->
    k (MState rest (l + length run) caps) = Some r ->
    set_star_greedy P k (run ++ rest) l caps = Some r.
Proof.
  induction run as [|c run IH]; intros l Hrun Hrest Hk.
  - simpl in Hk. rewrite Nat.add_0_r in Hk. simpl.
    destruct rest as [|c rest]; [exact Hk|].
    apply negb_true_iff in Hrest. simpl. rewrite Hrest. exact Hk.
  - simpl in Hrun. apply andb_true_iff in Hrun as [Hc Hrun].
    simpl. rewrite Hc. rewrite (IH (S l)); auto.
    rewrite <- Hk. f_equal. f_equal. simpl. lia.
Qed.

(** ** Scanning *)

Lemma scan_skip rx : forall a rest b,
  a <> [] -> scan rx b (length a) (a ++ rest) = scan rx false 0 rest.
Proof.
  induction a as [|c a IH]; intros rest b Ha; [congruence|].
  destruct a as [|c' a].
  - reflexivity.
  - cbn [length app scan]. apply (IH rest false). discriminate.
Qed.

Lemma scan_no_match rx b c s :
  exec_at rx b (c :: s) = None ->
  scan rx b 0 (c :: s) = SChar c :: scan rx false 0 s.
Proof. intros H. cbn [scan]. rewrite H. reflexivity. Qed.

Lemma scan_match rx b m rest caps :
  m <> [] ->
  exec_at rx b (m ++ rest) = Some (length m, caps) ->
  scan rx b 0 (m ++ rest) = SMatch m caps :: scan rx false 0 rest.
Proof.
  intros Hm H. destruct m as [|c m]; [congruence|].
  cbn [scan app]. cbn [app] in H. rewrite H.
  f_equal.
  - f_equal. cbn [length firstn]. f_equal.
    rewrite firstn_app, firstn_all, Nat.sub_diag. simpl. apply app_nil_r.
  - cbn [length]. destruct m as [|c' m]; [reflexivity|].
    apply (scan_skip rx (c' :: m) rest false). discriminate.
Qed.

Lemma scan_nil_no_match rx b :
  exec_at rx b [] = None -> scan rx b 0 [] = [].
Proof. intros H. cbn [scan]. rewrite H. reflexivity. Qed.

(** Where no attempt succeeds the input comes back unchanged. *)
Definition no_match_in (rx : regexp) (s : str) : Prop :=
  forall b t, (exists p, s = p ++ t) -> exec_at rx b t = None.

Lemma no_match_in_tail rx c s : no_match_in rx (c :: s) -> no_match_in rx s.
Proof.
  intros H b t [p Hp]. apply H. exists (c :: p). rewrite Hp. reflexivity.
Qed.

Lemma scan_all_chars rx : forall s b,
  no_match_in rx s -> scan rx b 0 s = map SChar s.
Proof.
  induction s as [|c s IH]; intros b H.
  - apply scan_nil_no_match. apply H. exists []. reflexivity.
  - rewrite scan_no_match by (apply H; exists []; reflexivity).
    simpl. f_equal. apply IH. eapply no_match_in_tail; eauto.
Qed.

Lemma subst_segs_chars f : forall s pos, subst_segs f pos (map SChar s) = s.
Proof. induction s; intros; simpl; [|rewrite IHs]; reflexivity. Qed.

Lemma replace_all_no_match rx f s :
  no_match_in rx s -> replace_all rx f s = s.
Proof.
  intros H. unfold replace_all. rewrite scan_all_chars by assumption.
  apply subst_segs_chars.
Qed.

Lemma replace_all_tpl_no_match rx tpl s :
  no_match_in rx s -> replace_all_tpl rx tpl s = s.
Proof.
  intros H. unfold replace_all_tpl. rewrite scan_all_chars by assumption.
  apply subst_segs_chars.
Qed.

(** ** Unfolding the matcher *)

Lemma rmatch_seq ic bol r1 r2 k st :
  rmatch ic bol (RSeq r1 r2) k st = rmatch ic bol r1 (rmatch ic bol r2 k) st.
Proof. reflexivity. Qed.

Lemma rmatch_empty ic bol k st : rmatch ic bol REmpty k st = k st.
Proof. reflexivity. Qed.

Lemma rmatch_set_cons ic bol neg items k c s l caps :
  rmatch ic bol (RSet neg items) k (MState (c :: s) l caps)
  = if set_match ic neg items c then k (MState s (S l) caps) else None.
Proof. reflexivity. Qed.

Lemma rmatch_set_nil ic bol neg items k l caps :
  rmatch ic bol (RSet neg items) k (MState [] l caps) = None.
Proof. reflexivity. Qed.

Lemma rmatch_alt ic bol r1 r2 k st :
  rmatch ic bol (RAlt r1 r2) k st
  = rmatch ic bol r1 k st <|> rmatch ic bol r2 k st.
Proof. reflexivity. Qed.

Lemma rmatch_group ic bol i r k st :
  rmatch ic bol (RGroup i r) k st
  = rmatch ic bol r
      (fun st' => k (set_cap i (firstn (ms_len st' - ms_len st) (ms_rest st)) st'))
      st.
Proof. reflexivity. Qed.

Lemma set_star_greedy_total P k :
  (forall st, k st <> None) ->
  forall s l caps, set_star_greedy P k s l caps <> None.
Proof.
  intros Hk. induction s as [|c s IH]; intros l caps; simpl; [apply Hk|].
  destruct (P c); [|apply Hk].
  specialize (IH (S l) caps).
  destruct (set_star_greedy P k s (S l) caps); congruence.
Qed.

(** ** Replacing by a plain text *)

(** GetSubstitution leaves a template without [$] as it is. *)
Lemma get_substitution_plain matched whole pos caps : forall tpl,
  forallb (fun c => negb (c =? 36)) tpl = true ->
  get_substitution matched whole pos caps tpl = tpl.
Proof.
  induction tpl as [|c tpl IH]; intros H; [reflexivity|].
  simpl in H. apply andb_true_iff in H as [Hc H].
  apply negb_true_iff in Hc. cbn [get_substitution]. rewrite Hc.
  f_equal. apply IH, H.
Qed.

Lemma subst_segs_ext f g : forall segs pos,
  (forall p t caps, f p t caps = g p t caps) ->
  subst_segs f pos segs = subst_segs g pos segs.
Proof.
  induction segs as [|[c|t caps] segs IH]; intros pos H; simpl;
    [reflexivity| |]; rewrite (IH _ H); [reflexivity|].
  rewrite H. reflexivity.
Qed.

Lemma replace_all_tpl_plain rx tpl s :
  forallb (fun c => negb (c =? 36)) tpl = true ->
  replace_all_tpl rx tpl s = replace_all rx (fun _ _ => tpl) s.
Proof.
  intros H. unfold replace_all_tpl, replace_all. apply subst_segs_ext.
  intros. apply get_substitution_plain, H.
Qed.

(** A regular expression that matches exactly where a member of [P] stands
    (a set, or a set repeated). *)
Record led_by (rx : regexp) (P : char -> bool) : Prop := LedBy {
  led_nil : forall b, exec_at rx b [] = None;
  led_out : forall b c t, P c = false -> exec_at rx b (c :: t) = None;
  led_in : forall b c t, P c = true ->
           exists len caps, exec_at rx b (c :: t) = Some (S len, caps)
}.

Lemma led_by_no_match rx P s :
  led_by rx P -> forallb (fun c => negb (P c)) s = true -> no_match_in rx s.
Proof.
  intros H Hs b t [p Hp]. subst s. destruct t as [|c t]; [apply H|].
  apply (led_out _ _ H). rewrite forallb_app in Hs.
  apply andb_true_iff in Hs as [_ Hs]. simpl in Hs.
  apply andb_true_iff in Hs as [Hc _]. apply negb_true_iff, Hc.
Qed.

(** The code units that a scan leaves in place are units of the input that
    are not members. *)
Lemma scan_led_chars rx P (Q : char -> Prop) :
  led_by rx P ->
  forall s b skip,
    (forall c, In c s -> P c = false -> Q c) ->
    Forall (fun sg => match sg with SChar c => Q c | SMatch _ _ => True end)
      (scan rx b skip s).
Proof.
  intros H. induction s as [|c s IH]; intros b skip HQ.
  - destruct skip; cbn [scan]; [|constructor].
    rewrite (led_nil _ _ H). constructor.
  - assert (HQ' : forall c', In c' s -> P c' = false -> Q c')
      by (intros; apply HQ; [right|]; assumption).
    destruct skip as [|k]; cbn [scan]; [|apply IH, HQ'].
    destruct (P c) eqn:Hc.
    + destruct (led_in _ _ H b c s Hc) as (len & caps & He). rewrite He.
      constructor; [exact I|apply IH, HQ'].
    + rewrite (led_out _ _ H b c s Hc).
      constructor; [apply HQ; [left; reflexivity|exact Hc]|apply IH, HQ'].
Qed.

Lemma subst_segs_Forall (Q : char -> Prop) f : forall segs pos,
  (forall p t caps, Forall Q (f p t caps)) ->
  Forall (fun sg => match sg with SChar c => Q c | SMatch _ _ => True end) segs ->
  Forall Q (subst_segs f pos segs).
Proof.
  induction segs as [|[c|t caps] segs IH]; intros pos Hf H; simpl.
  - constructor.
  - inversion H; subst. constructor; [assumption|apply IH; assumption].
  - inversion H; subst. apply Forall_app. split; [apply Hf|apply IH; assumption].
Qed.

Lemma replace_led_chars rx P (Q : char -> Prop) tpl s :
  led_by rx P ->
  Forall Q tpl ->
  (forall c, In c s -> P c = false -> Q c) ->
  Forall Q (replace_all rx (fun _ _ => tpl) s).
Proof.
  intros H Ht HQ. unfold replace_all. apply subst_segs_Forall.
  - intros; exact Ht.
  - apply (scan_led_chars rx P Q H). exact HQ.
Qed.

(** ** [sanitizeFilename] *)

Definition is_invalid_char (c : char) : bool :=
  set_match false false
    [CChar 60; CChar 62; CChar 58; CChar 34; CChar 47; CChar 92; CChar 124;
     CChar 63; CChar 42] c.

Definition is_space_char (c : char) : bool := set_match false false [CSpace] c.

Lemma rx_invalid_chars_led : led_by rx_invalid_chars is_invalid_char.
Proof.
  split; intros.
  - reflexivity.
  - unfold exec_at, rx_invalid_chars. cbn [re_ast re_icase re_groups].
    rewrite rmatch_seq, rmatch_set_cons.
    change (set_match false false _ c) with (is_invalid_char c).
    rewrite H. reflexivity.
  - unfold exec_at, rx_invalid_chars. cbn [re_ast re_icase re_groups].
    rewrite rmatch_seq, rmatch_set_cons.
    change (set_match false false _ c) with (is_invalid_char c).
    rewrite H. cbn. eauto.
Qed.

Lemma set_star_greedy_len P : forall s l caps st,
  set_star_greedy P Some s l caps = Some st -> (l <= ms_len st)%nat.
Proof.
  induction s as [|c s IH]; intros l caps st; simpl.
  - intros [= <-]. simpl. lia.
  - destruct (P c).
    + destruct (set_star_greedy P Some s (S l) caps) eqn:E.
      * intros [= <-]. apply IH in E. lia.
      * intros [= <-]. simpl. lia.
    + intros [= <-]. simpl. lia.
Qed.

Lemma rx_spaces_led : led_by rx_spaces is_space_char.
Proof.
  split; intros.
  - reflexivity.
  - unfold exec_at, rx_spaces. cbn [re_ast re_icase re_groups].
    rewrite !rmatch_seq, rmatch_set_cons.
    change (set_match false false _ c) with (is_space_char c).
    rewrite H. reflexivity.
  - unfold exec_at, rx_spaces. cbn [re_ast re_icase re_groups].
    rewrite !rmatch_seq, rmatch_set_cons.
    change (set_match false false [CSpace] c) with (is_space_char c).
    rewrite H, rmatch_star_set. cbn [ms_rest ms_len ms_caps].
    change (rmatch false b REmpty Some) with (@Some mstate).
    destruct (set_star_greedy (set_match false false [CSpace]) Some t 1 [])
      as [st|] eqn:E.
    + apply set_star_greedy_len in E. destruct (ms_len st) as [|n]; [lia|].
      eauto.
    + exfalso. revert E. apply set_star_greedy_total. discriminate.
Qed.

Lemma plain_underscore : forallb (fun c => negb (c =? 36)) (js "_") = true.
Proof. reflexivity. Qed.

Definition filename_safe (c : char) : Prop :=
  is_invalid_char c = false /\ is_space_char c = false.

Lemma sanitizeFilename_safe x : Forall filename_safe (sanitizeFilename x).
Proof.
  unfold sanitizeFilename.
  rewrite !replace_all_tpl_plain by apply plain_underscore.
  apply (replace_led_chars rx_spaces is_space_char filename_safe).
  - apply rx_spaces_led.
  - repeat constructor.
  - intros c Hin Hsp. split; [|exact Hsp].
    clear Hsp. revert c Hin. apply Forall_forall.
    apply (replace_led_chars rx_invalid_chars is_invalid_char
             (fun c => is_invalid_char c = false)).
    + apply rx_invalid_chars_led.
    + repeat constructor.
    + intros c _ Hc. exact Hc.
Qed.

Lemma sanitizeFilename_fixes_safe s :
  Forall filename_safe s -> sanitizeFilename s = s.
Proof.
  intros H. unfold sanitizeFilename.
  assert (H1 : replace_all_tpl rx_invalid_chars (js "_") s = s).
  { apply replace_all_tpl_no_match.
    apply (led_by_no_match rx_invalid_chars is_invalid_char).
    - apply rx_invalid_chars_led.
    - apply forallb_forall. intros c Hc.
      rewrite Forall_forall in H. destruct (H c Hc) as [-> _]. reflexivity. }
  rewrite H1. apply replace_all_tpl_no_match.
  apply (led_by_no_match rx_spaces is_space_char).
  - apply rx_spaces_led.
  - apply forallb_forall. intros c Hc.
    rewrite Forall_forall in H. destruct (H c Hc) as [_ ->]. reflexivity.
Qed.

(** ** Replacing the runs of a set: [/[set]+/g] *)

Fixpoint run_len (P : char -> bool) (s : str) : nat :=
  match s with
  | c :: s' => if P c then S (run_len P s') else O
  | [] => O
  end.

(** Every maximal run of members becomes one copy of [tpl]. *)
Fixpoint collapse_runs (P : char -> bool) (tpl : str) (in_run : bool) (s : str)
    : str :=
  match s with
  | [] => []
  | c :: s' =>
      if P c
      then (if in_run then [] else tpl) ++ collapse_runs P tpl true s'
      else c :: collapse_runs P tpl false s'
  end.

Lemma set_star_greedy_Some P : forall s l caps,
  set_star_greedy P Some s l caps
  = Some (MState (skipn (run_len P s) s) (l + run_len P s) caps).
Proof.
  induction s as [|c s IH]; intros l caps; simpl.
  - rewrite Nat.add_0_r. reflexivity.
  - destruct (P c).
    + rewrite IH. simpl. do 2 f_equal. lia.
    + rewrite Nat.add_0_r. reflexivity.
Qed.

Lemma collapse_runs_flag P tpl s :
  run_len P s = O -> collapse_runs P tpl true s = collapse_runs P tpl false s.
Proof.
  destruct s as [|c s]; [reflexivity|]. simpl.
  destruct (P c); [discriminate|reflexivity].
Qed.

Section SetPlus.

Variables (ic neg : bool) (items : list citem).

Let P := set_match ic neg items.
Let rx := Regexp (RSeq (RPlus true (RSet neg items)) REmpty) 0 ic.

Lemma exec_at_set_plus_nil b : exec_at rx b [] = None.
Proof. reflexivity. Qed.

Lemma exec_at_set_plus b c s :
  exec_at rx b (c :: s) = if P c then Some (S (run_len P s), []) else None.
Proof.
  unfold exec_at, rx, RPlus. cbn [re_ast re_icase re_groups].
  rewrite !rmatch_seq, rmatch_set_cons. fold P.
  destruct (P c); [|reflexivity].
  rewrite rmatch_star_set. cbn [ms_rest ms_len ms_caps].
  change (rmatch ic b REmpty Some) with (@Some mstate).
  fold P. rewrite set_star_greedy_Some. reflexivity.
Qed.

Lemma scan_set_plus tpl : forall s skip pos b,
  skip = O \/ run_len P s = skip ->
  subst_segs (fun _ _ _ => tpl) pos (scan rx b skip s)
  = collapse_runs P tpl (negb (skip =? 0)%nat) s.
Proof.
  induction s as [|c s IH]; intros skip pos b H.
  - destruct H as [-> | H]; [|simpl in H; subst skip]; reflexivity.
  - destruct skip as [|k].
    + cbn [scan]. rewrite exec_at_set_plus. cbn [Nat.eqb negb collapse_runs].
      destruct (P c) eqn:Hc.
      * cbn [subst_segs]. f_equal. rewrite IH by (right; reflexivity).
        destruct (run_len P s) eqn:E; [|reflexivity].
        symmetry. apply collapse_runs_flag, E.
      * cbn [subst_segs]. f_equal. apply (IH O). left; reflexivity.
    + destruct H as [H | H]; [discriminate|].
      cbn [run_len] in H. cbn [scan Nat.eqb negb collapse_runs].
      destruct (P c); [|discriminate]. injection H as H.
      rewrite IH by (right; exact H). cbn [app].
      destruct k; [|reflexivity].
      symmetry. apply collapse_runs_flag, H.
Qed.

Lemma replace_all_set_plus tpl s :
  replace_all rx (fun _ _ => tpl) s = collapse_runs P tpl false s.
Proof.
  unfold replace_all. apply (scan_set_plus tpl s O O true). left; reflexivity.
Qed.

End SetPlus.

(** ** Replacing the members of a set: [/[set]/g] *)

Section SetOne.

Variables (ic neg : bool) (items : list citem).

Let P := set_match ic neg items.
Let rx := Regexp (RSeq (RSet neg items) REmpty) 0 ic.

Lemma scan_set_one tpl : forall s pos b,
  subst_segs (fun _ _ _ => tpl) pos (scan rx b 0 s)
  = flat_map (fun c => if P c then tpl else [c]) s.
Proof.
  induction s as [|c s IH]; intros pos b; [reflexivity|].
  cbn [scan flat_map]. unfold exec_at, rx. cbn [re_ast re_icase re_groups].
  rewrite rmatch_seq, rmatch_set_cons. fold P. fold rx.
  destruct (P c); cbn [rmatch ms_len subst_segs]; rewrite IH; reflexivity.
Qed.

Lemma replace_all_set_one tpl s :
  replace_all rx (fun _ _ => tpl) s
  = flat_map (fun c => if P c then tpl else [c]) s.
Proof. apply scan_set_one. Qed.

End SetOne.

(** ** [sanitizeFilename], character by character *)

Definition invalid_chars : str := js "<>:~/\|?*".

Lemma is_invalid_char_spec c :
  is_invalid_char c = existsb (N.eqb c) invalid_chars.
Proof.
  unfold is_invalid_char, set_match, items_mem.
  cbn [existsb citem_mem andb xorb]. rewrite orb_false_r.
  change invalid_chars with [60; 62; 58; 34; 47; 92; 124; 63; 42].
  cbn [existsb]. reflexivity.
Qed.

Lemma is_space_char_spec c : is_space_char c = is_space c.
Proof.
  unfold is_space_char, set_match, items_mem.
  cbn [existsb citem_mem andb xorb]. rewrite !orb_false_r. reflexivity.
Qed.

Definition replace_invalid (c : char) : str :=
  if is_invalid_char c then js "_" else [c].

Lemma sanitizeFilename_eq x :
  sanitizeFilename x
  = collapse_runs is_space_char (js "_") false (flat_map replace_invalid x).
Proof.
  unfold sanitizeFilename.
  rewrite !replace_all_tpl_plain by apply plain_underscore.
  unfold rx_invalid_chars, rx_spaces.
  rewrite (replace_all_set_one false false
             [CChar 60; CChar 62; CChar 58; CChar 34; CChar 47; CChar 92;
              CChar 124; CChar 63; CChar 42] (js "_") x).
  apply (replace_all_set_plus false false [CSpace]).
Qed.

Lemma collapse_runs_ext P Q tpl :
  (forall c, P c = Q c) ->
  forall s b, collapse_runs P tpl b s = collapse_runs Q tpl b s.
Proof.
  intros H. induction s as [|c s IH]; intros b; [reflexivity|].
  cbn [collapse_runs]. rewrite H, !IH. reflexivity.
Qed.

(** C10: sanitizeFilename is idempotent; it is the replacement of each of
    the nine characters by an underscore followed by the replacement of each
    maximal run of whitespace by one underscore. *)
Theorem sanitizeFilename_idempotent : forall x,
  sanitizeFilename (sanitizeFilename x) = sanitizeFilename x
  /\ sanitizeFilename x
     = collapse_runs is_space (js "_") false
         (flat_map (fun c => if existsb (N.eqb c) invalid_chars
                             then js "_" else [c]) x).
Proof.
  intros x. split.
  - apply sanitizeFilename_fixes_safe, sanitizeFilename_safe.
  - rewrite sanitizeFilename_eq.
    replace (flat_map replace_invalid x)
      with (flat_map (fun c => if existsb (N.eqb c) invalid_chars
                               then js "_" else [c]) x)
      by (apply flat_map_ext; intros c; unfold replace_invalid;
          rewrite is_invalid_char_spec; reflexivity).
    apply collapse_runs_ext, is_space_char_spec.
Qed.

(** ** [slugify] *)

Definition dash : char := 45.

Definition is_slug_char (c : char) : bool := is_lower c || is_digit c.

Definition not_slug_char (c : char) : bool :=
  set_match false true [CRange 97 122; CRange 48 57] c.

Lemma not_slug_char_spec c : not_slug_char c = negb (is_slug_char c).
Proof.
  unfold not_slug_char, is_slug_char, set_match, items_mem, is_lower, is_digit.
  cbn [existsb citem_mem andb xorb]. rewrite orb_false_r, orb_false_r.
  reflexivity.
Qed.

Lemma slug_char_not_dash c : is_slug_char c = true -> (c =? dash) = false.
Proof.
  unfold is_slug_char, is_lower, is_digit, dash. intros H.
  apply N.eqb_neq. intros ->. discriminate.
Qed.

(** [/^-|-$/g] replaced by nothing: one dash off each end. *)
Fixpoint drop_last_dash (s : str) : str :=
  match s with
  | [] => []
  | c :: s' =>
      match s' with
      | [] => if c =? dash then [] else [c]
      | _ :: _ => c :: drop_last_dash s'
      end
  end.

Definition trim_dashes (s : str) : str :=
  match s with
  | [] => []
  | c :: s' => if c =? dash then drop_last_dash s' else c :: drop_last_dash s'
  end.

Lemma exec_at_edge_dash_first c s :
  exec_at rx_edge_dash true (c :: s) = if c =? dash then Some (1%nat, []) else None.
Proof.
  unfold exec_at, rx_edge_dash. cbn [re_ast re_icase re_groups].
  cbn [rmatch ms_rest ms_len ms_caps andb Nat.eqb].
  unfold set_match. cbn [items_mem existsb citem_mem andb orb xorb].
  rewrite orb_false_r. fold dash. destruct (c =? dash); reflexivity.
Qed.

Lemma exec_at_edge_dash_later c s :
  exec_at rx_edge_dash false (c :: s)
  = if (c =? dash) && negb (truthy s) then Some (1%nat, []) else None.
Proof.
  unfold exec_at, rx_edge_dash. cbn [re_ast re_icase re_groups].
  cbn [rmatch ms_rest ms_len ms_caps andb Nat.eqb].
  unfold set_match. cbn [items_mem existsb citem_mem andb orb xorb].
  rewrite orb_false_r. fold dash.
  destruct (c =? dash); [|reflexivity]. destruct s; reflexivity.
Qed.

Lemma scan_edge_dash_later : forall s pos,
  subst_segs (fun _ _ _ => []) pos (scan rx_edge_dash false 0 s)
  = drop_last_dash s.
Proof.
  induction s as [|c s IH]; intros pos; [reflexivity|].
  cbn [scan]. rewrite exec_at_edge_dash_later.
  destruct s as [|c' s].
  - cbn [drop_last_dash]. destruct (c =? dash); reflexivity.
  - rewrite andb_false_r. cbn [subst_segs drop_last_dash]. f_equal. apply IH.
Qed.

Lemma replace_edge_dash s :
  replace_all_tpl rx_edge_dash [] s = trim_dashes s.
Proof.
  rewrite replace_all_tpl_plain by reflexivity.
  unfold replace_all. destruct s as [|c s]; [reflexivity|].
  cbn [scan]. rewrite exec_at_edge_dash_first. unfold trim_dashes.
  destruct (c =? dash); cbn [subst_segs app]; rewrite scan_edge_dash_later;
    reflexivity.
Qed.

Lemma replace_non_alnum s :
  replace_all_tpl rx_non_alnum (js "-") s
  = collapse_runs not_slug_char [dash] false s.
Proof.
  rewrite replace_all_tpl_plain by reflexivity.
  apply (replace_all_set_plus false true [CRange 97 122; CRange 48 57]).
Qed.

(** The shape [^[a-z0-9]+(-[a-z0-9]+)*$], read from left to right:
    [after_dash] tells that a word has to start here. *)
Fixpoint slug_tail (after_dash : bool) (s : str) : bool :=
  match s with
  | [] => negb after_dash
  | c :: s' =>
      if c =? dash then negb after_dash && slug_tail true s'
      else is_slug_char c && slug_tail false s'
  end.

Definition slug_shaped (s : str) : bool :=
  match s with [] => true | _ :: _ => slug_tail true s end.

(** The same without the condition on the last character. *)
Fixpoint dashes_ok (after_dash : bool) (s : str) : bool :=
  match s with
  | [] => true
  | c :: s' =>
      if c =? dash then negb after_dash && dashes_ok true s'
      else is_slug_char c && dashes_ok false s'
  end.

Lemma collapse_dashes_ok : forall s in_run,
  dashes_ok in_run (collapse_runs not_slug_char [dash] in_run s) = true.
Proof.
  induction s as [|c s IH]; intros in_run; [reflexivity|].
  cbn [collapse_runs]. rewrite not_slug_char_spec.
  destruct (is_slug_char c) eqn:Hc; cbn [negb].
  - cbn [dashes_ok]. rewrite (slug_char_not_dash c Hc), Hc. apply IH.
  - destruct in_run; cbn [app]; [apply IH|].
    cbn [dashes_ok]. rewrite N.eqb_refl. apply IH.
Qed.

Lemma drop_last_dash_cons c c' s :
  drop_last_dash (c :: c' :: s) = c :: drop_last_dash (c' :: s).
Proof. reflexivity. Qed.

Lemma drop_last_dash_shape : forall s after_dash,
  dashes_ok after_dash s = true ->
  drop_last_dash s = [] \/ slug_tail after_dash (drop_last_dash s) = true.
Proof.
  induction s as [|c s IH]; intros after_dash H; [left; reflexivity|].
  cbn [dashes_ok] in H. destruct s as [|c' s].
  - cbn [drop_last_dash].
    destruct (c =? dash) eqn:Hc; [left; reflexivity|right].
    cbn [slug_tail]. rewrite Hc.
    apply andb_true_iff in H as [-> _]. reflexivity.
  - right. rewrite drop_last_dash_cons. cbn [slug_tail].
    destruct (c =? dash) eqn:Hc; apply andb_true_iff in H as [H1 H2];
      rewrite H1; cbn [andb].
    + destruct (IH true H2) as [E | E]; [|exact E].
      exfalso. cbn [dashes_ok] in H2.
      destruct (c' =? dash) eqn:Hc'; [discriminate|].
      destruct s; cbn [drop_last_dash] in E; [rewrite Hc' in E|]; discriminate.
    + destruct (IH false H2) as [E | E]; [|exact E].
      rewrite E. reflexivity.
Qed.

Lemma dashes_ok_weaken s : dashes_ok false s = true ->
  match s with c :: _ => (c =? dash) = false | [] => True end ->
  dashes_ok true s = true.
Proof.
  destruct s as [|c s]; [reflexivity|]. cbn [dashes_ok]. intros H Hc.
  rewrite Hc in *. exact H.
Qed.

Lemma trim_collapse_shaped s :
  slug_shaped (trim_dashes (collapse_runs not_slug_char [dash] false s)) = true.
Proof.
  pose proof (collapse_dashes_ok s false) as H.
  destruct (collapse_runs not_slug_char [dash] false s) as [|c y]; [reflexivity|].
  cbn [trim_dashes dashes_ok] in *.
  destruct (c =? dash) eqn:Hc.
  - cbn [negb andb] in H. destruct (drop_last_dash_shape y true H) as [-> | E];
      [reflexivity|].
    unfold slug_shaped. destruct (drop_last_dash y); [reflexivity|exact E].
  - apply andb_true_iff in H as [H1 H2].
    unfold slug_shaped. cbn [slug_tail]. rewrite Hc, H1.
    destruct (drop_last_dash_shape y false H2) as [-> | E]; [reflexivity|exact E].
Qed.

(** A shaped string is left alone by each step of [slugify]. *)
Lemma slug_tail_dashes_ok : forall s b, slug_tail b s = true -> dashes_ok b s = true.
Proof.
  induction s as [|c s IH]; intros b H; [reflexivity|].
  cbn [slug_tail dashes_ok] in *.
  destruct (c =? dash); apply andb_true_iff in H as [-> H]; apply IH, H.
Qed.

Lemma collapse_fixes_shaped : forall s b,
  dashes_ok b s = true -> collapse_runs not_slug_char [dash] b s = s.
Proof.
  induction s as [|c s IH]; intros b H; [reflexivity|].
  cbn [dashes_ok collapse_runs] in *. rewrite not_slug_char_spec.
  destruct (c =? dash) eqn:Hc; apply andb_true_iff in H as [H1 H2].
  - apply N.eqb_eq in Hc. subst c. change (is_slug_char dash) with false.
    apply negb_true_iff in H1. subst b. cbn [negb app]. f_equal. apply IH, H2.
  - rewrite H1. cbn [negb]. f_equal. apply IH, H2.
Qed.

Lemma drop_last_dash_fixes_shaped : forall s b,
  slug_tail b s = true -> drop_last_dash s = s.
Proof.
  induction s as [|c s IH]; intros b H; [reflexivity|].
  cbn [slug_tail] in H. destruct s as [|c' s].
  - cbn [drop_last_dash]. destruct (c =? dash); [|reflexivity].
    cbn [slug_tail] in H. rewrite andb_false_r in H. discriminate.
  - rewrite drop_last_dash_cons. f_equal.
    destruct (c =? dash); apply andb_true_iff in H as [_ H]; eapply IH, H.
Qed.

Lemma trim_fixes_shaped s : slug_shaped s = true -> trim_dashes s = s.
Proof.
  destruct s as [|c s]; [reflexivity|]. unfold slug_shaped, trim_dashes.
  cbn [slug_tail]. destruct (c =? dash); [discriminate|].
  intros H. apply andb_true_iff in H as [_ H]. f_equal.
  eapply drop_last_dash_fixes_shaped, H.
Qed.

Lemma slug_tail_ascii_lower : forall s b,
  slug_tail b s = true ->
  forallb is_ascii s = true /\ map lower_char s = s.
Proof.
  induction s as [|c s IH]; intros b H; [split; reflexivity|].
  cbn [slug_tail] in H. cbn [forallb map].
  assert (Hc : is_ascii c = true /\ lower_char c = c).
  { destruct (c =? dash) eqn:Hc.
    - apply N.eqb_eq in Hc. subst c. split; reflexivity.
    - apply andb_true_iff in H as [H _].
      unfold is_slug_char, is_lower, is_digit, is_ascii, lower_char, is_upper in *.
      apply orb_true_iff in H.
      assert (Hrange : (97 <= c /\ c <= 122) \/ (48 <= c /\ c <= 57)).
      { destruct H as [H | H]; apply andb_true_iff in H as [H1 H2];
          apply N.leb_le in H1, H2; [left|right]; split; assumption. }
      split.
      + apply N.ltb_lt. lia.
      + destruct ((65 <=? c) && (c <=? 90)) eqn:E; [|reflexivity].
        apply andb_true_iff in E as [E1 E2]. apply N.leb_le in E1, E2. lia. }
  destruct Hc as [Hc1 Hc2]. rewrite Hc1, Hc2.
  assert (Hs : exists b', slug_tail b' s = true).
  { destruct (c =? dash); apply andb_true_iff in H as [_ H]; eauto. }
  destruct Hs as [b' Hs]. destruct (IH b' Hs) as [-> ->]. split; reflexivity.
Qed.

(** Shaped strings are the words over [a-z0-9] joined by single dashes. *)
Definition is_word (w : str) : Prop := w <> [] /\ forallb is_slug_char w = true.

Lemma slug_tail_words : forall s b,
  slug_tail b s = true ->
  exists w ws,
    forallb is_slug_char w = true /\ (b = true -> w <> []) /\
    Forall is_word ws /\ s = join [dash] (w :: ws).
Proof.
  induction s as [|c s IH]; intros b H.
  - destruct b; [discriminate|]. exists [], []. repeat split; try constructor.
    discriminate.
  - cbn [slug_tail] in H. destruct (c =? dash) eqn:Hc.
    + apply andb_true_iff in H as [Hb H]. apply negb_true_iff in Hb. subst b.
      destruct (IH true H) as (w & ws & Hw & Hne & Hws & ->).
      apply N.eqb_eq in Hc. subst c.
      exists [], (w :: ws). repeat split; try discriminate.
      constructor; [split; auto|exact Hws].
    + apply andb_true_iff in H as [Hch H].
      destruct (IH false H) as (w & ws & Hw & _ & Hws & ->).
      exists (c :: w), ws. repeat split; try discriminate; [|exact Hws].
      cbn [forallb]. rewrite Hch, Hw. reflexivity.
Qed.

Definition is_ascii_punct (c : char) : bool :=
  is_ascii c && negb (is_upper c || is_lower c || is_digit c).

Lemma collapse_runs_all P tpl : forall s,
  forallb P s = true -> collapse_runs P tpl true s = [].
Proof.
  induction s as [|c s IH]; [reflexivity|]. cbn [forallb collapse_runs].
  intros H. apply andb_true_iff in H as [-> H]. apply IH, H.
Qed.

Section SlugifyLaws.

Variable toLowerCase : str -> str.

(** On ASCII text [toLowerCase] maps [A-Z] to [a-z] and nothing else. *)
Hypothesis toLowerCase_ascii :
  forall s, forallb is_ascii s = true -> toLowerCase s = map lower_char s.

Lemma slugify_eq x :
  slugify toLowerCase x
  = trim_dashes (collapse_runs not_slug_char [dash] false (toLowerCase x)).
Proof. unfold slugify. rewrite replace_non_alnum. apply replace_edge_dash. Qed.

Lemma slugify_shaped x : slug_shaped (slugify toLowerCase x) = true.
Proof. rewrite slugify_eq. apply trim_collapse_shaped. Qed.

Lemma slugify_fixes_shaped s :
  slug_shaped s = true -> slugify toLowerCase s = s.
Proof.
  intros H. rewrite slugify_eq. destruct s as [|c s]; [|unfold slug_shaped in H].
  - rewrite toLowerCase_ascii by reflexivity. reflexivity.
  - destruct (slug_tail_ascii_lower (c :: s) true H) as [Ha Hl].
    rewrite toLowerCase_ascii, Hl by exact Ha.
    rewrite collapse_fixes_shaped.
    + apply trim_fixes_shaped. exact H.
    + cbn [slug_tail] in H. cbn [dashes_ok].
      destruct (c =? dash); [discriminate|].
      apply andb_true_iff in H as [-> H]. apply slug_tail_dashes_ok, H.
Qed.

Lemma slugify_punct x : forallb is_ascii_punct x = true -> slugify toLowerCase x = [].
Proof.
  intros H. rewrite slugify_eq.
  assert (Ha : forallb is_ascii x = true).
  { apply forallb_forall. intros c Hc.
    rewrite forallb_forall in H. specialize (H c Hc).
    apply andb_true_iff in H as [-> _]. reflexivity. }
  assert (Hp : forallb not_slug_char (map lower_char x) = true).
  { apply forallb_forall. intros c Hc. apply in_map_iff in Hc as (c0 & <- & Hc0).
    rewrite forallb_forall in H. specialize (H c0 Hc0).
    apply andb_true_iff in H as [_ H]. apply negb_true_iff in H.
    apply orb_false_iff in H as [H Hd]. apply orb_false_iff in H as [Hu Hl].
    unfold lower_char. rewrite Hu, not_slug_char_spec.
    unfold is_slug_char. rewrite Hl, Hd. reflexivity. }
  rewrite toLowerCase_ascii by exact Ha.
  destruct (map lower_char x) as [|c y]; [reflexivity|].
  cbn [forallb] in Hp. apply andb_true_iff in Hp as [Hc Hy].
  cbn [collapse_runs]. rewrite Hc, (collapse_runs_all _ _ y Hy). reflexivity.
Qed.

(** C9: slugify is idempotent; its result is empty or a dash-separated
    sequence of non-empty words over [a-z0-9], the language of
    [^[a-z0-9]+(-[a-z0-9]+)*$]; an input made of ASCII characters other than
    letters and digits (the empty input included) gives the empty string. *)
Theorem slugify_idempotent_and_shaped : forall x,
  slugify toLowerCase (slugify toLowerCase x) = slugify toLowerCase x
  /\ (slugify toLowerCase x = []
      \/ exists w ws, is_word w /\ Forall is_word ws
                      /\ slugify toLowerCase x = join [dash] (w :: ws))
  /\ (forallb is_ascii_punct x = true -> slugify toLowerCase x = []).
Proof.
  intros x. pose proof (slugify_shaped x) as H. split; [|split].
  - apply slugify_fixes_shaped, H.
  - destruct (slugify toLowerCase x) as [|c s] eqn:E; [left; reflexivity|right].
    unfold slug_shaped in H.
    destruct (slug_tail_words (c :: s) true H) as (w & ws & Hw & Hne & Hws & Hs).
    exists w, ws. repeat split; auto.
  - apply slugify_punct.
Qed.

End SlugifyLaws.

Lemma ascii_lower_law :
  forall s, forallb is_ascii s = true -> ascii_lower s = map lower_char s.
Proof. reflexivity. Qed.

Lemma slugify_idempotent_and_shaped_witness :
  slugify ascii_lower (slugify ascii_lower (js "Hello, World!"))
    = slugify ascii_lower (js "Hello, World!")
  /\ (slugify ascii_lower (js "Hello, World!") = []
      \/ exists w ws, is_word w /\ Forall is_word ws
           /\ slugify ascii_lower (js "Hello, World!") = join [dash] (w :: ws))
  /\ (forallb is_ascii_punct (js "Hello, World!") = true
      -> slugify ascii_lower (js "Hello, World!") = []).
Proof.
  exact (slugify_idempotent_and_shaped ascii_lower ascii_lower_law (js "Hello, World!")).
Defined.

(** ** Stepping the matcher over an input with unknown parts *)

Lemma set_star_greedy_stop P k c s l caps :
  P c = false ->
  set_star_greedy P k (c :: s) l caps = k (MState (c :: s) l caps).
Proof. intros H. simpl. rewrite H. reflexivity. Qed.

Lemma set_star_greedy_back P k c s l caps :
  P c = true ->
  set_star_greedy P k s (S l) caps = None ->
  set_star_greedy P k (c :: s) l caps = k (MState (c :: s) l caps).
Proof. intros H E. simpl. rewrite H, E. reflexivity. Qed.

Lemma set_star_greedy_prefix P k s caps r : forall a l,
  forallb P a = true ->
  set_star_greedy P k s (l + length a) caps = Some r ->
  set_star_greedy P k (a ++ s) l caps = Some r.
Proof.
  induction a as [|c a IH]; intros l Ha H.
  - simpl in H. rewrite Nat.add_0_r in H. exact H.
  - simpl in Ha. apply andb_true_iff in Ha as [Hc Ha].
    simpl. rewrite Hc, (IH (S l)); [reflexivity|exact Ha|].
    rewrite <- H. f_equal. simpl. lia.
Qed.

Lemma set_star_lazy_now P k s l caps r :
  k (MState s l caps) = Some r -> set_star_lazy P k s l caps = Some r.
Proof. intros H. destruct s; simpl; rewrite H; reflexivity. Qed.

Lemma set_star_lazy_next P k c s l caps :
  k (MState (c :: s) l caps) = None ->
  P c = true ->
  set_star_lazy P k (c :: s) l caps = set_star_lazy P k s (S l) caps.
Proof. intros H Hc. simpl. rewrite H, Hc. reflexivity. Qed.

(** A lazy star steps over a stretch at no point of which the continuation
    succeeds. *)
Lemma set_star_lazy_skip P k s caps : forall a l,
  forallb P a = true ->
  (forall a1 a2, a = a1 ++ a2 -> a2 <> [] ->
     k (MState (a2 ++ s) (l + length a1) caps) = None) ->
  set_star_lazy P k (a ++ s) l caps = set_star_lazy P k s (l + length a) caps.
Proof.
  induction a as [|c a IH]; intros l Ha Hk.
  - simpl. rewrite Nat.add_0_r. reflexivity.
  - simpl in Ha. apply andb_true_iff in Ha as [Hc Ha].
    change ((c :: a) ++ s) with (c :: a ++ s).
    rewrite set_star_lazy_next.
    + rewrite IH; [f_equal; simpl; lia|exact Ha|].
      intros a1 a2 E Hne.
      replace (S l + length a1)%nat with (l + length (c :: a1))%nat
        by (simpl; lia).
      apply Hk; [rewrite E; reflexivity|exact Hne].
    + specialize (Hk [] (c :: a) eq_refl). simpl in Hk.
      rewrite Nat.add_0_r in Hk. apply Hk. discriminate.
    + exact Hc.
Qed.

(** An expression without [^] does not see where the match starts. *)
Fixpoint no_bol (r : regex) : bool :=
  match r with
  | REmpty | RSet _ _ | REol => true
  | RSeq r1 r2 | RAlt r1 r2 => no_bol r1 && no_bol r2
  | RStar _ r' | RGroup _ r' | RNegLook r' => no_bol r'
  | RBol => false
  end.

Lemma star_loop_ext g (body body' : cont -> cont) :
  (forall k k', (forall st, k st = k' st) -> forall st, body k st = body' k' st) ->
  forall n k k', (forall st, k st = k' st) ->
  forall st, star_loop g body k n st = star_loop g body' k' n st.
Proof.
  intros Hb. induction n as [|n IH]; intros k k' Hk st; cbn [star_loop].
  - apply Hk.
  - rewrite (Hk st).
    rewrite (Hb (fun st' => if (ms_len st <? ms_len st')%nat
                            then star_loop g body k n st' else None)
                (fun st' => if (ms_len st <? ms_len st')%nat
                            then star_loop g body' k' n st' else None)).
    + reflexivity.
    + intros st'. destruct (ms_len st <? ms_len st')%nat; [apply IH, Hk|reflexivity].
Qed.

Lemma rmatch_ext ic : forall r b b',
  (no_bol r = true \/ b = b') ->
  forall k k', (forall st, k st = k' st) ->
  forall st, rmatch ic b r k st = rmatch ic b' r k' st.
Proof.
  induction r as [| neg items | r1 IH1 r2 IH2 | r1 IH1 r2 IH2 | g r IH | i r IH
                  | r IH | |]; intros b b' Hb k k' Hk st; cbn [rmatch].
  - apply Hk.
  - destruct (ms_rest st) as [|c s]; [reflexivity|].
    destruct (set_match ic neg items c); [apply Hk|reflexivity].
  - assert (H1 : no_bol r1 = true \/ b = b')
      by (destruct Hb as [Hb|Hb]; [left; cbn in Hb; apply andb_true_iff in Hb; tauto|right; exact Hb]).
    assert (H2 : no_bol r2 = true \/ b = b')
      by (destruct Hb as [Hb|Hb]; [left; cbn in Hb; apply andb_true_iff in Hb; tauto|right; exact Hb]).
    apply IH1; [exact H1|]. intros st'. apply IH2; [exact H2|exact Hk].
  - assert (H1 : no_bol r1 = true \/ b = b')
      by (destruct Hb as [Hb|Hb]; [left; cbn in Hb; apply andb_true_iff in Hb; tauto|right; exact Hb]).
    assert (H2 : no_bol r2 = true \/ b = b')
      by (destruct Hb as [Hb|Hb]; [left; cbn in Hb; apply andb_true_iff in Hb; tauto|right; exact Hb]).
    rewrite (IH1 b b' H1 k k' Hk st), (IH2 b b' H2 k k' Hk st). reflexivity.
  - apply star_loop_ext; [|exact Hk]. intros k1 k2 Hk12 st'.
    apply IH; [exact Hb|exact Hk12].
  - apply IH; [exact Hb|]. intros st'. apply Hk.
  - rewrite (IH b b' Hb Some Some (fun _ => eq_refl) st), (Hk st). reflexivity.
  - destruct Hb as [Hb | ->]; [discriminate|]. rewrite (Hk st). reflexivity.
  - destruct (ms_rest st); [apply Hk|reflexivity].
Qed.

Lemma exec_at_no_bol rx b s :
  no_bol (re_ast rx) = true -> exec_at rx b s = exec_at rx false s.
Proof.
  intros H. unfold exec_at.
  rewrite (rmatch_ext (re_icase rx) (re_ast rx) b false (or_introl H)
             Some Some (fun _ => eq_refl)).
  reflexivity.
Qed.

Lemma scan_no_bol rx : no_bol (re_ast rx) = true ->
  forall s b skip, scan rx b skip s = scan rx false skip s.
Proof.
  intros H. destruct s as [|c s]; intros b [|k]; cbn [scan];
    try rewrite (exec_at_no_bol rx b _ H); reflexivity.
Qed.

(** The scan of [pre ++ rest] when no match starts inside [pre]. *)
Lemma scan_prefix rx rest : forall pre b,
  (forall b' p1 p2, pre = p1 ++ p2 -> p2 <> [] -> exec_at rx b' (p2 ++ rest) = None) ->
  scan rx b 0 (pre ++ rest)
  = map SChar pre ++ scan rx (match pre with [] => b | _ => false end) 0 rest.
Proof.
  induction pre as [|c pre IH]; intros b H; [reflexivity|].
  cbn [app]. rewrite scan_no_match.
  - cbn [map app]. f_equal. rewrite IH.
    + destruct pre; reflexivity.
    + intros b' p1 p2 E Hne. apply (H b' (c :: p1) p2); [|exact Hne].
      rewrite E. reflexivity.
  - apply (H b [] (c :: pre) eq_refl). discriminate.
Qed.

Definition seg_text (f : str -> list (option str) -> str) (sg : seg) : str :=
  match sg with
  | SChar c => [c]
  | SMatch t caps => f t caps
  end.

Lemma subst_segs_flat f : forall segs pos,
  subst_segs (fun _ => f) pos segs = flat_map (seg_text f) segs.
Proof.
  induction segs as [|[c|t caps] segs IH]; intros pos; simpl;
    [reflexivity| |]; rewrite IH; reflexivity.
Qed.

Lemma replace_all_flat rx f s :
  replace_all rx f s = flat_map (seg_text f) (scan rx true 0 s).
Proof. apply subst_segs_flat. Qed.

Lemma flat_map_seg_chars f s : flat_map (seg_text f) (map SChar s) = s.
Proof. induction s; simpl; [|rewrite IHs]; reflexivity. Qed.

(** One match in the middle: the text before it has no match, the text after
    it is scanned on its own. *)
Lemma replace_all_one_match rx f pre m rest caps :
  no_bol (re_ast rx) = true ->
  m <> [] ->
  (forall b p1 p2, pre = p1 ++ p2 -> p2 <> [] ->
     exec_at rx b (p2 ++ m ++ rest) = None) ->
  exec_at rx false (m ++ rest) = Some (length m, caps) ->
  replace_all rx f (pre ++ m ++ rest) = pre ++ f m caps ++ replace_all rx f rest.
Proof.
  intros Hb Hm Hpre He. rewrite !replace_all_flat.
  rewrite scan_prefix by exact Hpre.
  rewrite (scan_no_bol rx Hb (m ++ rest)), (scan_no_bol rx Hb rest true).
  rewrite (scan_match rx false m rest caps Hm He).
  rewrite flat_map_app, flat_map_seg_chars. reflexivity.
Qed.

(** Capture groups around a repeated set. *)
Lemma group_plus_run ic bol i neg items k c0 run rest l caps r :
  set_match ic neg items c0 = true ->
  forallb (set_match ic neg items) run = true ->
  match rest with [] => true | c :: _ => negb (set_match ic neg items c) end = true ->
  k (MState rest (S l + length run) ((i, c0 :: run) :: caps)) = Some r ->
  rmatch ic bol (RGroup i (RSeq (RPlus true (RSet neg items)) REmpty)) k
    (MState (c0 :: run ++ rest) l caps) = Some r.
Proof.
  intros Hc Hrun Hrest Hk. unfold RPlus.
  rewrite rmatch_group, !rmatch_seq, rmatch_set_cons, Hc, rmatch_star_set.
  cbn [ms_rest ms_len ms_caps].
  apply set_star_greedy_run; [exact Hrun|exact Hrest|].
  rewrite rmatch_empty. unfold set_cap. cbn [ms_rest ms_len ms_caps].
  replace (S l + length run - l)%nat with (S (length run)) by lia.
  cbn [firstn]. rewrite firstn_app, firstn_all, Nat.sub_diag. cbn [firstn].
  rewrite app_nil_r. exact Hk.
Qed.

Lemma group_star_run ic bol i neg items k run rest l caps r :
  forallb (set_match ic neg items) run = true ->
  match rest with [] => true | c :: _ => negb (set_match ic neg items c) end = true ->
  k (MState rest (l + length run) ((i, run) :: caps)) = Some r ->
  rmatch ic bol (RGroup i (RSeq (RStar true (RSet neg items)) REmpty)) k
    (MState (run ++ rest) l caps) = Some r.
Proof.
  intros Hrun Hrest Hk.
  rewrite rmatch_group, !rmatch_seq, rmatch_star_set.
  cbn [ms_rest ms_len ms_caps].
  apply set_star_greedy_run; [exact Hrun|exact Hrest|].
  rewrite rmatch_empty. unfold set_cap. cbn [ms_rest ms_len ms_caps].
  replace (l + length run - l)%nat with (length run) by lia.
  rewrite firstn_app, firstn_all, Nat.sub_diag. cbn [firstn].
  rewrite app_nil_r. exact Hk.
Qed.

Lemma exec_at_result rx b s st n caps :
  rmatch (re_icase rx) b (re_ast rx) Some (MState s 0 []) = Some st ->
  ms_len st = n ->
  map (fun i => cap_lookup i (ms_caps st)) (seq 1 (re_groups rx)) = caps ->
  exec_at rx b s = Some (n, caps).
Proof. intros H <- <-. unfold exec_at. rewrite H. reflexivity. Qed.

(** Tactics: evaluate a test on a known character; step over a literal. *)
Ltac eval_set :=
  match goal with
  | |- context [set_match ?a ?b ?c ?d] =>
      let v := eval vm_compute in (set_match a b c d) in
      match v with
      | true => idtac
      | false => idtac
      end;
      change (set_match a b c d) with v; cbv iota
  end.

Ltac lit_step :=
  match goal with
  | |- rmatch _ _ (RSeq (RSet _ _) _) _ (MState (_ :: _) _ _) = _ =>
      rewrite rmatch_seq, rmatch_set_cons; eval_set
  end.

Ltac len_solve :=
  repeat first [rewrite length_app | progress cbn [length app]]; lia.

Ltac norm_js :=
  repeat match goal with
         | |- context [js ?s] =>
             let v := eval vm_compute in (js s) in change (js s) with v
         end;
  cbn [app].

(** ** [fixConfluenceLinks]: one placeholder link *)

Definition no_char (x : char) (s : str) : bool :=
  forallb (fun c => negb (c =? x)) s.

Definition placeholder_link (text slug : str) : str :=
  js "[" ++ text ++ js "](CONFLUENCE_LINK:" ++ slug ++ js ")".

Lemma no_char_set x s :
  no_char x s = true -> forallb (set_match false true [CChar x]) s = true.
Proof.
  intros H. apply forallb_forall. intros c Hc.
  unfold no_char in H. rewrite forallb_forall in H. specialize (H c Hc).
  unfold set_match. cbn. rewrite orb_false_r, orb_false_r. exact H.
Qed.

Lemma exec_at_placeholder text slug post :
  text <> [] -> no_char 93 text = true ->
  slug <> [] -> no_char 41 slug = true ->
  exec_at rx_placeholder false (placeholder_link text slug ++ post)
  = Some (length (placeholder_link text slug), [Some text; Some slug]).
Proof.
  intros Ht1 Ht2 Hs1 Hs2.
  destruct text as [|t0 text]; [congruence|].
  destruct slug as [|s0 slug]; [congruence|].
  apply no_char_set in Ht2, Hs2. cbn [forallb] in Ht2, Hs2.
  apply andb_true_iff in Ht2 as [Ht0 Ht2], Hs2 as [Hs0 Hs2].
  unfold placeholder_link. rewrite <- !app_assoc.
  eapply exec_at_result.
  - unfold rx_placeholder. cbn [re_ast re_icase re_groups]. norm_js.
    lit_step. rewrite rmatch_seq.
    apply (group_plus_run false false 1 true [CChar 93]);
      [exact Ht0|exact Ht2|reflexivity|].
    repeat lit_step. rewrite rmatch_seq.
    apply (group_plus_run false false 2 true [CChar 41]);
      [exact Hs0|exact Hs2|reflexivity|].
    lit_step. rewrite rmatch_empty. reflexivity.
  - cbn [ms_len]. norm_js. len_solve.
  - reflexivity.
Qed.

Lemma exec_at_lead_fail rx x r b c t :
  re_ast rx = RSeq (RSet false [CChar x]) r ->
  set_match (re_icase rx) false [CChar x] c = false ->
  exec_at rx b (c :: t) = None.
Proof.
  intros E H. unfold exec_at. rewrite E, rmatch_seq, rmatch_set_cons, H.
  reflexivity.
Qed.

Lemma no_char_suffix x p1 c p2 :
  no_char x (p1 ++ c :: p2) = true -> (c =? x) = false.
Proof.
  unfold no_char. rewrite forallb_app. cbn [forallb]. intros H.
  apply andb_true_iff in H as [_ H]. apply andb_true_iff in H as [H _].
  apply negb_true_iff, H.
Qed.

Section LinkResolver.

Variable toLowerCase : str -> str.
Variable pages : pageMap.
Variable currentPath : str.

Let slugs := slugToPath toLowerCase pages.

Lemma fix_placeholders_step pre text slug post :
  no_char 91 pre = true ->
  text <> [] -> no_char 93 text = true ->
  slug <> [] -> no_char 41 slug = true ->
  fix_placeholders slugs currentPath (pre ++ placeholder_link text slug ++ post)
  = pre
    ++ fix_placeholder slugs currentPath (placeholder_link text slug)
         [Some text; Some slug]
    ++ fix_placeholders slugs currentPath post.
Proof.
  intros Hpre Ht1 Ht2 Hs1 Hs2. unfold fix_placeholders.
  apply replace_all_one_match.
  - reflexivity.
  - unfold placeholder_link. discriminate.
  - intros b p1 [|c p2] E Hne; [congruence|]. subst pre.
    apply (exec_at_lead_fail rx_placeholder 91 _ b c _ eq_refl).
    apply no_char_suffix in Hpre. unfold set_match. cbn.
    rewrite Hpre. reflexivity.
  - apply exec_at_placeholder; assumption.
Qed.


End LinkResolver.

Definition example_pages : pageMap :=
  [(js "1", PageInfo (js "Root") (js "root/"));
   (js "2", PageInfo (js "Target Page") (js "a/b/"))].


(** ** Where an expression cannot match

    [lead_sets r] is a sequence of sets that every match of [r] has to begin
    with; an input decided against it within its known part starts no
    match. *)

Fixpoint union_sets (a b : list (bool * list citem)) : list (bool * list citem) :=
  match a, b with
  | (false, i1) :: a', (false, i2) :: b' => (false, i1 ++ i2) :: union_sets a' b'
  | _, _ => []
  end.

(** The sets of an expression that matches texts of one length only, one
    set for each character. *)
Fixpoint exact_sets (r : regex) : option (list (bool * list citem)) :=
  match r with
  | REmpty => Some []
  | RSet neg items => Some [(neg, items)]
  | RSeq r1 r2 =>
      match exact_sets r1, exact_sets r2 with
      | Some a, Some b => Some (a ++ b)
      | _, _ => None
      end
  | RAlt r1 r2 =>
      match exact_sets r1, exact_sets r2 with
      | Some a, Some b =>
          let u := union_sets a b in
          if ((length u =? length a) && (length u =? length b))%nat
          then Some u else None
      | _, _ => None
      end
  | RGroup _ r1 => exact_sets r1
  | _ => None
  end.

Fixpoint lead_sets (r : regex) : list (bool * list citem) :=
  match r with
  | RSet neg items => [(neg, items)]
  | RSeq r1 r2 =>
      match exact_sets r1 with
      | Some a => a ++ lead_sets r2
      | None => lead_sets r1
      end
  | RAlt r1 r2 => union_sets (lead_sets r1) (lead_sets r2)
  | RGroup _ r1 => lead_sets r1
  | _ => []
  end.

Fixpoint decided_fail (ic : bool) (sets : list (bool * list citem)) (s : str)
    : bool :=
  match sets, s with
  | (neg, items) :: sets', c :: s' =>
      if set_match ic neg items c then decided_fail ic sets' s' else true
  | _, _ => false
  end.

Fixpoint all_decided (ic : bool) (sets : list (bool * list citem)) (s : str)
    : bool :=
  match s with
  | [] => true
  | c :: s' => decided_fail ic sets (c :: s') && all_decided ic sets s'
  end.

Lemma decided_fail_app ic : forall sets s rest,
  decided_fail ic sets s = true -> decided_fail ic sets (s ++ rest) = true.
Proof.
  induction sets as [|[neg items] sets IH]; intros [|c s] rest H;
    try discriminate.
  cbn [decided_fail app] in *.
  destruct (set_match ic neg items c); [apply IH, H|reflexivity].
Qed.

Lemma all_decided_app ic sets : forall a b,
  all_decided ic sets a = true -> all_decided ic sets b = true ->
  all_decided ic sets (a ++ b) = true.
Proof.
  induction a as [|c a IH]; intros b Ha Hb; [exact Hb|].
  cbn [all_decided] in Ha. apply andb_true_iff in Ha as [H1 H2].
  pose proof (decided_fail_app ic sets (c :: a) b H1) as E.
  cbn [app] in *. cbn [all_decided]. rewrite E. apply IH; assumption.
Qed.

Lemma all_decided_suffix ic sets : forall p c t,
  all_decided ic sets (p ++ c :: t) = true -> decided_fail ic sets (c :: t) = true.
Proof.
  induction p as [|x p IH]; intros c t H; cbn [app all_decided] in H;
    apply andb_true_iff in H as [H1 H2]; [exact H1|apply IH, H2].
Qed.

(** A text none of whose characters is in the first set. *)
Lemma all_decided_free ic neg items sets s :
  forallb (fun c => negb (set_match ic neg items c)) s = true ->
  all_decided ic ((neg, items) :: sets) s = true.
Proof.
  induction s as [|c s IH]; intros H; [reflexivity|].
  cbn [forallb] in H. apply andb_true_iff in H as [Hc H].
  apply negb_true_iff in Hc. cbn [all_decided decided_fail]. rewrite Hc.
  apply IH, H.
Qed.

Lemma set_match_union ic i1 i2 c :
  set_match ic false (i1 ++ i2) c
  = set_match ic false i1 c || set_match ic false i2 c.
Proof.
  unfold set_match, items_mem. cbn [xorb]. rewrite !existsb_app.
  destruct (existsb _ i1); destruct (existsb _ i2); destruct ic; cbn;
    try reflexivity; destruct (existsb _ i1); reflexivity.
Qed.

Lemma decided_fail_union ic : forall a b s,
  decided_fail ic (union_sets a b) s = true ->
  decided_fail ic a s = true /\ decided_fail ic b s = true.
Proof.
  induction a as [|[[] i1] a IH]; intros [|[[] i2] b] [|c s] H;
    cbn [union_sets decided_fail] in *; try discriminate.
  rewrite set_match_union in H.
  destruct (set_match ic false i1 c); destruct (set_match ic false i2 c);
    cbn [orb] in H; try (split; reflexivity);
    destruct (IH b s H) as [H1 H2]; split; try reflexivity; assumption.
Qed.

Lemma union_sets_length : forall a b,
  length (union_sets a b) = length a -> length (union_sets a b) = length b ->
  forall ic more s,
    decided_fail ic (union_sets a b ++ more) s = true ->
    decided_fail ic (a ++ more) s = true /\ decided_fail ic (b ++ more) s = true.
Proof.
  induction a as [|[[] i1] a IH]; intros [|[[] i2] b] Ha Hb ic more s H;
    cbn [union_sets length] in Ha, Hb; try discriminate.
  - split; exact H.
  - cbn [union_sets app] in H. cbn [app].
    destruct s as [|c s]; [destruct more as [|[? ?] ?]; discriminate|].
    cbn [decided_fail] in *. rewrite set_match_union in H.
    injection Ha as Ha. injection Hb as Hb.
    destruct (set_match ic false i1 c); destruct (set_match ic false i2 c);
      cbn [orb] in H; try (split; reflexivity);
      destruct (IH b Ha Hb ic more s H) as [H1 H2];
      split; try reflexivity; assumption.
Qed.

Lemma exact_sets_sound ic b : forall r sets,
  exact_sets r = Some sets ->
  forall more k st,
    (forall st', decided_fail ic more (ms_rest st') = true -> k st' = None) ->
    decided_fail ic (sets ++ more) (ms_rest st) = true ->
    rmatch ic b r k st = None.
Proof.
  induction r as [| neg items | r1 IH1 r2 IH2 | r1 IH1 r2 IH2 | g r IH | i r IH
                  | r IH | |]; intros sets E more k st Hk H;
    cbn [exact_sets] in E; try discriminate.
  - injection E as <-. apply Hk, H.
  - injection E as <-. destruct st as [[|c s] l caps]; [reflexivity|].
    rewrite rmatch_set_cons. cbn [app decided_fail ms_rest] in H.
    destruct (set_match ic neg items c); [|reflexivity]. apply Hk, H.
  - destruct (exact_sets r1) as [a|]; [|discriminate].
    destruct (exact_sets r2) as [a2|]; [|discriminate]. injection E as <-.
    rewrite rmatch_seq. rewrite <- app_assoc in H.
    apply (IH1 a eq_refl (a2 ++ more)); [|exact H].
    intros st' H'. apply (IH2 a2 eq_refl more); assumption.
  - destruct (exact_sets r1) as [a|]; [|discriminate].
    destruct (exact_sets r2) as [a2|]; [|discriminate].
    destruct (_ && _)%nat eqn:L in E; [|discriminate]. injection E as <-.
    apply andb_true_iff in L as [L1 L2].
    apply Nat.eqb_eq in L1. apply Nat.eqb_eq in L2.
    destruct (union_sets_length a a2 L1 L2 ic more _ H) as [H1 H2].
    rewrite rmatch_alt, (IH1 a eq_refl more k st Hk H1),
      (IH2 a2 eq_refl more k st Hk H2). reflexivity.
  - rewrite rmatch_group. apply (IH sets E more); [|exact H].
    intros st' H'. apply Hk. exact H'.
Qed.

Lemma exact_sets_nil ic b : forall r sets,
  exact_sets r = Some sets ->
  forall k l caps,
    (sets = [] -> forall l' caps', k (MState [] l' caps') = None) ->
    rmatch ic b r k (MState [] l caps) = None.
Proof.
  induction r as [| neg items | r1 IH1 r2 IH2 | r1 IH1 r2 IH2 | g r IH | i r IH
                  | r IH | |]; intros sets E k l caps Hk;
    cbn [exact_sets] in E; try discriminate.
  - injection E as <-. apply Hk. reflexivity.
  - reflexivity.
  - destruct (exact_sets r1) as [a|]; [|discriminate].
    destruct (exact_sets r2) as [a2|]; [|discriminate]. injection E as <-.
    rewrite rmatch_seq. apply (IH1 a eq_refl). intros -> l' caps'.
    apply (IH2 a2 eq_refl). intros ->. apply Hk. reflexivity.
  - destruct (exact_sets r1) as [a|]; [|discriminate].
    destruct (exact_sets r2) as [a2|]; [|discriminate].
    destruct (_ && _)%nat eqn:L in E; [|discriminate]. injection E as <-.
    apply andb_true_iff in L as [L1 L2].
    apply Nat.eqb_eq in L1. apply Nat.eqb_eq in L2.
    rewrite rmatch_alt, (IH1 a eq_refl k l caps), (IH2 a2 eq_refl k l caps).
    + reflexivity.
    + intros ->. apply Hk.
      first [reflexivity | destruct a as [|[[] ?] ?]; reflexivity].
    + intros ->. apply Hk.
      first [reflexivity | destruct a as [|[[] ?] ?]; reflexivity].
  - rewrite rmatch_group. apply (IH sets E). intros -> l' caps'.
    unfold set_cap. cbn [ms_rest ms_len ms_caps]. apply Hk. reflexivity.
Qed.

Lemma lead_sets_sound ic b : forall r k st,
  decided_fail ic (lead_sets r) (ms_rest st) = true -> rmatch ic b r k st = None.
Proof.
  induction r as [| neg items | r1 IH1 r2 IH2 | r1 IH1 r2 IH2 | g r IH | i r IH
                  | r IH | |]; intros k st H; try discriminate.
  - destruct st as [[|c s] l caps]; [discriminate|].
    rewrite rmatch_set_cons. cbn [lead_sets decided_fail ms_rest] in H.
    destruct (set_match ic neg items c); [|reflexivity].
    destruct s; discriminate.
  - rewrite rmatch_seq. cbn [lead_sets] in H.
    destruct (exact_sets r1) as [a|] eqn:E; [|apply IH1; exact H].
    apply (exact_sets_sound ic b r1 a E (lead_sets r2)); [|exact H].
    intros st' H'. apply IH2, H'.
  - cbn [lead_sets] in H. apply decided_fail_union in H as [H1 H2].
    rewrite rmatch_alt, (IH1 k st H1), (IH2 k st H2). reflexivity.
  - rewrite rmatch_group. apply IH, H.
Qed.

Lemma union_sets_nil a b : union_sets a b <> [] -> a <> [] /\ b <> [].
Proof. destruct a as [|[[] ?] ?]; destruct b; cbn; intros H; split; congruence. Qed.

Lemma lead_sets_nil ic b : forall r k l caps,
  lead_sets r <> [] -> rmatch ic b r k (MState [] l caps) = None.
Proof.
  induction r as [| neg items | r1 IH1 r2 IH2 | r1 IH1 r2 IH2 | g r IH | i r IH
                  | r IH | |]; intros k l caps H; cbn [lead_sets] in H;
    try congruence.
  - reflexivity.
  - rewrite rmatch_seq.
    destruct (exact_sets r1) as [a|] eqn:E; [|apply IH1; exact H].
    apply (exact_sets_nil ic b r1 a E). intros -> l' caps'.
    apply IH2. exact H.
  - apply union_sets_nil in H as [H1 H2].
    rewrite rmatch_alt, (IH1 k l caps H1), (IH2 k l caps H2). reflexivity.
  - rewrite rmatch_group. apply IH, H.
Qed.

Lemma all_decided_no_match rx s :
  lead_sets (re_ast rx) <> [] ->
  all_decided (re_icase rx) (lead_sets (re_ast rx)) s = true ->
  no_match_in rx s.
Proof.
  intros Hne H b t [p Hp]. subst s. unfold exec_at.
  destruct t as [|c t].
  - rewrite lead_sets_nil by exact Hne. reflexivity.
  - rewrite lead_sets_sound; [reflexivity|].
    apply (all_decided_suffix _ _ p c t H).
Qed.

(** ** [convertCodeBlock] *)

(** What becomes of one character of the code: a tab is a newline, [&], [<]
    and [>] are entities, every other character (the quotes among them) is
    kept. *)
Definition escape_code_char (c : char) : str :=
  if c =? 9 then [newline]
  else if c =? 38 then js "&amp;"
  else if c =? 60 then js "&lt;"
  else if c =? 62 then js "&gt;"
  else [c].

Lemma flat_map_comp (f g : char -> str) : forall s,
  flat_map f (flat_map g s) = flat_map (fun c => flat_map f (g c)) s.
Proof.
  induction s as [|c s IH]; [reflexivity|].
  cbn [flat_map]. rewrite flat_map_app, IH. reflexivity.
Qed.

Lemma replace_one_char rx x tpl s :
  rx = Regexp (RSeq (RSet false [CChar x]) REmpty) 0 false ->
  forallb (fun c => negb (c =? 36)) tpl = true ->
  replace_all_tpl rx tpl s = flat_map (fun c => if c =? x then tpl else [c]) s.
Proof.
  intros -> Hplain. rewrite replace_all_tpl_plain by exact Hplain.
  rewrite (replace_all_set_one false false [CChar x]).
  apply flat_map_ext. intros c. unfold set_match. cbn.
  rewrite !orb_false_r. reflexivity.
Qed.

Lemma escape_code_chars code :
  replace_all_tpl rx_gt (js "&gt;")
    (replace_all_tpl rx_lt (js "&lt;")
       (replace_all_tpl rx_amp (js "&amp;")
          (replace_all_tpl rx_tab [newline] code)))
  = flat_map escape_code_char code.
Proof.
  rewrite (replace_one_char rx_tab 9 [newline] code eq_refl eq_refl).
  rewrite (replace_one_char rx_amp 38 (js "&amp;") _ eq_refl eq_refl).
  rewrite (replace_one_char rx_lt 60 (js "&lt;") _ eq_refl eq_refl).
  rewrite (replace_one_char rx_gt 62 (js "&gt;") _ eq_refl eq_refl).
  rewrite !flat_map_comp. apply flat_map_ext. intros c.
  unfold escape_code_char.
  destruct (c =? 9) eqn:E9; [reflexivity|].
  cbn [flat_map app]. rewrite app_nil_r.
  destruct (c =? 38) eqn:E38; [reflexivity|].
  cbn [flat_map app]. rewrite app_nil_r.
  destruct (c =? 60) eqn:E60; [reflexivity|].
  cbn [flat_map app]. rewrite app_nil_r.
  destruct (c =? 62) eqn:E62; reflexivity.
Qed.

Lemma convertCodeBlock_eq code language :
  convertCodeBlock code language
  = js "<pre><code class=~language-" ++ language ++ js "~>"
    ++ flat_map escape_code_char code ++ js "</code></pre>".
Proof. unfold convertCodeBlock. rewrite escape_code_chars. reflexivity. Qed.

Lemma escape_code_no_lt code : no_char 60 (flat_map escape_code_char code) = true.
Proof.
  unfold no_char. induction code as [|c code IH]; [reflexivity|].
  change (flat_map escape_code_char (c :: code))
    with (escape_code_char c ++ flat_map escape_code_char code).
  rewrite forallb_app. apply andb_true_iff. split; [|exact IH].
  unfold escape_code_char.
  destruct (c =? 9); [reflexivity|]. destruct (c =? 38); [reflexivity|].
  destruct (c =? 60) eqn:E; [reflexivity|]. destruct (c =? 62); [reflexivity|].
  cbn. rewrite E. reflexivity.
Qed.

(** ** More steps: backing off to a literal, skipping up to a literal *)

Lemma set_star_greedy_none P k rest caps : forall run l,
  forallb P run = true ->
  match rest with [] => true | c :: _ => negb (P c) end = true ->
  (forall r1 r2, run = r1 ++ r2 ->
     k (MState (r2 ++ rest) (l + length r1) caps) = None) ->
  set_star_greedy P k (run ++ rest) l caps = None.
Proof.
  induction run as [|c run IH]; intros l Hrun Hrest Hk.
  - specialize (Hk [] [] eq_refl). cbn [app length] in *.
    rewrite Nat.add_0_r in Hk. destruct rest as [|c rest]; [exact Hk|].
    apply negb_true_iff in Hrest. rewrite set_star_greedy_stop; assumption.
  - cbn [forallb] in Hrun. apply andb_true_iff in Hrun as [Hc Hrun].
    cbn [app]. rewrite set_star_greedy_back.
    + specialize (Hk [] (c :: run) eq_refl). cbn [app length] in Hk.
      rewrite Nat.add_0_r in Hk. exact Hk.
    + exact Hc.
    + apply IH; [exact Hrun|exact Hrest|].
      intros r1 r2 E. specialize (Hk (c :: r1) r2).
      replace (S l + length r1)%nat with (l + length (c :: r1))%nat
        by (cbn [length]; lia).
      apply Hk. rewrite E. reflexivity.
Qed.

Lemma all_decided_split ic sets run c rest :
  all_decided ic sets (run ++ [c]) = true ->
  forall r1 r2, run = r1 ++ r2 -> decided_fail ic sets (r2 ++ c :: rest) = true.
Proof.
  intros H r1 r2 E. subst run. rewrite <- app_assoc in H.
  destruct r2 as [|x r2].
  - cbn [app] in *. apply all_decided_suffix in H.
    apply (decided_fail_app ic sets [c] rest H).
  - cbn [app] in H. apply all_decided_suffix in H.
    pose proof (decided_fail_app ic sets (x :: r2 ++ [c]) rest H) as D.
    cbn [app] in D. rewrite <- app_assoc in D. exact D.
Qed.

(** [[set]*] followed by a literal inside a tag: the star runs up to the
    stop character and comes back to the first place where the literal
    fits. *)
Lemma greedy_fit ic b neg items r k0 a c0 run cstop rest l caps res :
  forallb (set_match ic neg items) a = true ->
  set_match ic neg items c0 = true ->
  forallb (set_match ic neg items) run = true ->
  set_match ic neg items cstop = false ->
  all_decided ic (lead_sets r) (run ++ [cstop]) = true ->
  rmatch ic b r k0 (MState (c0 :: run ++ cstop :: rest) (l + length a) caps)
    = Some res ->
  rmatch ic b (RSeq (RStar true (RSet neg items)) r) k0
    (MState (a ++ c0 :: run ++ cstop :: rest) l caps) = Some res.
Proof.
  intros Ha Hc0 Hrun Hstop Hdec Hk.
  rewrite rmatch_seq, rmatch_star_set. cbn [ms_rest ms_len ms_caps].
  apply set_star_greedy_prefix; [exact Ha|].
  rewrite set_star_greedy_back; [exact Hk|exact Hc0|].
  apply set_star_greedy_none; [exact Hrun| |].
  - rewrite Hstop. reflexivity.
  - intros r1 r2 E. apply lead_sets_sound. cbn [ms_rest].
    apply (all_decided_split ic _ run cstop rest Hdec r1 r2 E).
Qed.

(** The same when the literal fits where the star starts. *)
Lemma greedy_fit_here ic b neg items r k0 c0 run cstop rest l caps res :
  set_match ic neg items c0 = true ->
  forallb (set_match ic neg items) run = true ->
  set_match ic neg items cstop = false ->
  all_decided ic (lead_sets r) (run ++ [cstop]) = true ->
  rmatch ic b r k0 (MState (c0 :: run ++ cstop :: rest) l caps) = Some res ->
  rmatch ic b (RSeq (RStar true (RSet neg items)) r) k0
    (MState (c0 :: run ++ cstop :: rest) l caps) = Some res.
Proof.
  intros Hc0 Hrun Hstop Hdec Hk.
  apply (greedy_fit ic b neg items r k0 [] c0 run cstop rest l caps res);
    try assumption; [reflexivity|].
  cbn [length]. rewrite Nat.add_0_r. exact Hk.
Qed.

Lemma greedy_stop ic b neg items r k0 c rest l caps :
  set_match ic neg items c = false ->
  rmatch ic b (RSeq (RStar true (RSet neg items)) r) k0 (MState (c :: rest) l caps)
  = rmatch ic b r k0 (MState (c :: rest) l caps).
Proof.
  intros H. rewrite rmatch_seq, rmatch_star_set. cbn [ms_rest ms_len ms_caps].
  apply set_star_greedy_stop, H.
Qed.

Lemma lazy_now ic b neg items r k0 st res :
  rmatch ic b r k0 st = Some res ->
  rmatch ic b (RSeq (RStar false (RSet neg items)) r) k0 st = Some res.
Proof.
  intros H. rewrite rmatch_seq, rmatch_star_set. destruct st as [s l caps].
  apply set_star_lazy_now, H.
Qed.

Lemma group_lazy_skip ic b i neg items k body rest l caps res :
  forallb (set_match ic neg items) body = true ->
  (forall a1 a2 caps', body = a1 ++ a2 -> a2 <> [] ->
     k (MState (a2 ++ rest) (l + length a1) caps') = None) ->
  k (MState rest (l + length body) ((i, body) :: caps)) = Some res ->
  rmatch ic b (RGroup i (RSeq (RStar false (RSet neg items)) REmpty)) k
    (MState (body ++ rest) l caps) = Some res.
Proof.
  intros Hbody Hfail Hk.
  rewrite rmatch_group, rmatch_seq, rmatch_star_set.
  cbn [ms_rest ms_len ms_caps].
  rewrite set_star_lazy_skip.
  - apply set_star_lazy_now. rewrite rmatch_empty. unfold set_cap.
    cbn [ms_rest ms_len ms_caps].
    replace (l + length body - l)%nat with (length body) by lia.
    rewrite firstn_app, firstn_all, Nat.sub_diag. cbn [firstn].
    rewrite app_nil_r. exact Hk.
  - exact Hbody.
  - intros a1 a2 E Hne. rewrite rmatch_empty. apply Hfail; assumption.
Qed.

Lemma any_char ic s : forallb (set_match ic false [CSpace; CNonSpace]) s = true.
Proof.
  apply forallb_forall. intros c _. unfold set_match, items_mem.
  cbn [existsb citem_mem xorb]. destruct (is_space c); reflexivity.
Qed.

(** A literal that is not a letter is matched by itself alone, with or
    without the [i] flag. *)
Lemma set_match_symbol ic p c :
  is_upper p = false -> is_lower p = false ->
  set_match ic false [CChar p] c = (c =? p).
Proof.
  intros Hu Hl. unfold set_match, items_mem. cbn [existsb citem_mem xorb].
  rewrite !orb_false_r. destruct (c =? p) eqn:E; [reflexivity|].
  destruct ic; [|reflexivity]. cbn [orb andb]. apply N.eqb_neq.
  unfold swap_case. intros H.
  destruct (is_upper c) eqn:Uc.
  - unfold is_upper, is_lower in *. apply andb_true_iff in Uc as [U1 U2].
    apply N.leb_le in U1, U2.
    assert (Hp : (97 <=? p) && (p <=? 122) = true)
      by (apply andb_true_iff; split; apply N.leb_le; lia).
    congruence.
  - destruct (is_lower c) eqn:Lc.
    + unfold is_upper, is_lower in *. apply andb_true_iff in Lc as [L1 L2].
      apply N.leb_le in L1, L2.
      assert (Hp : (65 <=? p) && (p <=? 90) = true)
        by (apply andb_true_iff; split; apply N.leb_le; lia).
      congruence.
    + apply N.eqb_neq in E. congruence.
Qed.

(** ** The code macro rules *)

Fixpoint occurs (pat s : str) : bool :=
  starts_with pat s
  || match s with
     | [] => false
     | _ :: s' => occurs pat s'
     end.

Lemma occurs_app_r pat : forall a b, occurs pat (a ++ b) = false -> occurs pat b = false.
Proof.
  induction a as [|c a IH]; intros b H; [exact H|].
  cbn [app occurs] in H. apply orb_false_iff in H as [_ H]. apply IH, H.
Qed.

Definition cdata_end : str := js "]]>".

Lemma cdata_end_decided ic sets body a1 a2 rest :
  occurs cdata_end body = false ->
  body = a1 ++ a2 -> a2 <> [] ->
  decided_fail ic
    ((false, [CChar 93]) :: (false, [CChar 93]) :: (false, [CChar 62]) :: sets)
    (a2 ++ 93 :: 93 :: 62 :: rest) = true.
Proof.
  intros Hocc -> Hne. apply occurs_app_r in Hocc.
  destruct a2 as [|x a2]; [congruence|]. clear Hne.
  cbn [app decided_fail]. rewrite !(set_match_symbol ic) by reflexivity.
  destruct (x =? 93) eqn:Ex; [|reflexivity].
  destruct a2 as [|y a2]; cbn [app decided_fail];
    rewrite !(set_match_symbol ic) by reflexivity; [reflexivity|].
  destruct (y =? 93) eqn:Ey; [|reflexivity].
  destruct a2 as [|z a2]; cbn [app decided_fail];
    rewrite !(set_match_symbol ic) by reflexivity; [reflexivity|].
  destruct (z =? 62) eqn:Ez; [|reflexivity].
  exfalso. cbn [occurs] in Hocc. apply orb_false_iff in Hocc as [Hocc _].
  unfold cdata_end in Hocc. cbn in Hocc. rewrite Ex, Ey, Ez in Hocc. discriminate.
Qed.

Lemma no_char_neg_set ic x s :
  is_upper x = false -> is_lower x = false ->
  no_char x s = true -> forallb (set_match ic true [CChar x]) s = true.
Proof.
  intros Hu Hl H. apply forallb_forall. intros c Hc.
  unfold no_char in H. rewrite forallb_forall in H. specialize (H c Hc).
  pose proof (set_match_symbol ic x c Hu Hl) as E.
  unfold set_match in *. cbn [xorb] in *.
  destruct (items_mem [CChar x] c || ic && items_mem [CChar x] (swap_case c));
    cbn [negb xorb]; rewrite <- E in H; [discriminate|reflexivity].
Qed.

Definition code_macro (language body : str) : str :=
  js "<ac:structured-macro ac:name=~code~><ac:parameter ac:name=~language~>"
    ++ language ++ js "</ac:parameter><ac:plain-text-body><![CDATA["
    ++ body ++ js "]]></ac:plain-text-body></ac:structured-macro>".

Definition code_macro_plain (body : str) : str :=
  js "<ac:structured-macro ac:name=~code~><ac:plain-text-body><![CDATA["
    ++ body ++ js "]]></ac:plain-text-body></ac:structured-macro>".

Ltac norm_state := norm_js; cbn [app length Nat.add].

Lemma exec_at_code_lang language body post :
  no_char 60 language = true ->
  occurs cdata_end body = false ->
  exec_at rx_code_lang false (code_macro language body ++ post)
  = Some (length (code_macro language body), [Some language; Some body]).
Proof.
  intros Hl Hb. unfold code_macro. rewrite <- !app_assoc.
  eapply exec_at_result.
  - unfold rx_code_lang. cbn [re_ast re_icase re_groups]. norm_js.
    repeat lit_step.
    eapply (greedy_fit true false true [CChar 62] _ _ [32] 97 (js "c:name=~code~") 62);
      [reflexivity|reflexivity|reflexivity|reflexivity|vm_compute; reflexivity|].
    norm_state. repeat lit_step.
    rewrite greedy_stop by reflexivity. lit_step.
    apply lazy_now. repeat lit_step.
    eapply (greedy_fit true false true [CChar 62] _ _ [32] 97 (js "c:name=~language~") 62);
      [reflexivity|reflexivity|reflexivity|reflexivity|vm_compute; reflexivity|].
    norm_state. repeat lit_step.
    rewrite greedy_stop by reflexivity. lit_step.
    rewrite rmatch_seq.
    apply (group_star_run true false 1 true [CChar 60]);
      [apply no_char_neg_set; [reflexivity|reflexivity|exact Hl]|reflexivity|].
    repeat lit_step.
    apply lazy_now. repeat lit_step.
    rewrite rmatch_seq.
    apply (group_lazy_skip true false 2 false [CSpace; CNonSpace]);
      [apply any_char| |].
    + intros a1 a2 caps' E Hne. apply lead_sets_sound. cbn [ms_rest lead_sets].
      apply (cdata_end_decided true _ body a1 a2 _ Hb E Hne).
    + repeat lit_step. apply lazy_now. repeat lit_step.
      rewrite rmatch_empty. reflexivity.
  - cbn [ms_len]. norm_js. len_solve.
  - reflexivity.
Qed.

Lemma exec_at_code_plain body post :
  occurs cdata_end body = false ->
  exec_at rx_code_plain false (code_macro_plain body ++ post)
  = Some (length (code_macro_plain body), [Some body]).
Proof.
  intros Hb. unfold code_macro_plain. rewrite <- !app_assoc.
  eapply exec_at_result.
  - unfold rx_code_plain. cbn [re_ast re_icase re_groups]. norm_js.
    repeat lit_step.
    eapply (greedy_fit true false true [CChar 62] _ _ [32] 97 (js "c:name=~code~") 62);
      [reflexivity|reflexivity|reflexivity|reflexivity|vm_compute; reflexivity|].
    norm_state. repeat lit_step.
    rewrite greedy_stop by reflexivity. lit_step.
    apply lazy_now. repeat lit_step.
    rewrite rmatch_seq.
    apply (group_lazy_skip true false 1 false [CSpace; CNonSpace]);
      [apply any_char| |].
    + intros a1 a2 caps' E Hne. apply lead_sets_sound. cbn [ms_rest lead_sets].
      apply (cdata_end_decided true _ body a1 a2 _ Hb E Hne).
    + repeat lit_step. apply lazy_now. repeat lit_step.
      rewrite rmatch_empty. reflexivity.
  - cbn [ms_len]. norm_js. len_solve.
  - reflexivity.
Qed.

(** Texts without [<] and the rules, all of which begin with [<]. *)
Definition led_by_lt (rx : regexp) : Prop :=
  exists sets, lead_sets (re_ast rx) = (false, [CChar 60]) :: sets.

Lemma no_lt_all_decided rx s :
  led_by_lt rx -> no_char 60 s = true ->
  all_decided (re_icase rx) (lead_sets (re_ast rx)) s = true.
Proof.
  intros [sets E] H. rewrite E. apply all_decided_free.
  unfold no_char in H. apply forallb_forall. intros c Hc.
  rewrite forallb_forall in H. specialize (H c Hc).
  rewrite set_match_symbol by reflexivity. exact H.
Qed.

Lemma led_by_lt_no_match rx s :
  led_by_lt rx -> all_decided (re_icase rx) (lead_sets (re_ast rx)) s = true ->
  no_match_in rx s.
Proof.
  intros [sets E] H. apply all_decided_no_match; [|exact H].
  rewrite E. discriminate.
Qed.

Lemma no_lt_prefix rx pre rest :
  led_by_lt rx -> no_char 60 pre = true ->
  forall b p1 p2, pre = p1 ++ p2 -> p2 <> [] -> exec_at rx b (p2 ++ rest) = None.
Proof.
  intros Hrx Hpre b p1 p2 E Hne. destruct p2 as [|c p2]; [congruence|].
  unfold exec_at. rewrite lead_sets_sound; [reflexivity|].
  destruct Hrx as [sets Es]. rewrite Es. cbn [ms_rest app decided_fail].
  rewrite set_match_symbol by reflexivity.
  subst pre. rewrite (no_char_suffix 60 p1 c p2 Hpre). reflexivity.
Qed.

Ltac led_lt_compute := eexists; vm_compute; reflexivity.

Lemma rx_blob_img_led : led_by_lt rx_blob_img.
Proof. led_lt_compute. Qed.
Lemma rx_svg_led : led_by_lt rx_svg.
Proof. led_lt_compute. Qed.
Lemma rx_heading_anchor_led : led_by_lt rx_heading_anchor.
Proof. led_lt_compute. Qed.
Lemma rx_anchor_button_led : led_by_lt rx_anchor_button.
Proof. led_lt_compute. Qed.
Lemma rx_visually_hidden_led : led_by_lt rx_visually_hidden.
Proof. led_lt_compute. Qed.
Lemma rx_editor_panel_led : led_by_lt rx_editor_panel.
Proof. led_lt_compute. Qed.
Lemma rx_panel_icon_led : led_by_lt rx_panel_icon.
Proof. led_lt_compute. Qed.
Lemma rx_loadable_led : led_by_lt rx_loadable.
Proof. led_lt_compute. Qed.
Lemma rx_ac_image_led : led_by_lt rx_ac_image.
Proof. led_lt_compute. Qed.
Lemma rx_panel_macro_led : led_by_lt rx_panel_macro.
Proof. led_lt_compute. Qed.
Lemma rx_code_lang_led : led_by_lt rx_code_lang.
Proof. led_lt_compute. Qed.
Lemma rx_code_plain_led : led_by_lt rx_code_plain.
Proof. led_lt_compute. Qed.
Lemma rx_macro_selfclosing_led : led_by_lt rx_macro_selfclosing.
Proof. led_lt_compute. Qed.
Lemma rx_macro_led : led_by_lt rx_macro.
Proof. led_lt_compute. Qed.
Lemma rx_parameter_led : led_by_lt rx_parameter.
Proof. led_lt_compute. Qed.
Lemma rx_colgroup_led : led_by_lt rx_colgroup.
Proof. led_lt_compute. Qed.
Lemma rx_table_open_led : led_by_lt rx_table_open.
Proof. led_lt_compute. Qed.
Lemma rx_cell_p_led : led_by_lt rx_cell_p.
Proof. led_lt_compute. Qed.
Lemma rx_p_p_led : led_by_lt rx_p_p.
Proof. led_lt_compute. Qed.
Lemma rx_cell_p_open_led : led_by_lt rx_cell_p_open.
Proof. led_lt_compute. Qed.
Lemma rx_cell_p_close_led : led_by_lt rx_cell_p_close.
Proof. led_lt_compute. Qed.
Lemma rx_cell_attrs_led : led_by_lt rx_cell_attrs.
Proof. led_lt_compute. Qed.
Lemma rx_header_row_led : led_by_lt rx_header_row.
Proof. led_lt_compute. Qed.
Lemma rx_link_body_led : led_by_lt rx_link_body.
Proof. led_lt_compute. Qed.
Lemma rx_link_cdata_led : led_by_lt rx_link_cdata.
Proof. led_lt_compute. Qed.
Lemma rx_link_bare_led : led_by_lt rx_link_bare.
Proof. led_lt_compute. Qed.

Ltac led_lt :=
  lazymatch goal with
  | |- led_by_lt rx_blob_img => exact rx_blob_img_led
  | |- led_by_lt rx_svg => exact rx_svg_led
  | |- led_by_lt rx_heading_anchor => exact rx_heading_anchor_led
  | |- led_by_lt rx_anchor_button => exact rx_anchor_button_led
  | |- led_by_lt rx_visually_hidden => exact rx_visually_hidden_led
  | |- led_by_lt rx_editor_panel => exact rx_editor_panel_led
  | |- led_by_lt rx_panel_icon => exact rx_panel_icon_led
  | |- led_by_lt rx_loadable => exact rx_loadable_led
  | |- led_by_lt rx_ac_image => exact rx_ac_image_led
  | |- led_by_lt rx_panel_macro => exact rx_panel_macro_led
  | |- led_by_lt rx_code_lang => exact rx_code_lang_led
  | |- led_by_lt rx_code_plain => exact rx_code_plain_led
  | |- led_by_lt rx_macro_selfclosing => exact rx_macro_selfclosing_led
  | |- led_by_lt rx_macro => exact rx_macro_led
  | |- led_by_lt rx_parameter => exact rx_parameter_led
  | |- led_by_lt rx_colgroup => exact rx_colgroup_led
  | |- led_by_lt rx_table_open => exact rx_table_open_led
  | |- led_by_lt rx_cell_p => exact rx_cell_p_led
  | |- led_by_lt rx_p_p => exact rx_p_p_led
  | |- led_by_lt rx_cell_p_open => exact rx_cell_p_open_led
  | |- led_by_lt rx_cell_p_close => exact rx_cell_p_close_led
  | |- led_by_lt rx_cell_attrs => exact rx_cell_attrs_led
  | |- led_by_lt rx_header_row => exact rx_header_row_led
  | |- led_by_lt rx_link_body => exact rx_link_body_led
  | |- led_by_lt rx_link_cdata => exact rx_link_cdata_led
  | |- led_by_lt rx_link_bare => exact rx_link_bare_led
  end.

(** Deciding that an expression matches nowhere in a given text. *)
Fixpoint matches_nowhere (rx : regexp) (s : str) : bool :=
  match exec_at rx false s with
  | Some _ => false
  | None =>
      match s with
      | [] => true
      | _ :: s' => matches_nowhere rx s'
      end
  end.

Lemma matches_nowhere_sound rx s :
  no_bol (re_ast rx) = true -> matches_nowhere rx s = true -> no_match_in rx s.
Proof.
  intros Hb H b t [p Hp]. subst s. rewrite (exec_at_no_bol rx b t Hb).
  induction p as [|c p IH].
  - cbn [app] in H. destruct t; cbn [matches_nowhere] in H;
      destruct (exec_at rx false _); congruence.
  - apply IH. cbn [app matches_nowhere] in H.
    destruct (exec_at rx false (c :: p ++ t)); [discriminate|exact H].
Qed.

(** The rules that run before the code rules, and after them. *)
Definition rules_before_code : list regexp :=
  [rx_blob_img; rx_svg; rx_heading_anchor; rx_anchor_button; rx_visually_hidden;
   rx_editor_panel; rx_panel_icon; rx_loadable; rx_ac_image; rx_panel_macro].

Definition rules_after_code : list regexp :=
  [rx_macro_selfclosing; rx_macro; rx_parameter; rx_colgroup; rx_table_open;
   rx_cell_p; rx_p_p; rx_cell_p_open; rx_cell_p_close; rx_cell_attrs;
   rx_header_row; rx_link_body; rx_link_cdata; rx_link_bare].

Definition silent_on (doc : str) (rules : list regexp) : Prop :=
  Forall (fun rx => no_match_in rx doc) rules.

Definition silent_onb (doc : str) (rules : list regexp) : bool :=
  forallb (fun rx => no_bol (re_ast rx) && matches_nowhere rx doc) rules.

Lemma silent_onb_sound doc rules :
  silent_onb doc rules = true -> silent_on doc rules.
Proof.
  unfold silent_onb, silent_on. rewrite forallb_forall, Forall_forall.
  intros H rx Hrx. specialize (H rx Hrx). apply andb_true_iff in H as [H1 H2].
  apply matches_nowhere_sound; assumption.
Qed.

Section Normalizer.

Variables toLowerCase toUpperCase : str -> str.
Variables (pageSlug : str) (attachments : list attachment).

Let preprocess (html : str) : str :=
  preprocessConfluenceHtml toLowerCase toUpperCase html pageSlug attachments.

(** Where none of the earlier rules matches, the document reaches the code
    rules as it is. *)
Lemma before_code_unchanged doc :
  silent_on doc rules_before_code ->
  preprocess doc
  = convert_links toLowerCase
      (clean_tables (remove_macros (convert_code_macros doc))).
Proof.
  intros H. unfold silent_on, rules_before_code in H.
  repeat match type of H with
         | Forall _ (_ :: _) =>
             let H1 := fresh "S" in
             apply Forall_cons_iff in H as [H1 H]
         end.
  unfold preprocess, preprocessConfluenceHtml.
  rewrite (replace_all_no_match rx_blob_img _ doc) by assumption.
  unfold strip_decorations, convert_editor_panels.
  rewrite (replace_all_tpl_no_match rx_svg _ doc) by assumption.
  rewrite (replace_all_tpl_no_match rx_heading_anchor _ doc) by assumption.
  rewrite (replace_all_tpl_no_match rx_anchor_button _ doc) by assumption.
  rewrite (replace_all_tpl_no_match rx_visually_hidden _ doc) by assumption.
  rewrite (replace_all_no_match rx_editor_panel _ doc) by assumption.
  rewrite (replace_all_tpl_no_match rx_panel_icon _ doc) by assumption.
  rewrite (replace_all_tpl_no_match rx_loadable _ doc) by assumption.
  rewrite (replace_all_no_match rx_ac_image _ doc) by assumption.
  rewrite (replace_all_no_match rx_panel_macro _ doc) by assumption.
  reflexivity.
Qed.

(** Where none of the later rules matches, what the code rules produced is
    the result. *)
Lemma after_code_unchanged out :
  silent_on out rules_after_code ->
  convert_links toLowerCase (clean_tables (remove_macros out)) = out.
Proof.
  intros H. unfold silent_on, rules_after_code in H.
  repeat match type of H with
         | Forall _ (_ :: _) =>
             let H1 := fresh "S" in
             apply Forall_cons_iff in H as [H1 H]
         end.
  unfold remove_macros.
  rewrite (replace_all_tpl_no_match rx_macro_selfclosing _ out) by assumption.
  rewrite (replace_all_no_match rx_macro _ out) by assumption.
  rewrite (replace_all_tpl_no_match rx_parameter _ out) by assumption.
  unfold clean_tables, move_header_row.
  rewrite (replace_all_tpl_no_match rx_colgroup _ out) by assumption.
  rewrite (replace_all_tpl_no_match rx_table_open _ out) by assumption.
  rewrite (replace_all_tpl_no_match rx_cell_p _ out) by assumption.
  rewrite (replace_all_tpl_no_match rx_p_p _ out) by assumption.
  rewrite (replace_all_tpl_no_match rx_cell_p_open _ out) by assumption.
  rewrite (replace_all_tpl_no_match rx_cell_p_close _ out) by assumption.
  rewrite (replace_all_tpl_no_match rx_cell_attrs _ out) by assumption.
  rewrite (replace_all_tpl_no_match rx_header_row _ out) by assumption.
  unfold convert_links.
  rewrite (replace_all_no_match rx_link_body _ out) by assumption.
  rewrite (replace_all_no_match rx_link_cdata _ out) by assumption.
  rewrite (replace_all_no_match rx_link_bare _ out) by assumption.
  reflexivity.
Qed.

End Normalizer.

Lemma code_block_inert rx pre language body post :
  led_by_lt rx ->
  all_decided (re_icase rx) (lead_sets (re_ast rx))
    (js "<pre><code class=~language-") = true ->
  all_decided (re_icase rx) (lead_sets (re_ast rx)) (js "~>") = true ->
  all_decided (re_icase rx) (lead_sets (re_ast rx)) (js "</code></pre>") = true ->
  no_char 60 pre = true -> no_char 60 language = true -> no_char 60 post = true ->
  no_match_in rx (pre ++ convertCodeBlock body language ++ post).
Proof.
  intros Hrx H1 H2 H3 Hpre Hlang Hpost. apply led_by_lt_no_match; [exact Hrx|].
  rewrite convertCodeBlock_eq, <- !app_assoc.
  repeat apply all_decided_app; try assumption;
    apply no_lt_all_decided; try assumption.
  apply escape_code_no_lt.
Qed.

Ltac inert_rule :=
  apply code_block_inert;
  [led_lt | vm_compute; reflexivity | vm_compute; reflexivity
   | vm_compute; reflexivity | assumption | assumption | assumption].

Lemma code_block_silent pre language body post :
  no_char 60 pre = true -> no_char 60 language = true -> no_char 60 post = true ->
  silent_on (pre ++ convertCodeBlock body language ++ post)
    (rx_code_plain :: rules_after_code).
Proof.
  intros Hpre Hlang Hpost. unfold silent_on, rules_after_code.
  repeat (apply Forall_cons; [inert_rule|]). constructor.
Qed.

Lemma no_lt_silent rx s : led_by_lt rx -> no_char 60 s = true -> no_match_in rx s.
Proof.
  intros Hrx H. apply led_by_lt_no_match; [exact Hrx|].
  apply no_lt_all_decided; assumption.
Qed.

(** The two code rules on a document made of one code macro between texts
    without markup. *)
Lemma convert_code_macros_lang pre language body post :
  no_char 60 pre = true -> no_char 60 post = true ->
  no_char 60 language = true -> occurs cdata_end body = false ->
  convert_code_macros (pre ++ code_macro language body ++ post)
  = pre ++ convertCodeBlock body language ++ post.
Proof.
  intros Hpre Hpost Hlang Hbody. unfold convert_code_macros.
  rewrite (replace_all_one_match rx_code_lang _ pre (code_macro language body)
             post [Some language; Some body]).
  - cbn [cap_text nth_error Nat.sub].
    rewrite (replace_all_no_match rx_code_lang _ post)
      by (apply no_lt_silent; [led_lt|exact Hpost]).
    apply replace_all_no_match.
    pose proof (code_block_silent pre language body post Hpre Hlang Hpost) as S.
    apply Forall_cons_iff in S as [S _]. exact S.
  - reflexivity.
  - unfold code_macro. discriminate.
  - apply no_lt_prefix; [led_lt|exact Hpre].
  - apply exec_at_code_lang; assumption.
Qed.

Lemma convert_code_macros_plain pre body post :
  no_char 60 pre = true -> no_char 60 post = true ->
  occurs cdata_end body = false ->
  no_match_in rx_code_lang (pre ++ code_macro_plain body ++ post) ->
  convert_code_macros (pre ++ code_macro_plain body ++ post)
  = pre ++ convertCodeBlock body [] ++ post.
Proof.
  intros Hpre Hpost Hbody Hsilent. unfold convert_code_macros.
  rewrite (replace_all_no_match rx_code_lang _ _ Hsilent).
  rewrite (replace_all_one_match rx_code_plain _ pre (code_macro_plain body)
             post [Some body]).
  - cbn [cap_text nth_error Nat.sub].
    rewrite (replace_all_no_match rx_code_plain _ post)
      by (apply no_lt_silent; [led_lt|exact Hpost]).
    reflexivity.
  - reflexivity.
  - unfold code_macro_plain. discriminate.
  - apply no_lt_prefix; [led_lt|exact Hpre].
  - apply exec_at_code_plain; assumption.
Qed.

Section CodeMacros.

Variables toLowerCase toUpperCase : str -> str.
Variables (pageSlug : str) (attachments : list attachment).

Lemma code_block_stays pre language body post :
  no_char 60 pre = true -> no_char 60 language = true -> no_char 60 post = true ->
  convert_links toLowerCase
    (clean_tables (remove_macros (pre ++ convertCodeBlock body language ++ post)))
  = pre ++ convertCodeBlock body language ++ post.
Proof.
  intros Hpre Hlang Hpost. apply after_code_unchanged.
  pose proof (code_block_silent pre language body post Hpre Hlang Hpost) as S.
  apply Forall_cons_iff in S as [_ S]. exact S.
Qed.

Lemma preprocess_code_macro pre language body post :
  no_char 60 pre = true -> no_char 60 post = true ->
  no_char 60 language = true -> occurs cdata_end body = false ->
  silent_on (pre ++ code_macro language body ++ post) rules_before_code ->
  preprocessConfluenceHtml toLowerCase toUpperCase
    (pre ++ code_macro language body ++ post) pageSlug attachments
  = pre ++ convertCodeBlock body language ++ post.
Proof.
  intros Hpre Hpost Hlang Hbody Hsilent.
  rewrite before_code_unchanged by exact Hsilent.
  rewrite convert_code_macros_lang by assumption.
  apply code_block_stays; assumption.
Qed.

Lemma preprocess_code_macro_plain pre body post :
  no_char 60 pre = true -> no_char 60 post = true ->
  occurs cdata_end body = false ->
  silent_on (pre ++ code_macro_plain body ++ post) (rx_code_lang :: rules_before_code) ->
  preprocessConfluenceHtml toLowerCase toUpperCase
    (pre ++ code_macro_plain body ++ post) pageSlug attachments
  = pre ++ convertCodeBlock body [] ++ post.
Proof.
  intros Hpre Hpost Hbody Hsilent.
  apply Forall_cons_iff in Hsilent as [Hcode Hsilent].
  rewrite before_code_unchanged by exact Hsilent.
  rewrite convert_code_macros_plain by assumption.
  apply code_block_stays; [assumption|reflexivity|assumption].
Qed.

End CodeMacros.

Definition xml_macro : str :=
  js "<ac:structured-macro ac:name=~code~><ac:parameter ac:name=~language~>xml</ac:parameter><ac:plain-text-body><![CDATA[<element attr=~value~ />]]></ac:plain-text-body></ac:structured-macro>".



(** ** The panel rule *)

Lemma alt_left ic b r1 r2 k st res :
  rmatch ic b r1 k st = Some res -> rmatch ic b (RAlt r1 r2) k st = Some res.
Proof. intros H. rewrite rmatch_alt, H. reflexivity. Qed.

Lemma alt_right ic b r1 r2 k st :
  rmatch ic b r1 k st = None ->
  rmatch ic b (RAlt r1 r2) k st = rmatch ic b r2 k st.
Proof. intros H. rewrite rmatch_alt, H. reflexivity. Qed.

Lemma no_lt_decided ic sets body a1 a2 rest :
  no_char 60 body = true -> body = a1 ++ a2 -> a2 <> [] ->
  decided_fail ic ((false, [CChar 60]) :: sets) (a2 ++ rest) = true.
Proof.
  intros H -> Hne. destruct a2 as [|c a2]; [congruence|].
  cbn [app decided_fail]. rewrite set_match_symbol by reflexivity.
  rewrite (no_char_suffix 60 a1 c a2 H). reflexivity.
Qed.

Definition panel_macro_text (name content : str) : str :=
  js "<ac:structured-macro ac:name=~" ++ name ++ js "~><ac:rich-text-body>"
    ++ content ++ js "</ac:rich-text-body></ac:structured-macro>".

Definition panel_names : list str :=
  [js "info"; js "note"; js "warning"; js "tip"].

Ltac alt_fail :=
  repeat lit_step; match goal with |- None = None => reflexivity end.

Ltac panel_exec run :=
  eapply exec_at_result;
  [ unfold rx_panel_macro; cbn [re_ast re_icase re_groups]; norm_js;
    repeat lit_step;
    eapply (greedy_fit true false true [CChar 62] _ _ [32] 97 run 62);
      [reflexivity|reflexivity|reflexivity|reflexivity|vm_compute; reflexivity|];
    norm_state; repeat lit_step;
    rewrite rmatch_seq, rmatch_group;
    repeat match goal with
           | |- rmatch _ _ (RAlt _ _) _ _ = _ => rewrite alt_right by alt_fail
           end;
    try match goal with
        | |- rmatch _ _ (RAlt _ _) _ _ = _ => apply alt_left
        end;
    repeat lit_step; rewrite rmatch_empty; cbv beta; unfold set_cap;
    cbn [ms_len ms_rest ms_caps firstn Nat.sub];
    repeat lit_step;
    rewrite greedy_stop by reflexivity; lit_step;
    apply lazy_now; repeat lit_step;
    rewrite rmatch_seq;
    apply (group_lazy_skip true false 2 false [CSpace; CNonSpace]);
      [ apply any_char
      | intros a1 a2 caps' E Hne; apply lead_sets_sound;
        cbn [ms_rest lead_sets];
        eapply no_lt_decided; eassumption
      | repeat lit_step; apply lazy_now; repeat lit_step;
        rewrite rmatch_empty; reflexivity ]
  | cbn [ms_len]; norm_js; len_solve
  | reflexivity ].

Lemma exec_at_panel name content post :
  In name panel_names -> no_char 60 content = true ->
  exec_at rx_panel_macro false (panel_macro_text name content ++ post)
  = Some (length (panel_macro_text name content), [Some name; Some content]).
Proof.
  intros Hname Hc. unfold panel_macro_text. rewrite <- !app_assoc.
  destruct Hname as [<- | [<- | [<- | [<- | []]]]].
  - panel_exec (js "c:name=~info~").
  - panel_exec (js "c:name=~note~").
  - panel_exec (js "c:name=~warning~").
  - panel_exec (js "c:name=~tip~").
Qed.

Ltac split_chunks :=
  rewrite <- ?app_assoc;
  repeat match goal with
         | |- all_decided _ _ (_ ++ _) = true => apply all_decided_app
         end.

Ltac decide_chunks :=
  split_chunks;
  match goal with
  | |- all_decided _ _ (js _) = true => vm_compute; reflexivity
  | |- _ => apply no_lt_all_decided; [led_lt | assumption]
  end.

Ltac silent_chunks :=
  unfold silent_on;
  repeat (apply Forall_cons; [apply led_by_lt_no_match; [led_lt | decide_chunks] | ]);
  apply Forall_nil.

Definition rules_before_panel : list regexp :=
  [rx_blob_img; rx_svg; rx_heading_anchor; rx_anchor_button; rx_visually_hidden;
   rx_editor_panel; rx_panel_icon; rx_loadable; rx_ac_image].

Definition blockquote (label content : str) : str :=
  js "<blockquote>**" ++ label ++ js ":** " ++ content ++ js "</blockquote>".

Section Panels.

Variables toLowerCase toUpperCase : str -> str.
Variables (pageSlug : str) (attachments : list attachment).

(** On ASCII text [toUpperCase] maps [a-z] to [A-Z] and nothing else. *)
Hypothesis toUpperCase_ascii :
  forall s, forallb is_ascii s = true -> toUpperCase s = map upper_char s.

Lemma before_panel_unchanged doc :
  silent_on doc rules_before_panel ->
  preprocessConfluenceHtml toLowerCase toUpperCase doc pageSlug attachments
  = convert_links toLowerCase
      (clean_tables
         (remove_macros
            (convert_code_macros
               (replace_all rx_panel_macro (panel_macro toUpperCase) doc)))).
Proof.
  intros H. unfold silent_on, rules_before_panel in H.
  repeat match type of H with
         | Forall _ (_ :: _) =>
             let H1 := fresh "S" in
             apply Forall_cons_iff in H as [H1 H]
         end.
  unfold preprocessConfluenceHtml.
  rewrite (replace_all_no_match rx_blob_img _ doc) by assumption.
  unfold strip_decorations, convert_editor_panels.
  rewrite (replace_all_tpl_no_match rx_svg _ doc) by assumption.
  rewrite (replace_all_tpl_no_match rx_heading_anchor _ doc) by assumption.
  rewrite (replace_all_tpl_no_match rx_anchor_button _ doc) by assumption.
  rewrite (replace_all_tpl_no_match rx_visually_hidden _ doc) by assumption.
  rewrite (replace_all_no_match rx_editor_panel _ doc) by assumption.
  rewrite (replace_all_tpl_no_match rx_panel_icon _ doc) by assumption.
  rewrite (replace_all_tpl_no_match rx_loadable _ doc) by assumption.
  rewrite (replace_all_no_match rx_ac_image _ doc) by assumption.
  reflexivity.
Qed.

Lemma panel_doc_silent name content pre post :
  In name panel_names ->
  no_char 60 pre = true -> no_char 60 content = true -> no_char 60 post = true ->
  silent_on (pre ++ panel_macro_text name content ++ post) rules_before_panel.
Proof.
  intros Hname Hpre Hc Hpost. unfold panel_macro_text, rules_before_panel.
  assert (Hn : no_char 60 name = true)
    by (destruct Hname as [<- | [<- | [<- | [<- | []]]]]; reflexivity).
  silent_chunks.
Qed.

Lemma blockquote_silent name content pre post :
  In name panel_names ->
  no_char 60 pre = true -> no_char 60 content = true -> no_char 60 post = true ->
  silent_on (pre ++ blockquote (map upper_char name) content ++ post)
    (rx_code_lang :: rx_code_plain :: rules_after_code).
Proof.
  intros Hname Hpre Hc Hpost. unfold blockquote, rules_after_code.
  assert (Hn : no_char 60 (map upper_char name) = true)
    by (destruct Hname as [<- | [<- | [<- | [<- | []]]]]; reflexivity).
  silent_chunks.
Qed.

Lemma panel_rule_step name content pre post :
  In name panel_names ->
  no_char 60 pre = true -> no_char 60 content = true -> no_char 60 post = true ->
  replace_all rx_panel_macro (panel_macro toUpperCase)
    (pre ++ panel_macro_text name content ++ post)
  = pre ++ blockquote (map upper_char name) content ++ post.
Proof.
  intros Hname Hpre Hc Hpost.
  rewrite (replace_all_one_match rx_panel_macro _ pre (panel_macro_text name content)
             post [Some name; Some content]).
  - rewrite (replace_all_no_match rx_panel_macro _ post)
      by (apply no_lt_silent; [led_lt|exact Hpost]).
    unfold panel_macro, blockquote. cbn [cap_text nth_error Nat.sub].
    rewrite toUpperCase_ascii.
    + rewrite <- !app_assoc. reflexivity.
    + destruct Hname as [<- | [<- | [<- | [<- | []]]]]; reflexivity.
  - reflexivity.
  - unfold panel_macro_text. discriminate.
  - apply no_lt_prefix; [led_lt|exact Hpre].
  - apply exec_at_panel; assumption.
Qed.

Lemma preprocess_panel name content pre post :
  In name panel_names ->
  no_char 60 pre = true -> no_char 60 content = true -> no_char 60 post = true ->
  preprocessConfluenceHtml toLowerCase toUpperCase
    (pre ++ panel_macro_text name content ++ post) pageSlug attachments
  = pre ++ blockquote (map upper_char name) content ++ post.
Proof.
  intros Hname Hpre Hc Hpost.
  rewrite before_panel_unchanged by (apply panel_doc_silent; assumption).
  rewrite panel_rule_step by assumption.
  pose proof (blockquote_silent name content pre post Hname Hpre Hc Hpost) as S.
  apply Forall_cons_iff in S as [S1 S]. apply Forall_cons_iff in S as [S2 S].
  unfold convert_code_macros.
  rewrite (replace_all_no_match rx_code_lang _ _ S1).
  rewrite (replace_all_no_match rx_code_plain _ _ S2).
  apply after_code_unchanged, S.
Qed.

End Panels.

(** ** What a successful match went through *)

Fixpoint groups_of (r : regex) : list nat :=
  match r with
  | RSeq r1 r2 | RAlt r1 r2 => groups_of r1 ++ groups_of r2
  | RStar _ r' | RNegLook r' => groups_of r'
  | RGroup i r' => i :: groups_of r'
  | _ => []
  end.

(** A property of the matcher state that advancing in the input keeps, and
    that no group of [r] disturbs, holds where the continuation of [r] is
    entered. *)
Lemma rmatch_reaches ic b (I : mstate -> Prop) :
  (forall c s l caps, I (MState (c :: s) l caps) -> I (MState s (S l) caps)) ->
  forall r,
  (forall j w st, In j (groups_of r) -> I st -> I (set_cap j w st)) ->
  forall k st res,
    I st -> rmatch ic b r k st = Some res ->
    exists st', I st' /\ k st' = Some res.
Proof.
  intros Hadv.
  induction r as [| neg items | r1 IH1 r2 IH2 | r1 IH1 r2 IH2 | g r IH | i r IH
                  | r IH | |]; intros Hg k st res Hst H; cbn [rmatch] in H.
  - exists st. split; assumption.
  - destruct st as [[|c s] l caps]; cbn [ms_rest] in H; [discriminate|].
    destruct (set_match ic neg items c); [|discriminate].
    eexists. split; [|exact H]. exact (Hadv c s l caps Hst).
  - destruct (IH1 (fun j w st' Hj => Hg j w st' (in_or_app _ _ j (or_introl Hj)))
                _ _ _ Hst H) as (st1 & H1 & E1).
    exact (IH2 (fun j w st' Hj => Hg j w st' (in_or_app _ _ j (or_intror Hj)))
               _ _ _ H1 E1).
  - destruct (rmatch ic b r1 k st) as [x|] eqn:E1.
    + injection H as ->.
      exact (IH1 (fun j w st' Hj => Hg j w st' (in_or_app _ _ j (or_introl Hj)))
                 _ _ _ Hst E1).
    + exact (IH2 (fun j w st' Hj => Hg j w st' (in_or_app _ _ j (or_intror Hj)))
                 _ _ _ Hst H).
  - revert H. generalize (length (ms_rest st)). intros n. revert st Hst.
    induction n as [|n IHn]; intros st Hst H; cbn [star_loop] in H.
    + exists st. split; assumption.
    + assert (Hagain : forall st1,
                 I st1 ->
                 (if (ms_len st <? ms_len st1)%nat
                  then star_loop g (rmatch ic b r) k n st1 else None) = Some res ->
                 exists st', I st' /\ k st' = Some res).
      { intros st1 H1 E. destruct (ms_len st <? ms_len st1)%nat; [|discriminate].
        exact (IHn st1 H1 E). }
      destruct g.
      * destruct (rmatch ic b r _ st) as [x|] eqn:E1.
        -- injection H as ->.
           destruct (IH Hg _ _ _ Hst E1) as (st1 & H1 & E). exact (Hagain st1 H1 E).
        -- exists st. split; assumption.
      * destruct (k st) as [x|] eqn:E0.
        -- injection H as ->. exists st. split; assumption.
        -- destruct (IH Hg _ _ _ Hst H) as (st1 & H1 & E). exact (Hagain st1 H1 E).
  - destruct (IH (fun j w st' Hj => Hg j w st' (or_intror Hj)) _ _ _ Hst H)
      as (st1 & H1 & E).
    eexists. split; [|exact E]. apply Hg; [left; reflexivity|exact H1].
  - destruct (rmatch ic b r Some st); [discriminate|].
    exists st. split; assumption.
  - destruct (b && (ms_len st =? 0)%nat); [|discriminate].
    exists st. split; assumption.
  - destruct (ms_rest st); [|discriminate]. exists st. split; assumption.
Qed.

(** The expression left after the first [n] members of a sequence. *)
Fixpoint drop_seq (n : nat) (r : regex) : regex :=
  match n, r with
  | S n', RSeq _ r2 => drop_seq n' r2
  | _, _ => r
  end.

Definition suffix_of (t : str) (st : mstate) : Prop :=
  exists p, t = p ++ ms_rest st.

Lemma rmatch_drop_seq ic b t : forall n r k st res,
  suffix_of t st ->
  rmatch ic b r k st = Some res ->
  exists st', suffix_of t st' /\ rmatch ic b (drop_seq n r) k st' = Some res.
Proof.
  induction n as [|n IH]; intros r k st res Hs H; [exists st; split; assumption|].
  destruct r; cbn [drop_seq]; try (exists st; split; assumption).
  rewrite rmatch_seq in H.
  destruct (rmatch_reaches ic b (suffix_of t)) with (r := r1) (k := rmatch ic b r2 k)
    (st := st) (res := res) as (st1 & H1 & E); try assumption.
  - intros c s l caps [p Hp]. exists (p ++ [c]). cbn [ms_rest] in *.
    rewrite <- app_assoc. exact Hp.
  - intros j w st' _ Hst'. exact Hst'.
  - exact (IH _ _ _ _ H1 E).
Qed.

(** An expression one of whose members is a literal matches nowhere in a
    text in which the literal does not occur. *)
Lemma no_match_by_member rx n doc :
  lead_sets (drop_seq n (re_ast rx)) <> [] ->
  all_decided (re_icase rx) (lead_sets (drop_seq n (re_ast rx))) doc = true ->
  no_match_in rx doc.
Proof.
  intros Hne Hdec b t [p Hp]. unfold exec_at.
  destruct (rmatch _ _ _ _ _) as [res|] eqn:H; [exfalso|reflexivity].
  apply (rmatch_drop_seq (re_icase rx) b t n) in H as (st' & [q Hq] & H).
  - destruct st' as [[|c s'] l caps]; cbn [ms_rest] in Hq.
    + rewrite lead_sets_nil in H by exact Hne. discriminate.
    + rewrite lead_sets_sound in H; [discriminate|]. cbn [ms_rest].
      subst t doc. rewrite app_assoc in Hdec.
      exact (all_decided_suffix _ _ _ _ _ Hdec).
  - exists []. reflexivity.
Qed.

(** A literal, and what it matches under the [i] flag. *)
Definition lits (pat : str) : regex :=
  fold_right (fun c r => RSeq (RSet false [CChar c]) r) REmpty pat.

Lemma rmatch_lits ic b k res : forall pat s l caps,
  rmatch ic b (lits pat) k (MState s l caps) = Some res ->
  exists w rest,
    s = w ++ rest /\ length w = length pat /\
    Forall2 (fun p c => set_match ic false [CChar p] c = true) pat w /\
    k (MState rest (l + length pat) caps) = Some res.
Proof.
  induction pat as [|p pat IH]; intros s l caps H.
  - exists [], s. cbn [lits fold_right length] in *. rewrite Nat.add_0_r.
    repeat split; [constructor|exact H].
  - cbn [lits fold_right] in H. fold (lits pat) in H.
    destruct s as [|c s]; [discriminate|].
    rewrite rmatch_seq, rmatch_set_cons in H.
    destruct (set_match ic false [CChar p] c) eqn:Ec; [|discriminate].
    destruct (IH _ _ _ H) as (w & rest & -> & Hlen & Hw & Hk).
    exists (c :: w), rest. cbn [length app]. repeat split.
    + rewrite Hlen. reflexivity.
    + constructor; assumption.
    + rewrite <- Hk. do 2 f_equal. lia.
Qed.

Lemma set_match_lower_letter ic p c :
  is_lower p = true -> set_match ic false [CChar p] c = true -> lower_char c = p.
Proof.
  unfold set_match, items_mem, swap_case, lower_char.
  cbn [existsb citem_mem xorb]. rewrite !orb_false_r.
  intros Hp H. apply orb_true_iff in H as [H | H].
  - apply N.eqb_eq in H. subst c.
    destruct (is_upper p) eqn:U; [|reflexivity].
    unfold is_upper, is_lower in *.
    apply andb_true_iff in Hp as [A B], U as [C D].
    apply N.leb_le in A, B, C, D. lia.
  - apply andb_true_iff in H as [_ H].
    destruct (is_upper c) eqn:U.
    + apply N.eqb_eq in H. exact H.
    + destruct (is_lower c) eqn:L.
      * apply N.eqb_eq in H. subst p. unfold is_lower in *.
        apply andb_true_iff in Hp as [A B], L as [C D].
        apply N.leb_le in A, B, C, D. lia.
      * apply N.eqb_eq in H. subst p. congruence.
Qed.

Lemma lits_lower ic pat w :
  forallb is_lower pat = true ->
  Forall2 (fun p c => set_match ic false [CChar p] c = true) pat w ->
  map lower_char w = pat.
Proof.
  intros Hp H. induction H as [|p c pat w Hc Hw IH]; [reflexivity|].
  cbn [forallb] in Hp. apply andb_true_iff in Hp as [Hp1 Hp2].
  cbn [map]. rewrite (set_match_lower_letter ic p c Hp1 Hc), (IH Hp2).
  reflexivity.
Qed.

(** Whatever the input, a match of the panel rule has captured one of the
    four names, in upper or lower case letters. *)
Lemma panel_rule_names b s len caps :
  exec_at rx_panel_macro b s = Some (len, caps) ->
  exists w, nth_error caps 0 = Some (Some w) /\ In (map lower_char w) panel_names.
Proof.
  unfold exec_at.
  destruct (rmatch _ _ _ _ _) as [res|] eqn:H; [|discriminate].
  intros [= <- <-].
  apply (rmatch_drop_seq true b s 30) in H as ([s1 l1 caps1] & _ & H);
    [|exists []; reflexivity].
  unfold rx_panel_macro in H. cbn [re_ast re_icase drop_seq] in H.
  rewrite rmatch_seq, rmatch_group in H. cbn [ms_len ms_rest] in H.
  assert (Hlit : forall pat k,
             forallb is_lower pat = true ->
             rmatch true b (lits pat)
               (fun st' => k (set_cap 1 (firstn (ms_len st' - l1) s1) st'))
               (MState s1 l1 caps1) = Some res ->
             (forall w st, k (set_cap 1 w st) = Some res ->
                           cap_lookup 1 (ms_caps res) = Some w) ->
             exists w, cap_lookup 1 (ms_caps res) = Some w /\ map lower_char w = pat).
  { intros pat k Hpat E Hk.
    apply rmatch_lits in E as (w & rest & -> & Hlen & Hw & E).
    cbn [ms_len] in E.
    replace (l1 + length pat - l1)%nat with (length w) in E by lia.
    rewrite firstn_app, firstn_all, Nat.sub_diag in E. cbn [firstn] in E.
    rewrite app_nil_r in E. exists w. split; [exact (Hk _ _ E)|].
    apply (lits_lower true); assumption. }
  assert (Htail : forall w st,
             rmatch true b
               (drop_seq 1 (drop_seq 30 (re_ast rx_panel_macro))) Some (set_cap 1 w st)
             = Some res -> cap_lookup 1 (ms_caps res) = Some w).
  { intros w st E.
    apply (rmatch_reaches true b (fun st' => cap_lookup 1 (ms_caps st') = Some w)) in E.
    - destruct E as (st' & Hc & [= ->]). exact Hc.
    - intros c s' l caps' Hc. exact Hc.
    - intros j w' st' Hj Hc. vm_compute in Hj.
      destruct Hj as [<- | []]. exact Hc.
    - reflexivity. }
  enough (Hw : exists w, cap_lookup 1 (ms_caps res) = Some w
                         /\ In (map lower_char w) panel_names).
  { destruct Hw as (w & Hc & Hin). exists w. split; [|exact Hin].
    cbn [re_groups rx_panel_macro seq map nth_error]. rewrite Hc. reflexivity. }
  rewrite !rmatch_alt in H.
  repeat match type of H with
         | match ?x with Some _ => _ | None => _ end = Some _ =>
             let E := fresh "E" in
             destruct x eqn:E; [injection H as ->|]
         end.
  - destruct (Hlit (js "info") _ eq_refl E Htail) as (w & Hc & Hw).
    exists w. split; [exact Hc|]. rewrite Hw. cbn. tauto.
  - destruct (Hlit (js "note") _ eq_refl E0 Htail) as (w & Hc & Hw).
    exists w. split; [exact Hc|]. rewrite Hw. cbn. tauto.
  - destruct (Hlit (js "warning") _ eq_refl E1 Htail) as (w & Hc & Hw).
    exists w. split; [exact Hc|]. rewrite Hw. cbn. tauto.
  - destruct (Hlit (js "tip") _ eq_refl H Htail) as (w & Hc & Hw).
    exists w. split; [exact Hc|]. rewrite Hw. cbn. tauto.
Qed.

Lemma ascii_upper_law :
  forall s, forallb is_ascii s = true -> ascii_upper s = map upper_char s.
Proof. reflexivity. Qed.




(** ** The link rules *)

Lemma star_stop ic b neg items k c rest l caps :
  set_match ic neg items c = false ->
  rmatch ic b (RStar true (RSet neg items)) k (MState (c :: rest) l caps)
  = k (MState (c :: rest) l caps).
Proof.
  intros H. rewrite rmatch_star_set. cbn [ms_rest ms_len ms_caps].
  apply set_star_greedy_stop, H.
Qed.

Definition page_link_head (title : str) : str :=
  js "<ac:link><ri:page ri:content-title=~" ++ title ++ js "~ />".

Definition page_link_rich (title body : str) : str :=
  page_link_head title ++ js "<ac:link-body>" ++ body ++ js "</ac:link-body></ac:link>".

Definition page_link_cdata (title body : str) : str :=
  page_link_head title ++ js "<ac:plain-text-link-body><![CDATA[" ++ body
    ++ js "]]></ac:plain-text-link-body></ac:link>".

Definition page_link_plain (title : str) : str := page_link_head title ++ js "</ac:link>".

(** The steps shared by the three expressions: up to the end of the
    [ri:page] element. *)
Ltac link_head_steps Ht0 Ht :=
  repeat lit_step;
  rewrite greedy_stop by reflexivity; lit_step;
  apply lazy_now; repeat lit_step;
  rewrite rmatch_seq; lit_step; rewrite star_stop by reflexivity;
  repeat lit_step; rewrite rmatch_seq;
  apply (group_plus_run true false 1 true [CChar 34]);
    [exact Ht0|exact Ht|reflexivity|];
  repeat lit_step;
  eapply (greedy_fit true false true [CChar 62] _ _ [32] 47 [] 62);
    [reflexivity|reflexivity|reflexivity|reflexivity|vm_compute; reflexivity|];
  norm_state; repeat lit_step.

Lemma title_sets title :
  title <> [] -> no_char 34 title = true ->
  exists t0 t, title = t0 :: t /\ set_match true true [CChar 34] t0 = true
               /\ forallb (set_match true true [CChar 34]) t = true.
Proof.
  intros Hne H. destruct title as [|t0 t]; [congruence|].
  apply (no_char_neg_set true) in H; [|reflexivity|reflexivity].
  cbn [forallb] in H. apply andb_true_iff in H as [H0 H]. eauto.
Qed.

Lemma exec_at_link_rich title body post :
  title <> [] -> no_char 34 title = true -> no_char 60 body = true ->
  exec_at rx_link_body false (page_link_rich title body ++ post)
  = Some (length (page_link_rich title body), [Some title; Some body]).
Proof.
  intros Hne Ht Hb.
  destruct (title_sets title Hne Ht) as (t0 & t & -> & Ht0 & Ht').
  unfold page_link_rich, page_link_head. rewrite <- !app_assoc.
  eapply exec_at_result.
  - unfold rx_link_body. cbn [re_ast re_icase re_groups]. norm_js.
    link_head_steps Ht0 Ht'.
    apply lazy_now. repeat lit_step. rewrite rmatch_seq.
    apply (group_star_run true false 2 true [CChar 60]);
      [apply no_char_neg_set; [reflexivity|reflexivity|exact Hb]|reflexivity|].
    repeat lit_step. apply lazy_now. repeat lit_step.
    rewrite rmatch_empty. reflexivity.
  - cbn [ms_len]. norm_js. len_solve.
  - reflexivity.
Qed.

Lemma exec_at_link_cdata title body post :
  title <> [] -> no_char 34 title = true ->
  body <> [] -> no_char 93 body = true ->
  exec_at rx_link_cdata false (page_link_cdata title body ++ post)
  = Some (length (page_link_cdata title body), [Some title; Some body]).
Proof.
  intros Hne Ht Hbne Hb.
  destruct (title_sets title Hne Ht) as (t0 & t & -> & Ht0 & Ht').
  destruct body as [|b0 body]; [congruence|].
  apply (no_char_neg_set true) in Hb; [|reflexivity|reflexivity].
  cbn [forallb] in Hb. apply andb_true_iff in Hb as [Hb0 Hb].
  unfold page_link_cdata, page_link_head. rewrite <- !app_assoc.
  eapply exec_at_result.
  - unfold rx_link_cdata. cbn [re_ast re_icase re_groups]. norm_js.
    link_head_steps Ht0 Ht'.
    apply lazy_now. repeat lit_step. rewrite rmatch_seq.
    apply (group_plus_run true false 2 true [CChar 93]);
      [exact Hb0|exact Hb|reflexivity|].
    repeat lit_step. apply lazy_now. repeat lit_step.
    rewrite rmatch_empty. reflexivity.
  - cbn [ms_len]. norm_js. len_solve.
  - reflexivity.
Qed.

Lemma exec_at_link_bare title post :
  title <> [] -> no_char 34 title = true ->
  exec_at rx_link_bare false (page_link_plain title ++ post)
  = Some (length (page_link_plain title), [Some title]).
Proof.
  intros Hne Ht.
  destruct (title_sets title Hne Ht) as (t0 & t & -> & Ht0 & Ht').
  unfold page_link_plain, page_link_head. rewrite <- !app_assoc.
  eapply exec_at_result.
  - unfold rx_link_bare. cbn [re_ast re_icase re_groups]. norm_js.
    link_head_steps Ht0 Ht'.
    apply lazy_now. repeat lit_step.
    rewrite rmatch_empty. reflexivity.
  - cbn [ms_len]. norm_js. len_solve.
  - reflexivity.
Qed.

Definition rules_before_links : list regexp :=
  rules_before_code
    ++ [rx_code_lang; rx_code_plain; rx_macro_selfclosing; rx_macro; rx_parameter;
        rx_colgroup; rx_table_open; rx_cell_p; rx_p_p; rx_cell_p_open;
        rx_cell_p_close; rx_cell_attrs; rx_header_row].

Definition anchor (slug text : str) : str :=
  js "<a href=~CONFLUENCE_LINK:" ++ slug ++ js "~>" ++ text ++ js "</a>".

Lemma slug_tail_no_lt : forall s b, slug_tail b s = true -> no_char 60 s = true.
Proof.
  induction s as [|c s IH]; intros b H; [reflexivity|].
  cbn [slug_tail] in H. unfold no_char. cbn [forallb].
  assert (Hc : (c =? 60) = false /\ exists b', slug_tail b' s = true).
  { destruct (c =? dash) eqn:E.
    - apply N.eqb_eq in E. subst c. split; [reflexivity|].
      apply andb_true_iff in H as [_ H]. eauto.
    - apply andb_true_iff in H as [Hc H]. split; [|eauto].
      apply N.eqb_neq. intros ->. discriminate. }
  destruct Hc as [-> [b' Hs]]. exact (IH b' Hs).
Qed.

Lemma no_lt_decided_sets ic sets s :
  no_char 60 s = true -> all_decided ic ((false, [CChar 60]) :: sets) s = true.
Proof.
  intros H. apply all_decided_free. unfold no_char in H.
  apply forallb_forall. intros c Hc. rewrite forallb_forall in H.
  specialize (H c Hc). rewrite set_match_symbol by reflexivity. exact H.
Qed.

(** The rule [rx] has, [n] members into its sequence, a literal that the
    chunks of the document do not contain. *)
Ltac member_absent rx n :=
  apply (no_match_by_member rx n);
  [ vm_compute; discriminate
  | let sets := eval vm_compute in (lead_sets (drop_seq n (re_ast rx))) in
    change (lead_sets (drop_seq n (re_ast rx))) with sets;
    split_chunks;
    match goal with
    | |- all_decided _ _ (js _) = true => vm_compute; reflexivity
    | |- _ => apply no_lt_decided_sets; assumption
    end ].

Section Links.

Variables toLowerCase toUpperCase : str -> str.
Variables (pageSlug : str) (attachments : list attachment).

Lemma slugify_no_lt title : no_char 60 (slugify toLowerCase title) = true.
Proof.
  pose proof (slugify_shaped toLowerCase title) as H. unfold slug_shaped in H.
  destruct (slugify toLowerCase title) as [|c s] eqn:E; [reflexivity|].
  exact (slug_tail_no_lt _ _ H).
Qed.

Lemma before_links_unchanged doc :
  silent_on doc rules_before_links ->
  preprocessConfluenceHtml toLowerCase toUpperCase doc pageSlug attachments
  = convert_links toLowerCase doc.
Proof.
  intros H. unfold silent_on, rules_before_links in H.
  apply Forall_app in H as [Hbefore H].
  rewrite before_code_unchanged by exact Hbefore.
  repeat match type of H with
         | Forall _ (_ :: _) =>
             let H1 := fresh "S" in
             apply Forall_cons_iff in H as [H1 H]
         end.
  unfold convert_code_macros.
  rewrite (replace_all_no_match rx_code_lang _ doc) by assumption.
  rewrite (replace_all_no_match rx_code_plain _ doc) by assumption.
  unfold remove_macros.
  rewrite (replace_all_tpl_no_match rx_macro_selfclosing _ doc) by assumption.
  rewrite (replace_all_no_match rx_macro _ doc) by assumption.
  rewrite (replace_all_tpl_no_match rx_parameter _ doc) by assumption.
  unfold clean_tables, move_header_row.
  rewrite (replace_all_tpl_no_match rx_colgroup _ doc) by assumption.
  rewrite (replace_all_tpl_no_match rx_table_open _ doc) by assumption.
  rewrite (replace_all_tpl_no_match rx_cell_p _ doc) by assumption.
  rewrite (replace_all_tpl_no_match rx_p_p _ doc) by assumption.
  rewrite (replace_all_tpl_no_match rx_cell_p_open _ doc) by assumption.
  rewrite (replace_all_tpl_no_match rx_cell_p_close _ doc) by assumption.
  rewrite (replace_all_tpl_no_match rx_cell_attrs _ doc) by assumption.
  rewrite (replace_all_tpl_no_match rx_header_row _ doc) by assumption.
  reflexivity.
Qed.

Variables pre post title : str.

Hypothesis pre_plain : no_char 60 pre = true.
Hypothesis post_plain : no_char 60 post = true.
Hypothesis title_plain : no_char 60 title = true.
Hypothesis title_quotes : no_char 34 title = true.
Hypothesis title_given : title <> [].

Lemma link_rich_silent body :
  no_char 60 body = true ->
  silent_on (pre ++ page_link_rich title body ++ post) rules_before_links.
Proof.
  intros Hb. unfold page_link_rich, page_link_head, rules_before_links, rules_before_code.
  cbn [app]. silent_chunks.
Qed.

Lemma link_cdata_silent body :
  no_char 60 body = true ->
  silent_on (pre ++ page_link_cdata title body ++ post)
    (rx_link_body :: rules_before_links).
Proof.
  intros Hb. apply Forall_cons.
  - unfold page_link_cdata, page_link_head. member_absent rx_link_body 44%nat.
  - unfold page_link_cdata, page_link_head, rules_before_links, rules_before_code.
    cbn [app]. silent_chunks.
Qed.

Lemma link_bare_silent :
  silent_on (pre ++ page_link_plain title ++ post)
    (rx_link_body :: rx_link_cdata :: rules_before_links).
Proof.
  apply Forall_cons; [|apply Forall_cons].
  - unfold page_link_plain, page_link_head. member_absent rx_link_body 44%nat.
  - unfold page_link_plain, page_link_head. member_absent rx_link_cdata 44%nat.
  - unfold page_link_plain, page_link_head, rules_before_links, rules_before_code.
    cbn [app]. silent_chunks.
Qed.

Lemma anchor_silent text :
  no_char 60 text = true ->
  silent_on (pre ++ anchor (slugify toLowerCase title) text ++ post)
    [rx_link_body; rx_link_cdata; rx_link_bare].
Proof.
  intros Ht. pose proof (slugify_no_lt title) as Hs.
  unfold anchor. silent_chunks.
Qed.

Lemma convert_links_rich body :
  no_char 60 body = true ->
  convert_links toLowerCase (pre ++ page_link_rich title body ++ post)
  = pre ++ anchor (slugify toLowerCase title) (if truthy body then body else title)
        ++ post.
Proof.
  intros Hb. unfold convert_links.
  rewrite (replace_all_one_match rx_link_body _ pre (page_link_rich title body)
             post [Some title; Some body]).
  - rewrite (replace_all_no_match rx_link_body _ post)
      by (apply no_lt_silent; [led_lt|exact post_plain]).
    unfold link_with_body. cbn [cap_text nth_error Nat.sub].
    fold (anchor (slugify toLowerCase title) (if truthy body then body else title)).
    assert (Ht : no_char 60 (if truthy body then body else title) = true)
      by (destruct (truthy body); assumption).
    pose proof (anchor_silent _ Ht) as S.
    apply Forall_cons_iff in S as [_ S]. apply Forall_cons_iff in S as [S2 S].
    apply Forall_cons_iff in S as [S3 _].
    rewrite (replace_all_no_match rx_link_cdata _ _ S2).
    apply (replace_all_no_match rx_link_bare _ _ S3).
  - reflexivity.
  - unfold page_link_rich, page_link_head. discriminate.
  - apply no_lt_prefix; [led_lt|exact pre_plain].
  - apply exec_at_link_rich; assumption.
Qed.

Lemma convert_links_cdata body :
  body <> [] -> no_char 93 body = true -> no_char 60 body = true ->
  no_match_in rx_link_body (pre ++ page_link_cdata title body ++ post) ->
  convert_links toLowerCase (pre ++ page_link_cdata title body ++ post)
  = pre ++ anchor (slugify toLowerCase title) body ++ post.
Proof.
  intros Hne Hb1 Hb2 Hsilent. unfold convert_links.
  rewrite (replace_all_no_match rx_link_body _ _ Hsilent).
  rewrite (replace_all_one_match rx_link_cdata _ pre (page_link_cdata title body)
             post [Some title; Some body]).
  - rewrite (replace_all_no_match rx_link_cdata _ post)
      by (apply no_lt_silent; [led_lt|exact post_plain]).
    unfold link_with_body. cbn [cap_text nth_error Nat.sub].
    destruct body as [|c body]; [congruence|]. cbn [truthy].
    fold (anchor (slugify toLowerCase title) (c :: body)).
    pose proof (anchor_silent _ Hb2) as S.
    apply Forall_cons_iff in S as [_ S]. apply Forall_cons_iff in S as [_ S].
    apply Forall_cons_iff in S as [S3 _].
    apply (replace_all_no_match rx_link_bare _ _ S3).
  - reflexivity.
  - unfold page_link_cdata, page_link_head. discriminate.
  - apply no_lt_prefix; [led_lt|exact pre_plain].
  - apply exec_at_link_cdata; assumption.
Qed.

Lemma convert_links_bare :
  no_match_in rx_link_body (pre ++ page_link_plain title ++ post) ->
  no_match_in rx_link_cdata (pre ++ page_link_plain title ++ post) ->
  convert_links toLowerCase (pre ++ page_link_plain title ++ post)
  = pre ++ anchor (slugify toLowerCase title) title ++ post.
Proof.
  intros S1 S2. unfold convert_links.
  rewrite (replace_all_no_match rx_link_body _ _ S1).
  rewrite (replace_all_no_match rx_link_cdata _ _ S2).
  rewrite (replace_all_one_match rx_link_bare _ pre (page_link_plain title)
             post [Some title]).
  - rewrite (replace_all_no_match rx_link_bare _ post)
      by (apply no_lt_silent; [led_lt|exact post_plain]).
    reflexivity.
  - reflexivity.
  - unfold page_link_plain, page_link_head. discriminate.
  - apply no_lt_prefix; [led_lt|exact pre_plain].
  - apply exec_at_link_bare; assumption.
Qed.

End Links.




(** A link without body followed by a link with one: the first sub-pattern
    runs from the opening of the first link to the closing of the second,
    and the two links become one anchor. *)
Example links_merge :
  preprocessConfluenceHtml ascii_lower ascii_upper
    (js "<ac:link><ri:page ri:content-title=~A~ /></ac:link> <ac:link><ri:page ri:content-title=~B~ /><ac:link-body>T</ac:link-body></ac:link>")
    (js "my-page") []
  = js "<a href=~CONFLUENCE_LINK:a~>T</a>".
Proof. vm_compute. reflexivity. Qed.

(** ** Header rows of tables *)

(** Texts made of pieces, each a text without [<] or one of a few tags. *)
Lemma str_eqb_eq : forall a b, str_eqb a b = true -> a = b.
Proof.
  induction a as [|x a IH]; intros [|y b] H; cbn [str_eqb] in H;
    try discriminate; [reflexivity|].
  apply andb_true_iff in H as [H1 H2]. apply N.eqb_eq in H1.
  rewrite H1, (IH b H2). reflexivity.
Qed.

Definition piece_ok (tags : list str) (p : str) : bool :=
  no_char 60 p || existsb (str_eqb p) tags.

Definition led_lt_sets (sets : list (bool * list citem)) : bool :=
  match sets with
  | (false, [CChar c]) :: _ => c =? 60
  | _ => false
  end.

(** The tags are all decided against the sets that lead the rule, [n]
    members into its sequence. *)
Definition inert_tags (rx : regexp) (n : nat) (tags : list str) : bool :=
  let sets := lead_sets (drop_seq n (re_ast rx)) in
  led_lt_sets sets && forallb (all_decided (re_icase rx) sets) tags.

Lemma decided_pieces ic sets tags :
  led_lt_sets sets = true ->
  forallb (all_decided ic sets) tags = true ->
  forall pieces, forallb (piece_ok tags) pieces = true ->
    all_decided ic sets (concat pieces) = true.
Proof.
  intros Hled Htags. induction pieces as [|p pieces IH]; intros H; [reflexivity|].
  cbn [forallb] in H. apply andb_true_iff in H as [Hp H].
  cbn [concat]. apply all_decided_app; [|apply IH, H].
  unfold piece_ok in Hp. apply orb_true_iff in Hp as [Hp|Hp].
  - destruct sets as [|[[] items] sets]; try discriminate.
    destruct items as [|[c|? ?| |] [|? ?]]; try discriminate.
    cbn [led_lt_sets] in Hled. apply N.eqb_eq in Hled. subst c.
    apply all_decided_free. unfold no_char in Hp.
    apply forallb_forall. intros c Hc. rewrite forallb_forall in Hp.
    specialize (Hp c Hc). rewrite set_match_symbol by reflexivity. exact Hp.
  - apply existsb_exists in Hp as (t & Ht & E). apply str_eqb_eq in E. subst t.
    rewrite forallb_forall in Htags. apply Htags, Ht.
Qed.

Lemma inert_tags_sound rx n tags pieces :
  inert_tags rx n tags = true ->
  forallb (piece_ok tags) pieces = true ->
  no_match_in rx (concat pieces).
Proof.
  unfold inert_tags. intros H Hp. apply andb_true_iff in H as [Hled Htags].
  apply (no_match_by_member rx n).
  - destruct (lead_sets _); [discriminate|discriminate].
  - apply (decided_pieces _ _ tags); assumption.
Qed.

Lemma piece_ok_more tags tags' p :
  (forall t, In t tags -> In t tags') ->
  piece_ok tags p = true -> piece_ok tags' p = true.
Proof.
  unfold piece_ok. intros Hsub H. apply orb_true_iff in H as [H|H];
    apply orb_true_iff; [left; exact H|right].
  apply existsb_exists in H as (t & Ht & E). apply existsb_exists.
  exists t. split; [apply Hsub, Ht|exact E].
Qed.

(** One match, replaced by a template, in a text that has no other. *)
Lemma subst_segs_app_chars f : forall s pos segs,
  subst_segs f pos (map SChar s ++ segs)
  = s ++ subst_segs f (pos + length s) segs.
Proof.
  induction s as [|c s IH]; intros pos segs.
  - cbn [map app length]. rewrite Nat.add_0_r. reflexivity.
  - cbn [map app length subst_segs]. rewrite IH.
    replace (S pos + length s)%nat with (pos + S (length s))%nat by lia.
    reflexivity.
Qed.

Lemma replace_all_tpl_one_match rx tpl pre m rest caps :
  no_bol (re_ast rx) = true ->
  m <> [] ->
  (forall b p1 p2, pre = p1 ++ p2 -> p2 <> [] ->
     exec_at rx b (p2 ++ m ++ rest) = None) ->
  exec_at rx false (m ++ rest) = Some (length m, caps) ->
  no_match_in rx rest ->
  replace_all_tpl rx tpl (pre ++ m ++ rest)
  = pre ++ get_substitution m (pre ++ m ++ rest) (length pre) caps tpl ++ rest.
Proof.
  intros Hb Hm Hpre He Hrest. unfold replace_all_tpl.
  rewrite scan_prefix by exact Hpre.
  rewrite (scan_no_bol rx Hb (m ++ rest)).
  rewrite (scan_match rx false m rest caps Hm He).
  rewrite (scan_all_chars rx rest false Hrest).
  rewrite subst_segs_app_chars. cbn [subst_segs Nat.add].
  rewrite subst_segs_chars. reflexivity.
Qed.

(** A lazy star before an expression led by a character that the skipped
    text does not hold. *)
Lemma lazy_skip_to ic b neg items r k0 body rest l caps res :
  forallb (set_match ic neg items) body = true ->
  (forall a1 a2, body = a1 ++ a2 -> a2 <> [] ->
     decided_fail ic (lead_sets r) (a2 ++ rest) = true) ->
  rmatch ic b r k0 (MState rest (l + length body) caps) = Some res ->
  rmatch ic b (RSeq (RStar false (RSet neg items)) r) k0
    (MState (body ++ rest) l caps) = Some res.
Proof.
  intros Hbody Hfail Hk. rewrite rmatch_seq, rmatch_star_set.
  cbn [ms_rest ms_len ms_caps]. rewrite set_star_lazy_skip.
  - apply set_star_lazy_now, Hk.
  - exact Hbody.
  - intros a1 a2 E Hne. apply lead_sets_sound. cbn [ms_rest].
    apply Hfail with (a1 := a1); assumption.
Qed.

(** The greedy repeat of a whole expression: one more round, and the way
    out when the expression does not match. *)
Lemma star_loop_round body k n st res :
  body (fun st' => if (ms_len st <? ms_len st')%nat
                   then star_loop true body k n st' else None) st = Some res ->
  star_loop true body k (S n) st = Some res.
Proof. intros H. cbn [star_loop]. rewrite H. reflexivity. Qed.

Lemma star_loop_exit body k n st :
  (forall k', body k' st = None) -> star_loop true body k n st = k st.
Proof. intros H. destruct n; cbn [star_loop]; [|rewrite H]; reflexivity. Qed.

(** The header rule, [<table>\s*<tbody>\s*(<tr>(?:cell)+<\/tr>)], and its
    parts. *)
Definition th_cell_rx : regex :=
  Eval vm_compute in re_ast (re_i "\s*<th>[\s\S]*?<\/th>\s*").

Definition close_tr_rx : regex := Eval vm_compute in re_ast (re_i "<\/tr>").

Definition header_row_rx : regex :=
  RSeq (RSet false [CChar 60])
    (RSeq (RSet false [CChar 116])
       (RSeq (RSet false [CChar 114])
          (RSeq (RSet false [CChar 62])
             (RSeq (RSeq th_cell_rx (RStar true th_cell_rx)) close_tr_rx)))).

Definition lits_then (pat : str) (r : regex) : regex :=
  fold_right (fun c r => RSeq (RSet false [CChar c]) r) r pat.

Lemma header_row_ast :
  re_ast rx_header_row
  = lits_then (js "<table>")
      (RSeq (RStar true (RSet false [CSpace]))
         (lits_then (js "<tbody>")
            (RSeq (RStar true (RSet false [CSpace]))
               (RSeq (RGroup 1 header_row_rx) REmpty)))).
Proof. vm_compute. reflexivity. Qed.

Definition th_cell (c : str) : str := js "<th>" ++ c ++ js "</th>".

Definition header_row (cells : list str) : str :=
  js "<tr>" ++ flat_map th_cell cells ++ js "</tr>".

Lemma group_through ic b i r k whole rest l caps res :
  (forall k', k' (MState rest (l + length whole) caps) = Some res ->
     rmatch ic b r k' (MState (whole ++ rest) l caps) = Some res) ->
  k (MState rest (l + length whole) ((i, whole) :: caps)) = Some res ->
  rmatch ic b (RGroup i r) k (MState (whole ++ rest) l caps) = Some res.
Proof.
  intros H Hk. rewrite rmatch_group. apply H. unfold set_cap.
  cbn [ms_rest ms_len ms_caps].
  replace (l + length whole - l)%nat with (length whole) by lia.
  rewrite firstn_app, firstn_all, Nat.sub_diag. cbn [firstn].
  rewrite app_nil_r. exact Hk.
Qed.

(** One header cell whose content has no [<], before another tag. *)
Lemma th_cell_step b k c s l caps res :
  no_char 60 c = true ->
  k (MState (60 :: s) (l + length (th_cell c)) caps) = Some res ->
  rmatch true b th_cell_rx k (MState (th_cell c ++ 60 :: s) l caps) = Some res.
Proof.
  intros Hc Hk. unfold th_cell_rx, th_cell. rewrite <- !app_assoc. norm_js.
  rewrite greedy_stop by reflexivity. repeat lit_step.
  apply lazy_skip_to.
  - apply any_char.
  - intros a1 [|x a2] E Hne; [congruence|]. subst c.
    cbn [lead_sets exact_sets app decided_fail].
    rewrite set_match_symbol by reflexivity.
    rewrite (no_char_suffix 60 a1 x a2 Hc). reflexivity.
  - repeat lit_step.
    rewrite rmatch_seq, star_stop by reflexivity. rewrite rmatch_empty.
    rewrite <- Hk. f_equal. f_equal. unfold th_cell. norm_js. len_solve.
Qed.

Lemma th_cell_stops b k rest l caps :
  rmatch true b th_cell_rx k (MState (js "</tr>" ++ rest) l caps) = None.
Proof.
  unfold th_cell_rx. norm_js. rewrite greedy_stop by reflexivity.
  repeat lit_step. reflexivity.
Qed.

Lemma th_cells_next cells rest :
  exists s, flat_map th_cell cells ++ js "</tr>" ++ rest = 60 :: s.
Proof.
  destruct cells as [|c cells]; cbn [flat_map]; unfold th_cell;
    rewrite <- ?app_assoc; norm_js; eexists; reflexivity.
Qed.

Lemma th_cell_length c : (0 < length (th_cell c))%nat.
Proof. unfold th_cell. norm_js. cbn [length]. lia. Qed.

(** The repeat takes every cell of the row and stops at [</tr>]. *)
Lemma th_cells_loop b k rest res : forall cells n l caps,
  Forall (fun c => no_char 60 c = true) cells ->
  (length cells <= n)%nat ->
  k (MState (js "</tr>" ++ rest) (l + length (flat_map th_cell cells)) caps)
    = Some res ->
  star_loop true (rmatch true b th_cell_rx) k n
    (MState (flat_map th_cell cells ++ js "</tr>" ++ rest) l caps) = Some res.
Proof.
  induction cells as [|c cells IH]; intros n l caps Hc Hn Hk.
  - cbn [flat_map app length] in *. rewrite Nat.add_0_r in Hk.
    rewrite star_loop_exit; [exact Hk|].
    intros k'. apply th_cell_stops.
  - destruct n as [|n]; [cbn [length] in Hn; lia|].
    apply Forall_cons_iff in Hc as [Hc Hcells].
    apply star_loop_round. cbn [flat_map]. rewrite <- app_assoc.
    destruct (th_cells_next cells rest) as [s Es]. rewrite Es.
    apply th_cell_step; [exact Hc|].
    cbn [ms_len].
    replace (l <? l + length (th_cell c))%nat with true
      by (symmetry; apply Nat.ltb_lt; pose proof (th_cell_length c); lia).
    rewrite <- Es. apply IH.
    + exact Hcells.
    + cbn [length] in Hn. lia.
    + rewrite <- Hk. f_equal. f_equal. cbn [flat_map]. rewrite length_app. lia.
Qed.

Lemma th_cells_fuel cells rest :
  (length cells <= length (flat_map th_cell cells ++ rest))%nat.
Proof.
  induction cells as [|c cells IH]; [cbn; lia|].
  cbn [flat_map length]. rewrite <- app_assoc, length_app.
  pose proof (th_cell_length c). lia.
Qed.

Lemma header_row_through b k cells rest l caps res :
  cells <> [] -> Forall (fun c => no_char 60 c = true) cells ->
  k (MState rest (l + length (header_row cells)) caps) = Some res ->
  rmatch true b header_row_rx k (MState (header_row cells ++ rest) l caps)
  = Some res.
Proof.
  intros Hne Hcells Hk. destruct cells as [|c cells]; [congruence|].
  apply Forall_cons_iff in Hcells as [Hc Hcells].
  unfold header_row_rx, header_row. rewrite <- !app_assoc. norm_js.
  repeat lit_step. rewrite rmatch_seq, rmatch_seq.
  cbn [flat_map]. rewrite <- app_assoc.
  destruct (th_cells_next cells rest) as [s Es].
  change (60 :: 47 :: 116 :: 114 :: 62 :: rest) with (js "</tr>" ++ rest).
  rewrite Es. apply th_cell_step; [exact Hc|]. rewrite <- Es.
  cbn [rmatch ms_rest]. apply th_cells_loop.
  - exact Hcells.
  - apply th_cells_fuel.
  - unfold close_tr_rx. norm_js. repeat lit_step. rewrite rmatch_empty.
    rewrite <- Hk. f_equal. f_equal. unfold header_row, th_cell. norm_js.
    cbn [flat_map]. len_solve.
Qed.

Definition table_open (cells : list str) : str :=
  js "<table><tbody>" ++ header_row cells.

Lemma exec_at_header_row cells rest :
  cells <> [] -> Forall (fun c => no_char 60 c = true) cells ->
  exec_at rx_header_row false (table_open cells ++ rest)
  = Some (length (table_open cells), [Some (header_row cells)]).
Proof.
  intros Hne Hcells. eapply exec_at_result.
  - rewrite header_row_ast. cbn [re_icase rx_header_row].
    unfold table_open, lits_then. rewrite <- !app_assoc. norm_js.
    cbn [fold_right].
    repeat lit_step. rewrite rmatch_seq, star_stop by reflexivity.
    repeat lit_step.
    assert (E : exists s, header_row cells ++ rest = 60 :: s)
      by (unfold header_row; rewrite <- !app_assoc; norm_js; eexists; reflexivity).
    destruct E as [s Es]. rewrite Es.
    rewrite rmatch_seq, star_stop by reflexivity. rewrite <- Es.
    rewrite rmatch_seq. apply group_through.
    + intros k' Hk'. apply header_row_through; assumption.
    + rewrite rmatch_empty. reflexivity.
  - cbn [ms_len]. unfold table_open. norm_js. len_solve.
  - reflexivity.
Qed.

Definition table_tags : list str :=
  [js "<tr>"; js "</tr>"; js "<th>"; js "</th>"; js "<td>"; js "</td>";
   js "</tbody>"; js "</table>"].

Definition tags_in : list str := js "<table>" :: js "<tbody>" :: table_tags.

Definition tags_out : list str :=
  js "<table>" :: js "<thead>" :: js "</thead>" :: js "<tbody>" :: table_tags.

Definition cell_pieces (cells : list str) : list str :=
  flat_map (fun c => [js "<th>"; c; js "</th>"]) cells.

Definition row_pieces (cells : list str) : list str :=
  js "<tr>" :: cell_pieces cells ++ [js "</tr>"].

Lemma concat_cell_pieces cells : concat (cell_pieces cells) = flat_map th_cell cells.
Proof.
  induction cells as [|c cells IH]; [reflexivity|].
  cbn [cell_pieces flat_map app concat]. unfold cell_pieces in IH. rewrite IH.
  unfold th_cell. rewrite <- !app_assoc. reflexivity.
Qed.

Lemma concat_row_pieces cells : concat (row_pieces cells) = header_row cells.
Proof.
  unfold row_pieces, header_row. cbn [concat]. rewrite concat_app.
  rewrite concat_cell_pieces. cbn [concat]. rewrite app_nil_r. reflexivity.
Qed.

Lemma row_pieces_ok tags cells :
  existsb (str_eqb (js "<tr>")) tags = true ->
  existsb (str_eqb (js "</tr>")) tags = true ->
  existsb (str_eqb (js "<th>")) tags = true ->
  existsb (str_eqb (js "</th>")) tags = true ->
  forallb (no_char 60) cells = true ->
  forallb (piece_ok tags) (row_pieces cells) = true.
Proof.
  intros T1 T2 T3 T4 Hc. unfold row_pieces. cbn [forallb].
  apply andb_true_iff. split; [unfold piece_ok; rewrite T1; apply orb_true_r|].
  rewrite forallb_app. apply andb_true_iff. split.
  - induction cells as [|c cells IH]; [reflexivity|].
    cbn [forallb] in Hc. apply andb_true_iff in Hc as [Hc Hcells].
    cbn [cell_pieces flat_map app forallb].
    unfold piece_ok at 1 2 3. rewrite T3, T4, Hc, !orb_true_r.
    cbn [orb andb]. apply IH, Hcells.
  - cbn [forallb]. unfold piece_ok. rewrite T2, orb_true_r. reflexivity.
Qed.

Lemma pieces_ok_more tags tags' pieces :
  (forall t, In t tags -> In t tags') ->
  forallb (piece_ok tags) pieces = true -> forallb (piece_ok tags') pieces = true.
Proof.
  intros Hsub H. apply forallb_forall. intros p Hp.
  rewrite forallb_forall in H. apply (piece_ok_more tags tags' p Hsub), H, Hp.
Qed.

Lemma text_piece_ok tags p : no_char 60 p = true -> piece_ok tags p = true.
Proof. intros H. unfold piece_ok. rewrite H. reflexivity. Qed.

(** The rules that stay silent on a table of such pieces: all the rules
    before the link rules but the two that rewrite the table. *)
Definition rules_around_table : list regexp :=
  rules_before_code
    ++ [rx_code_lang; rx_code_plain; rx_macro_selfclosing; rx_macro; rx_parameter;
        rx_colgroup; rx_cell_p; rx_p_p; rx_cell_p_open; rx_cell_p_close;
        rx_cell_attrs].

Ltac pieces_silent tags H :=
  first [ apply (inert_tags_sound _ 0 tags _); [vm_compute; reflexivity | exact H]
        | apply (inert_tags_sound _ 2 tags _); [vm_compute; reflexivity | exact H] ].

Lemma table_pieces_silent pieces :
  forallb (piece_ok tags_in) pieces = true ->
  silent_on (concat pieces) rules_around_table.
Proof.
  intros H. unfold silent_on, rules_around_table, rules_before_code. cbn [app].
  repeat (apply Forall_cons; [pieces_silent tags_in H|]). apply Forall_nil.
Qed.

Lemma link_rules_silent pieces :
  forallb (piece_ok tags_out) pieces = true ->
  silent_on (concat pieces) [rx_link_body; rx_link_cdata; rx_link_bare].
Proof.
  intros H. unfold silent_on.
  repeat (apply Forall_cons; [pieces_silent tags_out H|]). apply Forall_nil.
Qed.

Lemma exec_at_table_open rest :
  exec_at rx_table_open false (js "<table>" ++ rest) = Some (7%nat, []).
Proof.
  eapply exec_at_result.
  - unfold rx_table_open. cbn [re_ast re_icase]. norm_js. repeat lit_step.
    rewrite rmatch_seq, star_stop by reflexivity. repeat lit_step.
    rewrite rmatch_empty. reflexivity.
  - reflexivity.
  - reflexivity.
Qed.

Lemma header_template m whole pos x :
  get_substitution m whole pos [Some x] (js "<table><thead>$1</thead><tbody>")
  = js "<table><thead>" ++ x ++ js "</thead><tbody>".
Proof. vm_compute. reflexivity. Qed.

Section Tables.

Variables toLowerCase toUpperCase : str -> str.
Variables (pageSlug : str) (attachments : list attachment).

Lemma around_table_unchanged doc :
  silent_on doc rules_around_table ->
  replace_all_tpl rx_table_open (js "<table>") doc = doc ->
  preprocessConfluenceHtml toLowerCase toUpperCase doc pageSlug attachments
  = convert_links toLowerCase (move_header_row doc).
Proof.
  intros H Ht. unfold silent_on, rules_around_table in H.
  apply Forall_app in H as [Hbefore H].
  rewrite before_code_unchanged by exact Hbefore.
  repeat match type of H with
         | Forall _ (_ :: _) =>
             let H1 := fresh "S" in
             apply Forall_cons_iff in H as [H1 H]
         end.
  unfold convert_code_macros.
  rewrite (replace_all_no_match rx_code_lang _ doc) by assumption.
  rewrite (replace_all_no_match rx_code_plain _ doc) by assumption.
  unfold remove_macros.
  rewrite (replace_all_tpl_no_match rx_macro_selfclosing _ doc) by assumption.
  rewrite (replace_all_no_match rx_macro _ doc) by assumption.
  rewrite (replace_all_tpl_no_match rx_parameter _ doc) by assumption.
  unfold clean_tables.
  rewrite (replace_all_tpl_no_match rx_colgroup _ doc) by assumption.
  rewrite Ht.
  rewrite (replace_all_tpl_no_match rx_cell_p _ doc) by assumption.
  rewrite (replace_all_tpl_no_match rx_p_p _ doc) by assumption.
  rewrite (replace_all_tpl_no_match rx_cell_p_open _ doc) by assumption.
  rewrite (replace_all_tpl_no_match rx_cell_p_close _ doc) by assumption.
  rewrite (replace_all_tpl_no_match rx_cell_attrs _ doc) by assumption.
  reflexivity.
Qed.

Variables (pre : str) (cells rest : list str).

Hypothesis pre_plain : no_char 60 pre = true.
Hypothesis cells_given : cells <> [].
Hypothesis cells_plain : forallb (no_char 60) cells = true.
Hypothesis rest_plain : forallb (piece_ok table_tags) rest = true.

Let doc : str := pre ++ table_open cells ++ concat rest.

Lemma table_doc_pieces :
  doc = concat (pre :: js "<table>" :: js "<tbody>" :: row_pieces cells ++ rest).
Proof.
  unfold doc, table_open. cbn [concat]. rewrite concat_app, concat_row_pieces.
  rewrite <- !app_assoc. reflexivity.
Qed.

Lemma table_doc_ok tags :
  (forall t, In t (js "<tbody>" :: table_tags) -> In t tags) ->
  forallb (piece_ok tags) (js "<tbody>" :: row_pieces cells ++ rest) = true.
Proof.
  intros Hsub.
  assert (Hin : forall t, In t (js "<tbody>" :: table_tags) ->
                          existsb (str_eqb t) tags = true).
  { intros t Ht. apply existsb_exists. exists t. split; [apply Hsub, Ht|].
    clear. induction t as [|c t IH]; [reflexivity|].
    cbn [str_eqb]. rewrite N.eqb_refl. exact IH. }
  cbn [forallb]. apply andb_true_iff. split.
  - unfold piece_ok. rewrite Hin by (left; reflexivity). apply orb_true_r.
  - rewrite forallb_app. apply andb_true_iff. split.
    + apply row_pieces_ok; try exact cells_plain; apply Hin; cbn; tauto.
    + apply (pieces_ok_more table_tags tags); [|exact rest_plain].
      intros t Ht. apply Hsub. right. exact Ht.
Qed.

Lemma table_open_identity :
  replace_all_tpl rx_table_open (js "<table>") doc = doc.
Proof.
  unfold doc, table_open. rewrite <- !app_assoc.
  change (js "<table><tbody>") with (js "<table>" ++ js "<tbody>").
  rewrite <- !app_assoc.
  rewrite (replace_all_tpl_one_match rx_table_open (js "<table>") pre
             (js "<table>") _ []).
  - rewrite get_substitution_plain by reflexivity. reflexivity.
  - reflexivity.
  - discriminate.
  - apply no_lt_prefix; [led_lt|exact pre_plain].
  - apply exec_at_table_open.
  - pose proof (table_doc_ok (js "<tbody>" :: table_tags) (fun t H => H)) as H.
    apply (inert_tags_sound rx_table_open 0) in H; [|vm_compute; reflexivity].
    cbn [concat] in H. rewrite concat_app, concat_row_pieces in H. exact H.
Qed.

Lemma move_header_row_first :
  move_header_row doc
  = pre ++ js "<table><thead>" ++ header_row cells ++ js "</thead><tbody>"
        ++ concat rest.
Proof.
  unfold move_header_row, doc.
  assert (Hcells : Forall (fun c => no_char 60 c = true) cells)
    by (apply Forall_forall; intros c Hc;
        rewrite forallb_forall in cells_plain; apply cells_plain, Hc).
  rewrite (replace_all_tpl_one_match rx_header_row _ pre (table_open cells)
             (concat rest) [Some (header_row cells)]).
  - rewrite header_template. rewrite <- !app_assoc. reflexivity.
  - reflexivity.
  - unfold table_open. discriminate.
  - apply no_lt_prefix; [led_lt|exact pre_plain].
  - apply exec_at_header_row; assumption.
  - apply (inert_tags_sound rx_header_row 0 table_tags);
      [vm_compute; reflexivity|exact rest_plain].
Qed.

Lemma header_row_relocated :
  preprocessConfluenceHtml toLowerCase toUpperCase doc pageSlug attachments
  = pre ++ js "<table><thead>" ++ header_row cells ++ js "</thead><tbody>"
        ++ concat rest.
Proof.
  rewrite around_table_unchanged.
  - rewrite move_header_row_first.
    assert (S : silent_on
                  (concat (pre :: js "<table>" :: js "<thead>" :: row_pieces cells
                             ++ js "</thead>" :: js "<tbody>" :: rest))
                  [rx_link_body; rx_link_cdata; rx_link_bare]).
    { apply link_rules_silent. cbn [forallb].
      rewrite (text_piece_ok _ pre pre_plain). cbn [andb].
      change (piece_ok tags_out (js "<table>")) with true.
      change (piece_ok tags_out (js "<thead>")) with true.
      cbn [andb]. rewrite forallb_app. apply andb_true_iff. split.
      - apply row_pieces_ok; try exact cells_plain; reflexivity.
      - cbn [forallb].
        change (piece_ok tags_out (js "</thead>")) with true.
        change (piece_ok tags_out (js "<tbody>")) with true.
        cbn [andb]. apply (pieces_ok_more table_tags tags_out); [|exact rest_plain].
        intros t Ht. do 4 right. exact Ht. }
    cbn [concat] in S. rewrite concat_app, concat_row_pieces in S.
    cbn [concat] in S.
    replace (pre ++ js "<table><thead>" ++ header_row cells
               ++ js "</thead><tbody>" ++ concat rest)
      with (pre ++ js "<table>" ++ js "<thead>" ++ header_row cells
               ++ js "</thead>" ++ js "<tbody>" ++ concat rest)
      by reflexivity.
    apply Forall_cons_iff in S as [S1 S]. apply Forall_cons_iff in S as [S2 S].
    apply Forall_cons_iff in S as [S3 _].
    unfold convert_links.
    rewrite (replace_all_no_match rx_link_body _ _ S1).
    rewrite (replace_all_no_match rx_link_cdata _ _ S2).
    apply (replace_all_no_match rx_link_bare _ _ S3).
  - rewrite table_doc_pieces. apply table_pieces_silent.
    cbn [forallb]. rewrite (text_piece_ok _ pre pre_plain). cbn [andb].
    change (piece_ok tags_in (js "<table>")) with true. cbn [andb].
    apply (table_doc_ok tags_in). intros t Ht. right. exact Ht.
  - apply table_open_identity.
Qed.

End Tables.




(** ** Pass-through *)

(** The twenty-six rules of the normalizer, in the order of the source. *)
Definition normalizer_rules : list regexp :=
  rules_before_code ++ rx_code_lang :: rx_code_plain :: rules_after_code.

Lemma normalizer_rules_led : Forall led_by_lt normalizer_rules.
Proof.
  unfold normalizer_rules, rules_before_code, rules_after_code. cbn [app].
  repeat (apply Forall_cons; [led_lt|]). apply Forall_nil.
Qed.

Lemma silent_unchanged toLowerCase toUpperCase pageSlug attachments html :
  silent_on html normalizer_rules ->
  preprocessConfluenceHtml toLowerCase toUpperCase html pageSlug attachments
  = html.
Proof.
  intros H. unfold silent_on, normalizer_rules in H.
  apply Forall_app in H as [Hbefore H].
  apply Forall_cons_iff in H as [S1 H]. apply Forall_cons_iff in H as [S2 H].
  rewrite before_code_unchanged by exact Hbefore.
  unfold convert_code_macros.
  rewrite (replace_all_no_match rx_code_lang _ html S1).
  rewrite (replace_all_no_match rx_code_plain _ html S2).
  apply after_code_unchanged, H.
Qed.

(** A global replace rewrites the matches and nothing else: with every
    match replaced by itself the text comes back. *)
Lemma subst_segs_self rx f :
  (forall pos t caps, f pos t caps = t) ->
  forall s skip b pos, subst_segs f pos (scan rx b skip s) = skipn skip s.
Proof.
  intros Hf. induction s as [|c s IH]; intros skip b pos.
  - destruct skip as [|k]; [|reflexivity]. cbn [scan].
    destruct (exec_at rx b []) as [[len caps]|]; [|reflexivity].
    cbn [subst_segs]. rewrite Hf, firstn_nil. reflexivity.
  - destruct skip as [|k]; [|cbn [scan skipn]; apply IH]. cbn [scan skipn].
    destruct (exec_at rx b (c :: s)) as [[[|l] caps]|]; cbn [subst_segs].
    + rewrite Hf, IH. reflexivity.
    + rewrite Hf, IH. cbn [firstn app]. rewrite firstn_skipn. reflexivity.
    + rewrite IH. reflexivity.
Qed.

Lemma replace_all_self rx s : replace_all rx (fun m _ => m) s = s.
Proof.
  unfold replace_all. apply (subst_segs_self rx (fun _ t _ => t)).
  reflexivity.
Qed.

Lemma replace_all_tpl_self rx s : replace_all_tpl rx (js "$&") s = s.
Proof.
  unfold replace_all_tpl. apply (subst_segs_self rx). intros pos t caps.
  change (js "$&") with [36; 38]. cbn [get_substitution N.eqb Pos.eqb].
  apply app_nil_r.
Qed.



(** ** The text-protection pass *)

Definition fenced (code : str) : str :=
  js "```" ++ newline :: code ++ newline :: js "```".

(** C1 fails on the code: the escaping of capitalized identifiers runs
    before the code blocks and the tables are taken out, so it rewrites
    their contents; and a block is put back with [String.replace], which
    reads [$&] in the block as the placeholder it replaces. *)
Theorem protected_spans_altered :
  protect_text (fenced (js "List<Entity> items"))
  = fenced (js "List`<Entity>` items")
  /\ protect_text (fenced (js "echo $&"))
     = fenced (js "echo __CODE_BLOCK_0__")
  /\ protect_text (js "<table><tr><td><Entity> costs $$5</td></tr></table>")
     = js "<table><tr><td>`<Entity>` costs $5</td></tr></table>".
Proof. repeat split; vm_compute; reflexivity. Qed.

(** C2 fails on the code: the rule for capitalized identifiers has no guard
    against a tag that is wrapped already, so a second run wraps it again. *)
Theorem protect_text_not_idempotent :
  protect_text (js "The <Type> element") = js "The `<Type>` element"
  /\ protect_text (protect_text (js "The <Type> element"))
     = js "The ``<Type>`` element"
  /\ protect_text (protect_text (js "The <Type> element"))
     <> protect_text (js "The <Type> element").
Proof.
  assert (E1 : protect_text (js "The <Type> element") = js "The `<Type>` element")
    by (vm_compute; reflexivity).
  assert (E2 : protect_text (js "The `<Type>` element") = js "The ``<Type>`` element")
    by (vm_compute; reflexivity).
  rewrite E1, E2. repeat split. vm_compute. discriminate.
Qed.

(** * Further properties of the program *)

(** ** The tables of [fixConfluenceLinks] *)

Lemma str_eqb_refl : forall a, str_eqb a a = true.
Proof.
  induction a as [|c a IH]; [reflexivity|].
  cbn [str_eqb]. rewrite N.eqb_refl. exact IH.
Qed.

Lemma str_eqb_neq a b : a <> b -> str_eqb a b = false.
Proof.
  intros H. destruct (str_eqb a b) eqn:E; [|reflexivity].
  apply str_eqb_eq in E. congruence.
Qed.

(** A table filled by a loop of [set] holds the entries in the reverse of
    their order. *)
Lemma fold_table_set {A : Type} (key value : A -> str) : forall l init,
  fold_left (fun m p => table_set (key p) (value p) m) l init
  = rev (map (fun p => (key p, value p)) l) ++ init.
Proof.
  induction l as [|p l IH]; intros init; [reflexivity|].
  cbn [fold_left map rev]. rewrite IH, <- app_assoc. reflexivity.
Qed.

Lemma table_get_app_absent k : forall t1 t2,
  (forall e, In e t1 -> fst e <> k) ->
  table_get k (t1 ++ t2) = table_get k t2.
Proof.
  induction t1 as [|[k' v] t1 IH]; intros t2 H; [reflexivity|].
  cbn [app table_get].
  rewrite str_eqb_neq by (intros E; apply (H (k', v)); [left; reflexivity|symmetry; exact E]).
  apply IH. intros e He. apply H. right. exact He.
Qed.

Lemma table_get_absent k t :
  (forall e, In e t -> fst e <> k) -> table_get k t = None.
Proof.
  intros H. rewrite <- (app_nil_r t). rewrite table_get_app_absent by exact H.
  reflexivity.
Qed.

(** The entry that the last [set] of a key wrote is the one [get] returns. *)
Lemma table_get_last {A : Type} (key value : A -> str) l1 p l2 init :
  (forall q, In q l2 -> key q <> key p) ->
  table_get (key p)
    (fold_left (fun m q => table_set (key q) (value q) m) (l1 ++ p :: l2) init)
  = Some (value p).
Proof.
  intros H. rewrite fold_table_set, map_app, rev_app_distr. cbn [map rev].
  rewrite <- !app_assoc. rewrite table_get_app_absent.
  - cbn [app table_get]. rewrite str_eqb_refl. reflexivity.
  - intros e He. apply in_rev, in_map_iff in He as (q & <- & Hq).
    cbn [fst]. apply H, Hq.
Qed.

Lemma table_get_none {A : Type} (key value : A -> str) l k :
  (forall q, In q l -> key q <> k) ->
  table_get k (fold_left (fun m q => table_set (key q) (value q) m) l []) = None.
Proof.
  intros H. rewrite fold_table_set, app_nil_r. apply table_get_absent.
  intros e He. apply in_rev, in_map_iff in He as (q & <- & Hq).
  cbn [fst]. apply H, Hq.
Qed.

(** Several pages can have one slug (titles that differ in case or in
    punctuation only): the link table then keeps the path of the last of
    them, in the order of the page map; a slug of no page is not in it. *)
Theorem slugToPath_last_page :
  forall toLowerCase pages slug,
    (forall pages1 id info pages2,
        pages = pages1 ++ (id, info) :: pages2 ->
        slugify toLowerCase (page_title info) = slug ->
        (forall q, In q pages2 ->
           slugify toLowerCase (page_title (snd q)) <> slug) ->
        table_get slug (slugToPath toLowerCase pages) = Some (page_path info))
    /\ ((forall q, In q pages ->
           slugify toLowerCase (page_title (snd q)) <> slug) ->
        table_get slug (slugToPath toLowerCase pages) = None).
Proof.
  intros toLowerCase pages slug. split.
  - intros pages1 id info pages2 -> <- H. unfold slugToPath.
    apply (table_get_last
             (fun p : str * pageInfo => slugify toLowerCase (page_title (snd p)))
             (fun p => page_path (snd p)) pages1 (id, info) pages2 []).
    exact H.
  - intros H. unfold slugToPath.
    apply (table_get_none
             (fun p : str * pageInfo => slugify toLowerCase (page_title (snd p)))
             (fun p => page_path (snd p)) pages slug H).
Qed.

Lemma slugToPath_last_page_witness :
  table_get (js "release-notes")
    (slugToPath ascii_lower
       [(js "1", PageInfo (js "Release Notes") (js "docs/release-notes/"));
        (js "2", PageInfo (js "Guide") (js "docs/guide/"));
        (js "3", PageInfo (js "release notes!") (js "docs/guide/release-notes/"))])
  = Some (js "docs/guide/release-notes/").
Proof.
  apply (proj1 (slugToPath_last_page ascii_lower _ (js "release-notes"))
           [(js "1", PageInfo (js "Release Notes") (js "docs/release-notes/"));
            (js "2", PageInfo (js "Guide") (js "docs/guide/"))]
           (js "3") (PageInfo (js "release notes!") (js "docs/guide/release-notes/"))
           [] eq_refl eq_refl).
  intros q [].
Defined.

(** ** Relative paths *)

Definition is_segment (s : str) : bool := truthy s && no_char 47 s.

(** The path of a page as [processPage] records it: its segments, each
    followed by a slash. *)
Definition dir_path (segs : list str) : str :=
  flat_map (fun s => s ++ js "/") segs.

Lemma split_on_segment sep : forall part rest,
  no_char sep part = true ->
  split_on sep (part ++ sep :: rest) = part :: split_on sep rest.
Proof.
  induction part as [|c part IH]; intros rest H.
  - cbn [app split_on]. rewrite N.eqb_refl.
    destruct (split_on sep rest) as [|p ps] eqn:E; [|reflexivity].
    exfalso. destruct rest as [|c r]; cbn [split_on] in E; [discriminate|].
    destruct (split_on sep r); [discriminate|].
    destruct (c =? sep); discriminate.
  - unfold no_char in H. cbn [forallb] in H.
    apply andb_true_iff in H as [Hc H]. apply negb_true_iff in Hc.
    cbn [app split_on]. rewrite (IH rest H), Hc. reflexivity.
Qed.

Lemma path_parts_dir_path : forall segs,
  forallb is_segment segs = true -> path_parts (dir_path segs) = segs.
Proof.
  unfold path_parts.
  induction segs as [|seg segs IH]; intros H; [reflexivity|].
  cbn [forallb] in H. apply andb_true_iff in H as [Hs H].
  unfold is_segment in Hs. apply andb_true_iff in Hs as [Hne Hs].
  cbn [dir_path flat_map]. rewrite <- app_assoc.
  change (js "/" ++ flat_map (fun s => s ++ js "/") segs)
    with (47 :: dir_path segs).
  rewrite split_on_segment by exact Hs. cbn [filter]. rewrite Hne.
  f_equal. apply IH, H.
Qed.

Lemma join_tail_slash : forall segs,
  flat_map (fun q => js "/" ++ q) segs ++ js "/" = js "/" ++ dir_path segs.
Proof.
  induction segs as [|s segs IH]; [reflexivity|].
  cbn [flat_map dir_path]. rewrite <- !app_assoc. fold (dir_path segs).
  rewrite IH. reflexivity.
Qed.

Lemma join_dir_path : forall segs,
  segs <> [] -> join (js "/") segs ++ js "/" = dir_path segs.
Proof.
  intros [|seg segs] H; [congruence|]. clear H. cbn [join dir_path flat_map].
  rewrite <- !app_assoc. rewrite join_tail_slash. reflexivity.
Qed.

(** The link from a page to another one: up to the root of the site, one
    [../] for each segment of the page's own path, then the path of the
    target as it is recorded. *)
Theorem relative_path_of_paths :
  forall current target,
    forallb is_segment current = true ->
    forallb is_segment target = true ->
    target <> [] ->
    relative_path (dir_path current) (dir_path target)
    = repeat_str (js "../") (length current) ++ dir_path target.
Proof.
  intros current target Hc Ht Hne. unfold relative_path.
  rewrite !path_parts_dir_path by assumption.
  f_equal. apply join_dir_path, Hne.
Qed.

Lemma relative_path_of_paths_witness :
  relative_path (js "guide/setup/") (js "reference/api/v2/")
  = js "../../reference/api/v2/".
Proof.
  exact (relative_path_of_paths [js "guide"; js "setup"]
           [js "reference"; js "api"; js "v2"] eq_refl eq_refl
           (fun E => eq_ind [js "reference"; js "api"; js "v2"]
                       (fun l => match l with [] => False | _ => True end)
                       I [] E)).
Defined.

(** ** Runs that end where a literal stands *)

(** A greedy star over a set, before a continuation that fails wherever the
    run could be cut short, hands the whole run over: the result is the one
    of the continuation at the end of the run. *)
Lemma set_star_greedy_end P k rest caps : forall run l,
  forallb P run = true ->
  match rest with [] => true | c :: _ => negb (P c) end = true ->
  (forall r1 r2, run = r1 ++ r2 -> r2 <> [] ->
     k (MState (r2 ++ rest) (l + length r1) caps) = None) ->
  set_star_greedy P k (run ++ rest) l caps
  = k (MState rest (l + length run) caps).
Proof.
  induction run as [|c run IH]; intros l Hrun Hrest Hk.
  - cbn [app length]. rewrite Nat.add_0_r.
    destruct rest as [|c rest]; [reflexivity|].
    apply negb_true_iff in Hrest. apply set_star_greedy_stop, Hrest.
  - cbn [forallb] in Hrun. apply andb_true_iff in Hrun as [Hc Hrun].
    cbn [app set_star_greedy]. rewrite Hc.
    rewrite (IH (S l) Hrun Hrest).
    + replace (S l + length run)%nat with (l + length (c :: run))%nat
        by (cbn [length]; lia).
      destruct (k (MState rest (l + length (c :: run)) caps)); [reflexivity|].
      specialize (Hk [] (c :: run) eq_refl). cbn [app length] in Hk.
      rewrite Nat.add_0_r in Hk. apply Hk. discriminate.
    + intros r1 r2 E Hne. specialize (Hk (c :: r1) r2).
      replace (S l + length r1)%nat with (l + length (c :: r1))%nat
        by (cbn [length]; lia).
      apply Hk; [rewrite E; reflexivity|exact Hne].
Qed.

Definition stops (ic neg : bool) (items : list citem) (rest : str) : bool :=
  match rest with
  | [] => true
  | c :: _ => negb (set_match ic neg items c)
  end.

Lemma star_end ic b neg items k run rest l caps :
  forallb (set_match ic neg items) run = true ->
  stops ic neg items rest = true ->
  (forall r1 r2, run = r1 ++ r2 -> r2 <> [] ->
     k (MState (r2 ++ rest) (l + length r1) caps) = None) ->
  rmatch ic b (RStar true (RSet neg items)) k (MState (run ++ rest) l caps)
  = k (MState rest (l + length run) caps).
Proof.
  intros Hrun Hstop Hk. rewrite rmatch_star_set. cbn [ms_rest ms_len ms_caps].
  apply set_star_greedy_end; assumption.
Qed.

Lemma plus_end ic b neg items k c0 run rest l caps :
  forallb (set_match ic neg items) (c0 :: run) = true ->
  stops ic neg items rest = true ->
  (forall r1 r2, c0 :: run = r1 ++ r2 -> r1 <> [] -> r2 <> [] ->
     k (MState (r2 ++ rest) (l + length r1) caps) = None) ->
  rmatch ic b (RSeq (RSet neg items) (RStar true (RSet neg items))) k
    (MState (c0 :: run ++ rest) l caps)
  = k (MState rest (l + length (c0 :: run)) caps).
Proof.
  intros Hrun Hstop Hk. cbn [forallb] in Hrun.
  apply andb_true_iff in Hrun as [Hc Hrun].
  rewrite rmatch_seq, rmatch_set_cons, Hc.
  rewrite star_end; [|exact Hrun|exact Hstop|].
  - f_equal. f_equal. cbn [length]. lia.
  - intros r1 r2 E Hne. specialize (Hk (c0 :: r1) r2).
    replace (S l + length r1)%nat with (l + length (c0 :: r1))%nat
      by (cbn [length]; lia).
    apply Hk; [rewrite E; reflexivity|discriminate|exact Hne].
Qed.

Lemma group_end ic b i r k whole rest l caps adds :
  (forall k',
     rmatch ic b r k' (MState (whole ++ rest) l caps)
     = k' (MState rest (l + length whole) (adds ++ caps))) ->
  rmatch ic b (RGroup i r) k (MState (whole ++ rest) l caps)
  = k (MState rest (l + length whole) ((i, whole) :: adds ++ caps)).
Proof.
  intros H. rewrite rmatch_group, H. unfold set_cap.
  cbn [ms_rest ms_len ms_caps].
  replace (l + length whole - l)%nat with (length whole) by lia.
  rewrite firstn_app, firstn_all, Nat.sub_diag. cbn [firstn].
  rewrite app_nil_r. reflexivity.
Qed.

Lemma group_plus_end ic b i neg items k c0 run rest l caps :
  forallb (set_match ic neg items) (c0 :: run) = true ->
  stops ic neg items rest = true ->
  (forall r1 r2 caps', c0 :: run = r1 ++ r2 -> r1 <> [] -> r2 <> [] ->
     k (MState (r2 ++ rest) (l + length r1) caps') = None) ->
  rmatch ic b
    (RGroup i (RSeq (RSeq (RSet neg items) (RStar true (RSet neg items))) REmpty))
    k (MState (c0 :: run ++ rest) l caps)
  = k (MState rest (l + length (c0 :: run)) ((i, c0 :: run) :: caps)).
Proof.
  intros Hrun Hstop Hk. rewrite rmatch_group, rmatch_seq.
  rewrite plus_end; [|exact Hrun|exact Hstop|].
  - rewrite rmatch_empty. unfold set_cap. cbn [ms_rest ms_len ms_caps].
    replace (l + length (c0 :: run) - l)%nat with (length (c0 :: run)) by lia.
    change (c0 :: run ++ rest) with ((c0 :: run) ++ rest).
    rewrite firstn_app, firstn_all, Nat.sub_diag. cbn [firstn].
    rewrite app_nil_r. reflexivity.
  - intros r1 r2 E Hne1 Hne2. rewrite rmatch_empty. unfold set_cap.
    cbn [ms_rest ms_len ms_caps]. apply Hk; assumption.
Qed.

Lemma group_star_end ic b i neg items k run rest l caps :
  forallb (set_match ic neg items) run = true ->
  stops ic neg items rest = true ->
  (forall r1 r2 caps', run = r1 ++ r2 -> r2 <> [] ->
     k (MState (r2 ++ rest) (l + length r1) caps') = None) ->
  rmatch ic b (RGroup i (RSeq (RStar true (RSet neg items)) REmpty))
    k (MState (run ++ rest) l caps)
  = k (MState rest (l + length run) ((i, run) :: caps)).
Proof.
  intros Hrun Hstop Hk. rewrite rmatch_group, rmatch_seq.
  rewrite star_end; [|exact Hrun|exact Hstop|].
  - rewrite rmatch_empty. unfold set_cap. cbn [ms_rest ms_len ms_caps].
    replace (l + length run - l)%nat with (length run) by lia.
    rewrite firstn_app, firstn_all, Nat.sub_diag. cbn [firstn].
    rewrite app_nil_r. reflexivity.
  - intros r1 r2 E Hne2. rewrite rmatch_empty. unfold set_cap.
    cbn [ms_rest ms_len ms_caps]. apply Hk; assumption.
Qed.

(** A literal refuses every character but its own. *)
Lemma lit_refuses ic b x r k c s l caps :
  set_match ic false [CChar x] c = false ->
  rmatch ic b (RSeq (RSet false [CChar x]) r) k (MState (c :: s) l caps) = None.
Proof. intros H. rewrite rmatch_seq, rmatch_set_cons, H. reflexivity. Qed.

Lemma lit_guard ic b x r k run rest :
  forallb (set_match ic true [CChar x]) run = true ->
  forall r1 r2 n caps, run = r1 ++ r2 -> r2 <> [] ->
    rmatch ic b (RSeq (RSet false [CChar x]) r) k (MState (r2 ++ rest) n caps)
    = None.
Proof.
  intros H r1 [|c r2] n caps E Hne; [congruence|]. subst run.
  rewrite forallb_app in H. apply andb_true_iff in H as [_ H].
  cbn [forallb] in H. apply andb_true_iff in H as [Hc _].
  cbn [app]. apply lit_refuses. unfold set_match in *.
  cbn [xorb] in *. apply negb_true_iff, Hc.
Qed.

(** ** [fixConfluenceLinks]: links by page URL *)

Definition origin_rx : regex :=
  Eval vm_compute in re_ast (re "https?:\/\/[^\/]+").

(** The site of an absolute URL, if any: [http://host] or [https://host]. *)
Definition origin_text (o : option (bool * str)) : str :=
  match o with
  | None => []
  | Some (secure, host) =>
      (if secure then js "https://" else js "http://") ++ host
  end.

Definition origin_ok (o : option (bool * str)) : bool :=
  match o with
  | None => true
  | Some (_, host) => truthy host && no_char 47 host && no_char 91 host
  end.

Definition space_url (o : option (bool * str)) (key id tail : str) : str :=
  origin_text o ++ js "/wiki/spaces/" ++ key ++ js "/pages/" ++ id ++ tail.

Definition view_url (o : option (bool * str)) (id tail : str) : str :=
  origin_text o ++ js "/wiki/pages/viewpage.action?pageId=" ++ id ++ tail.

Definition md_link (text url : str) : str :=
  js "[" ++ text ++ js "](" ++ url ++ js ")".

(** An optional literal before another literal. *)
Lemma opt_lit_yes ic b x y r k c s l caps :
  set_match ic false [CChar x] c = true ->
  set_match ic false [CChar y] c = false ->
  rmatch ic b
    (RSeq (RAlt (RSet false [CChar x]) REmpty) (RSeq (RSet false [CChar y]) r)) k
    (MState (c :: s) l caps)
  = rmatch ic b (RSeq (RSet false [CChar y]) r) k (MState s (S l) caps).
Proof.
  intros Hx Hy. rewrite rmatch_seq, rmatch_alt, rmatch_set_cons, Hx.
  rewrite rmatch_empty, (lit_refuses ic b y r k c s l caps Hy).
  destruct (rmatch ic b (RSeq (RSet false [CChar y]) r) k _); reflexivity.
Qed.

Lemma opt_lit_no ic b x r' k c s l caps :
  set_match ic false [CChar x] c = false ->
  rmatch ic b (RSeq (RAlt (RSet false [CChar x]) REmpty) r') k
    (MState (c :: s) l caps)
  = rmatch ic b r' k (MState (c :: s) l caps).
Proof.
  intros Hx. rewrite rmatch_seq, rmatch_alt, rmatch_set_cons, Hx.
  rewrite rmatch_empty. reflexivity.
Qed.

(** The optional site before a path that begins with a slash. *)
Lemma origin_opt b r k o s l caps :
  origin_ok o = true ->
  rmatch false b (RSeq (RAlt origin_rx REmpty) (RSeq (RSet false [CChar 47]) r)) k
    (MState (origin_text o ++ 47 :: s) l caps)
  = rmatch false b r k (MState s (l + length (origin_text o) + 1) caps).
Proof.
  intros Ho. rewrite rmatch_seq, rmatch_alt.
  destruct o as [[secure host]|].
  - cbn [origin_ok] in Ho. apply andb_true_iff in Ho as [Ho _].
    apply andb_true_iff in Ho as [Hne Hh].
    destruct host as [|h0 host]; [discriminate|].
    assert (Hrun : forallb (set_match false true [CChar 47]) (h0 :: host) = true)
      by (apply no_char_neg_set; [reflexivity|reflexivity|exact Hh]).
    assert (Hend : forall n,
               rmatch false b
                 (RSeq (RSeq (RSet true [CChar 47]) (RStar true (RSet true [CChar 47])))
                    REmpty)
                 (rmatch false b (RSeq (RSet false [CChar 47]) r) k)
                 (MState (h0 :: host ++ 47 :: s) n caps)
               = rmatch false b r k
                   (MState s (S (n + length (h0 :: host))) caps)).
    { intros n. rewrite rmatch_seq. rewrite plus_end; [|exact Hrun|reflexivity|].
      - rewrite rmatch_empty, rmatch_seq, rmatch_set_cons. reflexivity.
      - intros r1 r2 E _ Hne2. rewrite rmatch_empty.
        apply (lit_guard false b 47 r k (h0 :: host) (47 :: s) Hrun r1 r2 _ caps E Hne2). }
    assert (HL : rmatch false b origin_rx
                   (rmatch false b (RSeq (RSet false [CChar 47]) r) k)
                   (MState (origin_text (Some (secure, h0 :: host)) ++ 47 :: s) l caps)
                 = rmatch false b r k
                     (MState s (l + length (origin_text (Some (secure, h0 :: host))) + 1)
                        caps)).
    { unfold origin_rx. cbn [origin_text].
      destruct secure; rewrite <- app_assoc; norm_js; repeat lit_step.
      - rewrite opt_lit_yes by reflexivity. repeat lit_step. rewrite Hend.
        cbn [length]. f_equal. f_equal. lia.
      - rewrite opt_lit_no by reflexivity. repeat lit_step. rewrite Hend.
        cbn [length]. f_equal. f_equal. lia. }
    rewrite HL.
    assert (ER : rmatch false b REmpty
                   (rmatch false b (RSeq (RSet false [CChar 47]) r) k)
                   (MState (origin_text (Some (secure, h0 :: host)) ++ 47 :: s) l caps)
                 = None).
    { rewrite rmatch_empty. cbn [origin_text].
      destruct secure; rewrite <- app_assoc; norm_js;
        rewrite lit_refuses by reflexivity; reflexivity. }
    rewrite ER.
    destruct (rmatch false b r k _); reflexivity.
  - cbn [origin_text app]. unfold origin_rx. rewrite lit_refuses by reflexivity.
    rewrite rmatch_empty, rmatch_seq, rmatch_set_cons. eval_set.
    cbn [length]. rewrite Nat.add_0_r, Nat.add_1_r. reflexivity.
Qed.

Definition group_body (r : regex) : regex :=
  match r with
  | RSeq (RGroup _ r') _ => r'
  | _ => REmpty
  end.

Definition space_url_rx : regex :=
  Eval vm_compute in group_body (drop_seq 4 (re_ast rx_confluence_url)).

Definition view_url_rx : regex :=
  Eval vm_compute in group_body (drop_seq 4 (re_ast rx_view_page)).

Definition link_rx (url_rx : regex) : regex :=
  RSeq (RSet false [CChar 91])
    (RSeq (RGroup 1 (RSeq (RSeq (RSet true [CChar 93])
                             (RStar true (RSet true [CChar 93]))) REmpty))
       (RSeq (RSet false [CChar 93])
          (RSeq (RSet false [CChar 40])
             (RSeq (RGroup 2 url_rx) (RSeq (RSet false [CChar 41]) REmpty))))).

Lemma confluence_url_ast : re_ast rx_confluence_url = link_rx space_url_rx.
Proof. vm_compute. reflexivity. Qed.

Lemma view_page_ast : re_ast rx_view_page = link_rx view_url_rx.
Proof. vm_compute. reflexivity. Qed.

Lemma group_through_caps ic b i r k whole rest l caps adds res :
  (forall k', k' (MState rest (l + length whole) (adds ++ caps)) = Some res ->
     rmatch ic b r k' (MState (whole ++ rest) l caps) = Some res) ->
  k (MState rest (l + length whole) ((i, whole) :: adds ++ caps)) = Some res ->
  rmatch ic b (RGroup i r) k (MState (whole ++ rest) l caps) = Some res.
Proof.
  intros H Hk. rewrite rmatch_group. apply H. unfold set_cap.
  cbn [ms_rest ms_len ms_caps].
  replace (l + length whole - l)%nat with (length whole) by lia.
  rewrite firstn_app, firstn_all, Nat.sub_diag. cbn [firstn].
  rewrite app_nil_r. exact Hk.
Qed.

Lemma star_run ic b neg items k run rest l caps res :
  forallb (set_match ic neg items) run = true ->
  stops ic neg items rest = true ->
  k (MState rest (l + length run) caps) = Some res ->
  rmatch ic b (RStar true (RSet neg items)) k (MState (run ++ rest) l caps)
  = Some res.
Proof.
  intros Hrun Hstop Hk. rewrite rmatch_star_set. cbn [ms_rest ms_len ms_caps].
  apply set_star_greedy_run; assumption.
Qed.

Definition no_leading_digit (s : str) : bool :=
  match s with
  | [] => true
  | c :: _ => negb (is_digit c)
  end.

Lemma digits_run ic id :
  forallb is_digit id = true ->
  forallb (set_match ic false [CRange 48 57]) id = true.
Proof.
  intros H. apply forallb_forall. intros c Hc.
  rewrite forallb_forall in H. specialize (H c Hc).
  unfold set_match, items_mem. cbn [existsb citem_mem xorb].
  unfold is_digit in H. rewrite H. reflexivity.
Qed.

Lemma digits_stop ic tail rest :
  no_leading_digit tail = true ->
  stops ic false [CRange 48 57] (tail ++ 41 :: rest) = true.
Proof.
  destruct tail as [|c tail]; intros H; [destruct ic; reflexivity|].
  cbn [app stops]. cbn [no_leading_digit] in H.
  unfold set_match, items_mem. cbn [existsb citem_mem xorb].
  rewrite orb_false_r. fold (is_digit c).
  assert (Hs : (is_digit (swap_case c)) = false).
  { unfold swap_case. destruct (is_upper c) eqn:U.
    - unfold is_upper, is_digit in *. apply andb_true_iff in U as [U1 U2].
      apply N.leb_le in U1, U2. apply andb_false_iff. right.
      apply N.leb_gt. lia.
    - destruct (is_lower c) eqn:L; [|apply negb_true_iff, H].
      unfold is_lower, is_digit in *. apply andb_true_iff in L as [L1 L2].
      apply N.leb_le in L1, L2. apply andb_false_iff. right.
      apply N.leb_gt. lia. }
  apply negb_true_iff in H. unfold is_digit in *.
  rewrite H. destruct ic; cbn [andb orb]; [rewrite Hs|]; reflexivity.
Qed.

(** The path [/wiki/spaces/KEY/pages/ID...] of a page URL, after the
    optional site. *)
Lemma space_url_through b k o key id tail rest l caps res :
  origin_ok o = true ->
  truthy key = true -> no_char 47 key = true ->
  truthy id = true -> forallb is_digit id = true ->
  no_char 41 tail = true -> no_leading_digit tail = true ->
  k (MState (41 :: rest) (l + length (space_url o key id tail)) ((3%nat, id) :: caps))
    = Some res ->
  rmatch false b space_url_rx k
    (MState (space_url o key id tail ++ 41 :: rest) l caps) = Some res.
Proof.
  intros Ho Hk1 Hk2 Hi1 Hi2 Ht1 Ht2 Hk.
  destruct key as [|k0 key]; [discriminate|].
  destruct id as [|i0 id]; [discriminate|].
  unfold space_url_rx, space_url. rewrite <- !app_assoc. norm_js.
  change (RAlt (RSeq (RSet false [CChar 104]) _) REmpty)
    with (RAlt origin_rx REmpty).
  rewrite origin_opt by exact Ho. repeat lit_step.
  rewrite rmatch_seq, plus_end;
    [ | apply no_char_neg_set; [reflexivity|reflexivity|exact Hk2]
      | reflexivity
      | intros r1 r2 E _ Hne2;
        apply (lit_guard false b 47 _ _ (k0 :: key) _
                 (no_char_neg_set false 47 _ eq_refl eq_refl Hk2) r1 r2 _ _ E Hne2) ].
  repeat lit_step. rewrite rmatch_seq.
  apply (group_plus_run false b 3 false [CRange 48 57]).
  - apply (digits_run false) in Hi2. cbn [forallb] in Hi2.
    apply andb_true_iff in Hi2 as [H0 _]. exact H0.
  - apply (digits_run false) in Hi2. cbn [forallb] in Hi2.
    apply andb_true_iff in Hi2 as [_ H1]. exact H1.
  - apply (digits_stop false tail rest Ht2).
  - rewrite rmatch_seq. apply star_run.
    + apply no_char_neg_set; [reflexivity|reflexivity|exact Ht1].
    + reflexivity.
    + rewrite rmatch_empty. rewrite <- Hk. f_equal. f_equal.
      unfold space_url. norm_js. len_solve.
Qed.

Lemma view_url_through b k o id tail rest l caps res :
  origin_ok o = true ->
  truthy id = true -> forallb is_digit id = true ->
  no_char 41 tail = true -> no_leading_digit tail = true ->
  k (MState (41 :: rest) (l + length (view_url o id tail)) ((3%nat, id) :: caps))
    = Some res ->
  rmatch false b view_url_rx k
    (MState (view_url o id tail ++ 41 :: rest) l caps) = Some res.
Proof.
  intros Ho Hi1 Hi2 Ht1 Ht2 Hk.
  destruct id as [|i0 id]; [discriminate|].
  unfold view_url_rx, view_url. rewrite <- !app_assoc. norm_js.
  change (RAlt (RSeq (RSet false [CChar 104]) _) REmpty)
    with (RAlt origin_rx REmpty).
  rewrite origin_opt by exact Ho. repeat lit_step. rewrite rmatch_seq.
  apply (group_plus_run false b 3 false [CRange 48 57]).
  - apply (digits_run false) in Hi2. cbn [forallb] in Hi2.
    apply andb_true_iff in Hi2 as [H0 _]. exact H0.
  - apply (digits_run false) in Hi2. cbn [forallb] in Hi2.
    apply andb_true_iff in Hi2 as [_ H1]. exact H1.
  - apply (digits_stop false tail rest Ht2).
  - rewrite rmatch_seq. apply star_run.
    + apply no_char_neg_set; [reflexivity|reflexivity|exact Ht1].
    + reflexivity.
    + rewrite rmatch_empty. rewrite <- Hk. f_equal. f_equal.
      unfold view_url. norm_js. len_solve.
Qed.

(** Each of the two expressions refuses the URLs of the other form, and a
    path that begins with a dot. *)
Lemma view_refuses_space b k o key id tail rest l caps :
  origin_ok o = true ->
  rmatch false b view_url_rx k (MState (space_url o key id tail ++ rest) l caps)
  = None.
Proof.
  intros Ho. unfold view_url_rx, space_url. rewrite <- !app_assoc. norm_js.
  change (RAlt (RSeq (RSet false [CChar 104]) _) REmpty)
    with (RAlt origin_rx REmpty).
  rewrite origin_opt by exact Ho. repeat lit_step. reflexivity.
Qed.

Lemma space_refuses_view b k o id tail rest l caps :
  origin_ok o = true ->
  rmatch false b space_url_rx k (MState (view_url o id tail ++ rest) l caps)
  = None.
Proof.
  intros Ho. unfold space_url_rx, view_url. rewrite <- !app_assoc. norm_js.
  change (RAlt (RSeq (RSet false [CChar 104]) _) REmpty)
    with (RAlt origin_rx REmpty).
  rewrite origin_opt by exact Ho. repeat lit_step. reflexivity.
Qed.

Lemma url_refuses_dot b url_rx r k s l caps :
  url_rx = RSeq (RAlt origin_rx REmpty) (RSeq (RSet false [CChar 47]) r) ->
  rmatch false b url_rx k (MState (46 :: s) l caps) = None.
Proof.
  intros ->. rewrite rmatch_seq, rmatch_alt. unfold origin_rx.
  rewrite lit_refuses by reflexivity. rewrite rmatch_empty.
  apply lit_refuses. reflexivity.
Qed.

(** A Markdown link whose text has no closing bracket: the expressions for
    links take the text whole. *)
Lemma text_run text :
  truthy text = true -> no_char 93 text = true ->
  exists t0 t, text = t0 :: t
               /\ forallb (set_match false true [CChar 93]) (t0 :: t) = true.
Proof.
  intros Hne H. destruct text as [|t0 t]; [discriminate|].
  exists t0, t. split; [reflexivity|].
  apply no_char_neg_set; [reflexivity|reflexivity|exact H].
Qed.

Lemma exec_at_link rx url_rx text url id post :
  re_ast rx = link_rx url_rx -> re_icase rx = false -> re_groups rx = 3%nat ->
  truthy text = true -> no_char 93 text = true ->
  (forall b k l caps res,
     k (MState (41 :: post) (l + length url) ((3%nat, id) :: caps)) = Some res ->
     rmatch false b url_rx k (MState (url ++ 41 :: post) l caps) = Some res) ->
  exec_at rx false (md_link text url ++ post)
  = Some (length (md_link text url), [Some text; Some url; Some id]).
Proof.
  intros Hast Hic Hg Hne Ht Hurl.
  destruct (text_run text Hne Ht) as (t0 & t & -> & Hrun).
  unfold md_link. rewrite <- !app_assoc.
  eapply exec_at_result.
  - rewrite Hast, Hic. unfold link_rx. norm_js. lit_step.
    rewrite rmatch_seq, group_plus_end;
      [ | exact Hrun | reflexivity
        | intros r1 r2 caps' E _ Hne2;
          apply (lit_guard false false 93 _ _ (t0 :: t) _ Hrun r1 r2 _ _ E Hne2) ].
    repeat lit_step. rewrite rmatch_seq.
    apply (group_through_caps false false 2 url_rx _ url (41 :: post) _ _
             [(3%nat, id)]).
    + intros k' Hk'. apply Hurl. exact Hk'.
    + lit_step. rewrite rmatch_empty. reflexivity.
  - cbn [ms_len]. norm_js. len_solve.
  - rewrite Hg. reflexivity.
Qed.

Lemma exec_at_link_none rx url_rx text url post :
  re_ast rx = link_rx url_rx -> re_icase rx = false ->
  truthy text = true -> no_char 93 text = true ->
  (forall b k l caps,
     rmatch false b url_rx k (MState (url ++ 41 :: post) l caps) = None) ->
  forall b, exec_at rx b (md_link text url ++ post) = None.
Proof.
  intros Hast Hic Hne Ht Hurl b.
  destruct (text_run text Hne Ht) as (t0 & t & -> & Hrun).
  unfold md_link. rewrite <- !app_assoc. unfold exec_at.
  rewrite Hast, Hic. unfold link_rx. norm_js.
  assert (E : rmatch false b
                (RSeq (RSet false [CChar 91])
                   (RSeq (RGroup 1 (RSeq (RSeq (RSet true [CChar 93])
                                            (RStar true (RSet true [CChar 93])))
                                      REmpty))
                      (RSeq (RSet false [CChar 93])
                         (RSeq (RSet false [CChar 40])
                            (RSeq (RGroup 2 url_rx)
                               (RSeq (RSet false [CChar 41]) REmpty))))))
                Some (MState (91 :: t0 :: t ++ 93 :: 40 :: url ++ 41 :: post) 0 [])
              = None).
  { lit_step.
    rewrite rmatch_seq, group_plus_end;
      [ | exact Hrun | reflexivity
        | intros r1 r2 caps' E _ Hne2;
          apply (lit_guard false b 93 _ _ (t0 :: t) _ Hrun r1 r2 _ _ E Hne2) ].
    repeat lit_step. rewrite rmatch_seq, rmatch_group. apply Hurl. }
  rewrite E. reflexivity.
Qed.

(** The expression for placeholders refuses a link whose target does not
    begin with [C]. *)
Lemma placeholder_refuses text c url post :
  truthy text = true -> no_char 93 text = true ->
  (c =? 67) = false ->
  forall b, exec_at rx_placeholder b (md_link text (c :: url) ++ post) = None.
Proof.
  intros Hne Ht Hc b.
  destruct (text_run text Hne Ht) as (t0 & t & -> & Hrun).
  unfold md_link. rewrite <- !app_assoc. unfold exec_at.
  assert (E : rmatch (re_icase rx_placeholder) b (re_ast rx_placeholder) Some
                (MState (js "[" ++ (t0 :: t) ++ js "](" ++ (c :: url) ++ js ")" ++ post)
                   0 []) = None).
  { unfold rx_placeholder. cbn [re_ast re_icase]. norm_js. lit_step.
    rewrite rmatch_seq, group_plus_end;
      [ | exact Hrun | reflexivity
        | intros r1 r2 caps' E _ Hne2;
          apply (lit_guard false b 93 _ _ (t0 :: t) _ Hrun r1 r2 _ _ E Hne2) ].
    repeat lit_step. apply lit_refuses. unfold set_match. cbn.
    rewrite Hc. reflexivity. }
  rewrite E. reflexivity.
Qed.

Lemma no_char_cons x c s : no_char x (c :: s) = negb (c =? x) && no_char x s.
Proof. reflexivity. Qed.

Lemma no_char_app x a b : no_char x (a ++ b) = no_char x a && no_char x b.
Proof. unfold no_char. apply forallb_app. Qed.

Lemma split_unique x : forall a b p t,
  no_char x a = true -> no_char x b = true ->
  a ++ x :: b = p ++ x :: t -> p = a /\ t = b.
Proof.
  induction a as [|c a IH]; intros b p t Ha Hb E.
  - destruct p as [|c' p]; cbn [app] in E.
    + injection E as E. split; [reflexivity|symmetry; exact E].
    + injection E as E1 E2. exfalso. rewrite E2, no_char_app in Hb.
      apply andb_true_iff in Hb as [_ Hb]. unfold no_char in Hb.
      cbn [forallb] in Hb. rewrite N.eqb_refl in Hb. discriminate.
  - unfold no_char in Ha. cbn [forallb] in Ha.
    apply andb_true_iff in Ha as [Hc Ha]. apply negb_true_iff in Hc.
    destruct p as [|c' p]; cbn [app] in E; injection E as E1 E2.
    + subst c. rewrite N.eqb_refl in Hc. discriminate.
    + destruct (IH b p t Ha Hb E2) as [-> ->]. subst c'. split; reflexivity.
Qed.

Lemma lead_char_nil rx x r b :
  re_ast rx = RSeq (RSet false [CChar x]) r -> exec_at rx b [] = None.
Proof. intros E. unfold exec_at. rewrite E. reflexivity. Qed.

Lemma lead_char_fail rx x r b c t :
  re_ast rx = RSeq (RSet false [CChar x]) r ->
  is_upper x = false -> is_lower x = false -> (c =? x) = false ->
  exec_at rx b (c :: t) = None.
Proof.
  intros E Hu Hl Hc. apply (exec_at_lead_fail rx x r b c t E).
  rewrite set_match_symbol by assumption. exact Hc.
Qed.

Lemma lead_char_silent rx x r s :
  re_ast rx = RSeq (RSet false [CChar x]) r ->
  is_upper x = false -> is_lower x = false ->
  no_char x s = true -> no_match_in rx s.
Proof.
  intros E Hu Hl Hs b t [p Hp]. destruct t as [|c t].
  - apply (lead_char_nil rx x r b E).
  - apply (lead_char_fail rx x r b c t E Hu Hl). subst s.
    apply (no_char_suffix x p c t Hs).
Qed.

Lemma lead_char_prefix rx x r pre rest :
  re_ast rx = RSeq (RSet false [CChar x]) r ->
  is_upper x = false -> is_lower x = false ->
  no_char x pre = true ->
  forall b p1 p2, pre = p1 ++ p2 -> p2 <> [] -> exec_at rx b (p2 ++ rest) = None.
Proof.
  intros E Hu Hl Hpre b p1 [|c p2] Ep Hne; [congruence|]. subst pre.
  cbn [app]. apply (lead_char_fail rx x r b c _ E Hu Hl).
  apply (no_char_suffix x p1 c p2 Hpre).
Qed.

(** In a text whose only opening bracket opens one link, an expression led
    by the bracket can match at the link only. *)
Lemma link_doc_silent rx r pre text url post :
  re_ast rx = RSeq (RSet false [CChar 91]) r ->
  no_char 91 pre = true -> no_char 91 text = true ->
  no_char 91 url = true -> no_char 91 post = true ->
  (forall b, exec_at rx b (md_link text url ++ post) = None) ->
  no_match_in rx (pre ++ md_link text url ++ post).
Proof.
  intros E Hpre Htext Hurl Hpost Hnone b t [p Hp]. destruct t as [|c t].
  - apply (lead_char_nil rx 91 r b E).
  - destruct (c =? 91) eqn:Ec.
    + apply N.eqb_eq in Ec. subst c.
      unfold md_link in Hp. rewrite <- !app_assoc in Hp.
      change (js "[" ++ text ++ js "](" ++ url ++ js ")" ++ post)
        with (91 :: text ++ js "](" ++ url ++ js ")" ++ post) in Hp.
      apply split_unique in Hp as [_ ->].
      * specialize (Hnone b). unfold md_link in Hnone.
        rewrite <- !app_assoc in Hnone. exact Hnone.
      * exact Hpre.
      * rewrite !no_char_app, Htext, Hurl, Hpost. reflexivity.
    + apply (lead_char_fail rx 91 r b c t E eq_refl eq_refl Ec).
Qed.

Lemma no_char_repeat_str x s : forall n,
  no_char x s = true -> no_char x (repeat_str s n) = true.
Proof.
  induction n as [|n IH]; intros H; [reflexivity|].
  cbn [repeat_str]. rewrite no_char_app, H, IH by exact H. reflexivity.
Qed.

Lemma no_char_split_on x sep : forall s,
  no_char x s = true -> forallb (no_char x) (split_on sep s) = true.
Proof.
  induction s as [|c s IH]; intros H; [reflexivity|].
  unfold no_char in H. cbn [forallb] in H. apply andb_true_iff in H as [Hc H].
  specialize (IH H). cbn [split_on].
  destruct (split_on sep s) as [|p ps]; [reflexivity|].
  cbn [forallb] in IH. apply andb_true_iff in IH as [Hp Hps].
  destruct (c =? sep); cbn [forallb]; rewrite ?Hp, ?Hps; [reflexivity|].
  unfold no_char at 1. cbn [forallb]. rewrite Hc. cbn [andb].
  fold (no_char x p). rewrite Hp. reflexivity.
Qed.

Lemma no_char_join x sep : forall parts,
  no_char x sep = true -> forallb (no_char x) parts = true ->
  no_char x (join sep parts) = true.
Proof.
  intros [|p ps] Hsep H; [reflexivity|]. cbn [forallb] in H.
  apply andb_true_iff in H as [Hp Hps]. cbn [join].
  rewrite no_char_app, Hp. cbn [andb].
  induction ps as [|q ps IH]; [reflexivity|].
  cbn [forallb] in Hps. apply andb_true_iff in Hps as [Hq Hps].
  cbn [flat_map]. rewrite !no_char_app, Hsep, Hq. cbn [andb]. apply IH, Hps.
Qed.

Lemma forallb_filter {A : Type} (P Q : A -> bool) : forall l,
  forallb P l = true -> forallb P (filter Q l) = true.
Proof.
  induction l as [|a l IH]; intros H; [reflexivity|].
  cbn [forallb] in H. apply andb_true_iff in H as [Ha H].
  cbn [filter]. destruct (Q a); cbn [forallb]; rewrite ?Ha; apply IH, H.
Qed.

Lemma no_char_relative_path x current target :
  (x =? 46) = false -> (x =? 47) = false ->
  no_char x target = true -> no_char x (relative_path current target) = true.
Proof.
  intros H1 H2 H. unfold relative_path.
  assert (Hup : no_char x (js "../") = true).
  { change (js "../") with [46; 46; 47]. rewrite !no_char_cons.
    rewrite (N.eqb_sym 46 x), (N.eqb_sym 47 x), H1, H2. reflexivity. }
  assert (Hsl : no_char x (js "/") = true).
  { change (js "/") with [47]. rewrite !no_char_cons.
    rewrite (N.eqb_sym 47 x), H2. reflexivity. }
  rewrite !no_char_app, no_char_repeat_str by exact Hup.
  rewrite no_char_join, Hsl; [reflexivity|exact Hsl|].
  unfold path_parts. apply forallb_filter, no_char_split_on, H.
Qed.

Lemma relative_path_dot current target :
  path_parts current <> [] ->
  exists r, relative_path current target = 46 :: r.
Proof.
  intros H. unfold relative_path.
  destruct (path_parts current) as [|p ps]; [congruence|].
  cbn [length repeat_str]. eexists. reflexivity.
Qed.

Lemma digits_no_char x id :
  is_digit x = false -> forallb is_digit id = true -> no_char x id = true.
Proof.
  intros Hx H. unfold no_char. apply forallb_forall. intros c Hc.
  rewrite forallb_forall in H. specialize (H c Hc).
  apply negb_true_iff, N.eqb_neq. intros ->. congruence.
Qed.

Lemma origin_no_bracket o : origin_ok o = true -> no_char 91 (origin_text o) = true.
Proof.
  destruct o as [[[] host]|]; cbn [origin_ok origin_text]; intros H;
    [| |reflexivity]; apply andb_true_iff in H as [_ H];
    rewrite no_char_app, H; reflexivity.
Qed.

Lemma origin_head o s :
  exists c t, origin_text o ++ 47 :: s = c :: t /\ (c =? 67) = false.
Proof.
  destruct o as [[[] host]|]; cbn [origin_text]; rewrite <- ?app_assoc;
    norm_js; eexists; eexists; split; reflexivity.
Qed.

Section UrlLinks.

Variable toLowerCase : str -> str.
Variables (pages : pageMap) (page : pageInfo).
Variables (pre text post : str) (o : option (bool * str)) (id tail : str).

Hypothesis pre_plain : no_char 91 pre = true.
Hypothesis post_plain : no_char 91 post = true.
Hypothesis text_given : truthy text = true.
Hypothesis text_closed : no_char 93 text = true.
Hypothesis text_plain : no_char 91 text = true.
Hypothesis origin_good : origin_ok o = true.
Hypothesis id_given : truthy id = true.
Hypothesis id_digits : forallb is_digit id = true.
Hypothesis tail_closed : no_char 41 tail = true.
Hypothesis tail_plain : no_char 91 tail = true.
Hypothesis tail_start : no_leading_digit tail = true.
Hypothesis page_placed : path_parts (page_path page) <> [].

Let ids := pageIdToPath pages.

(** What becomes of the link once the rule of its form has matched it. *)
Definition resolved_link (url : str) : str :=
  match table_get id ids with
  | Some targetPath =>
      if truthy targetPath
      then md_link text (relative_path (page_path page) targetPath)
      else md_link text url
  | None => md_link text url
  end.

Lemma fixUrlLink_link url :
  fixUrlLink ids (page_path page) (md_link text url) [Some text; Some url; Some id]
  = resolved_link url.
Proof.
  unfold fixUrlLink, resolved_link. cbn [cap_text nth_error Nat.sub].
  destruct (table_get id ids) as [targetPath|]; [|reflexivity].
  destruct (truthy targetPath); reflexivity.
Qed.

Hypothesis target_plain :
  forall targetPath, table_get id ids = Some targetPath ->
                     no_char 91 targetPath = true.

(** No rule matches the resolved link again. *)
Lemma resolved_link_silent rx url_rx r url :
  re_ast rx = link_rx url_rx -> re_icase rx = false ->
  url_rx = RSeq (RAlt origin_rx REmpty) (RSeq (RSet false [CChar 47]) r) ->
  no_char 91 url = true ->
  (forall b k l caps,
     rmatch false b url_rx k (MState (url ++ 41 :: post) l caps) = None) ->
  no_match_in rx (pre ++ resolved_link url ++ post).
Proof.
  intros Hast Hic Hurl Hplain Hnone. unfold resolved_link.
  assert (Hkeep : no_match_in rx (pre ++ md_link text url ++ post)).
  { apply (link_doc_silent rx _ pre text url post Hast); try assumption.
    apply (exec_at_link_none rx url_rx text url post Hast Hic); assumption. }
  destruct (table_get id ids) as [targetPath|] eqn:Hget; [|exact Hkeep].
  destruct (truthy targetPath); [|exact Hkeep].
  apply (link_doc_silent rx _ pre text _ post Hast); try assumption.
  - apply no_char_relative_path; [reflexivity|reflexivity|].
    apply (target_plain targetPath eq_refl).
  - apply (exec_at_link_none rx url_rx text _ post Hast Hic); try assumption.
    intros b k l caps.
    destruct (relative_path_dot (page_path page) targetPath page_placed)
      as [rel ->].
    apply (url_refuses_dot b url_rx r k _ l caps Hurl).
Qed.

Variable key : str.
Hypothesis key_given : truthy key = true.
Hypothesis key_segment : no_char 47 key = true.
Hypothesis key_plain : no_char 91 key = true.

Lemma space_url_plain : no_char 91 (space_url o key id tail) = true.
Proof.
  unfold space_url. rewrite !no_char_app, origin_no_bracket by exact origin_good.
  rewrite key_plain, tail_plain, (digits_no_char 91 id eq_refl id_digits).
  reflexivity.
Qed.

Lemma view_url_plain : no_char 91 (view_url o id tail) = true.
Proof.
  unfold view_url. rewrite !no_char_app, origin_no_bracket by exact origin_good.
  rewrite tail_plain, (digits_no_char 91 id eq_refl id_digits).
  reflexivity.
Qed.

Lemma placeholders_keep url s :
  url = origin_text o ++ 47 :: s -> no_char 91 url = true ->
  fix_placeholders (slugToPath toLowerCase pages) (page_path page)
    (pre ++ md_link text url ++ post)
  = pre ++ md_link text url ++ post.
Proof.
  intros E Hplain. unfold fix_placeholders. apply replace_all_no_match.
  apply (link_doc_silent rx_placeholder _ pre text url post eq_refl);
    try assumption.
  destruct (origin_head o s) as (c & t & Ec & Hc). rewrite E, Ec.
  apply placeholder_refuses; assumption.
Qed.

Lemma fix_space_link :
  fix_page_links toLowerCase pages page
    (pre ++ md_link text (space_url o key id tail) ++ post)
  = pre ++ resolved_link (space_url o key id tail) ++ post.
Proof.
  unfold fix_page_links.
  rewrite (placeholders_keep _ (js "wiki/spaces/" ++ key ++ js "/pages/" ++ id ++ tail))
    by (first [apply space_url_plain | unfold space_url; reflexivity]).
  fold ids.
  rewrite (replace_all_one_match rx_confluence_url _ pre
             (md_link text (space_url o key id tail)) post
             [Some text; Some (space_url o key id tail); Some id]).
  - rewrite fixUrlLink_link.
    rewrite (replace_all_no_match rx_confluence_url _ post)
      by (apply (lead_char_silent rx_confluence_url 91 _ post eq_refl eq_refl eq_refl
                   post_plain)).
    apply replace_all_no_match.
    apply (resolved_link_silent rx_view_page view_url_rx _ _
             view_page_ast eq_refl eq_refl space_url_plain).
    intros b k l caps. apply view_refuses_space, origin_good.
  - reflexivity.
  - unfold md_link. discriminate.
  - apply (lead_char_prefix rx_confluence_url 91 _ pre _ eq_refl eq_refl eq_refl
             pre_plain).
  - apply (exec_at_link rx_confluence_url space_url_rx text _ id post
             confluence_url_ast eq_refl eq_refl text_given text_closed).
    intros b k l caps res Hk. apply space_url_through; assumption.
Qed.

Lemma fix_view_link :
  fix_page_links toLowerCase pages page
    (pre ++ md_link text (view_url o id tail) ++ post)
  = pre ++ resolved_link (view_url o id tail) ++ post.
Proof.
  unfold fix_page_links.
  rewrite (placeholders_keep _ (js "wiki/pages/viewpage.action?pageId=" ++ id ++ tail))
    by (first [apply view_url_plain | unfold view_url; reflexivity]).
  fold ids.
  rewrite (replace_all_no_match rx_confluence_url _ _).
  - rewrite (replace_all_one_match rx_view_page _ pre
               (md_link text (view_url o id tail)) post
               [Some text; Some (view_url o id tail); Some id]).
    + rewrite fixUrlLink_link.
      rewrite (replace_all_no_match rx_view_page _ post)
        by (apply (lead_char_silent rx_view_page 91 _ post eq_refl eq_refl eq_refl
                     post_plain)).
      reflexivity.
    + reflexivity.
    + unfold md_link. discriminate.
    + apply (lead_char_prefix rx_view_page 91 _ pre _ eq_refl eq_refl eq_refl
               pre_plain).
    + apply (exec_at_link rx_view_page view_url_rx text _ id post
               view_page_ast eq_refl eq_refl text_given text_closed).
      intros b k l caps res Hk. apply view_url_through; assumption.
  - apply (link_doc_silent rx_confluence_url _ pre text _ post eq_refl);
      try assumption; [apply view_url_plain|].
    apply (exec_at_link_none rx_confluence_url space_url_rx text _ post
             confluence_url_ast eq_refl text_given text_closed).
    intros b k l caps. apply space_refuses_view, origin_good.
Qed.

End UrlLinks.

(** A link to a page by its Confluence URL, in either form
    ([/wiki/spaces/KEY/pages/ID...] or
    [/wiki/pages/viewpage.action?pageId=ID...], with or without the site),
    alone in a text without other brackets: when the page map has the page
    id, the link is rewritten to the relative path of the page; when it has
    not, the link is left as it is (it is not demoted to its text, as a
    placeholder link is). *)
Theorem url_link_resolution :
  forall toLowerCase pages page pre text post o key id tail,
    no_char 91 pre = true -> no_char 91 post = true ->
    truthy text = true -> no_char 93 text = true -> no_char 91 text = true ->
    origin_ok o = true ->
    truthy key = true -> no_char 47 key = true -> no_char 91 key = true ->
    truthy id = true -> forallb is_digit id = true ->
    no_char 41 tail = true -> no_char 91 tail = true ->
    no_leading_digit tail = true ->
    path_parts (page_path page) <> [] ->
    (forall targetPath,
        table_get id (pageIdToPath pages) = Some targetPath ->
        truthy targetPath = true -> no_char 91 targetPath = true ->
        fix_page_links toLowerCase pages page
          (pre ++ md_link text (space_url o key id tail) ++ post)
        = pre ++ md_link text (relative_path (page_path page) targetPath) ++ post
        /\ fix_page_links toLowerCase pages page
             (pre ++ md_link text (view_url o id tail) ++ post)
           = pre ++ md_link text (relative_path (page_path page) targetPath)
                 ++ post)
    /\ (table_get id (pageIdToPath pages) = None ->
        fix_page_links toLowerCase pages page
          (pre ++ md_link text (space_url o key id tail) ++ post)
        = pre ++ md_link text (space_url o key id tail) ++ post
        /\ fix_page_links toLowerCase pages page
             (pre ++ md_link text (view_url o id tail) ++ post)
           = pre ++ md_link text (view_url o id tail) ++ post).
Proof.
  intros toLowerCase pages page pre text post o key id tail
    Hpre Hpost Ht1 Ht2 Ht3 Ho Hk1 Hk2 Hk3 Hi1 Hi2 Hl1 Hl2 Hl3 Hpage.
  split.
  - intros targetPath Hget Htp Hplain.
    assert (Htarget : forall p, table_get id (pageIdToPath pages) = Some p ->
                                no_char 91 p = true)
      by (intros p Hp; rewrite Hget in Hp; injection Hp as <-; exact Hplain).
    rewrite fix_space_link, fix_view_link by assumption.
    unfold resolved_link. rewrite Hget, Htp. split; reflexivity.
  - intros Hget.
    assert (Htarget : forall p, table_get id (pageIdToPath pages) = Some p ->
                                no_char 91 p = true)
      by (intros p Hp; rewrite Hget in Hp; discriminate).
    rewrite fix_space_link, fix_view_link by assumption.
    unfold resolved_link. rewrite Hget. split; reflexivity.
Qed.

Lemma url_link_resolution_witness :
  fix_page_links ascii_lower example_pages (PageInfo (js "Guide") (js "x/y/"))
    (js "See [the target](https://site.atlassian.net/wiki/spaces/DOC/pages/2/Target+Page).")
  = js "See [the target](../../a/b/).".
Proof.
  exact (proj1 (proj1 (url_link_resolution ascii_lower example_pages
                         (PageInfo (js "Guide") (js "x/y/"))
                         (js "See ") (js "the target") (js ".")
                         (Some (true, js "site.atlassian.net")) (js "DOC") (js "2")
                         (js "/Target+Page")
                         eq_refl eq_refl eq_refl eq_refl eq_refl eq_refl eq_refl
                         eq_refl eq_refl eq_refl eq_refl eq_refl eq_refl eq_refl
                         (fun E => eq_ind [js "x"; js "y"]
                                     (fun l => match l with [] => False | _ => True end)
                                     I [] E))
                  (js "a/b/") eq_refl eq_refl eq_refl)).
Defined.

(** ** [escapeRegex] *)

Definition rx_regex_special := Eval vm_compute in re "[.*+?^${}()|[\]\\]".

(** Helper to escape special regex characters in filenames *)
Definition escapeRegex (string : str) : str :=
  replace_all_tpl rx_regex_special (js "\$&") string.

Definition regex_special : str := js ".*+?^${}()|[]\".

Definition is_regex_special (c : char) : bool := existsb (N.eqb c) regex_special.

Definition escape_regex_char (c : char) : str :=
  if is_regex_special c then [92; c] else [c].

(** The replacement of the members of a set by a function of the member. *)
Lemma subst_set_one ic neg items (g : str -> str) :
  forall s pos b,
    subst_segs (fun _ t _ => g t) pos
      (scan (Regexp (RSeq (RSet neg items) REmpty) 0 ic) b 0 s)
    = flat_map (fun c => if set_match ic neg items c then g [c] else [c]) s.
Proof.
  induction s as [|c s IH]; intros pos b; [reflexivity|].
  cbn [scan flat_map]. unfold exec_at. cbn [re_ast re_icase re_groups].
  rewrite rmatch_seq, rmatch_set_cons.
  destruct (set_match ic neg items c); cbn [rmatch ms_len subst_segs firstn];
    rewrite IH; reflexivity.
Qed.

Lemma is_regex_special_set c :
  set_match false false
    [CChar 46; CChar 42; CChar 43; CChar 63; CChar 94; CChar 36; CChar 123;
     CChar 125; CChar 40; CChar 41; CChar 124; CChar 91; CChar 93; CChar 92] c
  = is_regex_special c.
Proof.
  unfold set_match, items_mem, is_regex_special.
  cbn [existsb citem_mem andb xorb]. rewrite orb_false_r.
  change regex_special
    with [46; 42; 43; 63; 94; 36; 123; 125; 40; 41; 124; 91; 93; 92].
  cbn [existsb]. reflexivity.
Qed.

Lemma escapeRegex_eq s : escapeRegex s = flat_map escape_regex_char s.
Proof.
  unfold escapeRegex, replace_all_tpl, rx_regex_special.
  rewrite (subst_segs_ext _ (fun _ t _ => 92 :: t)).
  - rewrite (subst_set_one false false _ (fun t => 92 :: t)).
    apply flat_map_ext. intros c. rewrite is_regex_special_set. reflexivity.
  - intros p t caps. change (js "\$&") with [92; 36; 38].
    cbn [get_substitution N.eqb Pos.eqb]. rewrite app_nil_r. reflexivity.
Qed.

(** The expression that matches one text, character for character. *)
Lemma lits_cons c s : lits (c :: s) = RSeq (RSet false [CChar c]) (lits s).
Proof. reflexivity. Qed.

Lemma not_special_facts c :
  is_regex_special c = false ->
  (c =? 41) = false /\ (c =? 124) = false /\ (c =? 40) = false
  /\ (c =? 91) = false /\ (c =? 92) = false /\ (c =? 94) = false
  /\ (c =? 36) = false /\ (c =? 42) = false /\ (c =? 43) = false
  /\ (c =? 63) = false.
Proof.
  unfold is_regex_special.
  change regex_special
    with [46; 42; 43; 63; 94; 36; 123; 125; 40; 41; 124; 91; 93; 92].
  cbn [existsb]. intros H.
  repeat match type of H with
         | (_ || _) = false => apply orb_false_iff in H as [? H]
         end.
  repeat split; assumption.
Qed.

Lemma special_escape_item c : is_regex_special c = true -> escape_item c = CChar c.
Proof.
  unfold is_regex_special.
  change regex_special
    with [46; 42; 43; 63; 94; 36; 123; 125; 40; 41; 124; 91; 93; 92].
  cbn [existsb]. intros H.
  repeat match type of H with
         | (_ || _) = true => apply orb_true_iff in H as [H|H]
         end;
    try discriminate; apply N.eqb_eq in H; subst c; reflexivity.
Qed.

Lemma escape_special c :
  is_regex_special c = true -> escape_regex_char c = [92; c].
Proof. intros H. unfold escape_regex_char. rewrite H. reflexivity. Qed.

Lemma escape_plain c : is_regex_special c = false -> escape_regex_char c = [c].
Proof. intros H. unfold escape_regex_char. rewrite H. reflexivity. Qed.

(** What follows an escaped text is no quantifier. *)
Lemma parse_quant_escaped r s :
  parse_quant r (flat_map escape_regex_char s)
  = (r, flat_map escape_regex_char s).
Proof.
  destruct s as [|c s]; [reflexivity|]. cbn [flat_map].
  destruct (is_regex_special c) eqn:E.
  - rewrite (escape_special c E). reflexivity.
  - rewrite (escape_plain c E).
    destruct (not_special_facts c E) as (_ & _ & _ & _ & _ & _ & _ & H1 & H2 & H3).
    cbn [app parse_quant]. rewrite H1, H2, H3. reflexivity.
Qed.

Lemma parse_seq_step f c s ng :
  parse_seq (S f) (c :: s) ng
  = if (c =? 41) || (c =? 124) then Some (REmpty, c :: s, ng)
    else match parse_term f (c :: s) ng with
         | Some (t, s1, ng1) =>
             match parse_seq f s1 ng1 with
             | Some (r, s2, ng2) => Some (RSeq t r, s2, ng2)
             | None => None
             end
         | None => None
         end.
Proof. reflexivity. Qed.

Lemma parse_term_escape f e s ng :
  parse_term (S f) (92 :: e :: s) ng = quantified (RSet false [escape_item e]) s ng.
Proof. reflexivity. Qed.

Lemma parse_term_plain f c s ng :
  (c =? 40) = false -> (c =? 91) = false -> (c =? 92) = false ->
  (c =? 94) = false -> (c =? 36) = false ->
  parse_term (S f) (c :: s) ng = quantified (RSet false [CChar c]) s ng.
Proof.
  intros H1 H2 H3 H4 H5. cbn [parse_term]. rewrite H1, H2, H3, H4, H5.
  reflexivity.
Qed.

Lemma parse_seq_escaped : forall s fuel ng,
  (length s < fuel)%nat ->
  parse_seq fuel (flat_map escape_regex_char s) ng = Some (lits s, [], ng).
Proof.
  induction s as [|c s IH]; intros fuel ng Hf.
  - destruct fuel as [|f]; [lia|]. reflexivity.
  - destruct fuel as [|f]; [lia|]. cbn [length] in Hf.
    destruct f as [|f']; [lia|].
    assert (Hrest : parse_seq (S f') (flat_map escape_regex_char s) ng
                    = Some (lits s, [], ng)) by (apply IH; lia).
    cbn [flat_map].
    destruct (is_regex_special c) eqn:E.
    + rewrite (escape_special c E). cbn [app]. rewrite parse_seq_step.
      change ((92 =? 41) || (92 =? 124)) with false. cbv iota.
      rewrite parse_term_escape. unfold quantified.
      rewrite parse_quant_escaped, Hrest.
      rewrite (special_escape_item c E). reflexivity.
    + rewrite (escape_plain c E).
      destruct (not_special_facts c E)
        as (H1 & H2 & H3 & H4 & H5 & H6 & H7 & _).
      cbn [app]. rewrite parse_seq_step, H1, H2. cbn [orb].
      rewrite parse_term_plain by assumption. unfold quantified.
      rewrite parse_quant_escaped, Hrest. reflexivity.
Qed.

Lemma regexp_of_escaped s :
  regexp_of false (escapeRegex s) = Regexp (lits s) 0 false.
Proof.
  unfold regexp_of. rewrite escapeRegex_eq.
  remember (3 * S (length (flat_map escape_regex_char s)))%nat as fuel eqn:Ef.
  assert (Hlen : (length s <= length (flat_map escape_regex_char s))%nat).
  { clear. induction s as [|c s IH]; [reflexivity|].
    cbn [flat_map]. rewrite length_app.
    destruct (is_regex_special c) eqn:E;
      [rewrite (escape_special c E)|rewrite (escape_plain c E)];
      cbn [length]; lia. }
  destruct fuel as [|f]; [lia|]. cbn [parse_disj].
  rewrite parse_seq_escaped by lia. reflexivity.
Qed.

Lemma rmatch_lits_exact b : forall s t l caps,
  rmatch false b (lits s) Some (MState t l caps)
  = if starts_with s t
    then Some (MState (skipn (length s) t) (l + length s) caps) else None.
Proof.
  induction s as [|c s IH]; intros t l caps.
  - cbn [lits fold_right rmatch starts_with length skipn].
    destruct t; rewrite Nat.add_0_r; reflexivity.
  - rewrite lits_cons, rmatch_seq. destruct t as [|x t]; [reflexivity|].
    rewrite rmatch_set_cons. cbn [starts_with length skipn].
    replace (set_match false false [CChar c] x) with (x =? c)
      by (unfold set_match, items_mem; cbn [existsb citem_mem andb xorb];
          rewrite !orb_false_r; reflexivity).
    destruct (x =? c); [|reflexivity]. cbn [andb]. rewrite IH.
    replace (S l + length s)%nat with (l + S (length s))%nat by lia.
    reflexivity.
Qed.

(** The regular expression made of an escaped text matches that text,
    character for character, and nothing else: no character of the text
    acts as an operator, whatever the text is. *)
Theorem escapeRegex_literal :
  forall text b t,
    escapeRegex text = flat_map escape_regex_char text
    /\ exec_at (regexp_of false (escapeRegex text)) b t
       = if starts_with text t then Some (length text, []) else None.
Proof.
  intros text b t. split; [apply escapeRegex_eq|].
  rewrite regexp_of_escaped. unfold exec_at. cbn [re_ast re_icase re_groups].
  rewrite rmatch_lits_exact. destruct (starts_with text t); reflexivity.
Qed.

(** ** The front matter of a page ([processPage]) *)

Definition rx_yaml_special := Eval vm_compute in re "[:\[\]{}&*#?|\-<>=!%@`]".
Definition rx_dquote := Eval vm_compute in re "~".

(** [rx.test(s)] *)
Definition test (rx : regexp) (s : str) : bool :=
  match match_first rx s with
  | Some _ => true
  | None => false
  end.

Definition yamlTitle (pageTitle : str) : str :=
  let needsQuotes := test rx_yaml_special pageTitle in
  if needsQuotes
  then js "~" ++ replace_all_tpl rx_dquote (js "\~") pageTitle ++ js "~"
  else pageTitle.

Definition frontmatter (pageTitle : str) : str :=
  js "---" ++ [newline] ++ js "title: " ++ yamlTitle pageTitle ++ [newline]
    ++ js "---" ++ [newline] ++ [newline] ++ js "# " ++ pageTitle
    ++ [newline] ++ [newline].

(** What [processPage] writes to the page's [README.md]. *)
Definition page_file (pageTitle markdownContent : str) : str :=
  frontmatter pageTitle ++ markdownContent.

Definition yaml_special : str := js ":[]{}&*#?|-<>=!%@`".

Definition is_yaml_special (c : char) : bool := existsb (N.eqb c) yaml_special.

Definition escape_quote (c : char) : str := if c =? 34 then js "\~" else [c].

(** The test of a one-set expression: some character is in the set. *)
Lemma test_set_one ic neg items : forall s b,
  first_match (scan (Regexp (RSeq (RSet neg items) REmpty) 0 ic) b 0 s)
  = match find (set_match ic neg items) s with
    | Some c => Some ([c], [])
    | None => None
    end.
Proof.
  induction s as [|c s IH]; intros b; [reflexivity|].
  cbn [scan find]. unfold exec_at. cbn [re_ast re_icase re_groups].
  rewrite rmatch_seq, rmatch_set_cons.
  destruct (set_match ic neg items c); cbn [rmatch ms_len first_match];
    [reflexivity|apply IH].
Qed.

Lemma find_existsb {A : Type} (P : A -> bool) : forall l,
  match find P l with Some _ => true | None => false end = existsb P l.
Proof.
  induction l as [|a l IH]; [reflexivity|]. cbn [find existsb].
  destruct (P a); [reflexivity|exact IH].
Qed.

Lemma test_yaml_special s : test rx_yaml_special s = existsb is_yaml_special s.
Proof.
  unfold test, match_first, rx_yaml_special. rewrite test_set_one.
  rewrite <- find_existsb.
  assert (E : forall c,
             set_match false false
               [CChar 58; CChar 91; CChar 93; CChar 123; CChar 125; CChar 38;
                CChar 42; CChar 35; CChar 63; CChar 124; CChar 45; CChar 60;
                CChar 62; CChar 61; CChar 33; CChar 37; CChar 64; CChar 96] c
             = is_yaml_special c).
  { intros c. unfold set_match, items_mem, is_yaml_special.
    cbn [existsb citem_mem andb xorb]. rewrite orb_false_r.
    change yaml_special
      with [58; 91; 93; 123; 125; 38; 42; 35; 63; 124; 45; 60; 62; 61; 33; 37;
            64; 96].
    cbn [existsb]. reflexivity. }
  clear - E. induction s as [|c s IH]; [reflexivity|]. cbn [find].
  rewrite E. destruct (is_yaml_special c); [reflexivity|exact IH].
Qed.

Lemma escape_quotes_eq s :
  replace_all_tpl rx_dquote (js "\~") s = flat_map escape_quote s.
Proof.
  rewrite replace_all_tpl_plain by reflexivity.
  unfold rx_dquote.
  rewrite (replace_all_set_one false false [CChar 34] (js "\~") s).
  apply flat_map_ext. intros c. unfold escape_quote, set_match, items_mem.
  cbn [existsb citem_mem andb xorb]. rewrite !orb_false_r. reflexivity.
Qed.

(** The title line of the front matter: a title that holds none of the
    eighteen characters [:[]{}&*#?|-<>=!%@`] is written as it is, a double
    quote in it included; any other title is written between double quotes,
    each double quote of its own preceded by a backslash, and nothing else
    changed (a backslash is not escaped). *)
Theorem frontmatter_title :
  forall pageTitle markdownContent,
    page_file pageTitle markdownContent
    = js "---" ++ [newline] ++ js "title: "
        ++ (if existsb is_yaml_special pageTitle
            then js "~" ++ flat_map escape_quote pageTitle ++ js "~"
            else pageTitle)
        ++ [newline] ++ js "---" ++ [newline] ++ [newline] ++ js "# " ++ pageTitle
        ++ [newline] ++ [newline] ++ markdownContent.
Proof.
  intros pageTitle markdownContent. unfold page_file, frontmatter, yamlTitle.
  rewrite test_yaml_special, escape_quotes_eq.
  rewrite <- !app_assoc. reflexivity.
Qed.

(** ** Images: [<ac:image>] *)

(** The record that [downloadAttachments] pushes for the attachment titled
    [title] of the page [pageSlug], once the file is written. *)
Definition downloaded_file (pageSlug title : str) (fileId : option str)
    : attachment :=
  let originalFilename := title in
  let safeFilename := sanitizeFilename originalFilename in
  Attachment originalFilename safeFilename
    (js "./attachments/" ++ pageSlug ++ js "/" ++ safeFilename)
    (match fileId with
     | Some f => if truthy f then Some f else None
     | None => None
     end).

Definition image_element (attrs inner : str) : str :=
  js "<ac:image" ++ attrs ++ js ">" ++ inner ++ js "</ac:image>".

Definition attachment_ref (filename tail : str) : str :=
  js "<ri:attachment ri:filename=~" ++ filename ++ js "~" ++ tail.

Definition url_ref (url tail : str) : str :=
  js "<ri:url ri:value=~" ++ url ++ js "~" ++ tail.

Definition img_tag (src alt : str) : str :=
  js "<img src=~" ++ src ++ js "~ alt=~" ++ alt ++ js "~ />".

Lemma decided_prefix rx pre rest :
  all_decided (re_icase rx) (lead_sets (re_ast rx)) pre = true ->
  forall b p1 p2, pre = p1 ++ p2 -> p2 <> [] -> exec_at rx b (p2 ++ rest) = None.
Proof.
  intros H b p1 p2 -> Hne. destruct p2 as [|c p2]; [congruence|].
  unfold exec_at. rewrite lead_sets_sound; [reflexivity|]. cbn [ms_rest].
  apply (decided_fail_app _ _ (c :: p2) rest).
  exact (all_decided_suffix _ _ p1 c p2 H).
Qed.

Lemma all_decided_splits ic sets body rest :
  all_decided ic sets body = true ->
  forall a1 a2, body = a1 ++ a2 -> a2 <> [] ->
    decided_fail ic sets (a2 ++ rest) = true.
Proof.
  intros H a1 a2 -> Hne. destruct a2 as [|c a2]; [congruence|].
  apply (decided_fail_app _ _ (c :: a2) rest).
  exact (all_decided_suffix _ _ a1 c a2 H).
Qed.

Lemma first_match_chars : forall pre segs,
  first_match (map SChar pre ++ segs) = first_match segs.
Proof. induction pre as [|c pre IH]; intros segs; [reflexivity|apply IH]. Qed.

(** [s.match(rx)] when the first match stands after [pre]. *)
Lemma match_first_found rx pre m rest caps :
  no_bol (re_ast rx) = true ->
  (forall b p1 p2, pre = p1 ++ p2 -> p2 <> [] ->
     exec_at rx b (p2 ++ m ++ rest) = None) ->
  m <> [] ->
  exec_at rx false (m ++ rest) = Some (length m, caps) ->
  match_first rx (pre ++ m ++ rest) = Some (m, caps).
Proof.
  intros Hb Hpre Hm He. unfold match_first.
  rewrite scan_prefix by exact Hpre. rewrite first_match_chars.
  rewrite (scan_no_bol rx Hb (m ++ rest)).
  rewrite (scan_match rx false m rest caps Hm He). reflexivity.
Qed.

Lemma match_first_none rx s : no_match_in rx s -> match_first rx s = None.
Proof.
  intros H. unfold match_first. rewrite scan_all_chars by exact H.
  rewrite <- (app_nil_r (map SChar s)). apply first_match_chars.
Qed.

Lemma quoted_sets ic v :
  v <> [] -> no_char 34 v = true ->
  exists v0 v', v = v0 :: v' /\ set_match ic true [CChar 34] v0 = true
                /\ forallb (set_match ic true [CChar 34]) v' = true.
Proof.
  intros Hne H. destruct v as [|v0 v']; [congruence|].
  apply (no_char_neg_set ic) in H; [|reflexivity|reflexivity].
  cbn [forallb] in H. apply andb_true_iff in H as [H0 H]. eauto.
Qed.

Lemma match_ri_filename filename tail :
  filename <> [] -> no_char 34 filename = true ->
  match_first rx_ri_filename (attachment_ref filename tail)
  = Some (js "ri:filename=~" ++ filename ++ js "~", [Some filename]).
Proof.
  intros Hne Hq. destruct (quoted_sets false filename Hne Hq) as (f0 & f & -> & H0 & Hf).
  unfold attachment_ref.
  change (js "<ri:attachment ri:filename=~")
    with (js "<ri:attachment " ++ js "ri:filename=~").
  rewrite <- !app_assoc.
  rewrite (app_assoc (js "ri:filename=~")), (app_assoc _ (js "~") tail).
  apply match_first_found.
  - reflexivity.
  - apply decided_prefix. vm_compute. reflexivity.
  - discriminate.
  - rewrite <- !app_assoc. eapply exec_at_result.
    + unfold rx_ri_filename. cbn [re_ast re_icase re_groups]. norm_js.
      repeat lit_step. rewrite rmatch_seq.
      apply (group_plus_run false false 1 true [CChar 34]);
        [exact H0|exact Hf|reflexivity|].
      repeat lit_step. rewrite rmatch_empty. reflexivity.
    + cbn [ms_len]. norm_js. len_solve.
    + reflexivity.
Qed.

Lemma match_ri_value url tail :
  url <> [] -> no_char 34 url = true ->
  match_first rx_ri_value (url_ref url tail)
  = Some (js "ri:value=~" ++ url ++ js "~", [Some url]).
Proof.
  intros Hne Hq. destruct (quoted_sets false url Hne Hq) as (u0 & u & -> & H0 & Hu).
  unfold url_ref.
  change (js "<ri:url ri:value=~") with (js "<ri:url " ++ js "ri:value=~").
  rewrite <- !app_assoc.
  rewrite (app_assoc (js "ri:value=~")), (app_assoc _ (js "~") tail).
  apply match_first_found.
  - reflexivity.
  - apply decided_prefix. vm_compute. reflexivity.
  - discriminate.
  - rewrite <- !app_assoc. eapply exec_at_result.
    + unfold rx_ri_value. cbn [re_ast re_icase re_groups]. norm_js.
      repeat lit_step. rewrite rmatch_seq.
      apply (group_plus_run false false 1 true [CChar 34]);
        [exact H0|exact Hu|reflexivity|].
      repeat lit_step. rewrite rmatch_empty. reflexivity.
    + cbn [ms_len]. norm_js. len_solve.
    + reflexivity.
Qed.

(** The image rule on one image element. *)
Lemma exec_at_ac_image attrs inner post :
  no_char 62 attrs = true ->
  all_decided true (lead_sets (lits (js "</ac:image>"))) inner = true ->
  exec_at rx_ac_image false (image_element attrs inner ++ post)
  = Some (length (image_element attrs inner), [Some inner]).
Proof.
  intros Ha Hin. unfold image_element. rewrite <- !app_assoc.
  eapply exec_at_result.
  - unfold rx_ac_image. cbn [re_ast re_icase re_groups]. norm_js.
    repeat lit_step. rewrite rmatch_seq.
    apply star_run;
      [apply no_char_neg_set; [reflexivity|reflexivity|exact Ha]|reflexivity|].
    repeat lit_step. rewrite rmatch_seq.
    apply (group_lazy_skip true false 1 false [CSpace; CNonSpace]);
      [apply any_char| |].
    + intros a1 a2 caps' E Hne. apply lead_sets_sound. cbn [ms_rest].
      apply (all_decided_splits true _ inner _ Hin a1 a2 E Hne).
    + repeat lit_step. rewrite rmatch_empty. reflexivity.
  - cbn [ms_len]. norm_js. len_solve.
  - reflexivity.
Qed.

(** A literal refuses what does not begin with it. *)
Lemma lits_then_refuses b pat r k : forall t l caps,
  starts_with pat t = false ->
  rmatch false b (lits_then pat r) k (MState t l caps) = None.
Proof.
  induction pat as [|c pat IH]; intros t l caps H.
  - destruct t; discriminate.
  - cbn [lits_then fold_right]. fold (lits_then pat r).
    rewrite rmatch_seq. destruct t as [|x t]; [reflexivity|].
    rewrite rmatch_set_cons. cbn [starts_with] in H.
    replace (set_match false false [CChar c] x) with (x =? c)
      by (unfold set_match, items_mem; cbn [existsb citem_mem andb xorb];
          rewrite !orb_false_r; reflexivity).
    destruct (x =? c); [|reflexivity]. apply IH. exact H.
Qed.

Lemma occurs_suffix pat p t : occurs pat (p ++ t) = false -> starts_with pat t = false.
Proof.
  intros H. apply occurs_app_r in H. destruct t; cbn [occurs] in H;
    apply orb_false_iff in H as [H _]; exact H.
Qed.

Lemma absent_literal_no_match rx pat r s :
  re_icase rx = false -> re_ast rx = lits_then pat r ->
  occurs pat s = false -> no_match_in rx s.
Proof.
  intros Hic Hast H b t [p Hp]. subst s. unfold exec_at.
  rewrite Hic, Hast, lits_then_refuses; [reflexivity|].
  exact (occurs_suffix pat p t H).
Qed.

Lemma sanitizeFilename_no_lt x : no_char 60 (sanitizeFilename x) = true.
Proof.
  apply forallb_forall. intros c Hc.
  pose proof (sanitizeFilename_safe x) as H. rewrite Forall_forall in H.
  destruct (H c Hc) as [Hi _]. rewrite is_invalid_char_spec in Hi.
  destruct (c =? 60) eqn:E; [|reflexivity].
  apply N.eqb_eq in E. subst c. discriminate.
Qed.

Definition rules_before_image : list regexp :=
  [rx_blob_img; rx_svg; rx_heading_anchor; rx_anchor_button; rx_visually_hidden;
   rx_editor_panel; rx_panel_icon; rx_loadable].

Section Images.

Variables toLowerCase toUpperCase : str -> str.
Variables (pageSlug : str) (attachments : list attachment).

Lemma before_image_unchanged doc :
  silent_on doc rules_before_image ->
  preprocessConfluenceHtml toLowerCase toUpperCase doc pageSlug attachments
  = convert_links toLowerCase
      (clean_tables
         (remove_macros
            (convert_code_macros
               (replace_all rx_panel_macro (panel_macro toUpperCase)
                  (replace_all rx_ac_image (ac_image pageSlug) doc))))).
Proof.
  intros H. unfold silent_on, rules_before_image in H.
  repeat match type of H with
         | Forall _ (_ :: _) =>
             let H1 := fresh "S" in
             apply Forall_cons_iff in H as [H1 H]
         end.
  unfold preprocessConfluenceHtml.
  rewrite (replace_all_no_match rx_blob_img _ doc) by assumption.
  unfold strip_decorations, convert_editor_panels.
  rewrite (replace_all_tpl_no_match rx_svg _ doc) by assumption.
  rewrite (replace_all_tpl_no_match rx_heading_anchor _ doc) by assumption.
  rewrite (replace_all_tpl_no_match rx_anchor_button _ doc) by assumption.
  rewrite (replace_all_tpl_no_match rx_visually_hidden _ doc) by assumption.
  rewrite (replace_all_no_match rx_editor_panel _ doc) by assumption.
  rewrite (replace_all_tpl_no_match rx_panel_icon _ doc) by assumption.
  rewrite (replace_all_tpl_no_match rx_loadable _ doc) by assumption.
  reflexivity.
Qed.

(** What follows the image rule leaves an [<img>] tag between texts without
    markup as it is. *)
Lemma after_image_unchanged pre src alt post :
  no_char 60 pre = true -> no_char 60 src = true -> no_char 60 alt = true ->
  no_char 60 post = true ->
  convert_links toLowerCase
    (clean_tables
       (remove_macros
          (convert_code_macros
             (replace_all rx_panel_macro (panel_macro toUpperCase)
                (pre ++ img_tag src alt ++ post)))))
  = pre ++ img_tag src alt ++ post.
Proof.
  intros Hpre Hsrc Halt Hpost.
  assert (S : silent_on (pre ++ img_tag src alt ++ post)
                (rx_panel_macro :: rx_code_lang :: rx_code_plain :: rules_after_code)).
  { unfold img_tag, rules_after_code. silent_chunks. }
  apply Forall_cons_iff in S as [S0 S].
  apply Forall_cons_iff in S as [S1 S]. apply Forall_cons_iff in S as [S2 S].
  rewrite (replace_all_no_match rx_panel_macro _ _ S0).
  unfold convert_code_macros.
  rewrite (replace_all_no_match rx_code_lang _ _ S1).
  rewrite (replace_all_no_match rx_code_plain _ _ S2).
  apply after_code_unchanged, S.
Qed.

Lemma image_rule_step pre attrs inner post :
  no_char 60 pre = true -> no_char 62 attrs = true -> no_char 60 post = true ->
  all_decided true (lead_sets (lits (js "</ac:image>"))) inner = true ->
  replace_all rx_ac_image (ac_image pageSlug)
    (pre ++ image_element attrs inner ++ post)
  = pre ++ ac_image pageSlug (image_element attrs inner) [Some inner] ++ post.
Proof.
  intros Hpre Ha Hpost Hin.
  rewrite (replace_all_one_match rx_ac_image _ pre (image_element attrs inner)
             post [Some inner]).
  - rewrite (replace_all_no_match rx_ac_image _ post)
      by (apply no_lt_silent; [led_lt|exact Hpost]).
    reflexivity.
  - reflexivity.
  - unfold image_element. discriminate.
  - apply no_lt_prefix; [led_lt|exact Hpre].
  - apply exec_at_ac_image; assumption.
Qed.

Lemma attachment_ref_inner filename tail :
  no_char 60 filename = true -> no_char 60 tail = true ->
  all_decided true (lead_sets (lits (js "</ac:image>")))
    (attachment_ref filename tail) = true.
Proof.
  intros Hf Ht. unfold attachment_ref.
  change (lead_sets (lits (js "</ac:image>")))
    with ((false, [CChar 60])
          :: lead_sets (lits (js "/ac:image>"))).
  repeat apply all_decided_app;
    try (apply no_lt_decided_sets; assumption); vm_compute; reflexivity.
Qed.

Lemma url_ref_inner url tail :
  no_char 60 url = true -> no_char 60 tail = true ->
  all_decided true (lead_sets (lits (js "</ac:image>"))) (url_ref url tail) = true.
Proof.
  intros Hu Ht. unfold url_ref.
  change (lead_sets (lits (js "</ac:image>")))
    with ((false, [CChar 60])
          :: lead_sets (lits (js "/ac:image>"))).
  repeat apply all_decided_app;
    try (apply no_lt_decided_sets; assumption); vm_compute; reflexivity.
Qed.

Lemma image_doc_silent pre attrs a x tail post :
  no_char 60 pre = true -> no_char 60 attrs = true -> no_char 60 x = true ->
  no_char 60 tail = true -> no_char 60 post = true ->
  a = js "<ri:attachment ri:filename=~" \/ a = js "<ri:url ri:value=~" ->
  silent_on (pre ++ image_element attrs (a ++ x ++ js "~" ++ tail) ++ post)
    rules_before_image.
Proof.
  intros Hpre Ha Hx Ht Hpost [-> | ->];
    unfold image_element, rules_before_image; silent_chunks.
Qed.

End Images.

(** An image element that refers to an attachment by its file name becomes
    an [<img>] tag whose source is the path under which
    [downloadAttachments] records the attachment of that title, the file
    name sanitized in the same way; one that refers to a URL becomes an
    [<img>] tag with that URL and the alternative text [external-image].
    The text around the element is kept. *)
Theorem image_conversion :
  forall toLowerCase toUpperCase pageSlug attachments pre attrs tail post,
    no_char 60 pre = true -> no_char 60 post = true ->
    no_char 60 attrs = true -> no_char 62 attrs = true ->
    no_char 60 tail = true -> no_char 60 pageSlug = true ->
    (forall filename fileId,
        filename <> [] -> no_char 34 filename = true ->
        no_char 60 filename = true ->
        preprocessConfluenceHtml toLowerCase toUpperCase
          (pre ++ image_element attrs (attachment_ref filename tail) ++ post)
          pageSlug attachments
        = pre
            ++ img_tag (att_path (downloaded_file pageSlug filename fileId))
                 (att_sanitized (downloaded_file pageSlug filename fileId))
            ++ post)
    /\ (forall url,
          url <> [] -> no_char 34 url = true -> no_char 60 url = true ->
          occurs (js "ri:filename=~") (url_ref url tail) = false ->
          preprocessConfluenceHtml toLowerCase toUpperCase
            (pre ++ image_element attrs (url_ref url tail) ++ post)
            pageSlug attachments
          = pre ++ img_tag url (js "external-image") ++ post).
Proof.
  intros toLowerCase toUpperCase pageSlug attachments pre attrs tail post
    Hpre Hpost Ha Ha' Ht Hslug.
  split.
  - intros filename fileId Hne Hq Hf.
    rewrite before_image_unchanged
      by (apply image_doc_silent; auto).
    rewrite image_rule_step
      by (try assumption; apply attachment_ref_inner; assumption).
    unfold ac_image. cbn [cap_text nth_error Nat.sub tpl_text].
    rewrite match_ri_filename by assumption.
    cbn [cap_text nth_error Nat.sub tpl_text downloaded_file att_path att_sanitized].
    apply (after_image_unchanged toLowerCase toUpperCase pre
             (js "./attachments/" ++ pageSlug ++ js "/" ++ sanitizeFilename filename)
             (sanitizeFilename filename) post); try assumption.
    + rewrite !no_char_app, Hslug, sanitizeFilename_no_lt. reflexivity.
    + apply sanitizeFilename_no_lt.
  - intros url Hne Hq Hu Hocc.
    rewrite before_image_unchanged
      by (apply image_doc_silent; auto).
    rewrite image_rule_step
      by (try assumption; apply url_ref_inner; assumption).
    unfold ac_image. cbn [cap_text nth_error Nat.sub tpl_text].
    rewrite (match_first_none rx_ri_filename)
      by (apply (absent_literal_no_match rx_ri_filename (js "ri:filename=~")
                   (RSeq (RGroup 1 (RSeq (RPlus true (RSet true [CChar 34])) REmpty))
                      (RSeq (RSet false [CChar 34]) REmpty)));
          [reflexivity|reflexivity|exact Hocc]).
    rewrite match_ri_value by assumption.
    cbn [cap_text nth_error Nat.sub tpl_text].
    change (js "~ alt=~external-image~ />")
      with (js "~ alt=~" ++ js "external-image" ++ js "~ />").
    apply (after_image_unchanged toLowerCase toUpperCase pre url
             (js "external-image") post); try assumption.
    reflexivity.
Qed.

Lemma image_conversion_witness :
  preprocessConfluenceHtml ascii_lower ascii_upper
    (js "See " ++ image_element (js " ac:height=~250~")
               (attachment_ref (js "my diagram: v2.png") (js " />")) ++ js ".")
    (js "my-page") []
  = js "See <img src=~./attachments/my-page/my_diagram__v2.png~ alt=~my_diagram__v2.png~ />."
  /\ preprocessConfluenceHtml ascii_lower ascii_upper
       (js "See " ++ image_element (js " ac:height=~250~")
                  (url_ref (js "https://example.com/a.png") (js " />")) ++ js ".")
       (js "my-page") []
     = js "See <img src=~https://example.com/a.png~ alt=~external-image~ />.".
Proof.
  pose proof (image_conversion ascii_lower ascii_upper (js "my-page") []
                (js "See ") (js " ac:height=~250~") (js " />") (js ".")
                eq_refl eq_refl eq_refl eq_refl eq_refl eq_refl) as [H1 H2].
  split.
  - exact (H1 (js "my diagram: v2.png") None ltac:(discriminate) eq_refl eq_refl).
  - exact (H2 (js "https://example.com/a.png") ltac:(discriminate) eq_refl eq_refl
             eq_refl).
Defined.

(** ** Macros without a conversion *)

Definition macro_selfclosing (attrs : str) : str :=
  js "<ac:structured-macro" ++ attrs ++ js "/>".

Definition macro_element (attrs body : str) : str :=
  js "<ac:structured-macro" ++ attrs ++ js ">" ++ body
    ++ js "</ac:structured-macro>".

(** No match in [a ++ rest] when none starts inside [a] and there is none
    in [rest]. *)
Lemma no_match_in_app rx rest : forall a,
  (forall b p1 p2, a = p1 ++ p2 -> p2 <> [] -> exec_at rx b (p2 ++ rest) = None) ->
  no_match_in rx rest -> no_match_in rx (a ++ rest).
Proof.
  induction a as [|c a IH]; intros Ha Hrest; [exact Hrest|].
  intros b t [p Hp]. destruct p as [|x p].
  - cbn [app] in Hp. subst t. apply (Ha b [] (c :: a) eq_refl). discriminate.
  - cbn [app] in Hp. injection Hp as _ Hp.
    apply (IH (fun b' p1 p2 E Hne =>
                 Ha b' (c :: p1) p2 ltac:(rewrite E; reflexivity) Hne) Hrest).
    exists p. exact Hp.
Qed.

Lemma plain_text_silent s rules :
  Forall led_by_lt rules -> no_char 60 s = true -> silent_on s rules.
Proof.
  intros L H. unfold silent_on.
  induction L as [|rx rules Hrx _ IH]; constructor; [|exact IH].
  apply no_lt_silent; assumption.
Qed.

Lemma rules_after_code_led : Forall led_by_lt rules_after_code.
Proof.
  unfold rules_after_code. repeat (apply Forall_cons; [led_lt|]).
  apply Forall_nil.
Qed.

Lemma match_all_none rx s : no_match_in rx s -> match_all rx s = [].
Proof.
  intros H. unfold match_all. rewrite scan_all_chars by exact H. clear H.
  induction s as [|c s IH]; [reflexivity|exact IH].
Qed.

Lemma exec_at_selfclosing attrs post :
  no_char 62 attrs = true ->
  exec_at rx_macro_selfclosing false (macro_selfclosing attrs ++ post)
  = Some (length (macro_selfclosing attrs), []).
Proof.
  intros Ha. unfold macro_selfclosing. rewrite <- !app_assoc.
  eapply exec_at_result.
  - unfold rx_macro_selfclosing. cbn [re_ast re_icase re_groups]. norm_js.
    repeat lit_step.
    apply (greedy_fit true false true [CChar 62] _ _ attrs 47 [] 62);
      [apply no_char_neg_set; [reflexivity|reflexivity|exact Ha]
      |reflexivity|reflexivity|reflexivity|vm_compute; reflexivity|].
    cbn [app]. repeat lit_step. rewrite rmatch_empty. reflexivity.
  - cbn [ms_len]. norm_js. len_solve.
  - reflexivity.
Qed.

Lemma exec_at_macro attrs body post :
  no_char 62 attrs = true ->
  all_decided true (lead_sets (lits (js "</ac:structured-macro>"))) body = true ->
  exec_at rx_macro false (macro_element attrs body ++ post)
  = Some (length (macro_element attrs body), []).
Proof.
  intros Ha Hb. unfold macro_element. rewrite <- !app_assoc.
  eapply exec_at_result.
  - unfold rx_macro. cbn [re_ast re_icase re_groups]. norm_js.
    repeat lit_step. rewrite rmatch_seq.
    apply star_run;
      [apply no_char_neg_set; [reflexivity|reflexivity|exact Ha]|reflexivity|].
    repeat lit_step.
    apply (lazy_skip_to true false false [CSpace; CNonSpace]);
      [apply any_char| |].
    + intros a1 a2 E Hne.
      apply (all_decided_splits true _ body _ Hb a1 a2 E Hne).
    + repeat lit_step. rewrite rmatch_empty. reflexivity.
  - cbn [ms_len]. norm_js. len_solve.
  - reflexivity.
Qed.

Lemma exec_at_none rx b s :
  rmatch (re_icase rx) b (re_ast rx) Some (MState s 0 []) = None ->
  exec_at rx b s = None.
Proof. intros H. unfold exec_at. rewrite H. reflexivity. Qed.

(** The rule for self-closing macros refuses a macro whose opening tag does
    not end with [/]. *)
Lemma selfclosing_refuses attrs rest b :
  no_char 62 attrs = true -> no_char 47 attrs = true ->
  exec_at rx_macro_selfclosing b (js "<ac:structured-macro" ++ attrs ++ 62 :: rest)
  = None.
Proof.
  intros Ha Hs. apply exec_at_none. unfold rx_macro_selfclosing.
  cbn [re_ast re_icase re_groups]. norm_js.
  repeat lit_step. rewrite rmatch_seq.
  rewrite star_end.
  - lit_step. reflexivity.
  - apply no_char_neg_set; [reflexivity|reflexivity|exact Ha].
  - reflexivity.
  - intros r1 r2 E Hne.
    apply (lit_guard true b 47 _ _ attrs _
             (no_char_neg_set true 47 attrs eq_refl eq_refl Hs) r1 r2 _ _ E Hne).
Qed.

Definition rules_before_macros : list regexp :=
  rules_before_code ++ [rx_code_lang; rx_code_plain].

Section Macros.

Variables toLowerCase toUpperCase : str -> str.
Variables (pageSlug : str) (attachments : list attachment).

Lemma before_macros_unchanged doc :
  silent_on doc rules_before_macros ->
  preprocessConfluenceHtml toLowerCase toUpperCase doc pageSlug attachments
  = convert_links toLowerCase (clean_tables (remove_macros doc)).
Proof.
  intros H. unfold silent_on, rules_before_macros in H.
  apply Forall_app in H as [Hbefore H].
  apply Forall_cons_iff in H as [S1 H]. apply Forall_cons_iff in H as [S2 _].
  rewrite before_code_unchanged by exact Hbefore.
  unfold convert_code_macros.
  rewrite (replace_all_no_match rx_code_lang _ doc S1).
  rewrite (replace_all_no_match rx_code_plain _ doc S2).
  reflexivity.
Qed.

(** Once the macro is gone the text holds no markup, and stays. *)
Lemma plain_text_stays s :
  no_char 60 s = true ->
  convert_links toLowerCase (clean_tables (remove_macros s)) = s.
Proof.
  intros H. apply after_code_unchanged.
  apply plain_text_silent; [apply rules_after_code_led|exact H].
Qed.

Lemma remove_macros_plain s :
  no_char 60 s = true ->
  remove_macros s
  = replace_all_tpl rx_parameter [] (replace_all rx_macro other_macro s).
Proof.
  intros H. unfold remove_macros.
  rewrite (replace_all_tpl_no_match rx_macro_selfclosing [] s)
    by (apply no_lt_silent; [led_lt|exact H]).
  reflexivity.
Qed.

Variables pre attrs post : str.

Hypothesis pre_plain : no_char 60 pre = true.
Hypothesis post_plain : no_char 60 post = true.
Hypothesis attrs_plain : no_char 60 attrs = true.
Hypothesis attrs_inside : no_char 62 attrs = true.

Lemma selfclosing_doc_silent :
  silent_on (pre ++ macro_selfclosing attrs ++ post) rules_before_macros.
Proof.
  unfold macro_selfclosing, rules_before_macros, rules_before_code. cbn [app].
  unfold silent_on.
  repeat (apply Forall_cons;
          [first [ apply led_by_lt_no_match; [led_lt | decide_chunks] ] | ]).
  - apply Forall_cons; [member_absent rx_panel_macro 35%nat|].
    apply Forall_cons; [member_absent rx_code_lang 38%nat|].
    apply Forall_cons; [member_absent rx_code_plain 38%nat|].
    apply Forall_nil.
Qed.

Lemma selfclosing_doc_removed :
  remove_macros (pre ++ macro_selfclosing attrs ++ post)
  = remove_macros (pre ++ post).
Proof.
  assert (Hout : no_char 60 (pre ++ post) = true)
    by (rewrite no_char_app, pre_plain, post_plain; reflexivity).
  rewrite (remove_macros_plain (pre ++ post) Hout). unfold remove_macros.
  rewrite (replace_all_tpl_one_match rx_macro_selfclosing [] pre
             (macro_selfclosing attrs) post []).
  - reflexivity.
  - reflexivity.
  - unfold macro_selfclosing. discriminate.
  - apply no_lt_prefix; [led_lt|exact pre_plain].
  - apply exec_at_selfclosing, attrs_inside.
  - apply no_lt_silent; [led_lt|exact post_plain].
Qed.

End Macros.

(** ** Images inside a removed macro *)

Definition img_element (iattrs : str) : str := js "<img" ++ iattrs ++ js ">".

(** The body of a macro: texts without markup and [<img>] tags in turn. *)
Definition body_with_images (items : list (str * str)) (last : str) : str :=
  flat_map (fun it => fst it ++ img_element (snd it)) items ++ last.

(** [pat] stands in [s], in upper or lower case letters. *)
Fixpoint starts_with_ci (pat s : str) : bool :=
  match pat, s with
  | [], _ => true
  | p :: pat', c :: s' => set_match true false [CChar p] c && starts_with_ci pat' s'
  | _ :: _, [] => false
  end.

Fixpoint occurs_ci (pat s : str) : bool :=
  starts_with_ci pat s
  || match s with
     | [] => false
     | _ :: s' => occurs_ci pat s'
     end.

Definition image_item_ok (it : str * str) : bool :=
  no_char 60 (fst it) && no_char 60 (snd it) && no_char 62 (snd it)
  && negb (occurs_ci (js "data-fileid=~") (snd it)).

Lemma occurs_ci_suffix pat : forall a b,
  occurs_ci pat (a ++ b) = false -> starts_with_ci pat b = false.
Proof.
  induction a as [|c a IH]; intros b H.
  - destruct b; cbn [app occurs_ci] in H; apply orb_false_iff in H as [H _];
      exact H.
  - cbn [app occurs_ci] in H. apply orb_false_iff in H as [_ H]. apply IH, H.
Qed.

(** A literal under the [i] flag refuses a text that does not begin with
    it, whatever follows the text, if what follows begins with a character
    that is not in the literal. *)
Lemma lits_then_ci_refuses b pat r k c rest :
  (forall x, In x pat -> set_match true false [CChar x] c = false) ->
  forall a2 l caps,
    starts_with_ci pat a2 = false ->
    rmatch true b (lits_then pat r) k (MState (a2 ++ c :: rest) l caps) = None.
Proof.
  induction pat as [|x pat IH]; intros Hc a2 l caps H; [discriminate|].
  cbn [lits_then fold_right]. fold (lits_then pat r). rewrite rmatch_seq.
  destruct a2 as [|y a2]; cbn [app]; rewrite rmatch_set_cons.
  - rewrite (Hc x (or_introl eq_refl)). reflexivity.
  - cbn [starts_with_ci] in H.
    destruct (set_match true false [CChar x] y); [|reflexivity].
    apply IH; [intros x' Hx'; apply Hc; right; exact Hx'|exact H].
Qed.

(** The rule for images with a file id refuses an image without one. *)
Lemma blob_refuses iattrs rest b :
  no_char 62 iattrs = true -> occurs_ci (js "data-fileid=~") iattrs = false ->
  exec_at rx_blob_img b (js "<img" ++ iattrs ++ 62 :: rest) = None.
Proof.
  intros Ha Hocc. apply exec_at_none. unfold rx_blob_img.
  cbn [re_ast re_icase re_groups]. norm_js.
  repeat lit_step. rewrite rmatch_seq.
  match goal with
  | |- rmatch _ _ _ (rmatch _ _ ?r _) _ = _ =>
      change r with (lits_then (js "data-fileid=~") (drop_seq 13 r))
  end.
  rewrite star_end.
  - apply (lits_then_ci_refuses b _ _ _ 62 rest) with (a2 := []);
      [|reflexivity].
    intros x Hx. vm_compute in Hx.
    repeat destruct Hx as [<- | Hx]; try reflexivity. destruct Hx.
  - apply no_char_neg_set; [reflexivity|reflexivity|exact Ha].
  - reflexivity.
  - intros r1 r2 E Hne. apply lits_then_ci_refuses.
    + intros x Hx. vm_compute in Hx.
      repeat destruct Hx as [<- | Hx]; try reflexivity. destruct Hx.
    + subst iattrs. exact (occurs_ci_suffix _ r1 r2 Hocc).
Qed.

Lemma exec_at_img iattrs rest :
  no_char 62 iattrs = true ->
  exec_at rx_img false (img_element iattrs ++ rest)
  = Some (length (img_element iattrs), []).
Proof.
  intros Ha. unfold img_element. rewrite <- !app_assoc.
  eapply exec_at_result.
  - unfold rx_img. cbn [re_ast re_icase re_groups]. norm_js.
    repeat lit_step. rewrite rmatch_seq.
    apply star_run;
      [apply no_char_neg_set; [reflexivity|reflexivity|exact Ha]|reflexivity|].
    repeat lit_step. rewrite rmatch_empty. reflexivity.
  - cbn [ms_len]. norm_js. len_solve.
  - reflexivity.
Qed.

(** The matches of [/<img[^>]*>/gi] in such a body are its tags, in order. *)
Lemma scan_img_body last rest :
  no_char 60 last = true ->
  no_match_in rx_img (last ++ rest) ->
  forall items,
    forallb image_item_ok items = true ->
    matched_texts (scan rx_img false 0 (body_with_images items last ++ rest))
    = map (fun it => img_element (snd it)) items.
Proof.
  intros Hlast Hrest. unfold body_with_images.
  induction items as [|[t ia] items IH]; intros H.
  - cbn [flat_map app map]. rewrite scan_all_chars by exact Hrest.
    clear. induction (last ++ rest) as [|c s IHs]; [reflexivity|exact IHs].
  - cbn [forallb] in H. apply andb_true_iff in H as [Hit H].
    unfold image_item_ok in Hit. cbn [fst snd] in Hit.
    apply andb_true_iff in Hit as [Hit _].
    apply andb_true_iff in Hit as [Hit Hgt].
    apply andb_true_iff in Hit as [Ht Hia].
    cbn [flat_map fst snd map]. rewrite <- !app_assoc.
    rewrite scan_prefix
      by (apply no_lt_prefix; [eexists; vm_compute; reflexivity|exact Ht]).
    rewrite (scan_match rx_img _ (img_element ia) _ []);
      [|unfold img_element; discriminate
       |rewrite (exec_at_no_bol rx_img _ _ eq_refl); apply exec_at_img, Hgt].
    clear Ht. induction t as [|c t IHt]; cbn [map app matched_texts];
      [|exact IHt].
    f_equal. rewrite <- (IH H). rewrite <- !app_assoc. reflexivity.
Qed.

Definition body_pieces (items : list (str * str)) : list str :=
  flat_map (fun it => [fst it; js "<img"; snd it; js ">"]) items.

Definition kept_pieces (items : list (str * str)) : list str :=
  flat_map (fun it => [[newline]; js "<img"; snd it; js ">"]) items.

Definition macro_tags : list str :=
  [js "<ac:structured-macro"; js "</ac:structured-macro>"; js "<img"].

Lemma concat_body_pieces items :
  concat (body_pieces items)
  = flat_map (fun it => fst it ++ img_element (snd it)) items.
Proof.
  induction items as [|it items IH]; [reflexivity|].
  cbn [body_pieces flat_map app concat]. unfold body_pieces in IH. rewrite IH.
  unfold img_element. rewrite <- !app_assoc. reflexivity.
Qed.

Lemma concat_kept_pieces items :
  concat (kept_pieces items)
  = flat_map (fun q => [newline] ++ q) (map (fun it => img_element (snd it)) items).
Proof.
  induction items as [|it items IH]; [reflexivity|].
  cbn [kept_pieces flat_map app concat map]. unfold kept_pieces in IH.
  rewrite IH. unfold img_element. rewrite <- !app_assoc. reflexivity.
Qed.

Lemma body_pieces_ok tags items :
  existsb (str_eqb (js "<img")) tags = true ->
  forallb image_item_ok items = true ->
  forallb (piece_ok tags) (body_pieces items) = true.
Proof.
  intros T. induction items as [|[t ia] items IH]; intros H; [reflexivity|].
  cbn [forallb] in H. apply andb_true_iff in H as [Hit H].
  unfold image_item_ok in Hit. cbn [fst snd] in Hit.
  apply andb_true_iff in Hit as [Hit _]. apply andb_true_iff in Hit as [Hit _].
  apply andb_true_iff in Hit as [Ht Hia].
  cbn [body_pieces flat_map app forallb fst snd].
  unfold piece_ok at 1 2 3 4. rewrite T, Ht, Hia, !orb_true_r.
  cbn [orb andb no_char forallb N.eqb Pos.eqb negb]. apply IH, H.
Qed.

Lemma kept_pieces_ok tags items :
  existsb (str_eqb (js "<img")) tags = true ->
  forallb image_item_ok items = true ->
  forallb (piece_ok tags) (kept_pieces items) = true.
Proof.
  intros T. induction items as [|[t ia] items IH]; intros H; [reflexivity|].
  cbn [forallb] in H. apply andb_true_iff in H as [Hit H].
  unfold image_item_ok in Hit. cbn [fst snd] in Hit.
  apply andb_true_iff in Hit as [Hit _]. apply andb_true_iff in Hit as [Hit _].
  apply andb_true_iff in Hit as [Ht Hia].
  cbn [kept_pieces flat_map app forallb fst snd].
  unfold piece_ok at 1 2 3 4. rewrite T, Hia, !orb_true_r.
  cbn [orb andb no_char forallb N.eqb Pos.eqb negb]. apply IH, H.
Qed.

(** The rule for images with a file id is silent on such a body. *)
Lemma blob_silent_body rest :
  no_match_in rx_blob_img rest ->
  forall items,
    forallb image_item_ok items = true ->
    no_match_in rx_blob_img
      (flat_map (fun it => fst it ++ img_element (snd it)) items ++ rest).
Proof.
  intros Hrest. induction items as [|[t ia] items IH]; intros H; [exact Hrest|].
  cbn [forallb] in H. apply andb_true_iff in H as [Hit H].
  unfold image_item_ok in Hit. cbn [fst snd] in Hit.
  apply andb_true_iff in Hit as [Hit Hocc]. apply negb_true_iff in Hocc.
  apply andb_true_iff in Hit as [Hit Hgt].
  apply andb_true_iff in Hit as [Ht Hia].
  cbn [flat_map fst snd]. unfold img_element.
  change (js "<img") with ([60] ++ js "img").
  rewrite <- !app_assoc.
  apply no_match_in_app; [apply no_lt_prefix; [led_lt|exact Ht]|].
  apply no_match_in_app.
  - intros b p1 p2 E Hne.
    assert (p2 = [60]) as ->.
    { destruct p1 as [|x p1]; [symmetry; exact E|].
      destruct p1; destruct p2; try discriminate; congruence. }
    apply (blob_refuses ia _ b Hgt Hocc).
  - rewrite !app_assoc. rewrite <- (app_assoc _ _ rest).
    apply no_match_in_app; [|apply IH, H].
    apply no_lt_prefix; [led_lt|].
    rewrite !no_char_app, Hia. reflexivity.
Qed.

Section MacroImages.

Variables toLowerCase toUpperCase : str -> str.
Variables (pageSlug : str) (attachments : list attachment).
Variables (pre attrs last post : str) (items : list (str * str)).

Hypothesis pre_plain : no_char 60 pre = true.
Hypothesis post_plain : no_char 60 post = true.
Hypothesis last_plain : no_char 60 last = true.
Hypothesis attrs_plain : no_char 60 attrs = true.
Hypothesis attrs_inside : no_char 62 attrs = true.
Hypothesis attrs_open : no_char 47 attrs = true.
Hypothesis items_ok : forallb image_item_ok items = true.

Let body := body_with_images items last.
Let doc := pre ++ macro_element attrs body ++ post.
Let kept := map (fun it => img_element (snd it)) items.

Lemma doc_pieces :
  doc
  = concat ([pre; js "<ac:structured-macro"; attrs; js ">"]
              ++ body_pieces items
              ++ [last; js "</ac:structured-macro>"; post]).
Proof.
  unfold doc, macro_element, body, body_with_images.
  rewrite !concat_app, concat_body_pieces. cbn [concat].
  rewrite <- !app_assoc, app_nil_r. reflexivity.
Qed.

Lemma doc_pieces_ok :
  forallb (piece_ok macro_tags)
    ([pre; js "<ac:structured-macro"; attrs; js ">"]
       ++ body_pieces items
       ++ [last; js "</ac:structured-macro>"; post]) = true.
Proof.
  rewrite !forallb_app, (body_pieces_ok macro_tags items eq_refl items_ok).
  cbn [forallb]. unfold piece_ok.
  rewrite pre_plain, post_plain, last_plain, attrs_plain. reflexivity.
Qed.

Lemma body_closed :
  all_decided true (lead_sets (lits (js "</ac:structured-macro>"))) body = true.
Proof.
  unfold body, body_with_images. rewrite <- concat_body_pieces.
  apply all_decided_app.
  - apply (decided_pieces true _ [js "<img"]);
      [reflexivity|vm_compute; reflexivity|].
    apply body_pieces_ok; [reflexivity|exact items_ok].
  - apply no_lt_decided_sets, last_plain.
Qed.

Lemma macro_doc_silent : silent_on doc rules_before_macros.
Proof.
  unfold rules_before_macros, rules_before_code. cbn [app]. unfold silent_on.
  apply Forall_cons.
  - replace doc
      with ((pre ++ js "<ac:structured-macro" ++ attrs ++ js ">")
              ++ flat_map (fun it => fst it ++ img_element (snd it)) items
              ++ last ++ js "</ac:structured-macro>" ++ post)
      by (unfold doc, macro_element, body, body_with_images;
          rewrite <- !app_assoc; reflexivity).
    apply no_match_in_app.
    + apply decided_prefix.
      repeat apply all_decided_app;
        try (apply no_lt_all_decided; [led_lt|assumption]);
        vm_compute; reflexivity.
    + apply blob_silent_body; [|exact items_ok].
      apply led_by_lt_no_match; [led_lt|]. decide_chunks.
  - rewrite doc_pieces.
    repeat (apply Forall_cons;
            [first [ apply (inert_tags_sound _ 0 macro_tags _);
                     [vm_compute; reflexivity|exact doc_pieces_ok]
                   | apply (inert_tags_sound _ 35 macro_tags _);
                     [vm_compute; reflexivity|exact doc_pieces_ok]
                   | apply (inert_tags_sound _ 38 macro_tags _);
                     [vm_compute; reflexivity|exact doc_pieces_ok] ]|]).
    apply Forall_nil.
Qed.

Lemma selfclosing_silent : no_match_in rx_macro_selfclosing doc.
Proof.
  unfold doc. apply no_match_in_app; [apply no_lt_prefix; [led_lt|exact pre_plain]|].
  unfold macro_element.
  change (js "<ac:structured-macro") with ([60] ++ js "ac:structured-macro").
  rewrite <- !app_assoc. apply no_match_in_app.
  - intros b p1 p2 E Hne.
    assert (p2 = [60]) as ->.
    { destruct p1 as [|x p1]; [symmetry; exact E|].
      destruct p1; destruct p2; try discriminate; congruence. }
    apply (selfclosing_refuses attrs (body ++ js "</ac:structured-macro>" ++ post) b
             attrs_inside attrs_open).
  - unfold body, body_with_images. rewrite <- concat_body_pieces.
    match goal with
    | |- no_match_in _ ?d =>
        replace d
          with (concat ([js "ac:structured-macro"; attrs; js ">"]
                          ++ body_pieces items
                          ++ [last; js "</ac:structured-macro>"; post]))
    end.
    + apply (inert_tags_sound _ 0 [js "</ac:structured-macro>"; js "<img"] _);
        [vm_compute; reflexivity|].
      rewrite !forallb_app,
        (body_pieces_ok [js "</ac:structured-macro>"; js "<img"] items eq_refl
           items_ok).
      cbn [forallb]. unfold piece_ok.
      rewrite post_plain, last_plain, attrs_plain. reflexivity.
    + rewrite !concat_app. cbn [concat].
      rewrite <- !app_assoc, app_nil_r. reflexivity.
Qed.

Lemma macro_images : match_all rx_img (macro_element attrs body) = kept.
Proof.
  unfold match_all, macro_element.
  rewrite (app_assoc (js "<ac:structured-macro")), (app_assoc _ (js ">")).
  rewrite scan_prefix.
  - rewrite <- (app_nil_r (map SChar _)) at 1.
    assert (E : forall p segs, matched_texts (map SChar p ++ segs)
                               = matched_texts segs)
      by (induction p as [|c p IHp]; intros segs; [reflexivity|apply IHp]).
    rewrite app_nil_r, E.
    replace (match (js "<ac:structured-macro" ++ attrs) ++ js ">" with
             | [] => true
             | _ :: _ => false
             end) with false by reflexivity.
    apply scan_img_body; [exact last_plain| |exact items_ok].
    apply all_decided_no_match; [vm_compute; discriminate|].
    cbn [re_icase re_ast rx_img lead_sets exact_sets app].
    apply all_decided_app;
      [apply no_lt_decided_sets, last_plain|vm_compute; reflexivity].
  - apply decided_prefix. cbn [re_icase re_ast rx_img lead_sets exact_sets app].
    rewrite <- !app_assoc.
    repeat apply all_decided_app;
      try (apply no_lt_decided_sets; assumption); vm_compute; reflexivity.
Qed.

Lemma kept_silent :
  silent_on (pre ++ join [newline] kept ++ post) rules_after_code.
Proof.
  assert (E : exists pieces,
             pre ++ join [newline] kept ++ post = concat pieces
             /\ forallb (piece_ok [js "<img"]) pieces = true).
  { unfold kept. destruct items as [|it its].
    - exists [pre; post]. split; [cbn; rewrite app_nil_r; reflexivity|].
      cbn [forallb]. unfold piece_ok. rewrite pre_plain, post_plain. reflexivity.
    - exists ([pre; js "<img"; snd it; js ">"] ++ kept_pieces its ++ [post]).
      cbn [forallb] in items_ok. apply andb_true_iff in items_ok as [Hit Hits].
      unfold image_item_ok in Hit.
      apply andb_true_iff in Hit as [Hit _]. apply andb_true_iff in Hit as [Hit _].
      apply andb_true_iff in Hit as [_ Hia]. split.
      + cbn [map join]. rewrite !concat_app, concat_kept_pieces.
        unfold img_element. cbn [concat].
        rewrite <- !app_assoc, app_nil_r. reflexivity.
      + rewrite !forallb_app, (kept_pieces_ok [js "<img"] its eq_refl Hits).
        cbn [forallb]. unfold piece_ok.
        rewrite pre_plain, post_plain, Hia. reflexivity. }
  destruct E as (pieces & -> & Hp). unfold silent_on, rules_after_code.
  repeat (apply Forall_cons;
          [apply (inert_tags_sound _ 0 [js "<img"] _);
           [vm_compute; reflexivity|exact Hp]|]).
  apply Forall_nil.
Qed.

Lemma preprocess_macro :
  preprocessConfluenceHtml toLowerCase toUpperCase doc pageSlug attachments
  = pre ++ join [newline] kept ++ post.
Proof.
  rewrite before_macros_unchanged by exact macro_doc_silent.
  assert (E : remove_macros doc
              = remove_macros (pre ++ join [newline] kept ++ post)).
  { pose proof kept_silent as S. unfold silent_on, rules_after_code in S.
    apply Forall_cons_iff in S as [S1 S]. apply Forall_cons_iff in S as [S2 _].
    unfold remove_macros.
    rewrite (replace_all_tpl_no_match rx_macro_selfclosing [] doc selfclosing_silent).
    rewrite (replace_all_tpl_no_match rx_macro_selfclosing [] _ S1).
    rewrite (replace_all_no_match rx_macro _ _ S2).
    unfold doc.
    rewrite (replace_all_one_match rx_macro _ pre (macro_element attrs body)
               post []).
    - unfold other_macro. rewrite macro_images.
      rewrite (replace_all_no_match rx_macro _ post)
        by (apply no_lt_silent; [led_lt|exact post_plain]).
      destruct kept; reflexivity.
    - reflexivity.
    - unfold macro_element. discriminate.
    - apply no_lt_prefix; [led_lt|exact pre_plain].
    - apply exec_at_macro; [exact attrs_inside|exact body_closed]. }
  rewrite E. apply after_code_unchanged, kept_silent.
Qed.

End MacroImages.

(** A macro that no rule converts is removed, and the text around it is
    joined: a self-closing macro (a table of contents, say) leaves nothing;
    a macro with a body leaves the [<img>] tags of the body, one on a line,
    and nothing else of it (nothing at all when the body has no tag).  The
    body is made of texts without markup and of [<img>] tags without a
    [data-fileid] attribute. *)
Theorem macro_removal :
  forall toLowerCase toUpperCase pageSlug attachments pre attrs post,
    no_char 60 pre = true -> no_char 60 post = true ->
    no_char 60 attrs = true -> no_char 62 attrs = true ->
    preprocessConfluenceHtml toLowerCase toUpperCase
      (pre ++ macro_selfclosing attrs ++ post) pageSlug attachments
    = pre ++ post
    /\ (forall items last,
          no_char 47 attrs = true -> no_char 60 last = true ->
          forallb image_item_ok items = true ->
          preprocessConfluenceHtml toLowerCase toUpperCase
            (pre ++ macro_element attrs (body_with_images items last) ++ post)
            pageSlug attachments
          = pre ++ join [newline] (map (fun it => img_element (snd it)) items)
              ++ post).
Proof.
  intros toLowerCase toUpperCase pageSlug attachments pre attrs post
    Hpre Hpost Ha Ha'.
  split.
  - rewrite before_macros_unchanged by (apply selfclosing_doc_silent; assumption).
    rewrite selfclosing_doc_removed by assumption.
    apply plain_text_stays. rewrite no_char_app, Hpre, Hpost. reflexivity.
  - intros items last Hs Hlast Hitems. apply preprocess_macro; assumption.
Qed.

Lemma macro_removal_witness :
  preprocessConfluenceHtml ascii_lower ascii_upper
    (js "Contents: " ++ macro_selfclosing (js " ac:name=~toc~ ") ++ js " end")
    (js "my-page") []
  = js "Contents:  end"
  /\ preprocessConfluenceHtml ascii_lower ascii_upper
       (js "Gallery: "
          ++ macro_element (js " ac:name=~gallery~")
               (body_with_images
                  [(js "first ", js " src=~a.png~"); (js " then ", js " src=~b.png~ /")]
                  (js " done"))
          ++ js " end")
       (js "my-page") []
     = js "Gallery: <img src=~a.png~>" ++ [newline] ++ js "<img src=~b.png~ /> end".
Proof.
  pose proof (macro_removal ascii_lower ascii_upper (js "my-page") []
                (js "Contents: ") (js " ac:name=~toc~ ") (js " end")
                eq_refl eq_refl eq_refl eq_refl) as [H1 _].
  pose proof (macro_removal ascii_lower ascii_upper (js "my-page") []
                (js "Gallery: ") (js " ac:name=~gallery~") (js " end")
                eq_refl eq_refl eq_refl eq_refl) as [_ H2].
  split; [exact H1|].
  exact (H2 [(js "first ", js " src=~a.png~"); (js " then ", js " src=~b.png~ /")]
            (js " done") eq_refl eq_refl eq_refl).
Defined.

(** ** The text-protection pass: a fenced block *)

(** No [<] of [s] stands before a capital letter. *)
Fixpoint no_component (s : str) : bool :=
  match s with
  | [] => true
  | c :: s' =>
      negb ((c =? 60) && match s' with c2 :: _ => is_upper c2 | [] => false end)
      && no_component s'
  end.

Definition code_block_token (i : nat) : str :=
  js "__CODE_BLOCK_" ++ nat_str i ++ js "__".

Lemma component_lead :
  lead_sets (re_ast rx_component) = [(false, [CChar 60]); (false, [CRange 65 90])].
Proof. vm_compute. reflexivity. Qed.

Lemma fence_lead :
  lead_sets (re_ast rx_code_fence)
  = [(false, [CChar 96]); (false, [CChar 96]); (false, [CChar 96])].
Proof. vm_compute. reflexivity. Qed.

Lemma upper_set c : set_match false false [CRange 65 90] c = is_upper c.
Proof.
  unfold set_match, items_mem, is_upper. cbn [existsb citem_mem andb xorb].
  rewrite !orb_false_r. reflexivity.
Qed.

Lemma component_decided x : forall code,
  no_component code = true -> is_upper x = false -> (x =? 60) = false ->
  all_decided false (lead_sets (re_ast rx_component)) (code ++ [x]) = true.
Proof.
  rewrite component_lead. induction code as [|c code IH]; intros H Hx Hx'.
  - cbn [app all_decided decided_fail]. rewrite set_match_symbol by reflexivity.
    rewrite Hx'. reflexivity.
  - cbn [no_component] in H. apply andb_true_iff in H as [Hc H].
    cbn [app all_decided]. rewrite (IH H Hx Hx'), andb_true_r.
    cbn [decided_fail]. rewrite set_match_symbol by reflexivity.
    destruct (c =? 60); [|reflexivity]. cbn [andb negb] in Hc.
    destruct code as [|c2 code]; cbn [app]; rewrite upper_set.
    + rewrite Hx. reflexivity.
    + apply negb_true_iff in Hc. rewrite Hc. reflexivity.
Qed.

Lemma fence_decided : forall code,
  occurs (js "```") code = false ->
  all_decided false (lead_sets (re_ast rx_code_fence)) (code ++ [newline]) = true.
Proof.
  rewrite fence_lead. induction code as [|c code IH]; intros H; [reflexivity|].
  cbn [occurs] in H. apply orb_false_iff in H as [Hs H].
  cbn [app all_decided]. rewrite (IH H), andb_true_r.
  cbn [decided_fail]. rewrite !(set_match_symbol false) by reflexivity.
  change (js "```") with [96; 96; 96] in Hs. cbn [starts_with] in Hs.
  destruct (c =? 96); [|reflexivity].
  destruct code as [|c2 code]; cbn [app]; [reflexivity|].
  rewrite !(set_match_symbol false) by reflexivity.
  destruct (c2 =? 96); [|reflexivity].
  destruct code as [|c3 code]; cbn [app]; [reflexivity|].
  rewrite !(set_match_symbol false) by reflexivity.
  destruct (c3 =? 96); [discriminate|reflexivity].
Qed.

Lemma no_char_decided ic x sets s :
  is_upper x = false -> is_lower x = false -> no_char x s = true ->
  all_decided ic ((false, [CChar x]) :: sets) s = true.
Proof.
  intros Hu Hl H. apply all_decided_free. unfold no_char in H.
  apply forallb_forall. intros c Hc. rewrite forallb_forall in H.
  specialize (H c Hc). rewrite set_match_symbol by assumption. exact H.
Qed.

Lemma exec_at_fence code post :
  occurs (js "```") code = false ->
  exec_at rx_code_fence false (fenced code ++ post)
  = Some (length (fenced code), []).
Proof.
  intros H. unfold fenced.
  replace ((js "```" ++ newline :: code ++ newline :: js "```") ++ post)
    with (js "```" ++ (newline :: code ++ [newline]) ++ js "```" ++ post)
    by (repeat first [rewrite <- app_assoc | progress cbn [app]]; reflexivity).
  eapply exec_at_result.
  - unfold rx_code_fence. cbn [re_ast re_icase re_groups].
    change (js "```") with [96; 96; 96]. cbn [app].
    repeat lit_step.
    change (newline :: code ++ [newline] ++ 96 :: 96 :: 96 :: post)
      with ((newline :: code ++ [newline]) ++ 96 :: 96 :: 96 :: post).
    apply (lazy_skip_to false false false [CSpace; CNonSpace] _ _
             (newline :: code ++ [newline]));
      [apply any_char| |].
    + intros a1 a2 E Hne.
      apply (all_decided_splits false _ (newline :: code ++ [newline]) _)
        with (a1 := a1); [|exact E|exact Hne].
      pose proof (fence_decided code H) as D. rewrite fence_lead in D.
      match goal with
      | |- all_decided _ ?sets _ = true =>
          let v := eval vm_compute in sets in change sets with v
      end.
      cbn [all_decided]. rewrite D. reflexivity.
    + repeat lit_step. rewrite rmatch_empty. reflexivity.
  - cbn [ms_len]. change (js "```") with [96; 96; 96].
    repeat first [rewrite length_app | progress cbn [length app]].
    lia.
  - reflexivity.
Qed.

Lemma extract_segs_chars name : forall s ps segs,
  extract_segs name ps (map SChar s ++ segs)
  = (fst (extract_segs name ps segs), s ++ snd (extract_segs name ps segs)).
Proof.
  induction s as [|c s IH]; intros ps segs.
  - cbn [map app]. destruct (extract_segs name ps segs); reflexivity.
  - cbn [map app extract_segs]. rewrite IH. reflexivity.
Qed.

Lemma extract_none rx name s :
  no_match_in rx s -> extract rx name s = ([], s).
Proof.
  intros H. unfold extract. rewrite scan_all_chars by exact H.
  rewrite <- (app_nil_r (map SChar s)), extract_segs_chars.
  cbn [extract_segs fst snd]. rewrite app_nil_r. reflexivity.
Qed.

(** One match: it is pushed, and its token [__NAME_0__] stands for it. *)
Lemma extract_one rx name pre m post caps :
  no_bol (re_ast rx) = true -> m <> [] ->
  (forall b p1 p2, pre = p1 ++ p2 -> p2 <> [] ->
     exec_at rx b (p2 ++ m ++ post) = None) ->
  exec_at rx false (m ++ post) = Some (length m, caps) ->
  no_match_in rx post ->
  extract rx name (pre ++ m ++ post)
  = ([m], pre ++ (js "__" ++ name ++ js "_0__") ++ post).
Proof.
  intros Hb Hm Hpre He Hpost. unfold extract.
  rewrite scan_prefix by exact Hpre.
  rewrite (scan_no_bol rx Hb (m ++ post)).
  rewrite (scan_match rx false m post caps Hm He).
  rewrite (scan_all_chars rx post false Hpost).
  rewrite extract_segs_chars. cbn [extract_segs app length Nat.sub].
  rewrite <- (app_nil_r (map SChar post)), extract_segs_chars.
  cbn [extract_segs fst snd]. rewrite app_nil_r.
  change (nat_str 0) with (js "0"). rewrite <- !app_assoc. reflexivity.
Qed.

Lemma opening_tag_led : led_by_lt rx_opening_tag.
Proof. led_lt_compute. Qed.
Lemma closing_tag_led : led_by_lt rx_closing_tag.
Proof. led_lt_compute. Qed.
Lemma table_led : led_by_lt rx_table.
Proof. led_lt_compute. Qed.
Lemma component_led : led_by_lt rx_component.
Proof. led_lt_compute. Qed.

(** A text without [<] goes through the escaping passes as it is. *)
Lemma escape_passes_plain s n : no_char 60 s = true -> escape_passes n s = s.
Proof.
  intros H. destruct n as [|n]; [reflexivity|]. cbn [escape_passes].
  unfold escapeOpeningTags, escapeClosingTags.
  rewrite (replace_all_tpl_no_match rx_opening_tag _ s)
    by (apply no_lt_silent; [apply opening_tag_led|exact H]).
  rewrite (replace_all_tpl_no_match rx_closing_tag _ s)
    by (apply no_lt_silent; [apply closing_tag_led|exact H]).
  rewrite str_eqb_refl. reflexivity.
Qed.

Lemma index_of_prefix pat rest : forall pre,
  (forall p1 p2, pre = p1 ++ p2 -> p2 <> [] -> starts_with pat (p2 ++ rest) = false) ->
  starts_with pat rest = true ->
  index_of pat (pre ++ rest) = Some (length pre).
Proof.
  induction pre as [|c pre IH]; intros Hpre Hs.
  - cbn [app length]. destruct rest; cbn [index_of]; rewrite Hs; reflexivity.
  - pose proof (Hpre [] (c :: pre) eq_refl ltac:(discriminate)) as E0.
    cbn [app] in E0. cbn [app index_of length]. rewrite E0.
    rewrite IH; [reflexivity| |exact Hs].
    intros p1 p2 E Hne. apply (Hpre (c :: p1) p2); [rewrite E; reflexivity|exact Hne].
Qed.

Lemma starts_with_app pat rest : starts_with pat (pat ++ rest) = true.
Proof.
  induction pat as [|c pat IH]; [reflexivity|].
  cbn [app starts_with]. rewrite N.eqb_refl. exact IH.
Qed.

(** In a text without two underscores in a row, before the token
    [__CODE_BLOCK_0__], the token is found where it stands. *)
Lemma token_found pre post :
  occurs (js "__") pre = false ->
  index_of (code_block_token 0) (pre ++ code_block_token 0 ++ post)
  = Some (length pre).
Proof.
  intros H. apply index_of_prefix; [|apply starts_with_app].
  intros p1 p2 -> Hne. apply occurs_app_r in H.
  destruct p2 as [|c p2]; [congruence|]. cbn [occurs] in H.
  apply orb_false_iff in H as [H _].
  change (js "__") with [95; 95] in H. cbn [starts_with] in H.
  change (code_block_token 0) with (js "__CODE_BLOCK_0__").
  change (js "__CODE_BLOCK_0__") with (95 :: 95 :: js "CODE_BLOCK_0__").
  cbn [app starts_with].
  destruct (c =? 95); [|reflexivity].
  destruct p2 as [|c2 p2]; cbn [app starts_with andb].
  - reflexivity.
  - cbn [andb] in H. rewrite andb_true_r in H. rewrite H. reflexivity.
Qed.

Lemma restore_block pre block post :
  occurs (js "__") pre = false -> no_char 36 block = true ->
  restore (js "CODE_BLOCK") 0 [block] (pre ++ code_block_token 0 ++ post)
  = pre ++ block ++ post.
Proof.
  intros Hpre Hb. cbn [restore]. unfold replace_first_str.
  change (js "__" ++ js "CODE_BLOCK" ++ js "_" ++ nat_str 0 ++ js "__")
    with (code_block_token 0).
  rewrite token_found by exact Hpre.
  rewrite get_substitution_plain by exact Hb.
  rewrite firstn_app, firstn_all, Nat.sub_diag. cbn [firstn].
  rewrite app_nil_r.
  rewrite skipn_app, skipn_all2 by lia.
  replace (length pre + length (code_block_token 0) - length pre)%nat
    with (length (code_block_token 0)) by lia.
  rewrite skipn_app, skipn_all, Nat.sub_diag. cbn [skipn app]. reflexivity.
Qed.

(** A fenced block comes back as it was, with the HTML tags it holds, when
    its code has no [$], no three backquotes in a row and no [<] before a
    capital letter; the text around it has no [<], no backquote and, before
    the block, no two underscores in a row. *)
Theorem fenced_block_protected :
  forall pre code post,
    no_char 60 pre = true -> no_char 96 pre = true ->
    occurs (js "__") pre = false ->
    no_char 60 post = true -> no_char 96 post = true ->
    no_char 36 code = true -> occurs (js "```") code = false ->
    no_component code = true ->
    protect_text (pre ++ fenced code ++ post) = pre ++ fenced code ++ post.
Proof.
  intros pre code post Hpre Hpre' Hpre'' Hpost Hpost' Hd Hf Hc.
  unfold protect_text, escape_components.
  rewrite replace_all_tpl_no_match.
  - rewrite (extract_one rx_code_fence (js "CODE_BLOCK") pre (fenced code) post []).
    + change (js "__" ++ js "CODE_BLOCK" ++ js "_0__") with (code_block_token 0).
      assert (Hout : no_char 60 (pre ++ code_block_token 0 ++ post) = true)
        by (rewrite !no_char_app, Hpre, Hpost; reflexivity).
      rewrite (extract_none rx_table (js "TABLE") _
                 (no_lt_silent rx_table _ table_led Hout)).
      rewrite (escape_passes_plain _ 3 Hout). cbn [restore].
      apply restore_block; [exact Hpre''|].
      unfold fenced. rewrite no_char_app. cbn [no_char forallb] in *.
      rewrite forallb_app. cbn [forallb]. unfold no_char in Hd. rewrite Hd.
      reflexivity.
    + reflexivity.
    + unfold fenced. discriminate.
    + apply decided_prefix. rewrite fence_lead.
      apply no_char_decided; [reflexivity|reflexivity|exact Hpre'].
    + apply exec_at_fence, Hf.
    + apply all_decided_no_match; [rewrite fence_lead; discriminate|].
      rewrite fence_lead.
      apply no_char_decided; [reflexivity|reflexivity|exact Hpost'].
  - apply all_decided_no_match; [rewrite component_lead; discriminate|].
    unfold fenced.
    replace (pre ++ (js "```" ++ newline :: code ++ newline :: js "```") ++ post)
      with (pre ++ js "```" ++ [newline] ++ (code ++ [newline]) ++ js "```" ++ post)
      by (repeat first [rewrite <- app_assoc | progress cbn [app]]; reflexivity).
    apply all_decided_app;
      [apply no_lt_all_decided; [apply component_led|exact Hpre]|].
    apply all_decided_app; [vm_compute; reflexivity|].
    apply all_decided_app; [vm_compute; reflexivity|].
    apply all_decided_app;
      [apply component_decided; [exact Hc|reflexivity|reflexivity]|].
    apply all_decided_app; [vm_compute; reflexivity|].
    apply no_lt_all_decided; [apply component_led|exact Hpost].
Qed.

Lemma fenced_block_protected_witness :
  protect_text
    (js "Example:" ++ [newline]
       ++ fenced (js "<div class=~box~><p>a_b</p></div>") ++ [newline] ++ js "Done.")
  = js "Example:" ++ [newline]
      ++ fenced (js "<div class=~box~><p>a_b</p></div>") ++ [newline] ++ js "Done.".
Proof.
  rewrite (app_assoc (js "Example:") [newline]).
  apply fenced_block_protected; reflexivity.
Defined.

(** ** The text-protection pass: HTML tags *)

(** The names of [htmlTagNames] but the headings, in the order of the
    source; the last alternative, [h[1-6]], is [heading_rx]. *)
Definition tag_names : list str :=
  [js "div"; js "span"; js "form"; js "input"; js "button"; js "select";
   js "textarea"; js "label"; js "ul"; js "ol"; js "li"; js "p"; js "br";
   js "img"; js "dl"; js "dt"; js "dd"; js "a"; js "hr"; js "header";
   js "footer"; js "section"; js "aside"; js "nav"; js "article"; js "main";
   js "figure"; js "figcaption"].

Definition heading_names : list str :=
  [js "h1"; js "h2"; js "h3"; js "h4"; js "h5"; js "h6"].

Definition heading_rx : regex :=
  RSeq (RSet false [CChar 104]) (RSeq (RSet false [CRange 49 54]) REmpty).

Definition alts (names : list str) (last : regex) : regex :=
  fold_right (fun n r => RAlt (lits n) r) last names.

Definition attrs_rx : regex :=
  RAlt (RSeq (RSet false [CSpace]) (RSeq (RStar true (RSet true [CChar 62])) REmpty))
    REmpty.

Definition not_backquote_rx : regex := RNegLook (RSeq (RSet false [CChar 96]) REmpty).

Lemma opening_tag_ast :
  re_ast rx_opening_tag
  = RSeq (RGroup 1
            (RSeq (RSet false [CChar 60])
               (RSeq (alts tag_names heading_rx)
                  (RSeq attrs_rx (RSeq (RSet false [CChar 62]) REmpty)))))
      (RSeq not_backquote_rx REmpty).
Proof. vm_compute. reflexivity. Qed.

Lemma closing_tag_ast :
  re_ast rx_closing_tag
  = RSeq (RGroup 1
            (RSeq (RSet false [CChar 60])
               (RSeq (RSet false [CChar 47])
                  (RSeq (alts tag_names heading_rx)
                     (RSeq (RSet false [CChar 62]) REmpty)))))
      (RSeq not_backquote_rx REmpty).
Proof. vm_compute. reflexivity. Qed.

(** What is left of [s] after the literal [n], in upper or lower case
    letters, if [s] begins with it. *)
Fixpoint lit_outcome (n s : str) : option str :=
  match n, s with
  | [], _ => Some s
  | p :: n', c :: s' =>
      if set_match true false [CChar p] c then lit_outcome n' s' else None
  | _ :: _, [] => None
  end.

Definition alt_ok (name n : str) : bool :=
  match lit_outcome n name with
  | Some (c :: _) => is_slug_char c
  | _ => true
  end.

Definition full (name n : str) : bool :=
  match lit_outcome n name with
  | Some [] => true
  | _ => false
  end.

Lemma lit_outcome_nil : forall n s, lit_outcome n s = Some [] -> length n = length s.
Proof.
  induction n as [|p n IH]; intros [|c s] H; cbn [lit_outcome] in H;
    try discriminate; [reflexivity|].
  destruct (set_match true false [CChar p] c); [|discriminate].
  cbn [length]. f_equal. apply IH, H.
Qed.

Lemma lower_refuses_symbol p c :
  is_lower p = true ->
  is_lower c = false -> is_upper c = false ->
  set_match true false [CChar p] c = false.
Proof.
  intros Hp Hl Hu. unfold set_match, items_mem, swap_case.
  cbn [existsb citem_mem xorb]. rewrite Hl, Hu, !orb_false_r.
  cbn [andb]. rewrite orb_diag. apply N.eqb_neq. intros ->. congruence.
Qed.

Section Alternatives.

Variables (b : bool) (K : cont) (rest : str) (stop : char).

(** What follows the name refuses a letter or a digit. *)
Hypothesis K_refuses :
  forall c s l caps, is_slug_char c = true -> K (MState (c :: s) l caps) = None.
Hypothesis stop_lower : is_lower stop = false.
Hypothesis stop_upper : is_upper stop = false.

Lemma lits_outcome : forall n,
  forallb is_lower n = true ->
  forall s l caps,
    rmatch true b (lits n) K (MState (s ++ stop :: rest) l caps)
    = match lit_outcome n s with
      | Some rem => K (MState (rem ++ stop :: rest) (l + length n) caps)
      | None => None
      end.
Proof.
  induction n as [|p n IH]; intros Hn s l caps.
  - cbn [lits fold_right rmatch lit_outcome length]. rewrite Nat.add_0_r.
    reflexivity.
  - cbn [forallb] in Hn. apply andb_true_iff in Hn as [Hp Hn].
    rewrite lits_cons, rmatch_seq. destruct s as [|c s]; cbn [app lit_outcome].
    + rewrite rmatch_set_cons,
        (lower_refuses_symbol p stop Hp stop_lower stop_upper).
      reflexivity.
    + rewrite rmatch_set_cons.
      destruct (set_match true false [CChar p] c); [|reflexivity].
      rewrite (IH Hn). cbn [length].
      replace (S l + length n)%nat with (l + S (length n))%nat by lia.
      reflexivity.
Qed.

(** The alternation of the names on a name: the alternatives that are the
    whole name go on with what follows, the others fail. *)
Lemma alts_value name last l caps : forall names,
  forallb (forallb is_lower) names = true ->
  forallb (alt_ok name) names = true ->
  rmatch true b (alts names last) K (MState (name ++ stop :: rest) l caps)
  = (if existsb (full name) names
     then K (MState (stop :: rest) (l + length name) caps) else None)
    <|> rmatch true b last K (MState (name ++ stop :: rest) l caps).
Proof.
  induction names as [|n names IH]; intros Hl Hok; [reflexivity|].
  cbn [forallb] in Hl, Hok. apply andb_true_iff in Hl as [Hn Hl].
  apply andb_true_iff in Hok as [Hok1 Hok].
  cbn [alts fold_right existsb]. fold (alts names last).
  rewrite rmatch_alt, (lits_outcome n Hn), (IH Hl Hok). clear IH.
  unfold alt_ok in Hok1.
  assert (Hfull : full name n
                  = match lit_outcome n name with Some [] => true | _ => false end)
    by reflexivity.
  rewrite Hfull. clear Hfull.
  destruct (lit_outcome n name) as [[|c rem]|] eqn:E.
  - rewrite (lit_outcome_nil n name E). cbn [app orb].
    destruct (K (MState (stop :: rest) (l + length name) caps));
      destruct (existsb (full name) names); reflexivity.
  - cbn [app orb]. rewrite (K_refuses c _ _ _ Hok1). reflexivity.
  - cbn [orb]. reflexivity.
Qed.

End Alternatives.

Definition all_tag_names : list str := tag_names ++ heading_names.

Definition opening_tag (name attrs : str) : str :=
  js "<" ++ name ++ attrs ++ js ">".

Definition closing_tag (name : str) : str := js "</" ++ name ++ js ">".

Definition backquoted (t : str) : str := js "`" ++ t ++ js "`".

(** No attribute, or a space and then attributes without [>], [<] and
    backquote. *)
Definition attrs_ok (attrs : str) : bool :=
  match attrs with
  | [] => true
  | c :: a => (c =? 32) && no_char 62 a && no_char 60 a && no_char 96 a
  end.

Lemma slug_char_not_space c :
  is_slug_char c = true -> set_match true false [CSpace] c = false.
Proof.
  unfold is_slug_char, is_lower, is_digit. intros H.
  assert (B : 48 <= c <= 122).
  { apply orb_true_iff in H as [H|H]; apply andb_true_iff in H as [H1 H2];
      apply N.leb_le in H1, H2; lia. }
  assert (S1 : forall x, 33 <= x <= 122 -> is_space x = false).
  { intros x Hx. unfold is_space.
    repeat match goal with
           | |- _ || _ = false => apply orb_false_iff; split
           | |- _ && _ = false => apply andb_false_iff
           end;
      try (apply N.eqb_neq; lia);
      try (right; apply N.leb_gt; lia); try (left; apply N.leb_gt; lia). }
  unfold set_match, items_mem, swap_case. cbn [existsb citem_mem xorb].
  rewrite !orb_false_r, (S1 c) by lia. cbn [orb andb].
  unfold is_upper, is_lower.
  destruct ((65 <=? c) && (c <=? 90)) eqn:U.
  - apply andb_true_iff in U as [U1 U2]. apply N.leb_le in U1, U2.
    apply S1. lia.
  - destruct ((97 <=? c) && (c <=? 122)) eqn:L.
    + apply andb_true_iff in L as [L1 L2]. apply N.leb_le in L1, L2.
      apply S1. lia.
    + apply S1. lia.
Qed.

Lemma slug_char_not_gt c :
  is_slug_char c = true -> set_match true false [CChar 62] c = false.
Proof.
  intros H. rewrite set_match_symbol by reflexivity. apply N.eqb_neq.
  intros ->. discriminate.
Qed.

Lemma open_refuses b k c s l caps :
  is_slug_char c = true ->
  rmatch true b (RSeq attrs_rx (RSeq (RSet false [CChar 62]) REmpty)) k
    (MState (c :: s) l caps) = None.
Proof.
  intros H. unfold attrs_rx. rewrite rmatch_seq, rmatch_alt.
  rewrite rmatch_seq, rmatch_set_cons, (slug_char_not_space c H).
  rewrite rmatch_empty, rmatch_seq, rmatch_set_cons, (slug_char_not_gt c H).
  reflexivity.
Qed.

Lemma close_refuses b k c s l caps :
  is_slug_char c = true ->
  rmatch true b (RSeq (RSet false [CChar 62]) REmpty) k (MState (c :: s) l caps)
  = None.
Proof.
  intros H. rewrite rmatch_seq, rmatch_set_cons, (slug_char_not_gt c H).
  reflexivity.
Qed.

(** The alternation of the names on one of the names. *)
Lemma names_value b K rest stop name l caps :
  (forall c s l' caps', is_slug_char c = true ->
     K (MState (c :: s) l' caps') = None) ->
  is_lower stop = false -> is_upper stop = false ->
  (49 <=? stop) && (stop <=? 54) = false ->
  In name all_tag_names ->
  rmatch true b (alts tag_names heading_rx) K (MState (name ++ stop :: rest) l caps)
  = K (MState (stop :: rest) (l + length name) caps).
Proof.
  intros HK Hl Hu Hd Hin.
  assert (Hstop : set_match true false [CRange 49 54] stop = false).
  { unfold set_match, items_mem, swap_case. cbn [existsb citem_mem xorb].
    rewrite Hl, Hu, !orb_false_r, Hd. reflexivity. }
  assert (Hh : set_match true false [CChar 104] stop = false)
    by (apply lower_refuses_symbol; [reflexivity|exact Hl|exact Hu]).
  rewrite (alts_value b K rest stop HK Hl Hu name heading_rx l caps tag_names);
    [|reflexivity|].
  - unfold all_tag_names, tag_names, heading_names in Hin. cbn [app] in Hin.
    repeat (destruct Hin as [<- | Hin];
            [ match goal with
              | |- context [existsb (full ?n) ?ns] =>
                  let v := eval vm_compute in (existsb (full n) ns) in
                  change (existsb (full n) ns) with v; cbv iota
              end;
              match goal with
              | |- context [rmatch true b heading_rx K ?st] =>
                  let E := fresh "E" in
                  first
                    [ assert (E : rmatch true b heading_rx K st = None)
                        by (unfold heading_rx; norm_js; repeat lit_step;
                            reflexivity)
                    | assert (E : rmatch true b heading_rx K st
                                  = K (MState (stop :: rest) (l + 2) caps))
                        by (unfold heading_rx; norm_js; repeat lit_step;
                            rewrite rmatch_empty; do 2 f_equal; lia) ];
                  rewrite E
              end;
              norm_js; cbn [length];
              destruct (K (MState (stop :: rest) _ caps)); reflexivity
            | ]).
    destruct Hin.
  - unfold all_tag_names, tag_names, heading_names in Hin. cbn [app] in Hin.
    repeat (destruct Hin as [<- | Hin]; [vm_compute; reflexivity|]).
    destruct Hin.
Qed.

Lemma look_ok b k post l caps :
  starts_with (js "`") post = false ->
  rmatch true b (RSeq not_backquote_rx REmpty) k (MState post l caps)
  = k (MState post l caps).
Proof.
  intros H. unfold not_backquote_rx. rewrite rmatch_seq. cbn [rmatch].
  destruct post as [|c post]; cbn [ms_rest]; [reflexivity|].
  change (js "`") with [96] in H. cbn [starts_with] in H.
  rewrite andb_true_r in H. rewrite set_match_symbol by reflexivity.
  rewrite H. reflexivity.
Qed.

Lemma look_fails b k post l caps :
  rmatch true b (RSeq not_backquote_rx REmpty) k (MState (96 :: post) l caps)
  = None.
Proof. reflexivity. Qed.

(** The attributes and the end of an opening tag. *)
Lemma open_tail b k attrs post l caps :
  attrs_ok attrs = true ->
  rmatch true b (RSeq attrs_rx (RSeq (RSet false [CChar 62]) REmpty)) k
    (MState (attrs ++ 62 :: post) l caps)
  = k (MState post (l + length attrs + 1) caps).
Proof.
  intros H. unfold attrs_rx. rewrite rmatch_seq, rmatch_alt.
  destruct attrs as [|c a]; cbn [app length].
  - rewrite rmatch_seq, rmatch_set_cons.
    change (set_match true false [CSpace] 62) with false. cbv iota.
    rewrite rmatch_empty, rmatch_seq, rmatch_set_cons.
    change (set_match true false [CChar 62] 62) with true. cbv iota.
    rewrite rmatch_empty. do 2 f_equal. lia.
  - cbn [attrs_ok] in H. apply andb_true_iff in H as [H _].
    apply andb_true_iff in H as [H _]. apply andb_true_iff in H as [Hc Ha].
    apply N.eqb_eq in Hc. subst c.
    rewrite rmatch_seq, rmatch_set_cons.
    change (set_match true false [CSpace] 32) with true. cbv iota.
    rewrite rmatch_seq, star_end.
    + rewrite !rmatch_empty, rmatch_seq, rmatch_set_cons.
      change (set_match true false [CChar 62] 62) with true. cbv iota.
      rewrite rmatch_empty, rmatch_seq, rmatch_set_cons.
      change (set_match true false [CChar 62] 32) with false. cbv iota.
      replace (S l + length a + 1)%nat with (l + S (length a) + 1)%nat by lia.
      replace (S (S l + length a))%nat with (l + S (length a) + 1)%nat by lia.
      destruct (k _); reflexivity.
    + apply no_char_neg_set; [reflexivity|reflexivity|exact Ha].
    + reflexivity.
    + intros r1 r2 E Hne. rewrite rmatch_empty.
      apply (lit_guard true b 62 _ _ a _
               (no_char_neg_set true 62 a eq_refl eq_refl Ha) r1 r2 _ _ E Hne).
Qed.

Lemma stop_of_attrs attrs post :
  attrs_ok attrs = true ->
  exists stop rest,
    attrs ++ 62 :: post = stop :: rest
    /\ is_lower stop = false /\ is_upper stop = false
    /\ (49 <=? stop) && (stop <=? 54) = false.
Proof.
  intros H. destruct attrs as [|c a].
  - exists 62, post. repeat split.
  - cbn [attrs_ok] in H. apply andb_true_iff in H as [H _].
    apply andb_true_iff in H as [H _]. apply andb_true_iff in H as [Hc _].
    apply N.eqb_eq in Hc. subst c. exists 32, (a ++ 62 :: post). repeat split.
Qed.

Lemma opening_run name attrs post b :
  In name all_tag_names -> attrs_ok attrs = true ->
  rmatch true b (re_ast rx_opening_tag) Some
    (MState (opening_tag name attrs ++ post) 0 [])
  = rmatch true b (RSeq not_backquote_rx REmpty) Some
      (MState post (length (opening_tag name attrs)) [(1%nat, opening_tag name attrs)]).
Proof.
  intros Hin Ha. rewrite opening_tag_ast. unfold opening_tag.
  change (js "<") with [60]. change (js ">") with [62].
  rewrite <- !app_assoc. cbn [app].
  rewrite rmatch_seq, rmatch_group, rmatch_seq, rmatch_set_cons.
  change (set_match true false [CChar 60] 60) with true. cbv iota.
  rewrite rmatch_seq.
  destruct (stop_of_attrs attrs post Ha) as (stop & rest & E & Hl & Hu & Hd).
  rewrite E.
  rewrite (names_value b _ rest stop name _ _
             (fun c s l' caps' => open_refuses b _ c s l' caps') Hl Hu Hd Hin).
  rewrite <- E, (open_tail b _ attrs post _ _ Ha).
  cbv beta. unfold set_cap. cbn [ms_rest ms_len ms_caps].
  assert (L : (S 0 + length name + length attrs + 1 - 0)%nat
              = length (60 :: name ++ attrs ++ [62]))
    by (cbn [length]; rewrite !length_app; cbn [length]; lia).
  rewrite L.
  replace (60 :: name ++ attrs ++ 62 :: post)
    with ((60 :: name ++ attrs ++ [62]) ++ post)
    by (cbn [app]; rewrite <- !app_assoc; reflexivity).
  rewrite firstn_app, firstn_all, Nat.sub_diag. cbn [firstn].
  rewrite app_nil_r. do 2 f_equal.
  cbn [length]. rewrite !length_app. cbn [length]. lia.
Qed.

Lemma closing_run name post b :
  In name all_tag_names ->
  rmatch true b (re_ast rx_closing_tag) Some
    (MState (closing_tag name ++ post) 0 [])
  = rmatch true b (RSeq not_backquote_rx REmpty) Some
      (MState post (length (closing_tag name)) [(1%nat, closing_tag name)]).
Proof.
  intros Hin. rewrite closing_tag_ast. unfold closing_tag.
  change (js "</") with [60; 47]. change (js ">") with [62].
  rewrite <- !app_assoc. cbn [app].
  rewrite rmatch_seq, rmatch_group, rmatch_seq, rmatch_set_cons.
  change (set_match true false [CChar 60] 60) with true. cbv iota.
  rewrite rmatch_seq, rmatch_set_cons.
  change (set_match true false [CChar 47] 47) with true. cbv iota.
  rewrite rmatch_seq.
  rewrite (names_value b _ post 62 name _ _
             (fun c s l' caps' => close_refuses b _ c s l' caps')
             eq_refl eq_refl eq_refl Hin).
  rewrite rmatch_seq, rmatch_set_cons.
  change (set_match true false [CChar 62] 62) with true. cbv iota.
  rewrite rmatch_empty. cbv beta. unfold set_cap. cbn [ms_rest ms_len ms_caps].
  assert (L : (S (2 + length name) - 0)%nat = length (60 :: 47 :: name ++ [62]))
    by (cbn [length]; rewrite !length_app; cbn [length]; lia).
  rewrite L.
  replace (60 :: 47 :: name ++ 62 :: post)
    with ((60 :: 47 :: name ++ [62]) ++ post)
    by (cbn [app]; rewrite <- !app_assoc; reflexivity).
  rewrite firstn_app, firstn_all, Nat.sub_diag. cbn [firstn].
  rewrite app_nil_r. do 2 f_equal.
  cbn [length]. rewrite !length_app. cbn [length]. lia.
Qed.

Lemma exec_at_opening name attrs post :
  In name all_tag_names -> attrs_ok attrs = true ->
  starts_with (js "`") post = false ->
  exec_at rx_opening_tag false (opening_tag name attrs ++ post)
  = Some (length (opening_tag name attrs), [Some (opening_tag name attrs)]).
Proof.
  intros Hin Ha Hp. unfold exec_at. change (re_icase rx_opening_tag) with true.
  rewrite (opening_run name attrs post false Hin Ha), look_ok by exact Hp.
  cbn [rmatch]. cbn [ms_len ms_caps]. change (re_groups rx_opening_tag) with 1%nat.
  cbn [seq map cap_lookup Nat.eqb]. reflexivity.
Qed.

Lemma exec_at_closing name post :
  In name all_tag_names -> starts_with (js "`") post = false ->
  exec_at rx_closing_tag false (closing_tag name ++ post)
  = Some (length (closing_tag name), [Some (closing_tag name)]).
Proof.
  intros Hin Hp. unfold exec_at. change (re_icase rx_closing_tag) with true.
  rewrite (closing_run name post false Hin), look_ok by exact Hp.
  cbn [rmatch]. cbn [ms_len ms_caps]. change (re_groups rx_closing_tag) with 1%nat.
  cbn [seq map cap_lookup Nat.eqb]. reflexivity.
Qed.

(** A tag before a backquote is refused: the lookahead [(?!`)]. *)
Lemma opening_wrapped_refused name attrs post b :
  In name all_tag_names -> attrs_ok attrs = true ->
  exec_at rx_opening_tag b (opening_tag name attrs ++ 96 :: post) = None.
Proof.
  intros Hin Ha. apply exec_at_none. change (re_icase rx_opening_tag) with true.
  rewrite (opening_run name attrs (96 :: post) b Hin Ha). apply look_fails.
Qed.

Lemma closing_wrapped_refused name post b :
  In name all_tag_names ->
  exec_at rx_closing_tag b (closing_tag name ++ 96 :: post) = None.
Proof.
  intros Hin. apply exec_at_none. change (re_icase rx_closing_tag) with true.
  rewrite (closing_run name (96 :: post) b Hin). apply look_fails.
Qed.

Lemma backquote_template m whole pos x :
  get_substitution m whole pos [Some x] (js "`$1`") = js "`" ++ x ++ js "`".
Proof. vm_compute. reflexivity. Qed.

(** What the rules led by [<] see of a tag: its first characters. *)
Definition tag_head_checks (name : str) : bool :=
  all_decided false (lead_sets (re_ast rx_component)) (js "<" ++ name)
  && all_decided false (lead_sets (re_ast rx_component)) (js "</" ++ name)
  && all_decided true (lead_sets (re_ast rx_table)) (js "<" ++ name)
  && all_decided true (lead_sets (re_ast rx_table)) (js "</" ++ name)
  && all_decided true (lead_sets (re_ast rx_closing_tag)) (js "<" ++ name)
  && all_decided true (lead_sets (re_ast rx_opening_tag)) (js "</" ++ name)
  && no_char 96 name && no_char 60 name.

Lemma tag_heads name : In name all_tag_names -> tag_head_checks name = true.
Proof.
  intros Hin. unfold all_tag_names, tag_names, heading_names in Hin.
  cbn [app] in Hin.
  repeat (destruct Hin as [<- | Hin]; [vm_compute; reflexivity|]).
  destruct Hin.
Qed.

Lemma str_eqb_length a b : length a <> length b -> str_eqb a b = false.
Proof. intros H. apply str_eqb_neq. intros ->. apply H. reflexivity. Qed.

Lemma occurs_plain x pat s :
  no_char x s = true -> occurs (x :: pat) s = false.
Proof.
  induction s as [|c s IH]; intros H; [reflexivity|].
  rewrite no_char_cons in H. apply andb_true_iff in H as [Hc H].
  apply negb_true_iff in Hc. cbn [occurs starts_with]. rewrite Hc, (IH H).
  reflexivity.
Qed.

(** Backquotes that stand apart make no fence. *)
Lemma ticks_apart c : forall a b,
  no_char 96 a = true -> no_char 96 b = true -> no_char 96 c = true -> b <> [] ->
  occurs (js "```") (a ++ 96 :: b ++ 96 :: c) = false.
Proof.
  intros a b Ha Hb Hc Hne. change (js "```") with [96; 96; 96].
  assert (T : occurs [96; 96; 96] (96 :: c) = false).
  { cbn [occurs starts_with]. rewrite N.eqb_refl.
    rewrite (occurs_plain 96 [96; 96] c Hc).
    destruct c as [|x c]; [reflexivity|].
    rewrite no_char_cons in Hc. apply andb_true_iff in Hc as [Hx _].
    apply negb_true_iff in Hx. rewrite Hx. reflexivity. }
  assert (B : forall b', no_char 96 b' = true ->
                occurs [96; 96; 96] (b' ++ 96 :: c) = false).
  { induction b' as [|y b' IH]; intros Hb'; [exact T|].
    rewrite no_char_cons in Hb'. apply andb_true_iff in Hb' as [Hy Hb'].
    apply negb_true_iff in Hy. cbn [app occurs starts_with].
    rewrite Hy, (IH Hb'). reflexivity. }
  induction a as [|x a IH].
  - cbn [app occurs starts_with]. rewrite N.eqb_refl, (B b Hb).
    destruct b as [|y b]; [congruence|].
    rewrite no_char_cons in Hb. apply andb_true_iff in Hb as [Hy _].
    apply negb_true_iff in Hy. cbn [app]. rewrite Hy. reflexivity.
  - rewrite no_char_cons in Ha. apply andb_true_iff in Ha as [Hx Ha].
    apply negb_true_iff in Hx. cbn [app occurs starts_with].
    rewrite Hx, (IH Ha). reflexivity.
Qed.

Lemma fence_silent_plain s : no_char 96 s = true -> no_match_in rx_code_fence s.
Proof.
  intros H.
  apply (absent_literal_no_match rx_code_fence (js "```")
           (RSeq (RStar false (RSet false [CSpace; CNonSpace]))
              (lits (js "```"))));
    [reflexivity|reflexivity|].
  apply occurs_plain, H.
Qed.

Lemma fence_silent_wrapped a b c :
  no_char 96 a = true -> no_char 96 b = true -> no_char 96 c = true -> b <> [] ->
  no_match_in rx_code_fence (a ++ backquoted b ++ c).
Proof.
  intros Ha Hb Hc Hne.
  apply (absent_literal_no_match rx_code_fence (js "```")
           (RSeq (RStar false (RSet false [CSpace; CNonSpace]))
              (lits (js "```"))));
    [reflexivity|reflexivity|].
  unfold backquoted. change (js "`") with [96].
  rewrite <- !app_assoc. cbn [app]. apply ticks_apart; assumption.
Qed.

(** Where the three earlier steps find nothing, the escaping passes alone
    act. *)
Lemma protect_plain doc :
  no_match_in rx_component doc -> no_match_in rx_code_fence doc ->
  no_match_in rx_table doc ->
  protect_text doc = escape_passes 3 doc.
Proof.
  intros H1 H2 H3. unfold protect_text, escape_components.
  rewrite (replace_all_tpl_no_match rx_component _ doc H1).
  rewrite (extract_none rx_code_fence _ doc H2).
  rewrite (extract_none rx_table _ doc H3).
  reflexivity.
Qed.

Lemma passes_fixed doc n :
  no_match_in rx_opening_tag doc -> no_match_in rx_closing_tag doc ->
  escape_passes n doc = doc.
Proof.
  intros H1 H2. destruct n as [|n]; [reflexivity|]. cbn [escape_passes].
  unfold escapeOpeningTags, escapeClosingTags.
  rewrite (replace_all_tpl_no_match rx_opening_tag _ doc H1).
  rewrite (replace_all_tpl_no_match rx_closing_tag _ doc H2).
  rewrite str_eqb_refl. reflexivity.
Qed.

(** A rule led by [<] is silent on a tag whose first characters decide
    against it, between texts without [<]. *)
Lemma led_silent rx pre q head tail post :
  led_by_lt rx ->
  all_decided (re_icase rx) (lead_sets (re_ast rx)) head = true ->
  no_char 60 pre = true -> no_char 60 q = true -> no_char 60 tail = true ->
  no_char 60 post = true ->
  no_match_in rx (pre ++ q ++ (head ++ tail) ++ q ++ post).
Proof.
  intros Hrx Hh Hpre Hq Ht Hpost. apply led_by_lt_no_match; [exact Hrx|].
  rewrite <- !app_assoc.
  repeat apply all_decided_app; try exact Hh;
    apply no_lt_all_decided; assumption.
Qed.

(** A rule led by [<] is silent on a wrapped tag that it refuses. *)
Lemma wrapped_silent rx pre t post :
  led_by_lt rx ->
  no_char 60 pre = true -> no_char 60 t = true -> no_char 60 post = true ->
  (forall b, exec_at rx b ((60 :: t) ++ 96 :: post) = None) ->
  no_match_in rx (pre ++ backquoted (60 :: t) ++ post).
Proof.
  intros Hrx Hpre Ht Hpost Hex. unfold backquoted. change (js "`") with [96].
  replace (pre ++ ([96] ++ (60 :: t) ++ [96]) ++ post)
    with ((pre ++ [96]) ++ [60] ++ t ++ 96 :: post)
    by (repeat first [rewrite <- app_assoc | progress cbn [app]]; reflexivity).
  apply no_match_in_app.
  - apply no_lt_prefix; [exact Hrx|]. rewrite no_char_app, Hpre. reflexivity.
  - apply no_match_in_app.
    + intros b p1 p2 E Hne.
      assert (p2 = [60]) as ->.
      { destruct p1 as [|x p1]; [symmetry; exact E|].
        destruct p1; destruct p2; try discriminate; congruence. }
      apply Hex.
    + apply no_lt_silent; [exact Hrx|].
      rewrite no_char_app, Ht, no_char_cons, Hpost. reflexivity.
Qed.

Lemma escape_passes_step n markdown :
  escape_passes (S n) markdown
  = if str_eqb (escapeClosingTags (escapeOpeningTags markdown)) markdown
    then escapeClosingTags (escapeOpeningTags markdown)
    else escape_passes n (escapeClosingTags (escapeOpeningTags markdown)).
Proof. reflexivity. Qed.

Section TagEscaping.

Variables pre post name : str.

Hypothesis pre_plain : no_char 60 pre = true.
Hypothesis pre_ticks : no_char 96 pre = true.
Hypothesis post_plain : no_char 60 post = true.
Hypothesis post_ticks : no_char 96 post = true.
Hypothesis name_known : In name all_tag_names.

Lemma post_start : starts_with (js "`") post = false.
Proof.
  destruct post as [|c p]; [reflexivity|].
  pose proof post_ticks as H. rewrite no_char_cons in H.
  apply andb_true_iff in H as [H _]. apply negb_true_iff in H.
  change (js "`") with [96]. cbn [starts_with]. rewrite H. reflexivity.
Qed.

Lemma name_facts :
  all_decided false (lead_sets (re_ast rx_component)) (js "<" ++ name) = true
  /\ all_decided false (lead_sets (re_ast rx_component)) (js "</" ++ name) = true
  /\ all_decided true (lead_sets (re_ast rx_table)) (js "<" ++ name) = true
  /\ all_decided true (lead_sets (re_ast rx_table)) (js "</" ++ name) = true
  /\ all_decided true (lead_sets (re_ast rx_closing_tag)) (js "<" ++ name) = true
  /\ all_decided true (lead_sets (re_ast rx_opening_tag)) (js "</" ++ name) = true
  /\ no_char 96 name = true /\ no_char 60 name = true.
Proof.
  pose proof (tag_heads name name_known) as H. unfold tag_head_checks in H.
  repeat match type of H with
         | _ && _ = true => apply andb_true_iff in H as [H ?]
         end.
  repeat split; assumption.
Qed.

Section Opening.

Variable attrs : str.
Hypothesis attrs_given : attrs_ok attrs = true.

Let t := opening_tag name attrs.

Lemma attrs_facts : no_char 60 attrs = true /\ no_char 96 attrs = true.
Proof.
  pose proof attrs_given as H. destruct attrs as [|c a]; [split; reflexivity|].
  cbn [attrs_ok] in H. apply andb_true_iff in H as [H H3].
  apply andb_true_iff in H as [H H2]. apply andb_true_iff in H as [Hc _].
  apply N.eqb_eq in Hc. subst c. rewrite !no_char_cons, H2, H3. split; reflexivity.
Qed.

Lemma opening_shape q :
  pre ++ q ++ t ++ q ++ post
  = pre ++ q ++ ((js "<" ++ name) ++ (attrs ++ js ">")) ++ q ++ post.
Proof. unfold t, opening_tag. rewrite <- !app_assoc. reflexivity. Qed.

Lemma opening_led_silent rx q :
  led_by_lt rx ->
  all_decided (re_icase rx) (lead_sets (re_ast rx)) (js "<" ++ name) = true ->
  no_char 60 q = true ->
  no_match_in rx (pre ++ q ++ t ++ q ++ post).
Proof.
  intros Hrx Hh Hq. rewrite opening_shape.
  apply led_silent; try assumption.
  destruct attrs_facts as [Ha _]. rewrite no_char_app, Ha. reflexivity.
Qed.

Lemma opening_ticks : no_char 96 t = true.
Proof.
  unfold t, opening_tag. destruct attrs_facts as [_ Ha].
  destruct name_facts as (_ & _ & _ & _ & _ & _ & Hn & _).
  rewrite !no_char_app, Hn, Ha. reflexivity.
Qed.

Lemma protect_opening :
  protect_text (pre ++ t ++ post) = pre ++ backquoted t ++ post.
Proof.
  destruct name_facts as (C1 & _ & T1 & _ & L1 & _ & Hn & Hn').
  destruct attrs_facts as [Ha Ha'].
  assert (Hd2 : pre ++ backquoted t ++ post = pre ++ js "`" ++ t ++ js "`" ++ post)
    by (unfold backquoted; rewrite <- !app_assoc; reflexivity).
  rewrite protect_plain.
  - assert (E1 : escapeOpeningTags (pre ++ t ++ post) = pre ++ backquoted t ++ post).
    { unfold escapeOpeningTags.
      rewrite (replace_all_tpl_one_match rx_opening_tag _ pre t post [Some t]).
      - rewrite backquote_template. reflexivity.
      - reflexivity.
      - unfold t, opening_tag. discriminate.
      - apply no_lt_prefix; [apply opening_tag_led|exact pre_plain].
      - apply exec_at_opening; [exact name_known|exact attrs_given|apply post_start].
      - apply no_lt_silent; [apply opening_tag_led|exact post_plain]. }
    assert (E2 : escapeClosingTags (pre ++ backquoted t ++ post)
                 = pre ++ backquoted t ++ post).
    { unfold escapeClosingTags. apply replace_all_tpl_no_match.
      rewrite Hd2. apply opening_led_silent;
        [apply closing_tag_led|exact L1|reflexivity]. }
    rewrite escape_passes_step, E1, E2, str_eqb_length.
    + apply passes_fixed.
      * unfold t, opening_tag. change (js "<") with [60]. cbn [app].
        apply wrapped_silent; [apply opening_tag_led|exact pre_plain| |exact post_plain|].
        -- rewrite !no_char_app, Hn', Ha. reflexivity.
        -- intros b.
           exact (opening_wrapped_refused name attrs post b name_known attrs_given).
      * rewrite Hd2. apply opening_led_silent;
          [apply closing_tag_led|exact L1|reflexivity].
    + unfold backquoted. change (js "`") with [96].
      rewrite !length_app. cbn [length]. lia.
  - apply (opening_led_silent rx_component []);
      [apply component_led|exact C1|reflexivity].
  - apply fence_silent_plain. rewrite !no_char_app, pre_ticks, opening_ticks, post_ticks.
    reflexivity.
  - apply (opening_led_silent rx_table []); [apply table_led|exact T1|reflexivity].
Qed.

Lemma protect_opening_again :
  protect_text (pre ++ backquoted t ++ post) = pre ++ backquoted t ++ post.
Proof.
  destruct name_facts as (C1 & _ & T1 & _ & L1 & _ & Hn & Hn').
  destruct attrs_facts as [Ha Ha'].
  assert (Hd2 : pre ++ backquoted t ++ post = pre ++ js "`" ++ t ++ js "`" ++ post)
    by (unfold backquoted; rewrite <- !app_assoc; reflexivity).
  rewrite protect_plain.
  - apply passes_fixed.
    + unfold t, opening_tag. change (js "<") with [60]. cbn [app].
      apply wrapped_silent; [apply opening_tag_led|exact pre_plain| |exact post_plain|].
      * rewrite !no_char_app, Hn', Ha. reflexivity.
      * intros b.
        exact (opening_wrapped_refused name attrs post b name_known attrs_given).
    + rewrite Hd2. apply opening_led_silent;
        [apply closing_tag_led|exact L1|reflexivity].
  - rewrite Hd2. apply opening_led_silent;
      [apply component_led|exact C1|reflexivity].
  - apply fence_silent_wrapped; [exact pre_ticks|apply opening_ticks|exact post_ticks|].
    unfold t, opening_tag. discriminate.
  - rewrite Hd2. apply opening_led_silent; [apply table_led|exact T1|reflexivity].
Qed.

End Opening.

Let t := closing_tag name.

Lemma closing_shape q :
  pre ++ q ++ t ++ q ++ post
  = pre ++ q ++ ((js "</" ++ name) ++ js ">") ++ q ++ post.
Proof. unfold t, closing_tag. rewrite <- !app_assoc. reflexivity. Qed.

Lemma closing_led_silent rx q :
  led_by_lt rx ->
  all_decided (re_icase rx) (lead_sets (re_ast rx)) (js "</" ++ name) = true ->
  no_char 60 q = true ->
  no_match_in rx (pre ++ q ++ t ++ q ++ post).
Proof.
  intros Hrx Hh Hq. rewrite closing_shape. apply led_silent; try assumption.
  reflexivity.
Qed.

Lemma closing_ticks : no_char 96 t = true.
Proof.
  unfold t, closing_tag.
  destruct name_facts as (_ & _ & _ & _ & _ & _ & Hn & _).
  rewrite !no_char_app, Hn. reflexivity.
Qed.

Lemma closing_wrapped_silent :
  no_match_in rx_closing_tag (pre ++ backquoted t ++ post).
Proof.
  destruct name_facts as (_ & _ & _ & _ & _ & _ & _ & Hn').
  unfold t, closing_tag. change (js "</") with [60; 47]. cbn [app].
  apply wrapped_silent; [apply closing_tag_led|exact pre_plain| |exact post_plain|].
  - rewrite no_char_cons, !no_char_app, Hn'. reflexivity.
  - intros b. exact (closing_wrapped_refused name post b name_known).
Qed.

Lemma protect_closing :
  protect_text (pre ++ t ++ post) = pre ++ backquoted t ++ post.
Proof.
  destruct name_facts as (_ & C2 & _ & T2 & _ & L2 & Hn & Hn').
  assert (Hd2 : pre ++ backquoted t ++ post = pre ++ js "`" ++ t ++ js "`" ++ post)
    by (unfold backquoted; rewrite <- !app_assoc; reflexivity).
  rewrite protect_plain.
  - assert (E1 : escapeOpeningTags (pre ++ t ++ post) = pre ++ t ++ post).
    { unfold escapeOpeningTags. apply replace_all_tpl_no_match.
      apply (closing_led_silent rx_opening_tag []);
        [apply opening_tag_led|exact L2|reflexivity]. }
    assert (E2 : escapeClosingTags (pre ++ t ++ post) = pre ++ backquoted t ++ post).
    { unfold escapeClosingTags.
      rewrite (replace_all_tpl_one_match rx_closing_tag _ pre t post [Some t]).
      - rewrite backquote_template. reflexivity.
      - reflexivity.
      - unfold t, closing_tag. discriminate.
      - apply no_lt_prefix; [apply closing_tag_led|exact pre_plain].
      - apply exec_at_closing; [exact name_known|apply post_start].
      - apply no_lt_silent; [apply closing_tag_led|exact post_plain]. }
    rewrite escape_passes_step, E1, E2, str_eqb_length.
    + apply passes_fixed; [|apply closing_wrapped_silent].
      rewrite Hd2. apply closing_led_silent;
        [apply opening_tag_led|exact L2|reflexivity].
    + unfold backquoted. change (js "`") with [96].
      rewrite !length_app. cbn [length]. lia.
  - apply (closing_led_silent rx_component []);
      [apply component_led|exact C2|reflexivity].
  - apply fence_silent_plain.
    rewrite !no_char_app, pre_ticks, closing_ticks, post_ticks. reflexivity.
  - apply (closing_led_silent rx_table []); [apply table_led|exact T2|reflexivity].
Qed.

Lemma protect_closing_again :
  protect_text (pre ++ backquoted t ++ post) = pre ++ backquoted t ++ post.
Proof.
  destruct name_facts as (_ & C2 & _ & T2 & _ & L2 & Hn & Hn').
  assert (Hd2 : pre ++ backquoted t ++ post = pre ++ js "`" ++ t ++ js "`" ++ post)
    by (unfold backquoted; rewrite <- !app_assoc; reflexivity).
  rewrite protect_plain.
  - apply passes_fixed; [|apply closing_wrapped_silent].
    rewrite Hd2. apply closing_led_silent;
      [apply opening_tag_led|exact L2|reflexivity].
  - rewrite Hd2. apply closing_led_silent;
      [apply component_led|exact C2|reflexivity].
  - apply fence_silent_wrapped; [exact pre_ticks|apply closing_ticks|exact post_ticks|].
    unfold t, closing_tag. discriminate.
  - rewrite Hd2. apply closing_led_silent; [apply table_led|exact T2|reflexivity].
Qed.

End TagEscaping.

(** An HTML tag of the list of the source ([div], [span], ... [h1] to
    [h6]), opening (with or without attributes) or closing, that stands in
    a text without other markup and without backquotes is put between
    backquotes; and a tag so wrapped is left as it is by a second run: the
    lookahead of the two tag rules keeps the wrapping from being repeated. *)
Theorem html_tag_wrapped_once :
  forall pre post name,
    no_char 60 pre = true -> no_char 96 pre = true ->
    no_char 60 post = true -> no_char 96 post = true ->
    In name all_tag_names ->
    (forall attrs,
        attrs_ok attrs = true ->
        protect_text (pre ++ opening_tag name attrs ++ post)
        = pre ++ backquoted (opening_tag name attrs) ++ post
        /\ protect_text (pre ++ backquoted (opening_tag name attrs) ++ post)
           = pre ++ backquoted (opening_tag name attrs) ++ post)
    /\ protect_text (pre ++ closing_tag name ++ post)
       = pre ++ backquoted (closing_tag name) ++ post
    /\ protect_text (pre ++ backquoted (closing_tag name) ++ post)
       = pre ++ backquoted (closing_tag name) ++ post.
Proof.
  intros pre post name Hpre Hpre' Hpost Hpost' Hin. split; [|split].
  - intros attrs Ha. split.
    + apply protect_opening; assumption.
    + apply protect_opening_again; assumption.
  - apply protect_closing; assumption.
  - apply protect_closing_again; assumption.
Qed.

Lemma html_tag_wrapped_once_witness :
  protect_text (js "Use " ++ opening_tag (js "div") (js " class=~box~") ++ js " here")
  = js "Use `<div class=~box~>` here"
  /\ protect_text (js "Use `<div class=~box~>` here")
     = js "Use `<div class=~box~>` here"
  /\ protect_text (js "Use " ++ closing_tag (js "div") ++ js " here")
     = js "Use `</div>` here".
Proof.
  pose proof (html_tag_wrapped_once (js "Use ") (js " here") (js "div")
                eq_refl eq_refl eq_refl eq_refl (or_introl eq_refl))
    as (H1 & H2 & _).
  destruct (H1 (js " class=~box~") eq_refl) as [H1a H1b].
  split; [exact H1a|split; [exact H1b|exact H2]].
Defined.

(** ** The links to attachments ([convertToMarkdown]) *)

(** [.] without the [s] flag: every code unit but the line terminators. *)
Definition any_but_newline : regex :=
  RSet true [CChar 10; CChar 13; CChar 8232; CChar 8233].

Definition is_line_end (c : char) : bool :=
  (c =? 10) || (c =? 13) || (c =? 8232) || (c =? 8233).

(** [new RegExp(`/wiki/download/.*?/${escapeRegex(att.original)}`, 'g')]:
    the fixed part, which the parser of the literals does not read for its
    [.], is given as its tree; the escaped name goes through the parser. *)
Definition confluencePattern (original : str) : regexp :=
  Regexp
    (lits_then (js "/wiki/download/")
       (RSeq (RStar false any_but_newline)
          (RSeq (RSet false [CChar 47])
             (re_ast (regexp_of false (escapeRegex original))))))
    0 false.

(** Fix attachment links *)
Definition fix_attachment_links (attachments : list attachment) (markdown : str)
    : str :=
  fold_left
    (fun markdown att =>
       replace_all_tpl (confluencePattern (att_original att)) (att_path att)
         markdown)
    attachments markdown.

Definition download_url (mid original : str) : str :=
  js "/wiki/download/" ++ mid ++ js "/" ++ original.

Lemma line_end_set c :
  set_match false true [CChar 10; CChar 13; CChar 8232; CChar 8233] c
  = negb (is_line_end c).
Proof.
  unfold set_match, items_mem, is_line_end. cbn [existsb citem_mem andb xorb].
  rewrite !orb_false_r, !orb_assoc. reflexivity.
Qed.

Lemma char_set x c : set_match false false [CChar x] c = (c =? x).
Proof.
  unfold set_match, items_mem. cbn [existsb citem_mem andb xorb].
  rewrite !orb_false_r. reflexivity.
Qed.

(** Two characters decide against an expression that begins with them. *)
Lemma pair_decided x y sets : forall s rest z,
  occurs [x; y] s = false -> (z =? y) = false -> s <> [] ->
  decided_fail false ((false, [CChar x]) :: (false, [CChar y]) :: sets)
    (s ++ z :: rest) = true.
Proof.
  intros [|c s] rest z H Hz Hne; [congruence|]. cbn [occurs starts_with] in H.
  apply orb_false_iff in H as [H _]. cbn [app decided_fail].
  rewrite !char_set. destruct (c =? x); [|reflexivity]. cbn [andb] in H.
  destruct s as [|c2 s]; cbn [app]; rewrite char_set.
  - rewrite Hz. reflexivity.
  - rewrite andb_true_r in H. rewrite H. reflexivity.
Qed.

Lemma confluencePattern_ast original :
  re_ast (confluencePattern original)
  = lits_then (js "/wiki/download/")
      (RSeq (RStar false any_but_newline)
         (RSeq (RSet false [CChar 47]) (lits original))).
Proof.
  unfold confluencePattern. rewrite regexp_of_escaped. reflexivity.
Qed.

Lemma lits_lead c s : lead_sets (lits (c :: s)) = (false, [CChar c]) :: lead_sets (lits s).
Proof. reflexivity. Qed.

Lemma exec_at_download mid n0 original post :
  forallb (fun c => negb (is_line_end c)) mid = true ->
  occurs [47; n0] mid = false -> (47 =? n0) = false ->
  exec_at (confluencePattern (n0 :: original)) false
    (download_url mid (n0 :: original) ++ post)
  = Some (length (download_url mid (n0 :: original)), []).
Proof.
  intros Hmid Hocc Hn. unfold download_url. rewrite <- !app_assoc.
  eapply exec_at_result.
  - rewrite confluencePattern_ast. cbn [re_icase confluencePattern].
    unfold lits_then. norm_js. cbn [fold_right].
    repeat lit_step.
    apply (lazy_skip_to false false true
             [CChar 10; CChar 13; CChar 8232; CChar 8233]).
    + rewrite forallb_forall in Hmid. apply forallb_forall. intros c Hc.
      rewrite line_end_set. apply Hmid, Hc.
    + intros a1 a2 E Hne. subst mid. apply occurs_app_r in Hocc.
      cbn [lead_sets exact_sets app]. rewrite lits_lead.
      apply pair_decided; assumption.
    + lit_step. change (n0 :: original ++ post) with ((n0 :: original) ++ post).
      rewrite rmatch_lits_exact, starts_with_app. reflexivity.
  - cbn [ms_len]. norm_js. cbn [length]. rewrite !length_app. cbn [length]. lia.
  - reflexivity.
Qed.

Lemma no_bol_lits_then pat r : no_bol (lits_then pat r) = no_bol r.
Proof. induction pat as [|c pat IH]; [reflexivity|exact IH]. Qed.

Lemma no_bol_lits s : no_bol (lits s) = true.
Proof. induction s as [|c s IH]; [reflexivity|exact IH]. Qed.

Lemma confluencePattern_no_bol original :
  no_bol (re_ast (confluencePattern original)) = true.
Proof.
  rewrite confluencePattern_ast, no_bol_lits_then. cbn [no_bol any_but_newline].
  apply no_bol_lits.
Qed.

(** A link to an attachment under [/wiki/download/] becomes the path of the
    attachment: the expression built from the file name finds the name as it
    is written, whatever characters it holds, and the link up to the end of
    the name is replaced by the recorded path; the text around it is kept
    (a query string after the name included). *)
Theorem attachment_link_rewritten :
  forall att pre mid post n0 original,
    att_original att = n0 :: original -> (47 =? n0) = false ->
    occurs (js "/w") pre = false ->
    forallb (fun c => negb (is_line_end c)) mid = true ->
    occurs [47; n0] mid = false ->
    occurs (js "/wiki/download/") post = false ->
    no_char 36 (att_path att) = true ->
    fix_attachment_links [att]
      (pre ++ download_url mid (att_original att) ++ post)
    = pre ++ att_path att ++ post.
Proof.
  intros att pre mid post n0 original Ho Hn Hpre Hmid Hocc Hpost Hpath.
  cbn [fix_attachment_links fold_left]. rewrite Ho.
  rewrite (replace_all_tpl_one_match (confluencePattern (n0 :: original)) _ pre
             (download_url mid (n0 :: original)) post []).
  - rewrite get_substitution_plain by exact Hpath. reflexivity.
  - apply confluencePattern_no_bol.
  - unfold download_url. discriminate.
  - intros b p1 p2 E Hne. unfold exec_at. rewrite lead_sets_sound; [reflexivity|].
    rewrite confluencePattern_ast. cbn [ms_rest]. subst pre.
    apply occurs_app_r in Hpre. unfold download_url.
    change (js "/wiki/download/") with (47 :: js "wiki/download/").
    change (js "/w") with [47; 119] in Hpre.
    cbn [lits_then fold_right lead_sets exact_sets app].
    rewrite <- !app_assoc. cbn [app].
    apply pair_decided; [exact Hpre|reflexivity|exact Hne].
  - apply exec_at_download; assumption.
  - apply (absent_literal_no_match _ (js "/wiki/download/")
             (RSeq (RStar false any_but_newline)
                (RSeq (RSet false [CChar 47]) (lits (n0 :: original)))));
      [reflexivity|apply confluencePattern_ast|exact Hpost].
Qed.

Lemma attachment_link_rewritten_witness :
  fix_attachment_links
    [downloaded_file (js "my-page") (js "plan (v1.0).png") None]
    (js "![plan](" ++ download_url (js "attachments/123") (js "plan (v1.0).png")
       ++ js "?version=1)")
  = js "![plan](./attachments/my-page/plan_(v1.0).png?version=1)".
Proof.
  apply (attachment_link_rewritten
           (downloaded_file (js "my-page") (js "plan (v1.0).png") None)
           (js "![plan](") (js "attachments/123") (js "?version=1)")
           112 (js "lan (v1.0).png"));
    reflexivity.
Defined.

(** ** The configuration ([constructor], [validateConfig]) *)

(** The options object and the environment, for the keys the constructor
    reads; a value is a string or is absent. *)
Record options : Type := Options {
  opt_confluenceUrl : option str;
  opt_spaceKey : option str;
  opt_rootPageId : option str;
  opt_outputDir : option str;
  opt_email : option str;
  opt_apiToken : option str;
  opt_siteTitle : option str;
  opt_siteDescription : option str;
  opt_downloadExternalImages : option bool
}.

Record environment : Type := Environment {
  CONFLUENCE_URL : option str;
  CONFLUENCE_SPACE_KEY : option str;
  CONFLUENCE_ROOT_PAGE_ID : option str;
  CONFLUENCE_EMAIL : option str;
  CONFLUENCE_API_TOKEN : option str
}.

Record config : Type := Config {
  confluenceUrl : option str;
  spaceKey : option str;
  rootPageId : option str;
  outputDir : option str;
  email : option str;
  apiToken : option str;
  siteTitle : option str;
  siteDescription : option str;
  downloadExternalImages : bool
}.

(** [a || b] on values that are strings or absent. *)
Definition js_or (a b : option str) : option str :=
  match a with
  | Some s => if truthy s then Some s else b
  | None => b
  end.

Definition new_config (o : options) (env : environment) : config :=
  Config
    (js_or (opt_confluenceUrl o) (CONFLUENCE_URL env))
    (js_or (opt_spaceKey o) (CONFLUENCE_SPACE_KEY env))
    (js_or (opt_rootPageId o) (CONFLUENCE_ROOT_PAGE_ID env))
    (js_or (opt_outputDir o) (Some (js "./docs")))
    (js_or (opt_email o) (CONFLUENCE_EMAIL env))
    (js_or (opt_apiToken o) (CONFLUENCE_API_TOKEN env))
    (js_or (opt_siteTitle o) (Some (js "Documentation")))
    (js_or (opt_siteDescription o) (Some (js "Migrated from Confluence")))
    (match opt_downloadExternalImages o with
     | Some false => false
     | _ => true
     end).

Inductive outcome : Type :=
| Returned
| Thrown (message : str).

Definition required : list (str * (config -> option str)) :=
  [(js "confluenceUrl", confluenceUrl); (js "rootPageId", rootPageId);
   (js "email", email); (js "apiToken", apiToken)].

(** [!value] *)
Definition falsy (v : option str) : bool :=
  match v with
  | Some s => negb (truthy s)
  | None => true
  end.

Definition validateConfig (c : config) : outcome :=
  let missing := filter (fun key => falsy (snd key c)) required in
  if (0 <? length missing)%nat
  then Thrown (js "Missing required configuration: "
                 ++ join (js ", ") (map fst missing))
  else Returned.

(** A value is provided when it is a string that is not empty. *)
Definition provided (v : option str) : bool := negb (falsy v).

Lemma falsy_js_or a b : falsy (js_or a b) = falsy a && falsy b.
Proof.
  destruct a as [[|c s]|]; cbn [js_or truthy falsy negb andb]; reflexivity.
Qed.

(** The configuration is accepted exactly when each of the four required
    values is provided by the options or, failing that, by the environment;
    an option that is the empty string counts as absent.  When one is not,
    the message names the missing keys in the order [confluenceUrl],
    [rootPageId], [email], [apiToken]. *)
Theorem validateConfig_accepts :
  forall o env,
    let given :=
      [(js "confluenceUrl",
         provided (opt_confluenceUrl o) || provided (CONFLUENCE_URL env));
       (js "rootPageId",
         provided (opt_rootPageId o) || provided (CONFLUENCE_ROOT_PAGE_ID env));
       (js "email",
         provided (opt_email o) || provided (CONFLUENCE_EMAIL env));
       (js "apiToken",
         provided (opt_apiToken o) || provided (CONFLUENCE_API_TOKEN env))] in
    (validateConfig (new_config o env) = Returned
     <-> forallb snd given = true)
    /\ (forallb snd given = false ->
        validateConfig (new_config o env)
        = Thrown (js "Missing required configuration: "
                    ++ join (js ", ")
                         (map fst (filter (fun g => negb (snd g)) given)))).
Proof.
  intros o env. unfold validateConfig, required, new_config, provided.
  cbn [filter snd fst confluenceUrl rootPageId email apiToken forallb].
  rewrite !falsy_js_or, <- !negb_andb.
  destruct (falsy (opt_confluenceUrl o) && falsy (CONFLUENCE_URL env));
    destruct (falsy (opt_rootPageId o) && falsy (CONFLUENCE_ROOT_PAGE_ID env));
    destruct (falsy (opt_email o) && falsy (CONFLUENCE_EMAIL env));
    destruct (falsy (opt_apiToken o) && falsy (CONFLUENCE_API_TOKEN env));
    cbn; (split; [split|]); intros; try discriminate; reflexivity.
Qed.

Lemma validateConfig_accepts_witness :
  validateConfig
    (new_config
       (Options (Some []) None (Some (js "12345")) None None
          (Some (js "token")) None None None)
       (Environment (Some (js "https://site.atlassian.net")) None None None None))
  = Thrown (js "Missing required configuration: email").
Proof.
  apply (proj2 (validateConfig_accepts
                  (Options (Some []) None (Some (js "12345")) None None
                     (Some (js "token")) None None None)
                  (Environment (Some (js "https://site.atlassian.net")) None None
                     None None))).
  reflexivity.
Defined.

(** ** The code rule of the Turndown service ([createTurndownService]) *)

(** [/language-(\w+)/]; [\w] is written as the class it stands for. *)
Definition rx_language_class := Eval vm_compute in re "language-([A-Za-z0-9_]+)".

(** What the rule reads of the node it replaces: its name, its
    [data-language] attribute ([getAttribute] gives [null] or a string), the
    class of its first [code] descendant if there is one, and its text. *)
Record code_node : Type := CodeNode {
  nodeName : str;
  data_language : option str;
  code_className : option str;
  textContent : str
}.

Definition replacement (content : str) (node : code_node) : str :=
  let language :=
    match data_language node with
    | Some s => if truthy s then s else []
    | None => []
    end in
  let language :=
    if negb (truthy language) && str_eqb (nodeName node) (js "PRE") then
      match code_className node with
      | Some className =>
          match match_first rx_language_class className with
          | Some (_, classMatch) => cap_text classMatch 1
          | None => language
          end
      | None => language
      end
    else language in
  let codeContent :=
    if truthy (textContent node) then textContent node else content in
  [newline] ++ js "```" ++ language ++ [newline] ++ codeContent ++ [newline]
    ++ js "```" ++ [newline].

Definition is_word_char (c : char) : bool :=
  is_upper c || is_lower c || is_digit c || (c =? 95).

Definition fence_block (language code : str) : str :=
  [newline] ++ js "```" ++ language ++ [newline] ++ code ++ [newline]
    ++ js "```" ++ [newline].

Lemma word_set c :
  set_match false false [CRange 65 90; CRange 97 122; CRange 48 57; CChar 95] c
  = is_word_char c.
Proof.
  unfold set_match, items_mem, is_word_char, is_upper, is_lower, is_digit.
  cbn [existsb citem_mem andb xorb]. rewrite !orb_false_r, !orb_assoc.
  reflexivity.
Qed.

Lemma class_language w rest :
  w <> [] -> forallb is_word_char w = true ->
  match rest with [] => true | c :: _ => negb (is_word_char c) end = true ->
  match_first rx_language_class (js "language-" ++ w ++ rest)
  = Some (js "language-" ++ w, [Some w]).
Proof.
  intros Hne Hw Hrest. destruct w as [|w0 w]; [congruence|].
  cbn [forallb] in Hw. apply andb_true_iff in Hw as [Hw0 Hw].
  rewrite app_assoc.
  apply (match_first_found rx_language_class [] (js "language-" ++ w0 :: w) rest).
  - reflexivity.
  - intros b p1 p2 E Hne2. destruct p1; destruct p2; try discriminate.
    congruence.
  - discriminate.
  - rewrite <- app_assoc. eapply exec_at_result.
    + unfold rx_language_class. cbn [re_ast re_icase re_groups]. norm_js.
      repeat lit_step. rewrite rmatch_seq.
      apply (group_plus_run false false 1 false
               [CRange 65 90; CRange 97 122; CRange 48 57; CChar 95]).
      * rewrite word_set. exact Hw0.
      * apply forallb_forall. intros c Hc. rewrite word_set.
        rewrite forallb_forall in Hw. apply Hw, Hc.
      * destruct rest as [|c rest]; [reflexivity|]. rewrite word_set. exact Hrest.
      * rewrite rmatch_empty. reflexivity.
    + cbn [ms_len]. norm_js. len_solve.
    + reflexivity.
Qed.

(** The fenced block that Turndown writes for a [pre] element: a
    [data-language] attribute that is not empty gives the language; without
    it the class [language-LANG] of the [code] element does, up to the first
    character of LANG that is not a letter, a digit or an underscore ([c++]
    gives [c]); the class [language-] alone, which the normalizer writes for
    a code macro without language, gives no language. *)
Theorem code_fence_language :
  forall content text,
    text <> [] ->
    (forall name lang className,
        lang <> [] ->
        replacement content (CodeNode name (Some lang) className text)
        = fence_block lang text)
    /\ (forall w rest,
          w <> [] -> forallb is_word_char w = true ->
          match rest with [] => true | c :: _ => negb (is_word_char c) end = true ->
          replacement content
            (CodeNode (js "PRE") None (Some (js "language-" ++ w ++ rest)) text)
          = fence_block w text)
    /\ replacement content (CodeNode (js "PRE") None (Some (js "language-")) text)
       = fence_block [] text.
Proof.
  intros content text Ht. destruct text as [|t0 text]; [congruence|].
  split; [|split].
  - intros name lang className Hl. destruct lang as [|l0 lang]; [congruence|].
    reflexivity.
  - intros w rest Hne Hw Hrest. unfold replacement.
    cbn [data_language nodeName code_className textContent truthy negb andb].
    change (str_eqb (js "PRE") (js "PRE")) with true. cbv iota.
    rewrite (class_language w rest Hne Hw Hrest). reflexivity.
  - vm_compute. reflexivity.
Qed.

Lemma code_fence_language_witness :
  replacement [] (CodeNode (js "PRE") None (Some (js "language-c++")) (js "int x;"))
  = fence_block (js "c") (js "int x;")
  /\ replacement []
       (CodeNode (js "PRE") (Some (js "c++")) (Some (js "language-c++")) (js "int x;"))
     = fence_block (js "c++") (js "int x;").
Proof.
  pose proof (code_fence_language [] (js "int x;") ltac:(discriminate))
    as (H1 & H2 & _).
  split.
  - exact (H2 (js "c") (js "++") ltac:(discriminate) eq_refl eq_refl).
  - exact (H1 (js "PRE") (js "c++") (Some (js "language-c++")) ltac:(discriminate)).
Defined.

(** ** Images with a file id *)

Definition fileid_attr : str := js "data-fileid=~".

Definition img_fileid (a1 fid a2 : str) : str :=
  js "<img" ++ a1 ++ fileid_attr ++ fid ++ js "~" ++ a2 ++ js ">".

(** The entries that [fileIdMap] gets, in the order of the attachments. *)
Definition fileid_entries (attachments : list attachment) : list (str * str) :=
  flat_map
    (fun att =>
       match att_fileId att with
       | Some fid => if truthy fid then [(fid, att_path att)] else []
       | None => []
       end)
    attachments.

Lemma fileIdMap_entries : forall attachments init,
  fold_left
    (fun m att =>
       match att_fileId att with
       | Some fid => if truthy fid then table_set fid (att_path att) m else m
       | None => m
       end)
    attachments init
  = rev (fileid_entries attachments) ++ init.
Proof.
  induction attachments as [|att l IH]; intros init; [reflexivity|].
  cbn [fold_left fileid_entries flat_map]. rewrite IH. fold (fileid_entries l).
  destruct (att_fileId att) as [fid|]; [|reflexivity].
  destruct (truthy fid); [|reflexivity].
  cbn [app rev]. rewrite <- app_assoc. reflexivity.
Qed.

Lemma fileid_entries_app a b :
  fileid_entries (a ++ b) = fileid_entries a ++ fileid_entries b.
Proof. unfold fileid_entries. apply flat_map_app. Qed.

Lemma fileid_entries_keys l fid :
  (forall q, In q l -> att_fileId q <> Some fid) ->
  forall e, In e (rev (fileid_entries l)) -> fst e <> fid.
Proof.
  intros H e He. apply in_rev in He. unfold fileid_entries in He.
  apply in_flat_map in He as (q & Hq & He).
  destruct (att_fileId q) as [f|] eqn:E; [|destruct He].
  destruct (truthy f); [|destruct He].
  destruct He as [<- | []]. cbn [fst]. intros ->. apply (H q Hq). exact E.
Qed.

(** The table of the file ids gives, for an id, the path of the last
    attachment that has it. *)
Lemma fileIdMap_last l1 att l2 fid :
  att_fileId att = Some fid -> truthy fid = true ->
  (forall q, In q l2 -> att_fileId q <> Some fid) ->
  table_get fid (fileIdMap (l1 ++ att :: l2)) = Some (att_path att).
Proof.
  intros Hf Ht H. unfold fileIdMap. rewrite fileIdMap_entries, app_nil_r.
  rewrite fileid_entries_app, rev_app_distr.
  change (att :: l2) with ([att] ++ l2).
  rewrite fileid_entries_app, rev_app_distr, <- app_assoc.
  rewrite table_get_app_absent by (apply fileid_entries_keys, H).
  unfold fileid_entries at 1. cbn [flat_map]. rewrite Hf, Ht.
  cbn [app rev table_get]. rewrite str_eqb_refl. reflexivity.
Qed.

Lemma fileIdMap_none l fid :
  (forall q, In q l -> att_fileId q <> Some fid) ->
  table_get fid (fileIdMap l) = None.
Proof.
  intros H. unfold fileIdMap. rewrite fileIdMap_entries, app_nil_r.
  apply table_get_absent, fileid_entries_keys, H.
Qed.

(** A text in which the literal does not stand, before a character that is
    not in the literal, is decided against it. *)
Lemma ci_prefix_decided x more : forall L t,
  (forall p, In p L -> set_match true false [CChar p] x = false) ->
  starts_with_ci L t = false ->
  decided_fail true (map (fun p => (false, [CChar p])) L ++ more) (t ++ [x])
  = true.
Proof.
  induction L as [|p L IH]; intros t Hx H; [discriminate|].
  cbn [map app]. destruct t as [|c t]; cbn [app decided_fail].
  - rewrite (Hx p (or_introl eq_refl)). reflexivity.
  - cbn [starts_with_ci] in H.
    destruct (set_match true false [CChar p] c); [|reflexivity].
    apply IH; [intros q Hq; apply Hx; right; exact Hq|exact H].
Qed.

Lemma ci_absent_decided x more L :
  (forall p, In p L -> set_match true false [CChar p] x = false) ->
  L <> [] ->
  forall s, occurs_ci L s = false ->
  all_decided true (map (fun p => (false, [CChar p])) L ++ more) (s ++ [x])
  = true.
Proof.
  intros Hx Hne. induction s as [|c s IH]; intros H.
  - cbn [app all_decided]. rewrite andb_true_r.
    apply (ci_prefix_decided x more L [] Hx).
    destruct L; [congruence|reflexivity].
  - cbn [occurs_ci] in H. apply orb_false_iff in H as [H1 H2].
    cbn [app all_decided]. rewrite (IH H2), andb_true_r.
    apply (ci_prefix_decided x more L (c :: s) Hx H1).
Qed.

Lemma exec_at_blob a1 fid a2 post :
  no_char 62 a1 = true -> no_char 62 a2 = true -> no_char 62 fid = true ->
  fid <> [] -> no_char 34 fid = true ->
  occurs_ci fileid_attr (fid ++ js "~" ++ a2) = false ->
  exec_at rx_blob_img false (img_fileid a1 fid a2 ++ post)
  = Some (length (img_fileid a1 fid a2), [Some fid]).
Proof.
  intros Ha1 Ha2 Hf Hne Hq Hocc.
  destruct (quoted_sets true fid Hne Hq) as (f0 & f & -> & Hf0 & Hf').
  unfold img_fileid, fileid_attr. rewrite <- !app_assoc.
  eapply exec_at_result.
  - unfold rx_blob_img. cbn [re_ast re_icase re_groups].
    change (js "<img") with [60; 105; 109; 103]. cbn [app].
    repeat lit_step.
    change (js "data-fileid=~") with (100 :: js "ata-fileid=~").
    cbn [app].
    match goal with
    | |- rmatch _ _ _ _ (MState ?s _ _) = _ =>
        replace s
          with (a1 ++ 100 :: (js "ata-fileid=~" ++ (f0 :: f) ++ js "~" ++ a2)
                  ++ 62 :: post)
          by (repeat first [rewrite <- app_assoc | progress cbn [app]];
              reflexivity)
    end.
    apply (greedy_fit true false true [CChar 62] _ _ a1 100
             (js "ata-fileid=~" ++ (f0 :: f) ++ js "~" ++ a2) 62 post).
    + apply no_char_neg_set; [reflexivity|reflexivity|exact Ha1].
    + reflexivity.
    + apply no_char_neg_set; [reflexivity|reflexivity|].
      rewrite !no_char_app, Hf, Ha2. reflexivity.
    + reflexivity.
    + match goal with
      | |- all_decided _ (lead_sets ?r) _ = true =>
          change (lead_sets r)
            with (map (fun p => (false, [CChar p])) fileid_attr
                    ++ [(true, [CChar 34])])
      end.
      match goal with
      | |- all_decided _ _ ?s = true =>
          replace s
            with (js "ata-fileid=~" ++ ((f0 :: f) ++ js "~" ++ a2) ++ [62])
            by (repeat first [rewrite <- app_assoc | progress cbn [app]];
                reflexivity)
      end.
      apply all_decided_app; [vm_compute; reflexivity|].
      apply (ci_absent_decided 62 [(true, [CChar 34])] fileid_attr);
        [|discriminate|exact Hocc].
      intros p Hp. vm_compute in Hp.
      repeat destruct Hp as [<- | Hp]; try reflexivity. destruct Hp.
    + norm_js. rewrite <- !app_assoc. cbn [app]. repeat lit_step.
      rewrite rmatch_seq.
      apply (group_plus_run true false 1 true [CChar 34] _ f0 f
               (34 :: a2 ++ 62 :: post));
        [exact Hf0|exact Hf'|reflexivity|].
      repeat lit_step. rewrite rmatch_seq.
      apply star_run;
        [apply no_char_neg_set; [reflexivity|reflexivity|exact Ha2]|reflexivity|].
      repeat lit_step. rewrite rmatch_empty. reflexivity.
  - cbn [ms_len]. norm_js. len_solve.
  - reflexivity.
Qed.

Definition rules_after_blob : list regexp :=
  [rx_svg; rx_heading_anchor; rx_anchor_button; rx_visually_hidden;
   rx_editor_panel; rx_panel_icon; rx_loadable; rx_ac_image; rx_panel_macro;
   rx_code_lang; rx_code_plain]
    ++ rules_after_code.

Section BlobImages.

Variables toLowerCase toUpperCase : str -> str.
Variables (pageSlug : str) (attachments : list attachment).

(** What follows the first rule, where none of the later rules matches. *)
Lemma after_blob_unchanged out :
  silent_on out rules_after_blob ->
  convert_links toLowerCase
    (clean_tables
       (remove_macros
          (convert_code_macros
             (replace_all rx_panel_macro (panel_macro toUpperCase)
                (replace_all rx_ac_image (ac_image pageSlug)
                   (convert_editor_panels toUpperCase (strip_decorations out)))))))
  = out.
Proof.
  intros H. unfold silent_on, rules_after_blob in H.
  apply Forall_app in H as [H Hafter].
  repeat match type of H with
         | Forall _ (_ :: _) =>
             let H1 := fresh "S" in
             apply Forall_cons_iff in H as [H1 H]
         end.
  unfold strip_decorations, convert_editor_panels.
  rewrite (replace_all_tpl_no_match rx_svg _ out) by assumption.
  rewrite (replace_all_tpl_no_match rx_heading_anchor _ out) by assumption.
  rewrite (replace_all_tpl_no_match rx_anchor_button _ out) by assumption.
  rewrite (replace_all_tpl_no_match rx_visually_hidden _ out) by assumption.
  rewrite (replace_all_no_match rx_editor_panel _ out) by assumption.
  rewrite (replace_all_tpl_no_match rx_panel_icon _ out) by assumption.
  rewrite (replace_all_tpl_no_match rx_loadable _ out) by assumption.
  rewrite (replace_all_no_match rx_ac_image _ out) by assumption.
  rewrite (replace_all_no_match rx_panel_macro _ out) by assumption.
  unfold convert_code_macros.
  rewrite (replace_all_no_match rx_code_lang _ out) by assumption.
  rewrite (replace_all_no_match rx_code_plain _ out) by assumption.
  apply after_code_unchanged, Hafter.
Qed.

Variables pre post a1 fid a2 : str.

Hypothesis pre_plain : no_char 60 pre = true.
Hypothesis post_plain : no_char 60 post = true.
Hypothesis a1_plain : no_char 60 a1 = true.
Hypothesis a1_inside : no_char 62 a1 = true.
Hypothesis a2_plain : no_char 60 a2 = true.
Hypothesis a2_inside : no_char 62 a2 = true.
Hypothesis fid_given : fid <> [].
Hypothesis fid_plain : no_char 60 fid = true.
Hypothesis fid_inside : no_char 62 fid = true.
Hypothesis fid_quotes : no_char 34 fid = true.
Hypothesis fid_last : occurs_ci fileid_attr (fid ++ js "~" ++ a2) = false.

Let tag := img_fileid a1 fid a2.

Lemma blob_rule_step :
  replace_all rx_blob_img (blob_image attachments) (pre ++ tag ++ post)
  = pre ++ blob_image attachments tag [Some fid] ++ post.
Proof.
  rewrite (replace_all_one_match rx_blob_img _ pre tag post [Some fid]).
  - rewrite (replace_all_no_match rx_blob_img _ post)
      by (apply no_lt_silent; [led_lt|exact post_plain]).
    reflexivity.
  - reflexivity.
  - unfold tag, img_fileid. discriminate.
  - apply no_lt_prefix; [led_lt|exact pre_plain].
  - apply exec_at_blob; assumption.
Qed.

Lemma img_tag_silent src alt :
  no_char 60 src = true -> no_char 60 alt = true ->
  silent_on (pre ++ img_tag src alt ++ post) rules_after_blob.
Proof.
  intros Hs Ha. unfold img_tag, rules_after_blob, rules_after_code. cbn [app].
  silent_chunks.
Qed.

Lemma tag_silent : silent_on (pre ++ tag ++ post) rules_after_blob.
Proof.
  unfold tag, img_fileid, fileid_attr, rules_after_blob, rules_after_code.
  cbn [app]. silent_chunks.
Qed.

Lemma preprocess_blob_unknown :
  (forall q, In q attachments -> att_fileId q <> Some fid) ->
  preprocessConfluenceHtml toLowerCase toUpperCase (pre ++ tag ++ post)
    pageSlug attachments
  = pre ++ tag ++ post.
Proof.
  intros H. unfold preprocessConfluenceHtml. rewrite blob_rule_step.
  unfold blob_image. cbn [cap_text nth_error Nat.sub tpl_text].
  rewrite (fileIdMap_none attachments fid H).
  apply after_blob_unchanged, tag_silent.
Qed.

Lemma preprocess_blob_known l1 att l2 alt :
  attachments = l1 ++ att :: l2 ->
  att_fileId att = Some fid ->
  (forall q, In q l2 -> att_fileId q <> Some fid) ->
  truthy (att_path att) = true -> no_char 60 (att_path att) = true ->
  no_char 60 alt = true ->
  match match_first rx_alt tag with
  | Some (_, altCaps) => cap_text altCaps 1
  | None => js "image"
  end = alt ->
  preprocessConfluenceHtml toLowerCase toUpperCase (pre ++ tag ++ post)
    pageSlug attachments
  = pre ++ img_tag (att_path att) alt ++ post.
Proof.
  intros E Hf Hl Hp Hp' Ha Halt. unfold preprocessConfluenceHtml.
  rewrite blob_rule_step. unfold blob_image.
  cbn [cap_text nth_error Nat.sub tpl_text]. rewrite E.
  assert (Ht : truthy fid = true)
    by (pose proof fid_given as G; destruct fid; [congruence|reflexivity]).
  rewrite (fileIdMap_last l1 att l2 fid Hf Ht Hl).
  rewrite Hp, Halt. fold (img_tag (att_path att) alt).
  apply after_blob_unchanged, img_tag_silent; assumption.
Qed.

End BlobImages.

Lemma alt_absent tag :
  occurs (js "alt=~") tag = false ->
  match match_first rx_alt tag with
  | Some (_, altCaps) => cap_text altCaps 1
  | None => js "image"
  end = js "image".
Proof.
  intros H. rewrite match_first_none; [reflexivity|].
  apply (absent_literal_no_match rx_alt (js "alt=~")
           (RSeq (RGroup 1 (RSeq (RStar true (RSet true [CChar 34])) REmpty))
              (RSeq (RSet false [CChar 34]) REmpty)));
    [reflexivity|reflexivity|exact H].
Qed.

Lemma alt_first alt fid a2 :
  no_char 34 alt = true ->
  match match_first rx_alt (img_fileid (js " alt=~" ++ alt ++ js "~ ") fid a2) with
  | Some (_, altCaps) => cap_text altCaps 1
  | None => js "image"
  end = alt.
Proof.
  intros Hq. unfold img_fileid.
  replace (js "<img" ++ (js " alt=~" ++ alt ++ js "~ ") ++ fileid_attr ++ fid
             ++ js "~" ++ a2 ++ js ">")
    with (js "<img " ++ (js "alt=~" ++ alt ++ js "~")
            ++ js " " ++ fileid_attr ++ fid ++ js "~" ++ a2 ++ js ">")
    by (repeat first [rewrite <- app_assoc | progress cbn [app]]; reflexivity).
  rewrite (match_first_found rx_alt (js "<img ") (js "alt=~" ++ alt ++ js "~") _
             [Some alt]).
  - reflexivity.
  - reflexivity.
  - apply decided_prefix. vm_compute. reflexivity.
  - discriminate.
  - rewrite <- !app_assoc. eapply exec_at_result.
    + unfold rx_alt. cbn [re_ast re_icase re_groups]. norm_js.
      repeat lit_step. rewrite rmatch_seq.
      apply (group_star_run false false 1 true [CChar 34] _ alt);
        [apply no_char_neg_set; [reflexivity|reflexivity|exact Hq]|reflexivity|].
      repeat lit_step. rewrite rmatch_empty. reflexivity.
    + cbn [ms_len]. norm_js. len_solve.
    + reflexivity.
Qed.



(** ** Table cells *)

(** A cell is a header cell ([th]) or a data cell ([td]). *)
Definition is_cell_kind (k : char) : bool := (k =? 104) || (k =? 100).

Definition cell_open (k : char) (attrs : str) : str :=
  js "<t" ++ k :: attrs ++ js ">".

Definition cell_close (k : char) : str := js "</t" ++ k :: js ">".

Definition cell_with_p (k : char) (attrs text : str) : str :=
  cell_open k attrs ++ js "<p>" ++ text ++ js "</p>" ++ cell_close k.

Definition cell (k : char) (attrs text : str) : str :=
  cell_open k attrs ++ text ++ cell_close k.

(** No attribute, or a space and then attributes without [>] and [<]. *)
Definition cell_attrs_ok (attrs : str) : bool :=
  match attrs with
  | [] => true
  | c :: a => (c =? 32) && no_char 62 a && no_char 60 a
  end.

Lemma cell_attrs_inside attrs :
  cell_attrs_ok attrs = true ->
  no_char 62 attrs = true /\ no_char 60 attrs = true.
Proof.
  destruct attrs as [|c a]; [split; reflexivity|]. cbn [cell_attrs_ok].
  intros H. apply andb_true_iff in H as [H H2]. apply andb_true_iff in H as [Hc H1].
  apply N.eqb_eq in Hc. subst c. rewrite !no_char_cons, H1, H2. split; reflexivity.
Qed.

Lemma cell_template m whole pos x y z :
  get_substitution m whole pos [Some x; Some y; Some z] (js "$1$2$3")
  = x ++ y ++ z.
Proof.
  change (js "$1$2$3") with [36; 49; 36; 50; 36; 51].
  cbn. rewrite !app_nil_r. reflexivity.
Qed.

Lemma exec_at_cell_p k attrs text post :
  is_cell_kind k = true -> cell_attrs_ok attrs = true ->
  no_char 60 text = true ->
  exec_at rx_cell_p false (cell_with_p k attrs text ++ post)
  = Some (length (cell_with_p k attrs text),
          [Some (cell_open k attrs); Some text; Some (cell_close k)]).
Proof.
  intros Hk Ha Ht. destruct (cell_attrs_inside attrs Ha) as [Ha1 _].
  unfold cell_with_p. rewrite <- !app_assoc.
  eapply exec_at_result.
  - unfold rx_cell_p. cbn [re_ast re_icase re_groups].
    rewrite rmatch_seq.
    apply (group_through true false 1 _ _ (cell_open k attrs)).
    + intros k' Hk'. unfold cell_open. norm_js.
      repeat first [rewrite <- app_assoc | progress cbn [app]].
      unfold is_cell_kind in Hk. apply orb_true_iff in Hk as [Hk|Hk];
        apply N.eqb_eq in Hk; subst k;
        repeat lit_step; rewrite rmatch_seq;
        (apply star_run;
         [apply no_char_neg_set; [reflexivity|reflexivity|exact Ha1]
         |reflexivity|]);
        repeat lit_step; rewrite rmatch_empty; rewrite <- Hk';
        do 2 f_equal; unfold cell_open; norm_js; len_solve.
    + norm_js. rewrite greedy_stop by reflexivity. repeat lit_step.
      rewrite rmatch_seq, alt_right by (repeat lit_step; reflexivity).
      rewrite rmatch_empty. repeat lit_step. rewrite rmatch_seq.
      apply (group_lazy_skip true false 2 false [CSpace; CNonSpace]);
        [apply any_char| |].
      * intros a1 a2 caps' E Hne. apply lead_sets_sound. cbn [ms_rest lead_sets].
        eapply no_lt_decided; eassumption.
      * repeat lit_step.
        change (cell_close k ++ post) with (60 :: 47 :: 116 :: k :: 62 :: post).
        rewrite greedy_stop by reflexivity.
        change (60 :: 47 :: 116 :: k :: 62 :: post) with (cell_close k ++ post).
        rewrite rmatch_seq.
        apply (group_through true false 3 _ _ (cell_close k)).
        -- intros k' Hk'. unfold cell_close. norm_js.
           repeat first [rewrite <- app_assoc | progress cbn [app]].
           unfold is_cell_kind in Hk. apply orb_true_iff in Hk as [Hk|Hk];
             apply N.eqb_eq in Hk; subst k;
             repeat lit_step; rewrite rmatch_empty; rewrite <- Hk';
             do 2 f_equal; unfold cell_close; norm_js; len_solve.
        -- rewrite rmatch_empty. reflexivity.
  - cbn [ms_len]. unfold cell_open, cell_close. norm_js. len_solve.
  - reflexivity.
Qed.

Lemma attrs_template m whole pos x :
  get_substitution m whole pos [Some x] (js "<$1>") = js "<" ++ x ++ js ">".
Proof. vm_compute. reflexivity. Qed.

(** The leading whitespace of a text, and what follows it. *)
Fixpoint leading_spaces (s : str) : str :=
  match s with
  | c :: s' => if is_space c then c :: leading_spaces s' else []
  | [] => []
  end.

Fixpoint after_spaces (s : str) : str :=
  match s with
  | c :: s' => if is_space c then after_spaces s' else s
  | [] => []
  end.

Lemma spaces_split s : s = leading_spaces s ++ after_spaces s.
Proof.
  induction s as [|c s IH]; [reflexivity|]. cbn [leading_spaces after_spaces].
  destruct (is_space c); [|reflexivity]. cbn [app]. f_equal. exact IH.
Qed.

Lemma space_set ic c : set_match ic false [CSpace] c = is_space c || (ic && is_space (swap_case c)).
Proof.
  unfold set_match, items_mem. cbn [existsb citem_mem xorb].
  rewrite !orb_false_r. reflexivity.
Qed.

Lemma swap_case_space c : is_space c = true -> swap_case c = c.
Proof.
  intros H. unfold swap_case, is_upper, is_lower.
  destruct ((65 <=? c) && (c <=? 90)) eqn:U.
  - exfalso. apply andb_true_iff in U as [U1 U2]. apply N.leb_le in U1, U2.
    unfold is_space in H.
    repeat match type of H with
           | _ || _ = true => apply orb_true_iff in H as [H|H]
           end;
      try (apply andb_true_iff in H as [H1 H2]; apply N.leb_le in H1, H2; lia);
      apply N.eqb_eq in H; lia.
  - destruct ((97 <=? c) && (c <=? 122)) eqn:L; [|reflexivity].
    exfalso. apply andb_true_iff in L as [L1 L2]. apply N.leb_le in L1, L2.
    unfold is_space in H.
    repeat match type of H with
           | _ || _ = true => apply orb_true_iff in H as [H|H]
           end;
      try (apply andb_true_iff in H as [H1 H2]; apply N.leb_le in H1, H2; lia);
      apply N.eqb_eq in H; lia.
Qed.

Lemma leading_spaces_set s :
  forallb (set_match true false [CSpace]) (leading_spaces s) = true.
Proof.
  induction s as [|c s IH]; [reflexivity|]. cbn [leading_spaces].
  destruct (is_space c) eqn:E; [|reflexivity].
  cbn [forallb]. rewrite space_set, E, IH. reflexivity.
Qed.

Lemma swap_case_twice c : swap_case (swap_case c) = c.
Proof.
  unfold swap_case, is_upper, is_lower.
  destruct ((65 <=? c) && (c <=? 90)) eqn:U.
  - apply andb_true_iff in U as [U1 U2]. apply N.leb_le in U1, U2.
    replace ((65 <=? c + 32) && (c + 32 <=? 90)) with false
      by (symmetry; apply andb_false_iff; right; apply N.leb_gt; lia).
    replace ((97 <=? c + 32) && (c + 32 <=? 122)) with true
      by (symmetry; apply andb_true_iff; split; apply N.leb_le; lia).
    lia.
  - destruct ((97 <=? c) && (c <=? 122)) eqn:L.
    + apply andb_true_iff in L as [L1 L2]. apply N.leb_le in L1, L2.
      replace ((65 <=? c - 32) && (c - 32 <=? 90)) with true
        by (symmetry; apply andb_true_iff; split; apply N.leb_le; lia).
      lia.
    + rewrite U, L. reflexivity.
Qed.

Lemma not_space_set c : is_space c = false -> set_match true false [CSpace] c = false.
Proof.
  intros H. rewrite space_set, H. cbn [orb andb].
  destruct (is_space (swap_case c)) eqn:E; [|reflexivity].
  pose proof (swap_case_space _ E) as F. rewrite swap_case_twice in F.
  rewrite <- F in E. congruence.
Qed.

Lemma after_spaces_stops s rest :
  is_space 62 = false ->
  stops true false [CSpace] (after_spaces s ++ 62 :: rest) = true.
Proof.
  intros _. induction s as [|c s IH]; [reflexivity|]. cbn [after_spaces].
  destruct (is_space c) eqn:E; [exact IH|].
  cbn [app stops]. rewrite (not_space_set c E). reflexivity.
Qed.

Lemma no_char_parts x s :
  no_char x s = true ->
  no_char x (leading_spaces s) = true /\ no_char x (after_spaces s) = true.
Proof.
  intros H. rewrite (spaces_split s), no_char_app in H.
  apply andb_true_iff in H. exact H.
Qed.

Lemma exec_at_cell_attrs k a post :
  is_cell_kind k = true -> no_char 62 a = true ->
  exec_at rx_cell_attrs false (cell_open k (32 :: a) ++ post)
  = Some (length (cell_open k (32 :: a)), [Some (116 :: [k])]).
Proof.
  intros Hk Ha. destruct (no_char_parts 62 a Ha) as [Ha1 Ha2].
  unfold cell_open. norm_js.
  repeat first [rewrite <- app_assoc | progress cbn [app]].
  rewrite (spaces_split a). rewrite <- app_assoc.
  unfold is_cell_kind in Hk. apply orb_true_iff in Hk as [Hk|Hk];
    apply N.eqb_eq in Hk; subst k.
  - eapply exec_at_result.
    + unfold rx_cell_attrs. cbn [re_ast re_icase re_groups].
      repeat lit_step. rewrite rmatch_seq, rmatch_group.
      apply alt_left. repeat lit_step. rewrite rmatch_empty. cbv beta.
      unfold set_cap. cbn [ms_rest ms_len ms_caps Nat.sub firstn].
      repeat lit_step. rewrite rmatch_seq.
      apply star_run; [apply leading_spaces_set|apply after_spaces_stops; reflexivity|].
      rewrite rmatch_seq.
      apply star_run;
        [apply no_char_neg_set; [reflexivity|reflexivity|exact Ha2]|reflexivity|].
      repeat lit_step. rewrite rmatch_empty. reflexivity.
    + cbn [ms_len length]. rewrite !length_app. cbn [length]. lia.
    + reflexivity.
  - eapply exec_at_result.
    + unfold rx_cell_attrs. cbn [re_ast re_icase re_groups].
      repeat lit_step. rewrite rmatch_seq, rmatch_group.
      rewrite alt_right by (repeat lit_step; reflexivity).
      repeat lit_step. rewrite rmatch_empty. cbv beta.
      unfold set_cap. cbn [ms_rest ms_len ms_caps Nat.sub firstn].
      repeat lit_step. rewrite rmatch_seq.
      apply star_run; [apply leading_spaces_set|apply after_spaces_stops; reflexivity|].
      rewrite rmatch_seq.
      apply star_run;
        [apply no_char_neg_set; [reflexivity|reflexivity|exact Ha2]|reflexivity|].
      repeat lit_step. rewrite rmatch_empty. reflexivity.
    + cbn [ms_len length]. rewrite !length_app. cbn [length]. lia.
    + reflexivity.
Qed.

Definition rules_before_cells : list regexp :=
  rules_before_code
    ++ [rx_code_lang; rx_code_plain; rx_macro_selfclosing; rx_macro; rx_parameter;
        rx_colgroup; rx_table_open].

Lemma no_match_in_suffix rx p s : no_match_in rx (p ++ s) -> no_match_in rx s.
Proof.
  intros H b t [q Hq]. apply H. exists (p ++ q). rewrite Hq, app_assoc.
  reflexivity.
Qed.

Section Cells.

Variables toLowerCase toUpperCase : str -> str.
Variables (pageSlug : str) (attachments : list attachment).

Lemma before_cells_unchanged doc :
  silent_on doc rules_before_cells ->
  preprocessConfluenceHtml toLowerCase toUpperCase doc pageSlug attachments
  = convert_links toLowerCase
      (move_header_row
         (replace_all_tpl rx_cell_attrs (js "<$1>")
            (replace_all_tpl rx_cell_p_close (js "$1")
               (replace_all_tpl rx_cell_p_open (js "$1")
                  (replace_all_tpl rx_p_p (js "<br/>")
                     (replace_all_tpl rx_cell_p (js "$1$2$3") doc)))))).
Proof.
  intros H. unfold silent_on, rules_before_cells in H.
  apply Forall_app in H as [Hbefore H].
  rewrite before_code_unchanged by exact Hbefore.
  repeat match type of H with
         | Forall _ (_ :: _) =>
             let H1 := fresh "S" in
             apply Forall_cons_iff in H as [H1 H]
         end.
  unfold convert_code_macros.
  rewrite (replace_all_no_match rx_code_lang _ doc) by assumption.
  rewrite (replace_all_no_match rx_code_plain _ doc) by assumption.
  unfold remove_macros.
  rewrite (replace_all_tpl_no_match rx_macro_selfclosing _ doc) by assumption.
  rewrite (replace_all_no_match rx_macro _ doc) by assumption.
  rewrite (replace_all_tpl_no_match rx_parameter _ doc) by assumption.
  unfold clean_tables.
  rewrite (replace_all_tpl_no_match rx_colgroup _ doc) by assumption.
  rewrite (replace_all_tpl_no_match rx_table_open _ doc) by assumption.
  reflexivity.
Qed.

Variables (pre post text : str) (k : char).

Hypothesis pre_plain : no_char 60 pre = true.
Hypothesis post_plain : no_char 60 post = true.
Hypothesis text_plain : no_char 60 text = true.
Hypothesis kind : is_cell_kind k = true.

Ltac by_kind :=
  let H := fresh "H" in
  pose proof kind as H; unfold is_cell_kind in H;
  apply orb_true_iff in H as [H|H]; apply N.eqb_eq in H; subst k.

Lemma cell_doc_silent attrs :
  no_char 60 attrs = true ->
  silent_on (pre ++ cell_with_p k attrs text ++ post) rules_before_cells.
Proof.
  intros Ha. unfold rules_before_cells, rules_before_code. cbn [app].
  unfold cell_with_p, cell_open, cell_close. by_kind.
  - change (js "<t" ++ 104 :: attrs ++ js ">") with (js "<th" ++ attrs ++ js ">").
    change (js "</t" ++ 104 :: js ">") with (js "</th>").
    silent_chunks.
  - change (js "<t" ++ 100 :: attrs ++ js ">") with (js "<td" ++ attrs ++ js ">").
    change (js "</t" ++ 100 :: js ">") with (js "</td>").
    silent_chunks.
Qed.

(** The rules between the two that rewrite the cell are silent on the cell
    without its paragraph. *)
Lemma cell_silent attrs :
  no_char 60 attrs = true ->
  silent_on (pre ++ cell k attrs text ++ post)
    [rx_p_p; rx_cell_p_open; rx_cell_p_close].
Proof.
  intros Ha. unfold cell, cell_open, cell_close. by_kind.
  - change (js "<t" ++ 104 :: attrs ++ js ">") with (js "<th" ++ attrs ++ js ">").
    change (js "</t" ++ 104 :: js ">") with (js "</th>").
    unfold silent_on.
    apply Forall_cons; [apply led_by_lt_no_match; [led_lt|decide_chunks]|].
    apply Forall_cons; [member_absent rx_cell_p_open 2%nat|].
    apply Forall_cons; [apply led_by_lt_no_match; [led_lt|decide_chunks]|].
    apply Forall_nil.
  - change (js "<t" ++ 100 :: attrs ++ js ">") with (js "<td" ++ attrs ++ js ">").
    change (js "</t" ++ 100 :: js ">") with (js "</td>").
    unfold silent_on.
    apply Forall_cons; [apply led_by_lt_no_match; [led_lt|decide_chunks]|].
    apply Forall_cons; [member_absent rx_cell_p_open 2%nat|].
    apply Forall_cons; [apply led_by_lt_no_match; [led_lt|decide_chunks]|].
    apply Forall_nil.
Qed.

Lemma bare_cell_silent :
  silent_on (pre ++ cell k [] text ++ post)
    [rx_cell_attrs; rx_header_row; rx_link_body; rx_link_cdata; rx_link_bare].
Proof.
  unfold cell, cell_open, cell_close. by_kind.
  - change (js "<t" ++ 104 :: [] ++ js ">") with (js "<th>").
    change (js "</t" ++ 104 :: js ">") with (js "</th>").
    silent_chunks.
  - change (js "<t" ++ 100 :: [] ++ js ">") with (js "<td>").
    change (js "</t" ++ 100 :: js ">") with (js "</td>").
    silent_chunks.
Qed.

Lemma cell_p_step attrs :
  cell_attrs_ok attrs = true ->
  replace_all_tpl rx_cell_p (js "$1$2$3") (pre ++ cell_with_p k attrs text ++ post)
  = pre ++ cell k attrs text ++ post.
Proof.
  intros Ha.
  rewrite (replace_all_tpl_one_match rx_cell_p _ pre (cell_with_p k attrs text) post
             [Some (cell_open k attrs); Some text; Some (cell_close k)]).
  - rewrite cell_template. unfold cell. rewrite <- !app_assoc. reflexivity.
  - reflexivity.
  - unfold cell_with_p, cell_open. discriminate.
  - apply no_lt_prefix; [led_lt|exact pre_plain].
  - apply exec_at_cell_p; assumption.
  - apply no_lt_silent; [led_lt|exact post_plain].
Qed.

Lemma cell_attrs_step a :
  no_char 62 a = true ->
  replace_all_tpl rx_cell_attrs (js "<$1>") (pre ++ cell k (32 :: a) text ++ post)
  = pre ++ cell k [] text ++ post.
Proof.
  intros Ha. unfold cell. rewrite <- !app_assoc.
  rewrite (replace_all_tpl_one_match rx_cell_attrs _ pre (cell_open k (32 :: a))
             (text ++ cell_close k ++ post) [Some (116 :: [k])]).
  - rewrite attrs_template. unfold cell_open. rewrite <- !app_assoc. reflexivity.
  - reflexivity.
  - unfold cell_open. discriminate.
  - apply no_lt_prefix; [led_lt|exact pre_plain].
  - apply exec_at_cell_attrs; [exact kind|exact Ha].
  - unfold cell_close. by_kind.
    + change (js "</t" ++ 104 :: js ">") with (js "</th>").
      apply led_by_lt_no_match; [led_lt|decide_chunks].
    + change (js "</t" ++ 100 :: js ">") with (js "</td>").
      apply led_by_lt_no_match; [led_lt|decide_chunks].
Qed.

Lemma after_cells_unchanged :
  convert_links toLowerCase (move_header_row (pre ++ cell k [] text ++ post))
  = pre ++ cell k [] text ++ post.
Proof.
  pose proof bare_cell_silent as S.
  apply Forall_cons_iff in S as [_ S]. apply Forall_cons_iff in S as [S1 S].
  apply Forall_cons_iff in S as [S2 S]. apply Forall_cons_iff in S as [S3 S].
  apply Forall_cons_iff in S as [S4 _].
  unfold move_header_row, convert_links.
  rewrite (replace_all_tpl_no_match rx_header_row _ _ S1).
  rewrite (replace_all_no_match rx_link_body _ _ S2).
  rewrite (replace_all_no_match rx_link_cdata _ _ S3).
  rewrite (replace_all_no_match rx_link_bare _ _ S4).
  reflexivity.
Qed.

Lemma preprocess_cell attrs :
  cell_attrs_ok attrs = true ->
  preprocessConfluenceHtml toLowerCase toUpperCase
    (pre ++ cell_with_p k attrs text ++ post) pageSlug attachments
  = pre ++ cell k [] text ++ post.
Proof.
  intros Ha. destruct (cell_attrs_inside attrs Ha) as [Ha1 Ha2].
  rewrite before_cells_unchanged by (apply cell_doc_silent; exact Ha2).
  rewrite (cell_p_step attrs Ha).
  pose proof (cell_silent attrs Ha2) as S.
  apply Forall_cons_iff in S as [S1 S]. apply Forall_cons_iff in S as [S2 S].
  apply Forall_cons_iff in S as [S3 _].
  rewrite (replace_all_tpl_no_match rx_p_p _ _ S1).
  rewrite (replace_all_tpl_no_match rx_cell_p_open _ _ S2).
  rewrite (replace_all_tpl_no_match rx_cell_p_close _ _ S3).
  destruct attrs as [|c a].
  - pose proof bare_cell_silent as B. apply Forall_cons_iff in B as [B _].
    rewrite (replace_all_tpl_no_match rx_cell_attrs _ _ B).
    apply after_cells_unchanged.
  - cbn [cell_attrs_ok] in Ha. apply andb_true_iff in Ha as [Ha _].
    apply andb_true_iff in Ha as [Hc Ha]. apply N.eqb_eq in Hc. subst c.
    rewrite (cell_attrs_step a Ha). apply after_cells_unchanged.
Qed.

End Cells.

(** A table cell, header or data, that holds a paragraph comes out as the
    bare cell with the text of the paragraph: the [<p>] tags go, and so do
    the attributes of the cell. *)
Theorem table_cell_cleaned :
  forall toLowerCase toUpperCase pageSlug attachments pre post k attrs text,
    no_char 60 pre = true -> no_char 60 post = true ->
    no_char 60 text = true ->
    is_cell_kind k = true -> cell_attrs_ok attrs = true ->
    preprocessConfluenceHtml toLowerCase toUpperCase
      (pre ++ cell_with_p k attrs text ++ post) pageSlug attachments
    = pre ++ cell k [] text ++ post.
Proof.
  intros toLowerCase toUpperCase pageSlug attachments pre post k attrs text
    Hpre Hpost Ht Hk Ha.
  apply preprocess_cell; assumption.
Qed.

Lemma table_cell_cleaned_witness :
  preprocessConfluenceHtml ascii_lower ascii_upper
    (js "<td colspan=~2~ class=~confluenceTd~><p>Total: 5 &amp; more</p></td>")
    (js "my-page") []
  = js "<td>Total: 5 &amp; more</td>".
Proof.
  apply (table_cell_cleaned ascii_lower ascii_upper (js "my-page") [] [] []
           100 (js " colspan=~2~ class=~confluenceTd~") (js "Total: 5 &amp; more"));
    reflexivity.
Defined.

(** ** The file name of an external image ([downloadExternalImages]) *)

Definition rx_image_ext :=
  Eval vm_compute in re_i "\.(png|jpg|jpeg|gif|svg|webp|bmp)$".

(** The name under which the image is stored, from the base name of the
    path of its URL. *)
Definition external_image_name (basename : str) : str :=
  let filename :=
    if test rx_image_ext basename then basename else basename ++ js ".png" in
  replace_all_tpl rx_invalid_chars (js "_") filename.

Definition image_exts : list str :=
  [js "png"; js "jpg"; js "jpeg"; js "gif"; js "svg"; js "webp"; js "bmp"].

(** A match somewhere in the text makes the test succeed. *)
Lemma test_match rx m r : forall p,
  no_bol (re_ast rx) = true ->
  exec_at rx false m = Some r ->
  test rx (p ++ m) = true.
Proof.
  intros p Hb He. unfold test, match_first.
  rewrite (scan_no_bol rx Hb). induction p as [|c p IH].
  - cbn [app]. destruct r as [len caps].
    destruct m as [|x m]; cbn [scan]; rewrite He; reflexivity.
  - cbn [app scan].
    destruct (exec_at rx false (c :: p ++ m)) as [[len caps]|]; [reflexivity|].
    cbn [first_match]. exact IH.
Qed.

Lemma invalid_chars_eq s :
  replace_all_tpl rx_invalid_chars (js "_") s = flat_map replace_invalid s.
Proof.
  rewrite replace_all_tpl_plain by reflexivity. unfold rx_invalid_chars.
  apply (replace_all_set_one false false
           [CChar 60; CChar 62; CChar 58; CChar 34; CChar 47; CChar 92;
            CChar 124; CChar 63; CChar 42] (js "_") s).
Qed.

Lemma image_ext_led s : no_char 46 s = true -> no_match_in rx_image_ext s.
Proof.
  intros H. apply all_decided_no_match; [vm_compute; discriminate|].
  cbn [rx_image_ext re_icase re_ast lead_sets exact_sets app].
  apply no_char_decided; [reflexivity|reflexivity|exact H].
Qed.

Lemma lower_char_inv a v :
  v = lower_char a -> is_lower v = true -> a = v \/ a = v - 32.
Proof.
  unfold lower_char, is_upper, is_lower. intros -> H.
  destruct ((65 <=? a) && (a <=? 90)) eqn:E; [right; lia | left; reflexivity].
Qed.

Ltac letter_cases :=
  repeat match goal with
         | H : _ = lower_char ?a |- _ =>
             destruct (lower_char_inv a _ H eq_refl) as [-> | ->]; clear H
         end.

(** An extension of the list, in any letter case, is found by the test and
    holds no character that the replace rewrites. *)
Lemma image_ext_found stem ext :
  In (ascii_lower ext) image_exts ->
  test rx_image_ext (stem ++ js "." ++ ext) = true
  /\ flat_map replace_invalid ext = ext.
Proof.
  intros Hin. unfold image_exts in Hin. cbn [In] in Hin.
  repeat (destruct Hin as [Hin | Hin];
          [ match type of Hin with
            | ?l = _ => let v := eval vm_compute in l in change l with v in Hin
            end;
            unfold ascii_lower in Hin;
            destruct ext as [|a [|b [|c [|d [|e ext]]]]];
            cbn [map] in Hin; try discriminate Hin;
            injection Hin as Ha Hb Hc; try (injection Hc as Hc Hd);
            letter_cases;
            (split; [ eapply test_match; [reflexivity | vm_compute; reflexivity]
                    | reflexivity ])
          | ]).
  destruct Hin.
Qed.

(** The name is the base name with each of the nine characters that a file
    name must not hold replaced by an underscore; a base name that ends with
    a dot and one of the seven image extensions, in any letter case, keeps
    it, and a base name without a dot gets [.png]. *)
Theorem external_image_name_extension :
  forall basename,
    (forall stem ext,
        In (ascii_lower ext) image_exts -> basename = stem ++ js "." ++ ext ->
        external_image_name basename
        = flat_map replace_invalid stem ++ js "." ++ ext)
    /\ (no_char 46 basename = true ->
        external_image_name basename
        = flat_map replace_invalid basename ++ js ".png").
Proof.
  intros basename. split.
  - intros stem ext Hin ->. unfold external_image_name.
    destruct (image_ext_found stem ext Hin) as [Ht He].
    rewrite Ht, invalid_chars_eq, !flat_map_app, He. reflexivity.
  - intros H. unfold external_image_name, test.
    rewrite (match_first_none rx_image_ext basename (image_ext_led basename H)).
    rewrite invalid_chars_eq, flat_map_app. reflexivity.
Qed.

Lemma external_image_name_extension_witness :
  external_image_name (js "chart:1.png.JPeg") = js "chart_1.png.JPeg"
  /\ external_image_name (js "download") = js "download.png".
Proof.
  split.
  - exact (proj1 (external_image_name_extension (js "chart:1.png.JPeg"))
             (js "chart:1.png") (js "JPeg")
             (or_intror (or_intror (or_introl eq_refl))) eq_refl).
  - exact (proj2 (external_image_name_extension (js "download")) eq_refl).
Defined.

(** ** The sidebar of the generated site ([generateVuePressConfig]) *)

(** A record of [this.pageMap] as [processPage] leaves it: title, path, slug
    and the ids of the child pages. *)
Record sitePage : Type := SitePage {
  site_title : str;
  site_path : str;
  site_slug : str;
  site_children : list str
}.

(** The entries of the map: each key once. *)
Definition siteMap : Type := list (str * sitePage).

(** [this.pageMap.get(pageId)] *)
Fixpoint page_get (pageId : str) (pages : siteMap) : option sitePage :=
  match pages with
  | [] => None
  | (k, v) :: pages' => if str_eqb pageId k then Some v else page_get pageId pages'
  end.

(** The object that [buildSidebar] returns: [text], [link] and, for a page
    with child ids, [children] and [collapsible]. *)
#[warnings="-register-all"]
Inductive sidebar : Type :=
| SidebarItem (text link : str) (children : option (list sidebar))
    (collapsible : option bool).

(** [.filter(Boolean)] over the results of the calls for the children: a
    [null] is dropped; [None] when a call did not return. *)
Fixpoint filter_items (results : list (option (option sidebar)))
    : option (list sidebar) :=
  match results with
  | [] => Some []
  | None :: _ => None
  | Some r :: results' =>
      match filter_items results' with
      | None => None
      | Some items =>
          Some match r with
               | Some item => item :: items
               | None => items
               end
      end
  end.

(** [buildSidebar(pageId)]; [Some None] is [null], [None] is a recursion
    deeper than [fuel]. *)
Fixpoint buildSidebar (fuel : nat) (pages : siteMap) (pageId : str)
    : option (option sidebar) :=
  match fuel with
  | O => None
  | S fuel' =>
      match page_get pageId pages with
      | None => Some None
      | Some page =>
          let text := site_title page in
          let link := js "/" ++ site_path page in
          match site_children page with
          | [] => Some (Some (SidebarItem text link None None))
          | _ :: _ =>
              match filter_items
                      (map (buildSidebar fuel' pages) (site_children page)) with
              | None => None
              | Some children =>
                  Some (Some (SidebarItem text link (Some children) (Some true)))
              end
          end
      end
  end.

(** Text and link of every item of a sidebar, the item first, then those of
    its children in order. *)
Fixpoint entries (s : sidebar) : list (str * str) :=
  match s with
  | SidebarItem text link children _ =>
      (text, link) :: match children with
                      | None => []
                      | Some items => flat_map entries items
                      end
  end.

(** The recorded pages below a page id: the page itself when it is recorded,
    and those below the child ids of a recorded page. *)
Inductive listed (pages : siteMap) : str -> str * str -> Prop :=
| listed_here id page :
    page_get id pages = Some page ->
    listed pages id (site_title page, js "/" ++ site_path page)
| listed_below id page child x :
    page_get id pages = Some page ->
    In child (site_children page) ->
    listed pages child x ->
    listed pages id x.

(** Every child id has a smaller rank than its page: the map holds no cycle
    of child ids. *)
Definition ranked (rank : str -> nat) (pages : siteMap) : bool :=
  forallb (fun p =>
             forallb (fun child => (rank child <? rank (fst p))%nat)
               (site_children (snd p)))
    pages.

Lemma page_get_in id pages page :
  page_get id pages = Some page -> In (id, page) pages.
Proof.
  induction pages as [|[k v] pages IH]; cbn [page_get]; [discriminate|].
  destruct (str_eqb id k) eqn:E.
  - intros [= ->]. apply str_eqb_eq in E. subst k. left. reflexivity.
  - intros H. right. exact (IH H).
Qed.

Lemma ranked_child rank pages id page child :
  ranked rank pages = true ->
  page_get id pages = Some page ->
  In child (site_children page) ->
  (rank child < rank id)%nat.
Proof.
  intros Hr Hg Hc. apply page_get_in in Hg. unfold ranked in Hr.
  rewrite forallb_forall in Hr. specialize (Hr _ Hg). cbn [fst snd] in Hr.
  rewrite forallb_forall in Hr. specialize (Hr _ Hc).
  apply Nat.ltb_lt in Hr. exact Hr.
Qed.

Lemma listed_absent pages id x :
  page_get id pages = None -> ~ listed pages id x.
Proof. intros H L. destruct L; congruence. Qed.

(** The children of an item, from what the calls for the child ids give. *)
Lemma filter_items_listed pages (f : str -> option (option sidebar)) :
  forall ids,
    (forall id, In id ids ->
        match page_get id pages with
        | None => f id = Some None
        | Some _ =>
            exists item, f id = Some (Some item)
                         /\ forall x, In x (entries item) <-> listed pages id x
        end) ->
    exists items,
      filter_items (map f ids) = Some items
      /\ forall x, In x (flat_map entries items)
                   <-> exists id, In id ids /\ listed pages id x.
Proof.
  induction ids as [|id ids IH]; intros H.
  - exists []. split; [reflexivity|]. intros x. cbn [flat_map In]. split.
    + intros [].
    + intros (id & [] & _).
  - destruct IH as (items & E & Hx).
    { intros i Hi. apply H. right. exact Hi. }
    pose proof (H id (or_introl eq_refl)) as Hid.
    cbn [map filter_items]. destruct (page_get id pages) as [page|] eqn:G.
    + destruct Hid as (item & -> & Hitem). rewrite E. exists (item :: items).
      split; [reflexivity|]. intros x. cbn [flat_map]. rewrite in_app_iff. split.
      * intros [Hi | Hi].
        -- exists id. split; [left; reflexivity | apply Hitem; exact Hi].
        -- apply Hx in Hi as (i & Hin & L). exists i. split; [right|]; assumption.
      * intros (i & [<- | Hin] & L).
        -- left. apply Hitem. exact L.
        -- right. apply Hx. exists i. split; assumption.
    + rewrite Hid, E. exists items. split; [reflexivity|]. intros x. split.
      * intros Hi. apply Hx in Hi as (i & Hin & L). exists i.
        split; [right|]; assumption.
      * intros (i & [<- | Hin] & L).
        -- exfalso. exact (listed_absent _ _ _ G L).
        -- apply Hx. exists i. split; assumption.
Qed.

Lemma buildSidebar_listed rank pages :
  ranked rank pages = true ->
  forall fuel id, (rank id < fuel)%nat ->
    match page_get id pages with
    | None => buildSidebar fuel pages id = Some None
    | Some _ =>
        exists item, buildSidebar fuel pages id = Some (Some item)
                     /\ forall x, In x (entries item) <-> listed pages id x
    end.
Proof.
  intros Hr. induction fuel as [|fuel IH]; intros id Hlt; [inversion Hlt|].
  cbn [buildSidebar]. destruct (page_get id pages) as [page|] eqn:G;
    [|reflexivity].
  destruct (site_children page) as [|c cs] eqn:C.
  - eexists. split; [reflexivity|]. intros x. cbn [entries In]. split.
    + intros [<- | []]. apply listed_here. exact G.
    + intros L. destruct L as [i p Gi | i p child y Gi Hc L].
      * left. congruence.
      * assert (p = page) by congruence. subst p. rewrite C in Hc. destruct Hc.
  - rewrite <- C.
    destruct (filter_items_listed pages (buildSidebar fuel pages)
                (site_children page)) as (items & E & Hx).
    { intros i Hi. apply IH.
      pose proof (ranked_child rank pages id page i Hr G Hi). lia. }
    rewrite E. eexists. split; [reflexivity|]. intros x. cbn [entries In].
    rewrite Hx. split.
    + intros [<- | (i & Hi & L)].
      * apply listed_here. exact G.
      * exact (listed_below pages id page i x G Hi L).
    + intros L. destruct L as [i p Gi | i p child y Gi Hc L].
      * left. congruence.
      * assert (p = page) by congruence. subst p. right. exists child.
        split; assumption.
Qed.

Lemma buildSidebar_step fuel pages pageId :
  buildSidebar (S fuel) pages pageId
  = match page_get pageId pages with
    | None => Some None
    | Some page =>
        match site_children page with
        | [] => Some (Some (SidebarItem (site_title page)
                              (js "/" ++ site_path page) None None))
        | _ :: _ =>
            match filter_items
                    (map (buildSidebar fuel pages) (site_children page)) with
            | None => None
            | Some children =>
                Some (Some (SidebarItem (site_title page)
                              (js "/" ++ site_path page)
                              (Some children) (Some true)))
            end
        end
    end.
Proof. reflexivity. Qed.

(** More fuel does not change a result. *)
Lemma buildSidebar_fuel pages : forall fuel id r,
  buildSidebar fuel pages id = Some r ->
  buildSidebar (S fuel) pages id = Some r.
Proof.
  induction fuel as [|fuel IH]; intros id r; [discriminate|].
  intros H. rewrite buildSidebar_step in H. rewrite buildSidebar_step.
  destruct (page_get id pages) as [page|]; [|exact H].
  destruct (site_children page) as [|c cs]; [exact H|].
  revert H. generalize (c :: cs). intros ids.
  assert (M : forall items,
             filter_items (map (buildSidebar fuel pages) ids) = Some items ->
             filter_items (map (buildSidebar (S fuel) pages) ids) = Some items).
  { induction ids as [|i ids IHi]; intros items; [exact (fun H => H)|].
    cbn [map filter_items].
    destruct (buildSidebar fuel pages i) as [ri|] eqn:Ei; [|discriminate].
    rewrite (IH i ri Ei).
    destruct (filter_items (map (buildSidebar fuel pages) ids)) as [its|];
      [|discriminate].
    rewrite (IHi its eq_refl). exact (fun H => H). }
  destruct (filter_items (map (buildSidebar fuel pages) ids)) as [items|];
    [|discriminate].
  rewrite (M items eq_refl). exact (fun H => H).
Qed.

Lemma buildSidebar_more_fuel pages id r : forall fuel more,
  buildSidebar fuel pages id = Some r ->
  buildSidebar (more + fuel) pages id = Some r.
Proof.
  intros fuel more H. induction more as [|more IH]; [exact H|].
  cbn [Nat.add]. apply buildSidebar_fuel. exact IH.
Qed.

(** When the child ids of the map go down a rank (no cycle), the call for a
    recorded page returns one item, the same at every depth of recursion
    above the rank of the page, and the texts and links of the item and of
    the items below it are exactly those of the recorded pages that the
    child ids lead to from the page: a child id without a record is left
    out, and nothing else is. *)
Theorem sidebar_lists_recorded_subtree :
  forall (rank : str -> nat) pages root page,
    ranked rank pages = true ->
    page_get root pages = Some page ->
    exists item,
      (forall fuel, (rank root < fuel)%nat ->
          buildSidebar fuel pages root = Some (Some item))
      /\ (forall x, In x (entries item) <-> listed pages root x).
Proof.
  intros rank pages root page Hr G.
  pose proof (buildSidebar_listed rank pages Hr (S (rank root)) root
                (Nat.lt_succ_diag_r _)) as H.
  rewrite G in H. destruct H as (item & E & Hx). exists item. split.
  - intros fuel Hlt.
    replace fuel with ((fuel - S (rank root)) + S (rank root))%nat by lia.
    apply buildSidebar_more_fuel. exact E.
  - exact Hx.
Qed.

Definition example_site : siteMap :=
  [ (js "1", SitePage (js "Root") (js "root/") (js "root") [js "2"; js "9"; js "3"]);
    (js "2", SitePage (js "Guide") (js "root/guide/") (js "guide") []);
    (js "3", SitePage (js "API") (js "root/api/") (js "api") [js "4"; js "8"]);
    (js "4", SitePage (js "Auth") (js "root/api/auth/") (js "auth") []) ].

Definition example_rank (id : str) : nat :=
  if str_eqb id (js "1") then 2%nat
  else if str_eqb id (js "3") then 1%nat else 0%nat.

Lemma sidebar_lists_recorded_subtree_witness :
  exists item,
    (forall fuel, (example_rank (js "1") < fuel)%nat ->
        buildSidebar fuel example_site (js "1") = Some (Some item))
    /\ (forall x, In x (entries item) <-> listed example_site (js "1") x).
Proof.
  exact (sidebar_lists_recorded_subtree example_rank example_site (js "1")
           (SitePage (js "Root") (js "root/") (js "root") [js "2"; js "9"; js "3"])
           eq_refl eq_refl).
Defined.
